(** * Subtitle machine: the script segmentation pipeline and the session
    document of [server/src/server.js], embedded function by function.

    JavaScript strings are sequences of UTF-16 code units and are modelled
    as [list Z].  Regular expressions are kept as syntax trees and run by a
    backtracking matcher with the priorities of the JavaScript one (leftmost
    start, greedy repetition, first alternative first), so that every
    regular expression of the source is transcribed literally. *)

From Stdlib Require Import String Ascii ZArith Bool Lia Arith List.
Import ListNotations.

Set Implicit Arguments.
Set Warnings "-register-all".

(* ================================================================== *)
(** * JavaScript strings *)
(* ================================================================== *)

Module JsString.

Local Open Scope Z_scope.

(** A string is its list of UTF-16 code units. *)
Definition jstring := list Z.

(** ** Literals: the UTF-8 bytes of a source literal, as code units *)

Fixpoint string_bytes (s : string) : list Z :=
  match s with
  | EmptyString => []
  | String a r => Z.of_nat (nat_of_ascii a) :: string_bytes r
  end.

Fixpoint utf8_codepoints (bs : list Z) : list Z :=
  match bs with
  | [] => []
  | b0 :: r0 =>
    if b0 <? 0x80 then b0 :: utf8_codepoints r0
    else match r0 with
    | [] => []
    | b1 :: r1 =>
      if b0 <? 0xE0
      then ((b0 - 0xC0) * 64 + (b1 - 0x80)) :: utf8_codepoints r1
      else match r1 with
      | [] => []
      | b2 :: r2 =>
        if b0 <? 0xF0
        then ((b0 - 0xE0) * 4096 + (b1 - 0x80) * 64 + (b2 - 0x80))
               :: utf8_codepoints r2
        else match r2 with
        | [] => []
        | b3 :: r3 =>
          ((b0 - 0xF0) * 262144 + (b1 - 0x80) * 4096
             + (b2 - 0x80) * 64 + (b3 - 0x80)) :: utf8_codepoints r3
        end
      end
    end
  end.

Definition utf16_units (cp : Z) : list Z :=
  if cp <? 0x10000 then [cp]
  else [0xD800 + (cp - 0x10000) / 0x400; 0xDC00 + (cp - 0x10000) mod 0x400].

(** [js "..."] is the JavaScript string written by that literal. *)
Definition js (s : string) : jstring :=
  flat_map utf16_units (utf8_codepoints (string_bytes s)).

(** A one-character literal, as a code unit. *)
Definition ch (s : string) : Z := hd 0 (js s).

(** ** Code points (iteration with [for..of], regular expressions with [u]) *)

Definition is_high_surrogate (c : Z) : bool := (0xD800 <=? c) && (c <=? 0xDBFF).
Definition is_low_surrogate (c : Z) : bool := (0xDC00 <=? c) && (c <=? 0xDFFF).
Definition surrogate_pair (h l : Z) : Z :=
  0x10000 + (h - 0xD800) * 0x400 + (l - 0xDC00).

Fixpoint codepoints (s : jstring) : list Z :=
  match s with
  | [] => []
  | c :: r =>
    match r with
    | d :: r' =>
      if is_high_surrogate c && is_low_surrogate d
      then surrogate_pair c d :: codepoints r'
      else c :: codepoints r
    | [] => [c]
    end
  end.

(** ** Equality, search *)

Fixpoint str_eqb (a b : jstring) : bool :=
  match a, b with
  | [], [] => true
  | x :: a', y :: b' => (x =? y) && str_eqb a' b'
  | _, _ => false
  end.

Fixpoint startsWith (p s : jstring) : bool :=
  match p, s with
  | [], _ => true
  | x :: p', y :: s' => (x =? y) && startsWith p' s'
  | _ :: _, [] => false
  end.

Definition endsWith (p s : jstring) : bool := startsWith (rev p) (rev s).

(** [s.includes(p)] *)
Fixpoint includes (p s : jstring) : bool :=
  startsWith p s ||
  match s with
  | [] => false
  | _ :: s' => includes p s'
  end.

(** [s.indexOf(c)] for a one-character needle; -1 when absent. *)
Fixpoint indexOf_from (c : Z) (s : jstring) (i : Z) : Z :=
  match s with
  | [] => -1
  | x :: s' => if x =? c then i else indexOf_from c s' (i + 1)
  end.

Definition indexOf (c : Z) (s : jstring) : Z := indexOf_from c s 0.

(** [s.lastIndexOf(c)], as an optional position. *)
Fixpoint lastIndexOf_from (c : Z) (s : jstring) (i : nat) (acc : option nat)
  : option nat :=
  match s with
  | [] => acc
  | x :: s' =>
    lastIndexOf_from c s' (S i) (if x =? c then Some i else acc)
  end.

Definition lastIndexOf (c : Z) (s : jstring) : option nat :=
  lastIndexOf_from c s 0%nat None.

Definition indexOf_nat (c : Z) (s : jstring) : option nat :=
  let i := indexOf c s in if i <? 0 then None else Some (Z.to_nat i).

(** [s.slice(a, b)] and [s.slice(a)] for in-range non-negative indices. *)
Definition slice (a b : nat) (s : jstring) : jstring :=
  firstn (b - a) (skipn a s).
Definition slice_from (a : nat) (s : jstring) : jstring := skipn a s.

(** [s[i]] *)
Definition charAt (i : nat) (s : jstring) : option Z := nth_error s i.

(** ** White space: [trim] and the class [\s] (WhiteSpace and
    LineTerminator of ECMAScript) *)

Definition is_space (c : Z) : bool :=
  ((9 <=? c) && (c <=? 13)) || (c =? 0x20) || (c =? 0xA0) || (c =? 0x1680)
  || ((0x2000 <=? c) && (c <=? 0x200A)) || (c =? 0x2028) || (c =? 0x2029)
  || (c =? 0x202F) || (c =? 0x205F) || (c =? 0x3000) || (c =? 0xFEFF).

Fixpoint trimStart (s : jstring) : jstring :=
  match s with
  | [] => []
  | c :: r => if is_space c then trimStart r else s
  end.

Definition trimEnd (s : jstring) : jstring := rev (trimStart (rev s)).

Definition trim (s : jstring) : jstring := trimEnd (trimStart s).

(** Truthiness of a string: non-empty. *)
Definition nonempty (s : jstring) : bool :=
  match s with [] => false | _ => true end.

(** [a.join(sep)] *)
Fixpoint join (sep : jstring) (l : list jstring) : jstring :=
  match l with
  | [] => []
  | [x] => x
  | x :: r => x ++ sep ++ join sep r
  end.

End JsString.

Import JsString.

(* ================================================================== *)
(** * Regular expressions *)
(* ================================================================== *)

Module Regex.

Local Open Scope Z_scope.

Inductive regex : Type :=
| Eps
| Chr (p : Z -> bool)          (** a character class *)
| Seq (a b : regex)
| Alt (a b : regex)            (** [a|b] *)
| Star (a : regex)             (** greedy [a*] *)
| Eol.                         (** [$] (no [m] flag) *)

Definition Plus (a : regex) : regex := Seq a (Star a).
Definition Opt (a : regex) : regex := Alt a Eps.

(** Character classes. *)
Definition oneOf (set : jstring) (c : Z) : bool := existsb (Z.eqb c) set.
Definition noneOf (set : jstring) (c : Z) : bool := negb (oneOf set c).

(** [.] matches everything but the line terminators. *)
Definition dot (c : Z) : bool :=
  negb ((c =? 10) || (c =? 13) || (c =? 0x2028) || (c =? 0x2029)).

(** A literal string. *)
Fixpoint Lit (s : jstring) : regex :=
  match s with
  | [] => Eps
  | c :: r => Seq (Chr (Z.eqb c)) (Lit r)
  end.

(** [(k1|k2|...)] for literal alternatives. *)
Fixpoint AltLits (ks : list jstring) : regex :=
  match ks with
  | [] => Chr (fun _ => false)
  | [k] => Lit k
  | k :: r => Alt (Lit k) (AltLits r)
  end.

(** The next character: a code unit, or with the [u] flag a code point. *)
Definition next_char (u : bool) (s : jstring) : option (Z * jstring) :=
  match s with
  | [] => None
  | c :: r =>
    match r with
    | d :: r' =>
      if u && is_high_surrogate c && is_low_surrogate d
      then Some (surrogate_pair c d, r')
      else Some (c, r)
    | [] => Some (c, r)
    end
  end.

(** Backtracking matcher in continuation-passing style: [rx u r s k] tries
    the ways [r] matches a prefix of [s] in priority order and returns the
    first answer of [k] on the rest.  An iteration of [Star] that consumes
    nothing is refused, as in ECMAScript. *)
Fixpoint rx (u : bool) (r : regex) (s : jstring)
    (k : jstring -> option jstring) {struct r} : option jstring :=
  match r with
  | Eps => k s
  | Chr p =>
    match next_char u s with
    | Some (c, s') => if p c then k s' else None
    | None => None
    end
  | Seq a b => rx u a s (fun s' => rx u b s' k)
  | Alt a b =>
    match rx u a s k with
    | Some x => Some x
    | None => rx u b s k
    end
  | Star a =>
    (fix star (n : nat) (s : jstring) {struct n} : option jstring :=
       match n with
       | O => k s
       | S n' =>
         match rx u a s (fun s' =>
                 if (length s' <? length s)%nat then star n' s' else None) with
         | Some x => Some x
         | None => k s
         end
       end) (length s) s
  | Eol => match s with [] => k s | _ :: _ => None end
  end.

(** A regular expression literal: a leading [^], the [u] flag, the body.
    The [g] flag is in the operation used ([replace_all], [match_all]). *)
Record RegExp := mkRegExp { anchored : bool; unicode : bool; body : regex }.

Definition re (r : regex) : RegExp := mkRegExp false false r.      (* /r/ *)
Definition re_u (r : regex) : RegExp := mkRegExp false true r.     (* /r/u *)
Definition re_bol (r : regex) : RegExp := mkRegExp true false r.   (* /^r/ *)
Definition re_bol_u (r : regex) : RegExp := mkRegExp true true r.  (* /^r/u *)

(** The match at the start of [s]: the text matched and the rest. *)
Definition match_here (e : RegExp) (s : jstring) : option (jstring * jstring) :=
  match rx (unicode e) (body e) s Some with
  | Some rest => Some (firstn (length s - length rest) s, rest)
  | None => None
  end.

(** Leftmost match: the text before it, the match, the rest. *)
Fixpoint scan (e : RegExp) (pre : jstring) (s : jstring) {struct s}
  : option (jstring * jstring * jstring) :=
  match match_here e s with
  | Some (m, rest) => Some (rev pre, m, rest)
  | None =>
    match s with
    | [] => None
    | c :: r =>
      match r with
      | d :: r' =>
        if unicode e && is_high_surrogate c && is_low_surrogate d
        then scan e (d :: c :: pre) r'
        else scan e (c :: pre) r
      | [] => scan e (c :: pre) r
      end
    end
  end.

Definition exec (e : RegExp) (s : jstring)
  : option (jstring * jstring * jstring) :=
  if anchored e
  then match match_here e s with
       | Some (m, rest) => Some ([], m, rest)
       | None => None
       end
  else scan e [] s.

(** [re.test(s)] *)
Definition test (e : RegExp) (s : jstring) : bool :=
  match exec e s with Some _ => true | None => false end.

(** [s.replace(re, rep)] without the [g] flag. *)
Definition replace_first (e : RegExp) (rep : jstring) (s : jstring) : jstring :=
  match exec e s with
  | Some (pre, _, rest) => pre ++ rep ++ rest
  | None => s
  end.

(** All matches of a [g] regular expression, left to right: for each one the
    text between the previous match and it, and the match; then the text
    after the last match.  After an empty match the search resumes one
    character further. *)
Definition shift_gap (c : Z) (r : list (jstring * jstring) * jstring)
  : list (jstring * jstring) * jstring :=
  match r with
  | ([], tail) => ([], c :: tail)
  | ((gap, m) :: l, tail) => ((c :: gap, m) :: l, tail)
  end.

Fixpoint segments (fuel : nat) (e : RegExp) (s : jstring)
  : list (jstring * jstring) * jstring :=
  match fuel with
  | O => ([], s)
  | S f =>
    match exec e s with
    | None => ([], s)
    | Some (pre, m, rest) =>
      match m with
      | _ :: _ => let (l, tail) := segments f e rest in ((pre, m) :: l, tail)
      | [] =>
        match rest with
        | [] => ([(pre, [])], [])
        | c :: rest' =>
          let (l, tail) := shift_gap c (segments f e rest') in
          ((pre, []) :: l, tail)
        end
      end
    end
  end.

Definition all_segments (e : RegExp) (s : jstring) :=
  segments (S (length s)) e s.

(** [s.match(re)] with the [g] flag: [None] is JavaScript's [null]. *)
Definition match_all (e : RegExp) (s : jstring) : option (list jstring) :=
  match fst (all_segments e s) with
  | [] => None
  | l => Some (map snd l)
  end.

(** [s.replace(re, rep)] with the [g] flag. *)
Definition replace_all (e : RegExp) (rep : jstring) (s : jstring) : jstring :=
  let (l, tail) := all_segments e s in
  flat_map (fun gm => fst gm ++ rep) l ++ tail.

(** [s.split(re)] for a regular expression that matches no empty string. *)
Definition split (e : RegExp) (s : jstring) : list jstring :=
  let (l, tail) := all_segments e s in
  map fst l ++ [tail].

End Regex.

Import Regex.


(* ================================================================== *)
(** * Values and subtitle lines *)
(* ================================================================== *)

Module Model.

Local Open Scope Z_scope.

(** JSON values, as [JSON.parse] and the request bodies deliver them.  A
    number is kept as the text [String(n)] gives for it, the only use the
    pipeline makes of a number.  The fields of an object are its own
    properties, under distinct keys. *)
Inductive json : Type :=
| JNull
| JBool (b : bool)
| JNum (shown : jstring)
| JStr (s : jstring)
| JArr (items : list json)
| JObj (fields : list (jstring * json)).

(** [o.k]: [None] is [undefined]. *)
Fixpoint lookup_field (k : jstring) (fields : list (jstring * json))
  : option json :=
  match fields with
  | [] => None
  | (k', v) :: r => if str_eqb k k' then Some v else lookup_field k r
  end.

(** [String(v)]; [None] is the [TypeError] the conversion throws.  An object
    converts through its [toString]: the inherited one gives
    [[object Object]]; a property [toString] of its own, which in a value
    read from JSON is never a function, hides it, the inherited [valueOf]
    then returns the object itself, and the conversion throws.  An array
    joins the conversions of its items with commas, [null] giving the empty
    text. *)
Fixpoint js_String (v : json) : option jstring :=
  match v with
  | JNull => Some (js "null")
  | JBool true => Some (js "true")
  | JBool false => Some (js "false")
  | JNum shown => Some shown
  | JStr s => Some s
  | JArr items =>
    (fix join_items (l : list json) : option jstring :=
       match l with
       | [] => Some []
       | x :: r =>
         match match x with JNull => Some [] | _ => js_String x end with
         | None => None
         | Some sx =>
           match r with
           | [] => Some sx
           | _ :: _ =>
             match join_items r with
             | None => None
             | Some sr => Some (sx ++ js "," ++ sr)
             end
           end
         end
       end) items
  | JObj fields =>
    match lookup_field (js "toString") fields with
    | Some _ => None
    | None => Some (js "[object Object]")
    end
  end.

(** What a function returns, or the [code] of the error it throws ([None]
    for an error without code, such as a [TypeError]). *)
Inductive result (A : Type) : Type :=
| Ok (a : A)
| Throw (code : option jstring).
Arguments Ok {A} a.
Arguments Throw {A} code.

Definition prop (k : string) (v : json) : option json :=
  match v with
  | JObj fields => lookup_field (js k) fields
  | _ => None
  end.

(** [a ?? b] *)
Definition nullish (a : option json) (b : option json) : option json :=
  match a with
  | None | Some JNull => b
  | Some v => Some v
  end.

Inductive LineType : Type := dialogue | direction.

Definition LineType_eqb (a b : LineType) : bool :=
  match a, b with
  | dialogue, dialogue | direction, direction => true
  | _, _ => false
  end.

(** [LINE_TYPES] *)
Definition LINE_TYPES_name (t : LineType) : jstring :=
  match t with
  | dialogue => js "dialogue"
  | direction => js "direction"
  end.

(** [SubtitleLine]: [{ text, type }] *)
Record Line : Type := mkLine { text : jstring; type : LineType }.

Definition MAX_LINE_LENGTH : nat := 20.
Definition MAX_CHUNK_LENGTH : nat := 2500.

Definition fallbackCodes : list jstring :=
  [ js "INVALID_LLM_OUTPUT"; js "PLACEHOLDER_OUTPUT"; js "INVALID_JSON";
    js "MISSING_OUTPUT"; js "EMPTY_OUTPUT" ].

(** [fallbackCodes.has(error?.code)]: an error code is a string or absent. *)
Definition fallbackCodes_has (code : option jstring) : bool :=
  match code with
  | Some c => existsb (str_eqb c) fallbackCodes
  | None => false
  end.

(** [s.toLowerCase()], on the letters that can lower to an ASCII word. *)
Definition toLowerCase (s : jstring) : jstring :=
  map (fun c => if (0x41 <=? c) && (c <=? 0x5A) then c + 0x20 else c) s.

(** [clampLineType(rawType)]: [None] when [rawType] is not a string
    ([rawType] itself [None]) or names no line type. *)
Definition clampLineType (rawType : option jstring) : option LineType :=
  match rawType with
  | None => None
  | Some raw =>
    let normalized := toLowerCase raw in
    if str_eqb normalized (LINE_TYPES_name dialogue) then Some dialogue
    else if str_eqb normalized (LINE_TYPES_name direction) then Some direction
    else None
  end.

Definition as_string (v : option json) : option jstring :=
  match v with
  | Some (JStr s) => Some s
  | _ => None
  end.

(** [stripBom(text)] *)
Definition stripBom (text : jstring) : jstring :=
  match text with
  | [] => []
  | c :: r => if c =? 0xFEFF then r else text
  end.

(** [/\r?\n/g] *)
Definition re_newline : RegExp :=
  re (Seq (Opt (Chr (Z.eqb 13))) (Chr (Z.eqb 10))).

(** [sanitizeLineText(text)] for a string. *)
Definition sanitizeLineText (text : jstring) : jstring :=
  trim (replace_all re_newline (js " ") (stripBom text)).

(** The conversion [sanitizeLineText] applies to a value that is not a
    string: [text == null ? '' : String(text)]; [None] when it throws. *)
Definition text_of_value (v : option json) : option jstring :=
  match v with
  | None | Some JNull => Some []
  | Some x => js_String x
  end.

(* ================================================================== *)
(** * Heuristic classifier *)
(* ================================================================== *)

Definition opening_brackets : jstring := js "（(【《〈「『[{".
Definition closing_brackets : jstring := js "）)】》〉」』]}".
Definition sentence_end : jstring := js "。！？!?".

(** [/^[（(【《〈「『\[{]+.*[）)】》〉」』\]}]+$/] *)
Definition bracketPattern : RegExp :=
  re_bol (Seq (Plus (Chr (oneOf opening_brackets)))
         (Seq (Star (Chr dot))
         (Seq (Plus (Chr (oneOf closing_brackets))) Eol))).

Definition startsWithKeyword_words : list jstring :=
  [ js "舞台"; js "燈光"; js "音效"; js "鼓聲"; js "掌聲"; js "旁白";
    js "全場"; js "幕前"; js "幕後"; js "場景"; js "轉場"; js "黑場";
    js "環境音"; js "所有人"; js "眾人"; js "合唱"; js "群眾"; js "燈暗";
    js "燈亮"; js "黑燈"; js "大合唱"; js "音樂"; js "序曲"; js "旁白聲" ].

Definition startsWithKeyword : RegExp := re_bol (AltLits startsWithKeyword_words).

Definition shortKeywords_words : list jstring :=
  [ js "舞台"; js "燈光"; js "音效"; js "暗"; js "靜場"; js "沉默";
    js "鼓聲"; js "掌聲"; js "開燈"; js "滅燈"; js "移動"; js "進場";
    js "退場"; js "轉身" ].

Definition shortKeywords : RegExp := re (AltLits shortKeywords_words).

Definition directionKeywords : list jstring :=
  [ js "舞台"; js "燈光"; js "音效"; js "鼓聲"; js "掌聲"; js "黑場";
    js "轉場"; js "幕"; js "暗"; js "亮"; js "靜"; js "沉默"; js "旁白";
    js "群眾"; js "合唱"; js "環境音"; js "音樂"; js "奏起"; js "響起";
    js "舞者"; js "演員"; js "走向"; js "退場"; js "進場"; js "登場";
    js "起身"; js "坐下"; js "站起"; js "看向"; js "抱住"; js "摟住";
    js "移動"; js "轉向"; js "指向"; js "望向"; js "停頓" ].

Definition wrappedKeyword_words : list jstring :=
  [ js "舞台"; js "燈光"; js "音效"; js "鼓聲"; js "掌聲"; js "旁白";
    js "全場"; js "眾人"; js "合唱"; js "群眾"; js "黑場"; js "轉場";
    js "燈暗"; js "燈亮"; js "黑燈"; js "音樂"; js "序曲"; js "旁白聲";
    js "幕前"; js "幕後" ].

Definition speaker_words : list jstring :=
  [ js "舞台"; js "燈光"; js "音效"; js "鼓聲"; js "掌聲"; js "音樂" ].

Definition movement_words : list jstring :=
  [ js "向"; js "朝"; js "緩緩"; js "慢慢"; js "看著"; js "走向";
    js "退後"; js "收起"; js "拿起"; js "放下"; js "起身"; js "坐下";
    js "站起"; js "抱住"; js "走上"; js "走下"; js "握住" ].

(** The quotation and bracket marks taken out before keywords are counted
    (the class of the [replace] that builds [normalized]); the last one
    is the ASCII double quote. *)
Definition stripped_marks : jstring := js "「」『』“”'[]【】（）()" ++ [0x22].

(** The quotation marks of the test before the keyword-density rule; the
    last one is the ASCII double quote. *)
Definition quotation_marks : jstring := js "「」『』“”" ++ [0x22].

Definition ends_with_sentence_end : RegExp :=
  re (Seq (Chr (oneOf sentence_end)) Eol).                 (* /[。！？!?]$/ *)
Definition has_sentence_end : RegExp :=
  re (Chr (oneOf sentence_end)).                           (* /[。！？!?]/ *)
Definition has_colon : RegExp :=
  re (Alt (Lit (js ":")) (Lit (js "："))).                  (* /:|：/ *)

(** [isLikelyDirection(text)] *)
Definition isLikelyDirection (text : jstring) : bool :=
  let trimmed := sanitizeLineText text in
  if negb (nonempty trimmed) then false else
  let isBracketWrapped := test bracketPattern trimmed in
  let innerBracketText :=
    if isBracketWrapped
    then trim (replace_first (re (Seq (Plus (Chr (oneOf closing_brackets))) Eol)) []
               (replace_first (re_bol (Plus (Chr (oneOf opening_brackets)))) []
                  trimmed))
    else [] in
  let keywordTarget := if nonempty innerBracketText then innerBracketText else trimmed in
  if test startsWithKeyword trimmed then true else
  if negb (test ends_with_sentence_end trimmed)
     && (length trimmed <=? 16)%nat
     && test shortKeywords trimmed then true else
  let normalized := replace_all (re (Chr (oneOf stripped_marks))) [] keywordTarget in
  let keywordHits :=
    fold_left (fun count keyword =>
                 if includes keyword normalized then (count + 1)%nat else count)
              directionKeywords 0%nat in
  if isBracketWrapped then
    (1 <=? keywordHits)%nat
    || test (re_bol_u (Seq (AltLits wrappedKeyword_words) Eol)) keywordTarget
  else
  if negb (test (re (Chr (oneOf quotation_marks))) trimmed)
     && (2 <=? keywordHits)%nat then true else
  let colonIndex := Z.max (indexOf (ch "：") trimmed) (indexOf (ch ":") trimmed) in
  if (-1 <? colonIndex) && (colonIndex <=? 6) then
    let speaker := slice 0 (Z.to_nat colonIndex) trimmed in
    test (re (AltLits speaker_words)) speaker
  else
  if (1 <=? keywordHits)%nat
     && negb (test has_sentence_end trimmed)
     && (length trimmed <=? 24)%nat
     && negb (test has_colon trimmed) then true else
  if negb (test has_sentence_end trimmed)
     && test (re (AltLits movement_words)) trimmed then true else
  false.

Definition classify (text : jstring) : LineType :=
  if isLikelyDirection text then direction else dialogue.


(* ================================================================== *)
(** * Post-processor *)
(* ================================================================== *)

(** The object a stored line is, when it is read back as an entry. *)
Definition entry_of_line (l : Line) : json :=
  JObj [ (js "text", JStr (text l)); (js "type", JStr (LINE_TYPES_name (type l))) ].

(** [normalizeLineEntry(entry, keepEmpty)]; [entry] is [None] for
    [undefined], the result is [None] for [null].  The call throws when
    the text of an object entry is a value that [sanitizeLineText] cannot
    convert. *)
Definition normalizeLineEntry (entry : option json) (keepEmpty : bool)
  : result (option Line) :=
  match entry with
  | None | Some JNull => Ok None
  | Some (JStr s) =>
    let text := sanitizeLineText s in
    if negb (nonempty text)
    then (if keepEmpty then Ok (Some (mkLine [] dialogue)) else Ok None)
    else Ok (Some (mkLine text (classify text)))
  | Some ((JObj _ | JArr _) as e) =>
    match text_of_value
            (nullish (prop "text" e)
               (nullish (prop "line" e)
                  (nullish (prop "caption" e) (Some (JStr []))))) with
    | None => Throw None
    | Some converted =>
      let text := sanitizeLineText converted in
      if negb (nonempty text) && negb keepEmpty then Ok None else
      let rawType :=
        clampLineType
          (as_string
             (nullish (prop "type" e)
                (nullish (prop "kind" e)
                   (nullish (prop "category" e) (Some (JStr [])))))) in
      let type :=
        match rawType with
        | Some t => t
        | None => classify text
        end in
      Ok (Some (mkLine text type))
    end
  | Some (JBool _ | JNum _) => Ok None
  end.

(** [/[\s　，,。．\.、！!？?:：；;（(【「『《〈]$/] and
    [/^[\s　，,。．\.、！!？?:：；;）)】」』》〉]/] *)
Definition ends_open : RegExp :=
  re (Seq (Chr (fun c => is_space c
                 || oneOf (js "，,。．.、！!？?:：；;（(【「『《〈") c)) Eol).
Definition starts_closed : RegExp :=
  re_bol (Chr (fun c => is_space c
                 || oneOf (js "，,。．.、！!？?:：；;）)】」』》〉") c)).

(** A bracketed aside [o[^c]*c]. *)
Definition Aside (o c : string) : regex :=
  Seq (Chr (Z.eqb (ch o)))
      (Seq (Star (Chr (fun x => negb (x =? ch c)))) (Chr (Z.eqb (ch c)))).

(** [/（[^）]*）|\([^)]*\)|【[^】]*】|［[^］]*］|〈[^〉]*〉|《[^》]*》/g] *)
Definition aside_pattern : RegExp :=
  re (Alt (Aside "（" "）") (Alt (Aside "(" ")") (Alt (Aside "【" "】")
     (Alt (Aside "［" "］") (Alt (Aside "〈" "〉") (Aside "《" "》")))))).

(** [pushSegment(rawText, type)]; the segments are kept last one first. *)
Definition pushSegment (segments : list Line) (rawText : jstring)
    (type : LineType) : list Line :=
  let sanitized := sanitizeLineText rawText in
  if negb (nonempty sanitized) then segments else
  match type, segments with
  | dialogue, mkLine previous_text dialogue :: before =>
    let needsLeadingSpace :=
      if test ends_open previous_text || test starts_closed sanitized
      then [] else js " " in
    mkLine (trim (previous_text ++ needsLeadingSpace ++ sanitized)) dialogue
      :: before
  | _, _ => mkLine sanitized type :: segments
  end.

(** [expandStageDirectionSegments(entry)] *)
Definition expandStageDirectionSegments (entry : Line) : list Line :=
  if negb (nonempty (text entry)) then [] else
  match type entry with
  | direction => [entry]
  | dialogue =>
    let (found, tail) := all_segments aside_pattern (text entry) in
    let segments :=
      fold_left
        (fun segments gm =>
           let directiveRaw := snd gm in
           pushSegment (pushSegment segments (fst gm) dialogue)
                       directiveRaw (classify directiveRaw))
        found [] in
    let segments := pushSegment segments tail dialogue in
    match segments with
    | [] => [entry]
    | _ :: _ => rev segments
    end
  end.

(** Unicode general categories P and S (Unicode 14), as code point ranges:
    the class [[\p{P}\p{S}]]. *)
Definition punctuation_symbol_ranges : list (Z * Z) :=
  [ (0x21, 0x2F); (0x3A, 0x40); (0x5B, 0x60); (0x7B, 0x7E); (0xA1, 0xA9);
    (0xAB, 0xAC); (0xAE, 0xB1); (0xB4, 0xB4); (0xB6, 0xB8); (0xBB, 0xBB);
    (0xBF, 0xBF); (0xD7, 0xD7); (0xF7, 0xF7); (0x2C2, 0x2C5); (0x2D2, 0x2DF);
    (0x2E5, 0x2EB); (0x2ED, 0x2ED); (0x2EF, 0x2FF); (0x375, 0x375);
    (0x37E, 0x37E); (0x384, 0x385); (0x387, 0x387); (0x3F6, 0x3F6);
    (0x482, 0x482); (0x55A, 0x55F); (0x589, 0x58A); (0x58D, 0x58F);
    (0x5BE, 0x5BE); (0x5C0, 0x5C0); (0x5C3, 0x5C3); (0x5C6, 0x5C6);
    (0x5F3, 0x5F4); (0x606, 0x60F); (0x61B, 0x61B); (0x61D, 0x61F);
    (0x66A, 0x66D); (0x6D4, 0x6D4); (0x6DE, 0x6DE); (0x6E9, 0x6E9);
    (0x6FD, 0x6FE); (0x700, 0x70D); (0x7F6, 0x7F9); (0x7FE, 0x7FF);
    (0x830, 0x83E); (0x85E, 0x85E); (0x888, 0x888); (0x964, 0x965);
    (0x970, 0x970); (0x9F2, 0x9F3); (0x9FA, 0x9FB); (0x9FD, 0x9FD);
    (0xA76, 0xA76); (0xAF0, 0xAF1); (0xB70, 0xB70); (0xBF3, 0xBFA);
    (0xC77, 0xC77); (0xC7F, 0xC7F); (0xC84, 0xC84); (0xD4F, 0xD4F);
    (0xD79, 0xD79); (0xDF4, 0xDF4); (0xE3F, 0xE3F); (0xE4F, 0xE4F);
    (0xE5A, 0xE5B); (0xF01, 0xF17); (0xF1A, 0xF1F); (0xF34, 0xF34);
    (0xF36, 0xF36); (0xF38, 0xF38); (0xF3A, 0xF3D); (0xF85, 0xF85);
    (0xFBE, 0xFC5); (0xFC7, 0xFCC); (0xFCE, 0xFDA); (0x104A, 0x104F);
    (0x109E, 0x109F); (0x10FB, 0x10FB); (0x1360, 0x1368); (0x1390, 0x1399);
    (0x1400, 0x1400); (0x166D, 0x166E); (0x169B, 0x169C); (0x16EB, 0x16ED);
    (0x1735, 0x1736); (0x17D4, 0x17D6); (0x17D8, 0x17DB); (0x1800, 0x180A);
    (0x1940, 0x1940); (0x1944, 0x1945); (0x19DE, 0x19FF); (0x1A1E, 0x1A1F);
    (0x1AA0, 0x1AA6); (0x1AA8, 0x1AAD); (0x1B5A, 0x1B6A); (0x1B74, 0x1B7E);
    (0x1BFC, 0x1BFF); (0x1C3B, 0x1C3F); (0x1C7E, 0x1C7F); (0x1CC0, 0x1CC7);
    (0x1CD3, 0x1CD3); (0x1FBD, 0x1FBD); (0x1FBF, 0x1FC1); (0x1FCD, 0x1FCF);
    (0x1FDD, 0x1FDF); (0x1FED, 0x1FEF); (0x1FFD, 0x1FFE); (0x2010, 0x2027);
    (0x2030, 0x205E); (0x207A, 0x207E); (0x208A, 0x208E); (0x20A0, 0x20C0);
    (0x2100, 0x2101); (0x2103, 0x2106); (0x2108, 0x2109); (0x2114, 0x2114);
    (0x2116, 0x2118); (0x211E, 0x2123); (0x2125, 0x2125); (0x2127, 0x2127);
    (0x2129, 0x2129); (0x212E, 0x212E); (0x213A, 0x213B); (0x2140, 0x2144);
    (0x214A, 0x214D); (0x214F, 0x214F); (0x218A, 0x218B); (0x2190, 0x2426);
    (0x2440, 0x244A); (0x249C, 0x24E9); (0x2500, 0x2775); (0x2794, 0x2B73);
    (0x2B76, 0x2B95); (0x2B97, 0x2BFF); (0x2CE5, 0x2CEA); (0x2CF9, 0x2CFC);
    (0x2CFE, 0x2CFF); (0x2D70, 0x2D70); (0x2E00, 0x2E2E); (0x2E30, 0x2E5D);
    (0x2E80, 0x2E99); (0x2E9B, 0x2EF3); (0x2F00, 0x2FD5); (0x2FF0, 0x2FFB);
    (0x3001, 0x3004); (0x3008, 0x3020); (0x3030, 0x3030); (0x3036, 0x3037);
    (0x303D, 0x303F); (0x309B, 0x309C); (0x30A0, 0x30A0); (0x30FB, 0x30FB);
    (0x3190, 0x3191); (0x3196, 0x319F); (0x31C0, 0x31E3); (0x3200, 0x321E);
    (0x322A, 0x3247); (0x3250, 0x3250); (0x3260, 0x327F); (0x328A, 0x32B0);
    (0x32C0, 0x33FF); (0x4DC0, 0x4DFF); (0xA490, 0xA4C6); (0xA4FE, 0xA4FF);
    (0xA60D, 0xA60F); (0xA673, 0xA673); (0xA67E, 0xA67E); (0xA6F2, 0xA6F7);
    (0xA700, 0xA716); (0xA720, 0xA721); (0xA789, 0xA78A); (0xA828, 0xA82B);
    (0xA836, 0xA839); (0xA874, 0xA877); (0xA8CE, 0xA8CF); (0xA8F8, 0xA8FA);
    (0xA8FC, 0xA8FC); (0xA92E, 0xA92F); (0xA95F, 0xA95F); (0xA9C1, 0xA9CD);
    (0xA9DE, 0xA9DF); (0xAA5C, 0xAA5F); (0xAA77, 0xAA79); (0xAADE, 0xAADF);
    (0xAAF0, 0xAAF1); (0xAB5B, 0xAB5B); (0xAB6A, 0xAB6B); (0xABEB, 0xABEB);
    (0xFB29, 0xFB29); (0xFBB2, 0xFBC2); (0xFD3E, 0xFD4F); (0xFDCF, 0xFDCF);
    (0xFDFC, 0xFDFF); (0xFE10, 0xFE19); (0xFE30, 0xFE52); (0xFE54, 0xFE66);
    (0xFE68, 0xFE6B); (0xFF01, 0xFF0F); (0xFF1A, 0xFF20); (0xFF3B, 0xFF40);
    (0xFF5B, 0xFF65); (0xFFE0, 0xFFE6); (0xFFE8, 0xFFEE); (0xFFFC, 0xFFFD);
    (0x10100, 0x10102); (0x10137, 0x1013F); (0x10179, 0x10189);
    (0x1018C, 0x1018E); (0x10190, 0x1019C); (0x101A0, 0x101A0);
    (0x101D0, 0x101FC); (0x1039F, 0x1039F); (0x103D0, 0x103D0);
    (0x1056F, 0x1056F); (0x10857, 0x10857); (0x10877, 0x10878);
    (0x1091F, 0x1091F); (0x1093F, 0x1093F); (0x10A50, 0x10A58);
    (0x10A7F, 0x10A7F); (0x10AC8, 0x10AC8); (0x10AF0, 0x10AF6);
    (0x10B39, 0x10B3F); (0x10B99, 0x10B9C); (0x10EAD, 0x10EAD);
    (0x10F55, 0x10F59); (0x10F86, 0x10F89); (0x11047, 0x1104D);
    (0x110BB, 0x110BC); (0x110BE, 0x110C1); (0x11140, 0x11143);
    (0x11174, 0x11175); (0x111C5, 0x111C8); (0x111CD, 0x111CD);
    (0x111DB, 0x111DB); (0x111DD, 0x111DF); (0x11238, 0x1123D);
    (0x112A9, 0x112A9); (0x1144B, 0x1144F); (0x1145A, 0x1145B);
    (0x1145D, 0x1145D); (0x114C6, 0x114C6); (0x115C1, 0x115D7);
    (0x11641, 0x11643); (0x11660, 0x1166C); (0x116B9, 0x116B9);
    (0x1173C, 0x1173F); (0x1183B, 0x1183B); (0x11944, 0x11946);
    (0x119E2, 0x119E2); (0x11A3F, 0x11A46); (0x11A9A, 0x11A9C);
    (0x11A9E, 0x11AA2); (0x11C41, 0x11C45); (0x11C70, 0x11C71);
    (0x11EF7, 0x11EF8); (0x11FD5, 0x11FF1); (0x11FFF, 0x11FFF);
    (0x12470, 0x12474); (0x12FF1, 0x12FF2); (0x16A6E, 0x16A6F);
    (0x16AF5, 0x16AF5); (0x16B37, 0x16B3F); (0x16B44, 0x16B45);
    (0x16E97, 0x16E9A); (0x16FE2, 0x16FE2); (0x1BC9C, 0x1BC9C);
    (0x1BC9F, 0x1BC9F); (0x1CF50, 0x1CFC3); (0x1D000, 0x1D0F5);
    (0x1D100, 0x1D126); (0x1D129, 0x1D164); (0x1D16A, 0x1D16C);
    (0x1D183, 0x1D184); (0x1D18C, 0x1D1A9); (0x1D1AE, 0x1D1EA);
    (0x1D200, 0x1D241); (0x1D245, 0x1D245); (0x1D300, 0x1D356);
    (0x1D6C1, 0x1D6C1); (0x1D6DB, 0x1D6DB); (0x1D6FB, 0x1D6FB);
    (0x1D715, 0x1D715); (0x1D735, 0x1D735); (0x1D74F, 0x1D74F);
    (0x1D76F, 0x1D76F); (0x1D789, 0x1D789); (0x1D7A9, 0x1D7A9);
    (0x1D7C3, 0x1D7C3); (0x1D800, 0x1D9FF); (0x1DA37, 0x1DA3A);
    (0x1DA6D, 0x1DA74); (0x1DA76, 0x1DA83); (0x1DA85, 0x1DA8B);
    (0x1E14F, 0x1E14F); (0x1E2FF, 0x1E2FF); (0x1E95E, 0x1E95F);
    (0x1ECAC, 0x1ECAC); (0x1ECB0, 0x1ECB0); (0x1ED2E, 0x1ED2E);
    (0x1EEF0, 0x1EEF1); (0x1F000, 0x1F02B); (0x1F030, 0x1F093);
    (0x1F0A0, 0x1F0AE); (0x1F0B1, 0x1F0BF); (0x1F0C1, 0x1F0CF);
    (0x1F0D1, 0x1F0F5); (0x1F10D, 0x1F1AD); (0x1F1E6, 0x1F202);
    (0x1F210, 0x1F23B); (0x1F240, 0x1F248); (0x1F250, 0x1F251);
    (0x1F260, 0x1F265); (0x1F300, 0x1F6D7); (0x1F6DD, 0x1F6EC);
    (0x1F6F0, 0x1F6FC); (0x1F700, 0x1F773); (0x1F780, 0x1F7D8);
    (0x1F7E0, 0x1F7EB); (0x1F7F0, 0x1F7F0); (0x1F800, 0x1F80B);
    (0x1F810, 0x1F847); (0x1F850, 0x1F859); (0x1F860, 0x1F887);
    (0x1F890, 0x1F8AD); (0x1F8B0, 0x1F8B1); (0x1F900, 0x1FA53);
    (0x1FA60, 0x1FA6D); (0x1FA70, 0x1FA74); (0x1FA78, 0x1FA7C);
    (0x1FA80, 0x1FA86); (0x1FA90, 0x1FAAC); (0x1FAB0, 0x1FABA);
    (0x1FAC0, 0x1FAC5); (0x1FAD0, 0x1FAD9); (0x1FAE0, 0x1FAE7);
    (0x1FAF0, 0x1FAF6); (0x1FB00, 0x1FB92); (0x1FB94, 0x1FBCA) ].

Definition is_punctuation_or_symbol (c : Z) : bool :=
  existsb (fun r => (fst r <=? c) && (c <=? snd r)) punctuation_symbol_ranges.

(** [s.replace(/[\p{P}\p{S}]/gu, '')] *)
Definition strip_punctuation (s : jstring) : jstring :=
  replace_all (re_u (Chr is_punctuation_or_symbol)) [] s.

(** [/^[」』》〉\]\)}]+/] and [/[「『《〈\[\(]+$/] *)
Definition stray_closing : RegExp :=
  re_bol (Plus (Chr (oneOf (js "」』》〉])}")))).
Definition stray_opening : RegExp :=
  re (Seq (Plus (Chr (oneOf (js "「『《〈[(")))) Eol).

(** The cleaning of one expanded item in [normalizeScriptLines]. *)
Definition clean_item (keepEmpty : bool) (item : Line) : list Line :=
  let text := sanitizeLineText (text item) in
  if negb (nonempty text)
  then (if keepEmpty then [mkLine [] (type item)] else [])
  else
    let cleanedText :=
      trim (replace_first stray_opening []
              (replace_first stray_closing [] text)) in
    if negb (nonempty cleanedText) && negb keepEmpty then [] else
    if negb (nonempty (trim (strip_punctuation cleanedText))) && negb keepEmpty
    then []
    else [mkLine cleanedText (type item)].

(** What [normalizeScriptLines] pushes for one entry. *)
Definition normalize_entry (keepEmpty : bool) (entry : json)
  : result (list Line) :=
  match normalizeLineEntry (Some entry) keepEmpty with
  | Throw code => Throw code
  | Ok None => Ok []
  | Ok (Some base) =>
    if negb (nonempty (text base))
    then (if keepEmpty then Ok [mkLine [] (type base)] else Ok [])
    else Ok (flat_map (clean_item keepEmpty) (expandStageDirectionSegments base))
  end.

(** The [entries.forEach] of [normalizeScriptLines]: what is pushed for the
    entries, in their order; an entry that throws ends the call. *)
Fixpoint normalize_entries (keepEmpty : bool) (entries : list json)
  : result (list Line) :=
  match entries with
  | [] => Ok []
  | entry :: rest =>
    match normalize_entry keepEmpty entry with
    | Throw code => Throw code
    | Ok pushed =>
      match normalize_entries keepEmpty rest with
      | Throw code => Throw code
      | Ok more => Ok (pushed ++ more)
      end
    end
  end.

(** [normalizeScriptLines(entries, { keepEmpty })] for an array [entries]. *)
Definition normalizeScriptLines (entries : list json) (keepEmpty : bool)
  : result (list Line) :=
  match normalize_entries keepEmpty entries with
  | Throw code => Throw code
  | Ok normalized =>
    Ok (if keepEmpty then normalized
        else filter (fun entry => (0 <? length (text entry))%nat) normalized)
  end.

(** [normalizeScriptLines] on lines the server made itself (the stored
    lines, the lines of the fallback segmentation): their texts are
    strings, no conversion is made, and the call returns (lemma
    [normalizeScriptLines_of_lines]); the second branch is never taken. *)
Definition normalize_lines (ls : list Line) (keepEmpty : bool) : list Line :=
  match normalizeScriptLines (map entry_of_line ls) keepEmpty with
  | Ok normalized => normalized
  | Throw _ => []
  end.

(** The descending loops of [findBreakPosition]:
    [for (i = from; i > stop; i -= 1) if (p(text[i - 1])) return i]. *)
Fixpoint break_before (p : Z -> bool) (text : jstring) (from stop : nat)
  : option nat :=
  match from with
  | O => None
  | S j =>
    if (stop <? from)%nat then
      match charAt j text with
      | Some c => if p c then Some from else break_before p text j stop
      | None => break_before p text j stop
      end
    else None
  end.

(** [/[ \u3000]/] and [/[，,、；;…]/] *)
Definition break_spaces : jstring := [0x20; 0x3000].
Definition soft_punctuation : jstring := js "，,、；;…".

(** [findBreakPosition(text, limit)] *)
Definition findBreakPosition (text : jstring) (limit : nat) : nat :=
  if (length text <=? limit)%nat then length text else
  match break_before (oneOf break_spaces) text
          (Nat.min limit (length text - 1)) 0 with
  | Some i => i
  | None =>
    match break_before (oneOf soft_punctuation) text limit
            (Nat.max (limit - 5) 1) with
    | Some i => i
    | None => length text
    end
  end.

(** The [while (remaining.length > limit)] loop of [chunkDialogueText] with
    the push that follows it; every turn shortens [remaining], so
    [length remaining] turns are enough. *)
Fixpoint split_remaining (fuel : nat) (remaining : jstring) (limit : nat)
  : list jstring :=
  let finish := if nonempty remaining then [remaining] else [] in
  match fuel with
  | O => finish
  | S fuel' =>
    if (limit <? length remaining)%nat then
      let cut := findBreakPosition remaining limit in
      if (length remaining <=? cut)%nat then finish else
      let part := sanitizeLineText (slice 0 cut remaining) in
      let pushed := if nonempty part then [part] else [] in
      let remaining' := sanitizeLineText (slice_from cut remaining) in
      if negb (nonempty remaining') then pushed
      else pushed ++ split_remaining fuel' remaining' limit
    else finish
  end.

Definition clause_end : jstring := js "。！？!?；;，,、".

(** [/[^。！？!?；;，,、]+[。！？!?；;，,、]?/gu] *)
Definition clause_pattern : RegExp :=
  re_u (Seq (Plus (Chr (noneOf clause_end))) (Opt (Chr (oneOf clause_end)))).

(** [chunkDialogueText(text, limit)] *)
Definition chunkDialogueText (text : jstring) (limit : nat) : list jstring :=
  let sentences :=
    match match_all clause_pattern text with
    | Some l => l
    | None => [text]
    end in
  flat_map
    (fun sentence =>
       let remaining := sanitizeLineText sentence in
       if negb (nonempty remaining) then []
       else split_remaining (length remaining) remaining limit)
    sentences.

(** [enforceLineLengths(entries, limit)] *)
Definition enforceLineLengths (entries : list Line) (limit : nat) : list Line :=
  flat_map
    (fun entry =>
       if negb (nonempty (text entry)) then [] else
       if LineType_eqb (type entry) direction
          || (length (text entry) <=? limit)%nat
       then [entry]
       else
         flat_map
           (fun chunk =>
              let text := sanitizeLineText chunk in
              if negb (nonempty text) then [] else [mkLine text dialogue])
           (chunkDialogueText (text entry) limit))
    entries.


(* ================================================================== *)
(** * Chunker *)
(* ================================================================== *)

(** [normalizePunctuation(text)]: [text.replace(/[.,，。、]/g, ' ')] *)
Definition normalizePunctuation (text : jstring) : jstring :=
  replace_all (re (Chr (oneOf (js ".,，。、")))) (js " ") text.

(** [chunkLongUnit(unit, limit)] for a positive [limit], the only kind the
    server passes ([MAX_CHUNK_LENGTH]): the loop shortens [remaining] by
    [limit] code units a turn, so [length unit] turns are enough.  With
    [limit = 0] the loop of the source never ends on a unit that is not
    empty; the function below stands for the source under [0 < limit] only,
    and every statement about it or about [chunkScript] is made under that
    condition or at a positive limit. *)
Fixpoint chunkLongUnit_loop (fuel : nat) (remaining : jstring) (limit : nat)
  : list jstring :=
  let finish := if (0 <? length (trim remaining))%nat then [remaining] else [] in
  match fuel with
  | O => finish
  | S fuel' =>
    if (limit <? length remaining)%nat
    then slice 0 limit remaining
           :: chunkLongUnit_loop fuel' (slice_from limit remaining) limit
    else finish
  end.

Definition chunkLongUnit (unit : jstring) (limit : nat) : list jstring :=
  chunkLongUnit_loop (length unit) unit limit.

(** [/\r?\n+/] *)
Definition paragraph_break : RegExp :=
  re (Seq (Opt (Chr (Z.eqb 13))) (Plus (Chr (Z.eqb 10)))).

(** [/[^。！？!?]+[。！？!?]?/gu] *)
Definition sentence_pattern : RegExp :=
  re_u (Seq (Plus (Chr (noneOf sentence_end))) (Opt (Chr (oneOf sentence_end)))).

(** [rawText.split(/\r?\n+/).map((p) => p.trim()).filter(Boolean)] *)
Definition paragraphs_of (rawText : jstring) : list jstring :=
  filter nonempty (map trim (split paragraph_break rawText)).

(** [pushCurrent()], on the pair [(chunks, current)]. *)
Definition pushCurrent (st : list jstring * jstring) : list jstring * jstring :=
  let (chunks, current) := st in
  (if (0 <? length (trim current))%nat then chunks ++ [trim current] else chunks,
   []).

(** The body of [units.forEach] in [chunkScript]. *)
Definition chunk_step (limit : nat) (st : list jstring * jstring)
    (unit : jstring) : list jstring * jstring :=
  if (limit <? length unit)%nat then
    let (chunks, current) := if nonempty (snd st) then pushCurrent st else st in
    (chunks ++ map trim (chunkLongUnit unit limit), current)
  else
    let current := snd st in
    let appended :=
      if nonempty current then current ++ [10] ++ unit else unit in
    if (limit <? length appended)%nat && nonempty current
    then (fst (pushCurrent st), unit)
    else (fst st, appended).

(** [chunkScript(rawText, limit)] *)
Definition chunkScript (rawText : jstring) (limit : nat) : list jstring :=
  let units :=
    flat_map
      (fun paragraph =>
         let sentences :=
           match match_all sentence_pattern paragraph with
           | Some l => l
           | None => [paragraph]
           end in
         filter nonempty (map trim sentences))
      (paragraphs_of rawText) in
  match units with
  | [] => if (0 <? length (trim rawText))%nat then [trim rawText] else []
  | _ :: _ =>
    let st := fold_left (chunk_step limit) units ([], []) in
    let chunks := fst (if nonempty (snd st) then pushCurrent st else st) in
    match chunks with
    | [] => [trim rawText]
    | _ :: _ => chunks
    end
  end.

(* ================================================================== *)
(** * Segmenter: fallback and validation *)
(* ================================================================== *)

(** [fallbackSegmentScript(rawText)] *)
Definition fallbackSegmentScript (rawText : jstring) : list Line :=
  flat_map
    (fun paragraph =>
       let units :=
         match match_all sentence_pattern paragraph with
         | Some ((_ :: _) as matches) => filter nonempty (map trim matches)
         | _ => [paragraph]
         end in
       flat_map
         (fun unit =>
            let text := sanitizeLineText unit in
            if negb (nonempty text) then [] else [mkLine text (classify text)])
         units)
    (paragraphs_of rawText).

(** The class of the second [replace] of [normalizeForComparison]; the
    ASCII double quote is added at the end. *)
Definition comparison_marks : jstring :=
  js "，,。．.、！!？?-—:：;；“”‘’'（）()《》〈〉【】[]{}<>「」『』·•…~—‐﹣﹘﹣﹖﹗﹔﹕"
  ++ [0x22].

(** [normalizeForComparison(text)] *)
Definition normalizeForComparison (text : jstring) : jstring :=
  replace_all (re (Chr (oneOf comparison_marks))) []
    (replace_all (re (Chr (fun c => is_space c || (c =? 0x3000)))) [] text).

(** [hasMeaningfulOverlap(line, normalizedScript)] *)
Definition hasMeaningfulOverlap (line normalizedScript : jstring) : bool :=
  let normalizedLine := normalizeForComparison line in
  if negb (nonempty normalizedLine) then false else
  if includes normalizedLine normalizedScript then true else
  if (length normalizedLine <=? 3)%nat
  then includes normalizedLine normalizedScript
  else
    let maxSnippet := Nat.min 8 (length normalizedLine) in
    existsb
      (fun size =>
         existsb
           (fun start =>
              includes (slice start (start + size) normalizedLine)
                       normalizedScript)
           (seq 0 (length normalizedLine - size + 1)))
      (rev (seq 3 (maxSnippet - 2))).

Definition is_digit (c : Z) : bool := (0x30 <=? c) && (c <=? 0x39).

(** [placeholderRegex]: [/^[第]?[零〇一二三四五六七八九十百千\d]+[句行條話]$/i] *)
Definition placeholderRegex : RegExp :=
  re_bol (Seq (Opt (Chr (oneOf (js "第"))))
         (Seq (Plus (Chr (fun c => oneOf (js "零〇一二三四五六七八九十百千") c
                                   || is_digit c)))
         (Seq (Chr (oneOf (js "句行條話"))) Eol))).

(** The class of the [replace] in the placeholder test. *)
Definition placeholder_marks : jstring :=
  js "。．，,、.!！?？:：;；-（）()【】[]「」『』<>《》〈〉".

(** [sanitizeModelLines(parsed, sourceText)] *)
Definition sanitizeModelLines (parsed : list json) (sourceText : jstring)
  : result (list Line) :=
  match normalizeScriptLines parsed false with
  | Throw code => Throw code
  | Ok normalized =>
    let cleaned := enforceLineLengths normalized MAX_LINE_LENGTH in
    match cleaned with
    | [] => Throw (Some (js "EMPTY_OUTPUT"))
    | _ :: _ =>
      let onlyPlaceholders :=
        forallb
          (fun line =>
             let normalizedText :=
               trim (replace_all
                       (re (Chr (fun c => is_space c || oneOf placeholder_marks c)))
                       [] (text line)) in
             test placeholderRegex normalizedText)
          cleaned in
      if onlyPlaceholders then Throw (Some (js "PLACEHOLDER_OUTPUT")) else
      let normalizedSource := normalizeForComparison sourceText in
      let invalidLines :=
        filter
          (fun line =>
             let stripped := trim (strip_punctuation (text line)) in
             if negb (nonempty stripped) then false
             else negb (hasMeaningfulOverlap stripped normalizedSource))
          cleaned in
      match invalidLines with
      | _ :: _ => Throw (Some (js "INVALID_LLM_OUTPUT"))
      | [] => Ok cleaned
      end
    end
  end.

(** [extractJsonArray(raw)] for a string [raw]; [None] is [null]. *)
Definition extractJsonArray (raw : jstring) : option jstring :=
  match indexOf_nat (ch "[") raw with
  | None => None
  | Some start =>
    let candidate := slice_from start raw in
    let candidate :=
      match lastIndexOf (ch "]") candidate with
      | Some e => slice 0 (e + 1) candidate
      | None => candidate
      end in
    let candidate := trim candidate in
    let candidate :=
      if negb (startsWith (js "[") candidate) then js "[" ++ candidate
      else candidate in
    let candidate :=
      if negb (endsWith (js "]") candidate) then
        match lastIndexOf (ch "}") candidate with
        | Some lastBrace => slice 0 (lastBrace + 1) candidate ++ js "]"
        | None => candidate
        end
      else candidate in
    Some (replace_first
            (re (Seq (Lit (js ",")) (Seq (Star (Chr is_space))
                (Seq (Lit (js "]")) Eol))))
            (js "]") candidate)
  end.

(** A letter, in either case (flag [i]). *)
Definition letter_i (lower : string) : regex :=
  Chr (fun c => (c =? ch lower) || (c =? ch lower - 0x20)).

Definition fence : regex := Lit (js "```").

Section Segmenter.

(** [JSON.parse]: [None] when it throws. *)
Variable JSON_parse : jstring -> option json.

(** What the request [client.responses.create] of [parseChunk] does for the
    chunk of a given index and text. *)
Inductive ServiceReply : Type :=
| Failed (code : option jstring)        (** the call throws *)
| Replied (output_text : option jstring).

Variable responses_create : nat -> nat -> jstring -> ServiceReply.

(** [parseJsonArrayLoose(raw)] for a string [raw]. *)
Definition parseJsonArrayLoose (raw : jstring) : result json :=
  let trimmed := trim raw in
  match JSON_parse trimmed with
  | Some v => Ok v
  | None =>
    let second :=
      match extractJsonArray trimmed with
      | Some candidate =>
        if nonempty candidate then JSON_parse candidate else None
      | None => None
      end in
    match second with
    | Some v => Ok v
    | None =>
      let third :=
        match match_all
                (re (Seq (Lit (js "{"))
                    (Seq (Star (Chr (noneOf (js "{}")))) (Lit (js "}")))))
                trimmed with
        | Some ((_ :: _) as matches) =>
          JSON_parse (js "[" ++ join (js ",") matches ++ js "]")
        | _ => None
        end in
      match third with
      | Some v => Ok v
      | None => Throw (Some (js "INVALID_JSON"))
      end
    end
  end.

(** [parseChunk({ client, chunkText, chunkIndex, totalChunks })] *)
Definition parseChunk (chunkText : jstring) (chunkIndex totalChunks : nat)
  : result (list Line) :=
  match responses_create chunkIndex totalChunks chunkText with
  | Failed code => Throw code
  | Replied output_text =>
    let output :=
      match output_text with
      | Some t => trim t
      | None => []
      end in
    if negb (nonempty output) then Throw (Some (js "MISSING_OUTPUT")) else
    let sanitized :=
      trim (replace_first (re (Seq fence Eol)) []
           (replace_first (re_bol fence) []
           (replace_first
              (re_bol (Seq fence (Seq (letter_i "j") (Seq (letter_i "s")
                         (Seq (letter_i "o") (letter_i "n")))))) []
              output))) in
    match parseJsonArrayLoose sanitized with
    | Throw code => Throw code
    | Ok (JArr parsed) => sanitizeModelLines parsed chunkText
    | Ok _ => Throw (Some (js "INVALID_JSON"))
    end
  end.

(** The fallback of one chunk in [parseScriptWithOpenAI]. *)
Definition fallback_lines (chunkText : jstring) : list Line :=
  enforceLineLengths
    (normalize_lines (fallbackSegmentScript chunkText) false)
    MAX_LINE_LENGTH.

(** The [for] loop of [parseScriptWithOpenAI], from chunk [index] on. *)
Fixpoint parse_chunks (chunks : list jstring) (index totalChunks : nat)
    (combined : list Line) : result (list Line) :=
  match chunks with
  | [] => Ok combined
  | chunkText :: rest =>
    match parseChunk chunkText index totalChunks with
    | Ok parsedLines =>
      parse_chunks rest (S index) totalChunks (combined ++ parsedLines)
    | Throw code =>
      if fallbackCodes_has code
      then parse_chunks rest (S index) totalChunks
             (combined ++ fallback_lines chunkText)
      else Throw code
    end
  end.

(** [parseScriptWithOpenAI(rawText, apiKey)] *)
Definition parseScriptWithOpenAI (rawText : jstring) : result (list Line) :=
  let chunks := chunkScript rawText MAX_CHUNK_LENGTH in
  match parse_chunks chunks 0 (length chunks) [] with
  | Throw code => Throw code
  | Ok [] => Throw (Some (js "EMPTY_OUTPUT"))
  | Ok combined => Ok (enforceLineLengths combined MAX_LINE_LENGTH)
  end.

End Segmenter.


(* ================================================================== *)
(** * Decoder *)
(* ================================================================== *)

(** [detectBomEncoding(buffer)] on the bytes of the buffer. *)
Definition detectBomEncoding (buffer : list Z) : option jstring :=
  match buffer with
  | 0xEF :: 0xBB :: 0xBF :: _ => Some (js "utf8")
  | 0xFF :: 0xFE :: 0x00 :: 0x00 :: _ => Some (js "utf32le")
  | 0xFF :: 0xFE :: _ => Some (js "utf16le")
  | 0xFE :: 0xFF :: _ => Some (js "utf16be")
  | 0x00 :: 0x00 :: 0xFE :: 0xFF :: _ => Some (js "utf32be")
  | _ => None
  end.

Record TextStats : Type := mkStats {
  hanCount : Z;
  asciiCount : Z;
  latinSupplementCount : Z;
  replacementCount : Z;
  stats_length : nat
}.

Definition in_range (lo hi code : Z) : bool := (lo <=? code) && (code <=? hi).

(** The ideograph ranges of [analyzeTextStats]. *)
Definition is_han (code : Z) : bool :=
  in_range 0x4E00 0x9FFF code || in_range 0x3400 0x4DBF code
  || in_range 0x20000 0x2A6DF code || in_range 0x2A700 0x2B73F code
  || in_range 0x2B740 0x2B81F code || in_range 0x2B820 0x2CEAF code
  || in_range 0x2CEB0 0x2EBEF code || in_range 0x2F800 0x2FA1F code.

(** One turn of the [for (const char of text)] loop. *)
Definition count_char (st : TextStats) (code : Z) : TextStats :=
  if code =? 0xFFFD
  then mkStats (hanCount st) (asciiCount st) (latinSupplementCount st)
               (replacementCount st + 1) (stats_length st)
  else if is_han code
  then mkStats (hanCount st + 1) (asciiCount st) (latinSupplementCount st)
               (replacementCount st) (stats_length st)
  else if in_range 0x20 0x7E code
  then mkStats (hanCount st) (asciiCount st + 1) (latinSupplementCount st)
               (replacementCount st) (stats_length st)
  else if in_range 0x80 0xFF code
  then mkStats (hanCount st) (asciiCount st) (latinSupplementCount st + 1)
               (replacementCount st) (stats_length st)
  else st.

(** [analyzeTextStats(text)] *)
Definition analyzeTextStats (text : jstring) : TextStats :=
  fold_left count_char (codepoints text) (mkStats 0 0 0 0 (length text)).

(** A score: a number or [-Infinity]. *)
Inductive Score : Type := NegInfinity | Finite (z : Z).

(** [a > b] *)
Definition Score_gt (a b : Score) : bool :=
  match a, b with
  | NegInfinity, _ => false
  | Finite _, NegInfinity => true
  | Finite x, Finite y => y <? x
  end.

(** [scoreDecodedText(stats, encoding)] *)
Definition scoreDecodedText (stats : TextStats) (encoding : jstring) : Score :=
  if (stats_length stats =? 0)%nat then NegInfinity else
  let score := 0 in
  let score := score + hanCount stats * 6 in
  let score := score + asciiCount stats * 2 in
  let score := score - latinSupplementCount stats * 3 in
  let score := score - replacementCount stats * 20 in
  let score :=
    if str_eqb encoding (js "utf8") || str_eqb encoding (js "utf-8")
    then score + 5 else score in
  Finite score.

Section Decoder.

(** [buffer.toString(encoding)] and [iconv.decode(buffer, encoding)]
    ([None] when it throws). *)
Variable Buffer_toString : list Z -> jstring -> jstring.
Variable iconv_decode : list Z -> jstring -> option jstring.

Definition label_in (encoding : jstring) (labels : list jstring) : bool :=
  existsb (str_eqb encoding) labels.

(** [decodeWithEncoding(buffer, encoding)]; [None] is [null]. *)
Definition decodeWithEncoding (buffer : list Z) (encoding : jstring)
  : option jstring :=
  if label_in encoding [js "utf8"; js "utf-8"]
  then Some (stripBom (Buffer_toString buffer (js "utf8")))
  else if label_in encoding [js "utf16le"; js "utf-16le"]
  then Some (stripBom (Buffer_toString buffer (js "utf16le")))
  else if label_in encoding [js "utf16be"; js "utf-16be"]
  then option_map stripBom (iconv_decode buffer (js "utf16-be"))
  else if label_in encoding [js "utf32le"; js "utf-32le"]
  then option_map stripBom (iconv_decode buffer (js "utf32le"))
  else if label_in encoding [js "utf32be"; js "utf-32be"]
  then option_map stripBom (iconv_decode buffer (js "utf32be"))
  else option_map stripBom (iconv_decode buffer encoding).

(** [candidateOrder] *)
Definition candidateOrder (buffer : list Z) : list jstring :=
  match detectBomEncoding buffer with
  | Some detected => [detected]
  | None => []
  end ++ [ js "utf8"; js "utf16le"; js "utf16be"; js "gb18030"; js "big5";
           js "latin1" ].

(** One turn of the candidate loop, on [(bestText, bestScore)]. *)
Definition try_candidate (buffer : list Z) (best : option jstring * Score)
    (encoding : jstring) : option jstring * Score :=
  match decodeWithEncoding buffer encoding with
  | None | Some [] => best
  | Some decoded =>
    let stats := analyzeTextStats decoded in
    let score := scoreDecodedText stats encoding in
    if Score_gt score (snd best) then (Some decoded, score) else best
  end.

(** [decodeScriptBuffer(buffer)] *)
Definition decodeScriptBuffer (buffer : list Z) : jstring :=
  match buffer with
  | [] => []
  | _ :: _ =>
    match fold_left (try_candidate buffer) (candidateOrder buffer)
            (None, NegInfinity) with
    | (Some ((_ :: _) as bestText), Finite _) => bestText
    | _ => stripBom (Buffer_toString buffer (js "utf8"))
    end
  end.

End Decoder.

(* ================================================================== *)
(** * Session store and broadcast hub *)
(* ================================================================== *)

(** The number in [currentIndex]: an integer or [NaN]. *)
Inductive jsnum : Type := JInt (z : Z) | JNaN.

(** A session; [id] and [createdAt] are written once and never read. *)
Record Session : Type := mkSession {
  lines : list Line;
  currentIndex : jsnum;
  displayEnabled : bool
}.

(** What [ensureSession] stores for an unknown id. *)
Definition new_session : Session := mkSession [] (JInt 0) true.

(** [ensureSession(sessionId)], on the entry of the map for that id. *)
Definition ensureSession (found : option Session) : Session :=
  match found with
  | Some session => session
  | None => new_session
  end.

(** The payload of [viewer:update] and of the viewer endpoint. *)
Record ViewerPayload : Type := mkViewerPayload {
  payload_line : option Line;
  payload_text : jstring;
  payload_displayEnabled : bool
}.

Inductive Event : Type :=
| control_update (ls : list Line) (index : jsnum) (enabled : bool)
| viewer_update (payload : ViewerPayload).

(** [ensureSessionLines(session)] *)
Definition ensureSessionLines (session : Session) : Session :=
  mkSession (normalize_lines (lines session) true)
            (currentIndex session) (displayEnabled session).

(** [index >= n] and [index > n] for a length or index [n]. *)
Definition jsnum_ge (index : jsnum) (n : Z) : bool :=
  match index with JInt z => n <=? z | JNaN => false end.
Definition jsnum_gt (index : jsnum) (n : Z) : bool :=
  match index with JInt z => n <? z | JNaN => false end.

(** [a !== b] *)
Definition jsnum_differs (a b : jsnum) : bool :=
  match a, b with
  | JInt x, JInt y => negb (x =? y)
  | _, _ => true
  end.

Definition jsnum_add (index : jsnum) (d : Z) : jsnum :=
  match index with JInt z => JInt (z + d) | JNaN => JNaN end.

Definition len (ls : list Line) : Z := Z.of_nat (length ls).

(** [if (session.currentIndex >= lines.length)
       session.currentIndex = Math.max(lines.length - 1, 0)] *)
Definition clamp_index (session : Session) : Session :=
  if jsnum_ge (currentIndex session) (len (lines session))
  then mkSession (lines session) (JInt (Z.max (len (lines session) - 1) 0))
                 (displayEnabled session)
  else session.

(** [lines[index]]: [None] is [undefined]. *)
Definition line_at (ls : list Line) (index : jsnum) : option Line :=
  match index with
  | JInt z => if z <? 0 then None else nth_error ls (Z.to_nat z)
  | JNaN => None
  end.

(** [broadcastControlState(sessionId)] for a known session. *)
Definition broadcastControlState (session : Session) : Session * list Event :=
  let session := clamp_index (ensureSessionLines session) in
  (session,
   [control_update (lines session) (currentIndex session) (displayEnabled session)]).

(** The object both [broadcastViewerState] and the viewer endpoint build,
    after the lines are normalized and the index is clamped. *)
Definition viewer_payload (session : Session) : ViewerPayload :=
  let activeLine :=
    if displayEnabled session && (0 <? len (lines session))
    then line_at (lines session) (currentIndex session)
    else None in
  mkViewerPayload
    (if displayEnabled session then activeLine else None)
    (if displayEnabled session
     then match activeLine with
          | Some l =>
            if LineType_eqb (type l) direction then [] else text l
          | None => []
          end
     else [])
    (displayEnabled session).

(** [broadcastViewerState(sessionId)] for a known session. *)
Definition broadcastViewerState (session : Session) : Session * list Event :=
  let session := clamp_index (ensureSessionLines session) in
  (session, [viewer_update (viewer_payload session)]).

(** The two broadcasts that end every accepted mutation. *)
Definition broadcast (session : Session) : Session * list Event :=
  let (s1, e1) := broadcastControlState session in
  let (s2, e2) := broadcastViewerState s1 in
  (s2, e1 ++ e2).

(** [GET /api/session/:sessionId/viewer] for a known session. *)
Definition get_viewer (session : Session) : Session * ViewerPayload :=
  let session := clamp_index (ensureSessionLines session) in
  (session, viewer_payload session).

(** ** Edit operations of the socket.  An [index] is [Some z] when
    [Number.isInteger(index)] holds, a text or a type is [Some s] when it is
    a string. *)

Definition valid_index (session : Session) (index : option Z) : option nat :=
  match index with
  | Some z =>
    if (0 <=? z) && (z <? len (lines session)) then Some (Z.to_nat z) else None
  | None => None
  end.

(** [a[i] = x] for [i] in range. *)
Definition set_at (i : nat) (x : Line) (ls : list Line) : list Line :=
  firstn i ls ++ x :: skipn (S i) ls.

(** [socket.on('setCurrentIndex')] *)
Definition setCurrentIndex (index : option Z) (session : Session)
  : Session * list Event :=
  match valid_index session index with
  | Some i =>
    broadcast (mkSession (lines session) (JInt (Z.of_nat i)) (displayEnabled session))
  | None => (session, [])
  end.

(** What a client can put in [delta]: an integer, nothing ([undefined],
    [null]), or a plain object. *)
Inductive Delta : Type :=
| delta_int (z : Z)
| delta_missing
| delta_object.

(** [session.currentIndex + (delta || 0)], as [Math.max] reads it: for a
    plain object the sum is the string of the index followed by
    [[object Object]], which converts to [NaN]. *)
Definition add_delta (index : jsnum) (delta : Delta) : jsnum :=
  match delta with
  | delta_int z => jsnum_add index z
  | delta_missing => jsnum_add index 0
  | delta_object => JNaN
  end.

(** [Math.max(a, b)] and [Math.min(a, b)] with an integer [b]. *)
Definition Math_max (a : jsnum) (b : Z) : jsnum :=
  match a with JInt z => JInt (Z.max z b) | JNaN => JNaN end.
Definition Math_min (a : jsnum) (b : Z) : jsnum :=
  match a with JInt z => JInt (Z.min z b) | JNaN => JNaN end.

(** [socket.on('shiftIndex')] *)
Definition shiftIndex (delta : Delta) (session : Session)
  : Session * list Event :=
  let nextIndex :=
    Math_min (Math_max (add_delta (currentIndex session) delta) 0)
             (Z.max (len (lines session) - 1) 0) in
  if jsnum_differs nextIndex (currentIndex session)
  then broadcast (mkSession (lines session) nextIndex (displayEnabled session))
  else (session, []).

(** [socket.on('setDisplay')] *)
Definition setDisplay (enabled : bool) (session : Session)
  : Session * list Event :=
  broadcast (mkSession (lines session) (currentIndex session) enabled).

(** [socket.on('updateLine')] *)
Definition updateLine (index : option Z) (new_text : option jstring)
    (new_type : option jstring) (session : Session) : Session * list Event :=
  match valid_index session index, new_text with
  | Some i, Some t =>
    match nth_error (lines session) i with
    | Some existingRaw =>
      let sanitized := sanitizeLineText t in
      let explicitType := clampLineType new_type in
      let previousType :=
        clampLineType (Some (LINE_TYPES_name (type existingRaw))) in
      let nextType :=
        match explicitType with
        | Some ty => ty
        | None => match previousType with Some ty => ty | None => dialogue end
        end in
      broadcast (mkSession (set_at i (mkLine sanitized nextType) (lines session))
                           (currentIndex session) (displayEnabled session))
    | None => (session, [])
    end
  | _, _ => (session, [])
  end.

(** [socket.on('setLineType')] *)
Definition setLineType (index : option Z) (new_type : option jstring)
    (session : Session) : Session * list Event :=
  match clampLineType new_type, valid_index session index with
  | Some normalizedType, Some i =>
    match nth_error (lines session) i with
    | Some existing =>
      broadcast
        (mkSession
           (set_at i (mkLine (sanitizeLineText (text existing)) normalizedType)
                   (lines session))
           (currentIndex session) (displayEnabled session))
    | None => (session, [])
    end
  | _, _ => (session, [])
  end.

(** [socket.on('splitLine')] *)
Definition splitLine (index : option Z) (beforeText afterText : option jstring)
    (session : Session) : Session * list Event :=
  match valid_index session index, beforeText, afterText with
  | Some i, Some b, Some a =>
    let before := sanitizeLineText b in
    let after := sanitizeLineText a in
    if negb (nonempty before) || negb (nonempty after) then (session, []) else
    let type :=
      match nth_error (lines session) i with
      | Some existing =>
        match clampLineType (Some (LINE_TYPES_name (type existing))) with
        | Some ty => ty
        | None => dialogue
        end
      | None => dialogue
      end in
    let spliced :=
      firstn i (lines session)
        ++ [mkLine before type; mkLine after type] ++ skipn (S i) (lines session) in
    broadcast
      (mkSession spliced
         (if jsnum_gt (currentIndex session) (Z.of_nat i)
          then jsnum_add (currentIndex session) 1 else currentIndex session)
         (displayEnabled session))
  | _, _, _ => (session, [])
  end.

(** [socket.on('insertLineAfter')] *)
Definition insertLineAfter (index : option Z) (new_type : option jstring)
    (session : Session) : Session * list Event :=
  match valid_index session index with
  | Some i =>
    let baseType :=
      match clampLineType new_type with
      | Some ty => ty
      | None =>
        match nth_error (lines session) i with
        | Some existing =>
          match clampLineType (Some (LINE_TYPES_name (type existing))) with
          | Some ty => ty
          | None => dialogue
          end
        | None => dialogue
        end
      end in
    let spliced :=
      firstn (S i) (lines session) ++ mkLine [] baseType :: skipn (S i) (lines session) in
    broadcast
      (mkSession spliced
         (if jsnum_gt (currentIndex session) (Z.of_nat i)
          then jsnum_add (currentIndex session) 1 else currentIndex session)
         (displayEnabled session))
  | None => (session, [])
  end.

(** [socket.on('deleteLine')] *)
Definition deleteLine (index : option Z) (session : Session)
  : Session * list Event :=
  match valid_index session index with
  | Some i =>
    let spliced := firstn i (lines session) ++ skipn (S i) (lines session) in
    let index' :=
      if jsnum_ge (currentIndex session) (len spliced)
      then JInt (Z.max (len spliced - 1) 0)
      else if jsnum_gt (currentIndex session) (Z.of_nat i)
      then jsnum_add (currentIndex session) (-1)
      else currentIndex session in
    broadcast (mkSession spliced index' (displayEnabled session))
  | None => (session, [])
  end.

(** [PUT /api/session/:sessionId/lines] for a known session; [new_lines]
    is [None] when the body holds no array.  When the normalization throws,
    nothing has been assigned yet and the request ends there (the framework
    answers 500). *)
Definition replace_lines (new_lines : option (list json)) (session : Session)
  : Session * list Event :=
  match new_lines with
  | None => (session, [])
  | Some entries =>
    match normalizeScriptLines entries true with
    | Throw _ => (session, [])
    | Ok normalized =>
      broadcast
        (clamp_index
           (mkSession normalized (currentIndex session) (displayEnabled session)))
    end
  end.

(** What the upload of a script stores: [session.lines = lines;
    session.currentIndex = 0; session.displayEnabled = true], the two
    broadcasts, and the [ensureSessionLines] of the response. *)
Definition commit_lines (new_lines : list Line) (session : Session)
  : Session * list Event :=
  let (session', events) := broadcast (mkSession new_lines (JInt 0) true) in
  (ensureSessionLines session', events).

Inductive UploadResponse : Type :=
| bad_request
| uploaded (ls : list Line) (index : jsnum) (enabled : bool) (warning : bool)
| failed (code : option jstring).

Section Upload.

Variable JSON_parse : jstring -> option json.
Variable responses_create : nat -> nat -> jstring -> ServiceReply.
Variable Buffer_toString : list Z -> jstring -> jstring.
Variable iconv_decode : list Z -> jstring -> option jstring.

(** [POST /api/session/:sessionId/script/upload]: [found] is the entry of
    the session map for the id, [apiKey] the trimmed key, [file] the bytes
    of the uploaded file. *)
Definition upload_script (apiKey : option jstring) (file : option (list Z))
    (found : option Session) : option Session * list Event * UploadResponse :=
  match apiKey, file with
  | Some (_ :: _), Some buffer =>
    let session := ensureSession found in
    let rawText :=
      normalizePunctuation
        (decodeScriptBuffer Buffer_toString iconv_decode buffer) in
    match parseScriptWithOpenAI JSON_parse responses_create rawText with
    | Ok new_lines =>
      let (session', events) := commit_lines new_lines session in
      (Some session', events,
       uploaded (lines session') (currentIndex session')
                (displayEnabled session') false)
    | Throw code =>
      let fallbackLines :=
        if fallbackCodes_has code
        then enforceLineLengths
               (normalize_lines (fallbackSegmentScript rawText) false)
               MAX_LINE_LENGTH
        else [] in
      match fallbackLines with
      | _ :: _ =>
        let (session', events) := commit_lines fallbackLines session in
        (Some session', events,
         uploaded (lines session') (currentIndex session')
                  (displayEnabled session') true)
      | [] => (Some session, [], failed code)
      end
    end
  | _, _ => (found, [], bad_request)
  end.

End Upload.


(* ================================================================== *)
(** * Operations on a session, and what the claims say of them *)
(* ================================================================== *)

(** The mutations of a session: the socket events, the bulk replace, and
    the commit of an uploaded script. *)
Inductive Op : Type :=
| op_setCurrentIndex (index : option Z)
| op_shiftIndex (delta : Delta)
| op_setDisplay (enabled : bool)
| op_updateLine (index : option Z) (new_text new_type : option jstring)
| op_setLineType (index : option Z) (new_type : option jstring)
| op_splitLine (index : option Z) (beforeText afterText : option jstring)
| op_insertLineAfter (index : option Z) (new_type : option jstring)
| op_deleteLine (index : option Z)
| op_replace_lines (new_lines : option (list json))
| op_commit (new_lines : list Line).

Definition run_op (op : Op) (session : Session) : Session * list Event :=
  match op with
  | op_setCurrentIndex index => setCurrentIndex index session
  | op_shiftIndex delta => shiftIndex delta session
  | op_setDisplay enabled => setDisplay enabled session
  | op_updateLine index t ty => updateLine index t ty session
  | op_setLineType index ty => setLineType index ty session
  | op_splitLine index b a => splitLine index b a session
  | op_insertLineAfter index ty => insertLineAfter index ty session
  | op_deleteLine index => deleteLine index session
  | op_replace_lines new_lines => replace_lines new_lines session
  | op_commit new_lines => commit_lines new_lines session
  end.

Definition run_ops (ops : list Op) (session : Session) : Session :=
  fold_left (fun s op => fst (run_op op s)) ops session.

(** [currentIndex] is in [[0, len(lines) - 1]], or 0 when there is no line. *)
Definition index_in_range (session : Session) : Prop :=
  match currentIndex session with
  | JInt z =>
    (lines session = [] /\ z = 0)
    \/ (lines session <> [] /\ 0 <= z <= len (lines session) - 1)
  | JNaN => False
  end.

(** The operations whose numeric argument is an integer or is missing. *)
Definition integer_arguments (op : Op) : Prop :=
  match op with
  | op_shiftIndex delta_object => False
  | _ => True
  end.

(** Counting the code points of a text that are in a class. *)
Definition count_codepoints (p : Z -> bool) (text : jstring) : Z :=
  Z.of_nat (length (filter p (codepoints text))).

Definition is_utf8_label (encoding : jstring) : bool :=
  str_eqb encoding (js "utf8") || str_eqb encoding (js "utf-8").

(** [a >= b] on scores. *)
Definition Score_ge (a b : Score) : bool := negb (Score_gt b a).

(** A service whose reply to every chunk is the same text, and the parser
    that rejects every text (as [JSON.parse] does for a text that is not
    JSON). *)
Definition always_reply (output_text : string) : nat -> nat -> jstring -> ServiceReply :=
  fun _ _ _ => Replied (Some (js output_text)).
Definition JSON_parse_rejects : jstring -> option json := fun _ => None.

(** [JSON.parse] on the text of the empty array, and on nothing else. *)
Definition JSON_parse_empty_array (s : jstring) : option json :=
  if str_eqb s (js "[]") then Some (JArr []) else None.

(** The one decoding used in examples: the buffer holds the UTF-8 bytes of
    the text and every decoder returns the text unchanged. *)
Definition decode_as (decoded : string) : list Z -> jstring -> jstring :=
  fun _ _ => js decoded.
Definition iconv_as (decoded : string) : list Z -> jstring -> option jstring :=
  fun _ _ => Some (js decoded).

Definition is_uploaded (r : UploadResponse) : bool :=
  match r with uploaded _ _ _ _ => true | _ => false end.

(** The score as the specification words it: the four weighted counts and
    a bonus of 5 for a candidate of the UTF family. *)
Definition utf_family : list jstring :=
  [ js "utf8"; js "utf16le"; js "utf16be"; js "utf32le"; js "utf32be" ].

Definition weighted_counts (text : jstring) : Z :=
  6 * count_codepoints is_han text
  + 2 * count_codepoints (in_range 0x20 0x7E) text
  - 3 * count_codepoints (in_range 0x80 0xFF) text
  - 20 * count_codepoints (Z.eqb 0xFFFD) text.

Definition specified_score (text encoding : jstring) : Z :=
  weighted_counts text
  + (if existsb (str_eqb encoding) utf_family then 5 else 0).

(** The control characters (C0 with the line feed, and C1). *)
Definition is_control (c : Z) : bool := in_range 0 0x1F c || in_range 0x7F 0x9F c.

(** What the stored lines are claimed to be, and what they are. *)
Definition no_control_character (l : Line) : Prop :=
  existsb is_control (text l) = false.
Definition no_line_feed (l : Line) : Prop :=
  ~ In 10 (text l) /\ (type l = dialogue \/ type l = direction).

(** The staging vocabulary, as the specification names it: the stage,
    lighting and sound words of the rules that read a text as staging (the
    start of the text, the bracketed cue, the speaker label) and the list
    whose hits are counted, which the specification calls the full staging
    vocabulary.  The physical-action words of the short-text rule and the
    movement and gesture words of the last rule are lists of their own. *)
Definition staging_vocabulary : list jstring :=
  startsWithKeyword_words ++ directionKeywords ++ wrappedKeyword_words
  ++ speaker_words.

(** Every keyword of the rules of the classifier. *)
Definition rule_vocabulary : list jstring :=
  startsWithKeyword_words ++ shortKeywords_words ++ directionKeywords
  ++ wrappedKeyword_words ++ speaker_words ++ movement_words.

(** A text with its quotation and bracket marks taken out (the form in
    which [isLikelyDirection] counts keyword hits). *)
Definition without_marks (s : jstring) : jstring :=
  filter (noneOf stripped_marks) s.

(** No word of the list occurs in the sentence, even once the marks are
    taken out. *)
Definition mentions_none (words : list jstring) (s : jstring) : Prop :=
  forall k, In k words -> includes k (without_marks s) = false.

Definition mentions_no_keyword (s : jstring) : Prop :=
  mentions_none rule_vocabulary s.

(** A quoted sentence with a movement word and no staging word. *)
Definition quoted_slowly : jstring := js "他說「我慢慢來」".

(** The sentence holds a quotation mark. *)
Definition is_quoted (s : jstring) : bool :=
  test (re (Chr (oneOf quotation_marks))) s.

(** ** Where a long line is cut *)

(** The character before position [i] is in the class [p]. *)
Definition breaks_at (p : Z -> bool) (text : jstring) (i : nat) : Prop :=
  exists c, charAt (i - 1) text = Some c /\ p c = true.

(** [i] is the last position of [(stop, from]] with a character of the
    class before it; and there is no such position. *)
Definition nearest_break (p : Z -> bool) (text : jstring) (from stop i : nat)
  : Prop :=
  (stop < i <= from)%nat /\ breaks_at p text i
  /\ forall j, (i < j <= from)%nat -> ~ breaks_at p text j.
Definition no_break (p : Z -> bool) (text : jstring) (from stop : nat) : Prop :=
  forall j, (stop < j <= from)%nat -> ~ breaks_at p text j.

(** A text without white space and without any of the marks the length
    enforcement looks at. *)
Definition unbreakable (text : jstring) : Prop :=
  Forall (fun c => is_space c = false /\ noneOf clause_end c = true
                   /\ noneOf soft_punctuation c = true) text.

(** ** The clauses of a line and the cuts made in them *)

(** The clauses of a text, for the marks of [set]: a clause is a run of
    characters outside the set, closed by the mark that follows it; a mark
    that follows no run is dropped.  [run] is the run read so far. *)
Fixpoint split_clauses (set : jstring) (run : jstring) (s : jstring)
  : list jstring :=
  match s with
  | [] => if nonempty run then [run] else []
  | c :: r =>
    if oneOf set c
    then (if nonempty run then (run ++ [c]) :: split_clauses set [] r
          else split_clauses set [] r)
    else split_clauses set (run ++ [c]) r
  end.

(** The clauses a long line is separated into; a text of marks only is one
    clause. *)
Definition clauses_of (text : jstring) : list jstring :=
  match split_clauses clause_end [] text with
  | [] => [text]
  | found => found
  end.

(** A part that is kept: one that is not empty once trimmed. *)
Definition kept (part : jstring) : list jstring :=
  if nonempty part then [part] else [].

(** The pieces a trimmed clause is cut into: none for an empty clause; the
    clause itself when it fits; else a cut at the nearest white space at or
    before the limit, else at the nearest soft punctuation at or before the
    limit and within 5 characters of it, both parts trimmed and what is left
    cut in turn; and the clause itself, uncut, when there is no such
    place. *)
Inductive cut_at_breaks (limit : nat) : jstring -> list jstring -> Prop :=
| nothing_left : cut_at_breaks limit [] []
| fits (R : jstring) :
    R <> [] -> (length R <= limit)%nat -> cut_at_breaks limit R [R]
| cut_at_space (R : jstring) (i : nat) (rest : list jstring) :
    (limit < length R)%nat ->
    nearest_break (oneOf break_spaces) R (Nat.min limit (length R - 1)) 0 i ->
    cut_at_breaks limit (sanitizeLineText (skipn i R)) rest ->
    cut_at_breaks limit R (kept (sanitizeLineText (firstn i R)) ++ rest)
| cut_at_punctuation (R : jstring) (i : nat) (rest : list jstring) :
    (limit < length R)%nat ->
    no_break (oneOf break_spaces) R (Nat.min limit (length R - 1)) 0 ->
    nearest_break (oneOf soft_punctuation) R limit (Nat.max (limit - 5) 1) i ->
    cut_at_breaks limit (sanitizeLineText (skipn i R)) rest ->
    cut_at_breaks limit R (kept (sanitizeLineText (firstn i R)) ++ rest)
| left_uncut (R : jstring) :
    (limit < length R)%nat ->
    no_break (oneOf break_spaces) R (Nat.min limit (length R - 1)) 0 ->
    no_break (oneOf soft_punctuation) R limit (Nat.max (limit - 5) 1) ->
    cut_at_breaks limit R [R].

(** A line of a short clause and 22 letters. *)
Definition greeting_and_letters : jstring := js "你好，" ++ repeat (ch "a") 22.

(** ** What a run returns *)

Section RunResult.

Variable JSON_parse : jstring -> option json.
Variable responses_create : nat -> nat -> jstring -> ServiceReply.

(** The four verdicts of the validation. *)
Definition validation_verdicts : list jstring :=
  [ js "INVALID_JSON"; js "EMPTY_OUTPUT"; js "PLACEHOLDER_OUTPUT";
    js "INVALID_LLM_OUTPUT" ].

Definition is_verdict (code : option jstring) : bool :=
  match code with
  | Some c => existsb (str_eqb c) validation_verdicts
  | None => false
  end.

(** The chunk is accepted, or rejected with one of the four verdicts. *)
Definition judged (chunkText : jstring) (index total : nat) : Prop :=
  match parseChunk JSON_parse responses_create chunkText index total with
  | Ok _ => True
  | Throw code => is_verdict code = true
  end.

(** What the chunk contributes: its validated output, or its fallback. *)
Definition chunk_lines (chunkText : jstring) (index total : nat) : list Line :=
  match parseChunk JSON_parse responses_create chunkText index total with
  | Ok validated => validated
  | Throw _ => fallback_lines chunkText
  end.

(** The contributions of the chunks from [index] on, in chunk order. *)
Fixpoint lines_in_order (chunks : list jstring) (index total : nat) : list Line :=
  match chunks with
  | [] => []
  | chunkText :: rest =>
    chunk_lines chunkText index total ++ lines_in_order rest (S index) total
  end.

End RunResult.

(** [JSON.parse] on the text of an array with the one string [aaaa], and
    on nothing else. *)
Definition one_string_array : jstring := js "[" ++ [0x22] ++ js "aaaa" ++ [0x22] ++ js "]".
Definition JSON_parse_one_string (s : jstring) : option json :=
  if str_eqb s one_string_array then Some (JArr [JStr (js "aaaa")]) else None.

(** A service that answers the first chunk with that array and the others
    with a text that is not JSON. *)
Definition first_chunk_only : nat -> nat -> jstring -> ServiceReply :=
  fun index _ _ =>
    match index with
    | O => Replied (Some one_string_array)
    | S _ => Replied (Some (js "x"))
    end.

(** A script of two sentences of 2001 characters: two chunks. *)
Definition two_chunk_script : jstring :=
  repeat (ch "a") 2000 ++ js "！" ++ repeat (ch "b") 2000 ++ js "！".

(** A response without output text: [response.output_text] is missing,
    or is white space only. *)
Definition missing_output (output_text : option jstring) : Prop :=
  match output_text with
  | Some t => trim t = []
  | None => True
  end.

(** A script of a sentence of 2499 characters and a greeting: two chunks.
    A service that answers the first chunk with the array of one string
    and whose response to the others has no output text; and the upload
    of the script with it, on a session that holds one line and whose
    display is off. *)
Definition long_sentence_and_greeting : jstring :=
  repeat (ch "a") 2498 ++ js "！你好！".

Definition first_chunk_then_nothing : nat -> nat -> jstring -> ServiceReply :=
  fun index _ _ =>
    match index with
    | O => Replied (Some one_string_array)
    | S _ => Replied None
    end.

Definition session_before : Session :=
  mkSession [mkLine (js "old") dialogue] (JInt 0) false.

Definition lines_of_the_run : list Line :=
  [mkLine (js "aaaa") dialogue; mkLine (js "你好！") dialogue].

Definition upload_with_a_missing_response
  : option Session * list Event * UploadResponse :=
  upload_script JSON_parse_one_string first_chunk_then_nothing
                (fun _ _ => long_sentence_and_greeting)
                (fun _ _ => Some long_sentence_and_greeting)
                (Some (js "key")) (Some [0x61]) (Some session_before).

Definition thirty_letters : jstring := repeat (ch "a") 30.

End Model.

Import Model.

(* ================================================================== *)
(** * The HTTP endpoints, the join event and the viewer page *)
(* ================================================================== *)

Module Endpoints.

Local Open Scope Z_scope.

(** [index < n] *)
Definition jsnum_lt (index : jsnum) (n : Z) : bool :=
  match index with JInt z => z <? n | JNaN => false end.

(** What an endpoint answers: an error status, or the fields of its JSON
    body. *)
Inductive Answer : Type :=
| status_400
| answer_current (index : jsnum)
| answer_display (enabled : bool)
| answer_session (ls : list Line) (index : jsnum) (enabled : bool)
| answer_viewer (payload : ViewerPayload).

(** [POST /api/session/:sessionId/current] for a known session; [index]
    is [Some z] when [Number.isInteger(index)] holds. *)
Definition post_current (index : option Z) (session : Session)
  : Session * list Event * Answer :=
  let nextIndex :=
    match index with
    | Some z => JInt z
    | None => currentIndex session
    end in
  if jsnum_lt nextIndex 0 || jsnum_ge nextIndex (len (lines session))
  then (session, [], status_400)
  else
    let (session', events) :=
      broadcast (mkSession (lines session) nextIndex (displayEnabled session)) in
    (session', events, answer_current (currentIndex session')).

(** [POST /api/session/:sessionId/display] for a known session;
    [enabled] is [Boolean(displayEnabled)]. *)
Definition post_display (enabled : bool) (session : Session)
  : Session * list Event * Answer :=
  let (session', events) :=
    broadcast (mkSession (lines session) (currentIndex session) enabled) in
  (session', events, answer_display (displayEnabled session')).

(** [GET /api/session/:sessionId] for a known session. *)
Definition get_session (session : Session) : Session * list Event * Answer :=
  let session' := ensureSessionLines session in
  (session', [],
   answer_session (lines session') (currentIndex session')
                  (displayEnabled session')).

(** [socket.on('join')] for a non-empty session id; [found] is the entry of
    the session map, [viewer] says whether [role === 'viewer']. *)
Definition on_join (viewer : bool) (found : option Session)
  : Session * list Event :=
  let session := ensureSession found in
  if viewer then broadcastViewerState session
  else broadcastControlState session.

(** Everything a client can ask of a known session. *)
Inductive Request : Type :=
| mutation (op : Op)
| request_current (index : option Z)
| request_display (enabled : bool)
| request_session
| request_viewer
| request_join (viewer : bool).

Definition handle (request : Request) (session : Session)
  : Session * list Event :=
  match request with
  | mutation op => run_op op session
  | request_current index => fst (post_current index session)
  | request_display enabled => fst (post_display enabled session)
  | request_session => fst (get_session session)
  | request_viewer => (fst (get_viewer session), [])
  | request_join viewer => on_join viewer (Some session)
  end.

Definition handle_all (requests : list Request) (session : Session) : Session :=
  fold_left (fun s request => fst (handle request s)) requests session.

(** The requests whose numeric argument is an integer or is missing. *)
Definition integer_request (request : Request) : Prop :=
  match request with
  | mutation op => integer_arguments op
  | _ => True
  end.

End Endpoints.

(** [client/src/pages/ViewerPage.jsx]: what the page keeps of a payload and
    what it renders. *)
Module ViewerPage.

Local Open Scope Z_scope.

(** Truthiness of a value; a number is given by its text, and the only
    falsy number JSON can hold reads [0]. *)
Definition truthy (v : option json) : bool :=
  match v with
  | None | Some JNull => false
  | Some (JBool b) => b
  | Some (JNum shown) => negb (str_eqb shown (js "0"))
  | Some (JStr s) => nonempty s
  | Some (JArr _ | JObj _) => true
  end.

(** [a || ''] *)
Definition or_empty (v : option json) : json :=
  match v with
  | Some x => if truthy v then x else JStr []
  | None => JStr []
  end.

(** The [line] of the page state. *)
Record ViewerLine : Type := mkViewerLine { line_text : json; line_type : LineType }.

Record ViewerState : Type := mkViewerState {
  state_line : option ViewerLine;
  state_displayEnabled : bool
}.

(** [typeof payload.displayEnabled === 'boolean' ? payload.displayEnabled : true] *)
Definition enabled_of (payload : json) : bool :=
  match prop "displayEnabled" payload with
  | Some (JBool b) => b
  | _ => true
  end.

(** [{ text: line.text || '', type: line.type === 'direction' ? 'direction' : 'dialogue' }] *)
Definition line_of (line : json) : ViewerLine :=
  mkViewerLine
    (or_empty (prop "text" line))
    (match prop "type" line with
     | Some (JStr t) => if str_eqb t (js "direction") then direction else dialogue
     | _ => dialogue
     end).

(** The handler of [viewer:update], for a payload that is an object. *)
Definition on_viewer_update (payload : list (jstring * json)) : ViewerState :=
  let payload := JObj payload in
  mkViewerState
    (if truthy (prop "line" payload)
     then option_map line_of (prop "line" payload)
     else None)
    (enabled_of payload).

(** What [fetchInitialState] keeps of the body of the viewer endpoint. *)
Definition on_initial_state (data : list (jstring * json)) : ViewerState :=
  let data := JObj data in
  mkViewerState
    (if truthy (prop "line" data)
     then option_map line_of (prop "line" data)
     else match prop "text" data with
          | Some (JStr t) => Some (mkViewerLine (JStr t) dialogue)
          | _ => None
          end)
    (enabled_of data).

(** [displayText] *)
Definition displayText (state : ViewerState) : json :=
  let isStageDirection :=
    state_displayEnabled state
    && match state_line state with
       | Some line => LineType_eqb (line_type line) direction
       | None => false
       end in
  if state_displayEnabled state then
    if isStageDirection then JStr [0xA0]
    else match state_line state with
         | Some line => or_empty (Some (line_text line))
         | None => JStr []
         end
  else JStr (js "字幕暫停中").

(** The JSON object the server sends for a viewer payload. *)
Definition payload_fields (p : ViewerPayload) : list (jstring * json) :=
  [ (js "line",
     match payload_line p with
     | Some l => entry_of_line l
     | None => JNull
     end);
    (js "text", JStr (payload_text p));
    (js "displayEnabled", JBool (payload_displayEnabled p)) ].

End ViewerPage.

(* ================================================================== *)
(** * Facts about the matcher *)
(* ================================================================== *)

Module RegexFacts.

Local Open Scope Z_scope.

(** [t] is what is left of [s] after a prefix. *)
Definition suffix_of (t s : jstring) : Prop := exists p, s = p ++ t.

Lemma suffix_of_refl s : suffix_of s s.
Proof. exists []. reflexivity. Qed.

Lemma suffix_of_trans a b c : suffix_of a b -> suffix_of b c -> suffix_of a c.
Proof.
  intros [p Hp] [q Hq]. exists (q ++ p). subst. now rewrite app_assoc.
Qed.

Lemma suffix_of_length t s : suffix_of t s -> (length t <= length s)%nat.
Proof. intros [p ->]. rewrite length_app. lia. Qed.

Lemma next_char_split u s c s' :
  next_char u s = Some (c, s') ->
  exists p, s = p ++ s' /\ p <> [] /\
    (p = [c] \/
     exists h l, p = [h; l] /\ u = true /\ is_high_surrogate h = true
                 /\ is_low_surrogate l = true /\ c = surrogate_pair h l).
Proof.
  destruct s as [|x [|y r]]; simpl; try discriminate.
  - intros H; inversion H; subst. exists [c]. repeat split; auto; discriminate.
  - destruct (u && is_high_surrogate x && is_low_surrogate y) eqn:E;
      intros H; inversion H; subst.
    + apply andb_prop in E as [E El]. apply andb_prop in E as [Eu Eh].
      exists [x; y]. repeat split; try discriminate.
      right. exists x, y. repeat split; auto.
    + exists [c]. repeat split; auto; discriminate.
Qed.

Lemma next_char_suffix u s c s' :
  next_char u s = Some (c, s') -> suffix_of s' s /\ (length s' < length s)%nat.
Proof.
  intros H. destruct (next_char_split _ _ H) as (p & -> & Hp & _).
  split; [now exists p|]. rewrite length_app. destruct p; [congruence|simpl; lia].
Qed.

(** Whatever the matcher answers is an answer of the continuation on what
    is left of the input. *)
Lemma rx_suffix u r : forall s k x,
  rx u r s k = Some x -> exists s', suffix_of s' s /\ k s' = Some x.
Proof.
  induction r as [|p|a IHa b IHb|a IHa b IHb|a IHa|]; intros s k x H; simpl in H.
  - exists s. split; [apply suffix_of_refl|assumption].
  - destruct (next_char u s) as [[c s']|] eqn:E; [|discriminate].
    destruct (p c); [|discriminate].
    exists s'. split; [apply (next_char_suffix _ _ E)|assumption].
  - apply IHa in H as (s1 & S1 & H). apply IHb in H as (s2 & S2 & H).
    exists s2. split; [eapply suffix_of_trans; eauto|assumption].
  - destruct (rx u a s k) eqn:E.
    + inversion H; subst. now apply IHa in E.
    + now apply IHb in H.
  - remember (length s) as n eqn:Hn. clear Hn. revert s x H.
    induction n as [|n IHn]; intros s x H.
    + exists s. split; [apply suffix_of_refl|assumption].
    + match type of H with
      | match ?m with _ => _ end = _ => destruct m eqn:E
      end.
      * inversion H; subst. apply IHa in E as (s1 & S1 & E).
        destruct (length s1 <? length s)%nat; [|discriminate].
        apply IHn in E as (s2 & S2 & E).
        exists s2. split; [eapply suffix_of_trans; eauto|assumption].
      * exists s. split; [apply suffix_of_refl|assumption].
  - destruct s; [|discriminate]. exists []. split; [apply suffix_of_refl|assumption].
Qed.

Lemma firstn_suffix (p t : jstring) :
  firstn (length (p ++ t) - length t) (p ++ t) = p.
Proof.
  rewrite length_app. replace (length p + length t - length t)%nat with (length p) by lia.
  rewrite firstn_app, Nat.sub_diag, firstn_all. simpl. apply app_nil_r.
Qed.

Lemma match_here_app e s m rest :
  match_here e s = Some (m, rest) -> s = m ++ rest.
Proof.
  unfold match_here. destruct (rx (unicode e) (body e) s Some) as [t|] eqn:E; [|discriminate].
  intros H; inversion H; subst. apply rx_suffix in E as (s' & [p ->] & E).
  inversion E; subst. now rewrite firstn_suffix.
Qed.

(** Induction on the length of a string. *)
Lemma length_ind (P : jstring -> Prop) :
  (forall s, (forall y, (length y < length s)%nat -> P y) -> P s) ->
  forall s, P s.
Proof.
  intros H s. remember (length s) as n eqn:Hn.
  assert (Hle : (length s <= n)%nat) by lia. clear Hn. revert s Hle.
  induction n as [|n IHn]; intros s Hle; apply H; intros y Hy; [lia|].
  apply IHn. lia.
Qed.

Lemma scan_app e : forall s pre p m rest,
  scan e pre s = Some (p, m, rest) ->
  exists skipped, p = rev pre ++ skipped /\ s = skipped ++ m ++ rest.
Proof.
  induction s as [s IH] using length_ind.
  intros pre p m rest H. destruct s as [|c r]; simpl in H.
  - destruct (match_here e []) as [[m' rest']|] eqn:E; [|discriminate].
    inversion H; subst. exists []. rewrite app_nil_r. split; auto.
    now apply match_here_app in E.
  - destruct (match_here e (c :: r)) as [[m' rest']|] eqn:E.
    + inversion H; subst. exists []. rewrite app_nil_r. split; auto.
      now apply match_here_app in E.
    + destruct r as [|d r'].
      * apply IH in H; [|simpl; lia]. destruct H as (sk & -> & Hs).
        exists (c :: sk). simpl. rewrite <- app_assoc. simpl. split; auto.
        now rewrite Hs.
      * destruct (unicode e && is_high_surrogate c && is_low_surrogate d).
        -- apply IH in H; [|simpl; lia]. destruct H as (sk & -> & Hs).
           exists (c :: d :: sk). simpl. rewrite <- !app_assoc. simpl.
           split; auto. now rewrite Hs.
        -- apply IH in H; [|simpl; lia]. destruct H as (sk & -> & Hs).
           exists (c :: sk). simpl. rewrite <- app_assoc. simpl. split; auto.
           now rewrite Hs.
Qed.

Lemma exec_app e s p m rest :
  exec e s = Some (p, m, rest) -> s = p ++ m ++ rest.
Proof.
  unfold exec. destruct (anchored e).
  - destruct (match_here e s) as [[m' r']|] eqn:E; [|discriminate].
    intros H; inversion H; subst. simpl. now apply match_here_app in E.
  - intros H. apply scan_app in H as (sk & -> & Hs). simpl. assumption.
Qed.

(** What [replace_first] with the empty replacement keeps. *)
Lemma replace_first_empty_parts e s :
  exists p m rest, s = p ++ m ++ rest /\ replace_first e [] s = p ++ rest.
Proof.
  unfold replace_first. destruct (exec e s) as [[[p m] rest]|] eqn:E.
  - exists p, m, rest. split; [now apply exec_app in E|reflexivity].
  - exists s, [], []. now rewrite !app_nil_r.
Qed.

Lemma shift_gap_app c r :
  let f := fun gm : jstring * jstring => fst gm ++ snd gm in
  flat_map f (fst (shift_gap c r)) ++ snd (shift_gap c r)
  = c :: flat_map f (fst r) ++ snd r.
Proof.
  destruct r as [[|[g m] l] tail]; simpl; auto.
Qed.

(** The segments of a string put together give the string back. *)
Lemma segments_app e : forall fuel s,
  flat_map (fun gm => fst gm ++ snd gm) (fst (segments fuel e s))
    ++ snd (segments fuel e s) = s.
Proof.
  induction fuel as [|f IH]; intros s; simpl; auto.
  destruct (exec e s) as [[[p m] rest]|] eqn:E; simpl; auto.
  apply exec_app in E. destruct m as [|c m].
  - destruct rest as [|c rest'].
    + simpl. subst. now rewrite !app_nil_r.
    + pose proof (shift_gap_app c (segments f e rest')) as Hs.
      destruct (shift_gap c (segments f e rest')) as [l tail] eqn:Es.
      simpl in *. rewrite app_nil_r, <- app_assoc. subst s. f_equal.
      etransitivity; [exact Hs|]. f_equal. apply IH.
  - specialize (IH rest). destruct (segments f e rest) as [l tail].
    simpl in *. rewrite <- !app_assoc. simpl. rewrite IH. subst. reflexivity.
Qed.

End RegexFacts.

(* ================================================================== *)
(** * The session document *)
(* ================================================================== *)

Module SessionFacts.

Local Open Scope Z_scope.

Lemma clampLineType_name t : clampLineType (Some (LINE_TYPES_name t)) = Some t.
Proof. destruct t; vm_compute; reflexivity. Qed.

Lemma prop_text_entry t ty :
  prop "text" (JObj [(js "text", JStr t); (js "type", JStr ty)]) = Some (JStr t).
Proof. vm_compute. reflexivity. Qed.

Lemma prop_type_entry t ty :
  prop "type" (JObj [(js "text", JStr t); (js "type", JStr ty)]) = Some (JStr ty).
Proof. vm_compute. reflexivity. Qed.

(** A stored line read back as an entry keeps its type; its text is
    sanitized again. *)
Lemma normalizeLineEntry_line l keepEmpty :
  normalizeLineEntry (Some (entry_of_line l)) keepEmpty =
  Ok (if negb (nonempty (sanitizeLineText (text l))) && negb keepEmpty then None
      else Some (mkLine (sanitizeLineText (text l)) (type l))).
Proof.
  unfold normalizeLineEntry, entry_of_line.
  rewrite prop_text_entry, prop_type_entry. simpl nullish. simpl text_of_value.
  simpl as_string. rewrite clampLineType_name.
  destruct (negb (nonempty (sanitizeLineText (text l))) && negb keepEmpty);
    reflexivity.
Qed.

(** The lines pushed for an entry whose normalization returns. *)
Definition pushed (keepEmpty : bool) (entry : json) : list Line :=
  match normalize_entry keepEmpty entry with
  | Ok made => made
  | Throw _ => []
  end.

(** The filter that ends [normalizeScriptLines]. *)
Definition sift (keepEmpty : bool) (normalized : list Line) : list Line :=
  if keepEmpty then normalized
  else filter (fun entry => (0 <? length (text entry))%nat) normalized.

Lemma pushed_base keepEmpty entry :
  pushed keepEmpty entry =
  match normalizeLineEntry (Some entry) keepEmpty with
  | Ok (Some base) =>
    if negb (nonempty (text base))
    then (if keepEmpty then [mkLine [] (type base)] else [])
    else flat_map (clean_item keepEmpty) (expandStageDirectionSegments base)
  | _ => []
  end.
Proof.
  unfold pushed, normalize_entry.
  destruct (normalizeLineEntry (Some entry) keepEmpty) as [[base|]|code];
    [|reflexivity|reflexivity].
  destruct (negb (nonempty (text base))); [destruct keepEmpty|]; reflexivity.
Qed.

Lemma normalize_entry_returns keepEmpty entry made :
  normalize_entry keepEmpty entry = Ok made -> made = pushed keepEmpty entry.
Proof. unfold pushed. intros ->. reflexivity. Qed.

(** A call of [normalizeScriptLines] that returns, returns what is pushed
    for its entries, sifted. *)
Lemma normalize_entries_returns keepEmpty : forall entries normalized,
  normalize_entries keepEmpty entries = Ok normalized ->
  normalized = flat_map (pushed keepEmpty) entries.
Proof.
  induction entries as [|entry rest IH]; intros normalized H; cbn in H.
  - inversion H. reflexivity.
  - destruct (normalize_entry keepEmpty entry) as [made|code] eqn:E;
      [|discriminate].
    destruct (normalize_entries keepEmpty rest) as [more|code] eqn:Er;
      [|discriminate].
    inversion H. cbn [flat_map].
    rewrite (@normalize_entry_returns _ _ _ E), (IH more eq_refl). reflexivity.
Qed.

Lemma normalizeScriptLines_returns entries keepEmpty normalized :
  normalizeScriptLines entries keepEmpty = Ok normalized ->
  normalized = sift keepEmpty (flat_map (pushed keepEmpty) entries).
Proof.
  unfold normalizeScriptLines.
  destruct (normalize_entries keepEmpty entries) as [made|code] eqn:E;
    [|discriminate].
  intros H. inversion H. rewrite (@normalize_entries_returns _ _ _ E). reflexivity.
Qed.

(** The normalization of a stored line never throws: its text is a
    string. *)
Lemma normalize_entry_line keepEmpty l :
  normalize_entry keepEmpty (entry_of_line l)
  = Ok (pushed keepEmpty (entry_of_line l)).
Proof.
  unfold pushed, normalize_entry. rewrite normalizeLineEntry_line.
  destruct (negb (nonempty (sanitizeLineText (text l))) && negb keepEmpty);
    [reflexivity|].
  destruct (negb (nonempty (text (mkLine (sanitizeLineText (text l)) (type l)))));
    [destruct keepEmpty|]; reflexivity.
Qed.

Lemma normalize_entries_lines keepEmpty ls :
  normalize_entries keepEmpty (map entry_of_line ls)
  = Ok (flat_map (pushed keepEmpty) (map entry_of_line ls)).
Proof.
  induction ls as [|l ls IH]; [reflexivity|].
  cbn [map normalize_entries flat_map]. rewrite normalize_entry_line, IH. reflexivity.
Qed.

(** [normalizeScriptLines] returns on lines of the server: what
    [normalize_lines] stands for. *)
Lemma normalizeScriptLines_of_lines ls keepEmpty :
  normalizeScriptLines (map entry_of_line ls) keepEmpty
  = Ok (normalize_lines ls keepEmpty).
Proof.
  unfold normalize_lines, normalizeScriptLines.
  rewrite normalize_entries_lines. reflexivity.
Qed.

Lemma normalize_lines_pushed ls keepEmpty :
  normalize_lines ls keepEmpty
  = sift keepEmpty (flat_map (pushed keepEmpty) (map entry_of_line ls)).
Proof.
  unfold normalize_lines, normalizeScriptLines.
  rewrite normalize_entries_lines. reflexivity.
Qed.

Lemma clean_item_keep item : exists l, clean_item true item = [l].
Proof.
  unfold clean_item. destruct (negb (nonempty (sanitizeLineText (text item)))).
  - eauto.
  - rewrite !andb_false_r. eauto.
Qed.

Lemma expandStageDirectionSegments_nonempty entry :
  text entry <> [] -> expandStageDirectionSegments entry <> [].
Proof.
  intros Ht. unfold expandStageDirectionSegments.
  destruct (text entry) eqn:E; [congruence|]. simpl negb. cbv iota.
  destruct (type entry); [|discriminate].
  destruct (all_segments aside_pattern (z :: j)) as [found tail].
  match goal with |- match ?x with _ => _ end <> _ => destruct x as [|a l] end;
    [discriminate|].
  simpl. intros H. apply app_eq_nil in H as [_ H]. discriminate.
Qed.

(** With [keepEmpty], every stored line yields at least one line. *)
Lemma normalize_entry_line_nonempty l :
  pushed true (entry_of_line l) <> [].
Proof.
  rewrite pushed_base, normalizeLineEntry_line, andb_false_r.
  simpl text. destruct (sanitizeLineText (text l)) as [|c r] eqn:E; simpl negb; cbv iota.
  - discriminate.
  - pose proof (@expandStageDirectionSegments_nonempty
                  (mkLine (c :: r) (type l))) as H.
    destruct (expandStageDirectionSegments (mkLine (c :: r) (type l))) as [|a rest].
    + exfalso. apply H; simpl; congruence.
    + simpl. destruct (clean_item_keep a) as [x ->]. discriminate.
Qed.

Lemma normalize_lines_length ls :
  (length ls <= length (normalize_lines ls true))%nat.
Proof.
  rewrite normalize_lines_pushed. unfold sift.
  induction ls as [|l ls IH]; cbn [map flat_map length]; [lia|].
  rewrite length_app. pose proof (normalize_entry_line_nonempty l) as H.
  destruct (pushed true (entry_of_line l)); [congruence|].
  cbn [length]. lia.
Qed.

Lemma ensureSessionLines_index s :
  currentIndex (ensureSessionLines s) = currentIndex s.
Proof. reflexivity. Qed.

Lemma len_nonneg ls : 0 <= len ls.
Proof. unfold len. lia. Qed.

Lemma len_nil_iff ls : len ls = 0 <-> ls = [].
Proof. unfold len. destruct ls; simpl; split; intros; try congruence; lia. Qed.

(** The clamp of the broadcasts brings a non-negative index into range. *)
Lemma clamp_index_in_range s z :
  currentIndex s = JInt z -> 0 <= z -> index_in_range (clamp_index s).
Proof.
  intros Hc Hz. unfold clamp_index, index_in_range. rewrite Hc. simpl.
  pose proof (len_nonneg (lines s)) as Hl.
  destruct (len (lines s) <=? z) eqn:E; simpl.
  - apply Z.leb_le in E. destruct (lines s) as [|a r] eqn:El.
    + left. split; auto.
    + right. split; [discriminate|]. unfold len in *. simpl length in *. lia.
  - apply Z.leb_gt in E. rewrite Hc. right. split; [|lia].
    intros Hn. rewrite Hn in E. unfold len in E. simpl in E. lia.
Qed.

Lemma clamp_index_nonneg s z :
  currentIndex s = JInt z -> 0 <= z ->
  exists z', currentIndex (clamp_index s) = JInt z' /\ 0 <= z'.
Proof.
  intros Hc Hz. unfold clamp_index. rewrite Hc. simpl.
  destruct (len (lines s) <=? z); simpl; eauto. exists (Z.max (len (lines s) - 1) 0).
  split; auto. lia.
Qed.

Lemma broadcast_fst s :
  fst (broadcast s) =
  clamp_index (ensureSessionLines (clamp_index (ensureSessionLines s))).
Proof. reflexivity. Qed.

Lemma broadcast_in_range s z :
  currentIndex s = JInt z -> 0 <= z -> index_in_range (fst (broadcast s)).
Proof.
  intros Hc Hz. rewrite broadcast_fst.
  destruct (@clamp_index_nonneg (ensureSessionLines s) z Hc Hz) as (z' & Hc' & Hz').
  eapply clamp_index_in_range; [|exact Hz']. exact Hc'.
Qed.

Lemma ensureSessionLines_in_range s :
  index_in_range s -> index_in_range (ensureSessionLines s).
Proof.
  unfold index_in_range, ensureSessionLines. cbn [lines currentIndex].
  destruct (currentIndex s) as [z|]; auto.
  pose proof (normalize_lines_length (lines s)) as Hlen.
  intros [[Hn Hz]|[Hn Hz]].
  - left. rewrite Hn. split; auto.
  - right. unfold len in *.
    destruct (normalize_lines (lines s) true) eqn:En.
    + destruct (lines s); cbn [length] in *; [congruence|lia].
    + split; [discriminate|]. lia.
Qed.

Lemma in_range_index s :
  index_in_range s -> exists z, currentIndex s = JInt z /\ 0 <= z.
Proof.
  unfold index_in_range. destruct (currentIndex s) as [z|]; [|tauto].
  intros [[_ H]|[_ H]]; exists z; split; auto; lia.
Qed.

Lemma valid_index_bounds s index i :
  valid_index s index = Some i -> 0 <= Z.of_nat i < len (lines s).
Proof.
  unfold valid_index. destruct index as [z|]; [|discriminate].
  destruct ((0 <=? z) && (z <? len (lines s))) eqn:E; [|discriminate].
  intros H; inversion H; subst. apply andb_prop in E as [E1 E2].
  apply Z.leb_le in E1. apply Z.ltb_lt in E2. lia.
Qed.

Local Ltac use_broadcast :=
  match goal with
  | |- index_in_range (fst (broadcast _)) =>
    eapply broadcast_in_range; [simpl; reflexivity|]
  end.

(** The edit operations keep [currentIndex] in range when their numeric
    arguments are integers (or missing). *)
Lemma index_in_range_preserved op s :
  integer_arguments op -> index_in_range s -> index_in_range (fst (run_op op s)).
Proof.
  intros Hop Hs. destruct (in_range_index s Hs) as (z & Hc & Hz).
  destruct op; simpl run_op.
  - unfold setCurrentIndex. destruct (valid_index s index) eqn:E; [|exact Hs].
    use_broadcast. lia.
  - unfold shiftIndex. rewrite Hc.
    destruct delta; simpl in Hop; try contradiction; simpl add_delta;
      simpl Math_max; simpl Math_min;
      match goal with
      | |- context [jsnum_differs ?a ?b] => destruct (jsnum_differs a b)
      end; try exact Hs; use_broadcast; lia.
  - unfold setDisplay. eapply broadcast_in_range; [simpl; exact Hc|exact Hz].
  - unfold updateLine. destruct (valid_index s index) eqn:E; [|exact Hs].
    destruct new_text; [|exact Hs].
    destruct (nth_error (lines s) n); [|exact Hs].
    eapply broadcast_in_range; [simpl; exact Hc|exact Hz].
  - unfold setLineType. destruct (clampLineType new_type); [|exact Hs].
    destruct (valid_index s index) eqn:E; [|exact Hs].
    destruct (nth_error (lines s) n); [|exact Hs].
    eapply broadcast_in_range; [simpl; exact Hc|exact Hz].
  - unfold splitLine. destruct (valid_index s index) eqn:E; [|exact Hs].
    destruct beforeText; [|exact Hs]. destruct afterText; [|exact Hs].
    match goal with |- context [if ?c then (s, []) else _] => destruct c end;
      [exact Hs|].
    rewrite Hc. simpl jsnum_gt. destruct (Z.of_nat n <? z); simpl jsnum_add;
      use_broadcast; lia.
  - unfold insertLineAfter. destruct (valid_index s index) eqn:E; [|exact Hs].
    rewrite Hc. simpl jsnum_gt. destruct (Z.of_nat n <? z) eqn:Eg; simpl jsnum_add;
      use_broadcast; lia.
  - unfold deleteLine. destruct (valid_index s index) eqn:E; [|exact Hs].
    rewrite Hc. simpl jsnum_ge. simpl jsnum_gt.
    match goal with |- context [if ?c then JInt _ else _] => destruct c end.
    + use_broadcast. lia.
    + destruct (Z.of_nat n <? z) eqn:Eg; simpl jsnum_add; use_broadcast; [|lia].
      apply Z.ltb_lt in Eg. lia.
  - unfold replace_lines. destruct new_lines as [entries|]; [|exact Hs].
    destruct (normalizeScriptLines entries true) as [normalized|code]; [|exact Hs].
    destruct (@clamp_index_nonneg
                (mkSession normalized (currentIndex s) (displayEnabled s)) z Hc Hz)
      as (z' & Hc' & Hz').
    eapply broadcast_in_range; eauto.
  - unfold commit_lines.
    destruct (broadcast (mkSession new_lines (JInt 0) true)) as [s' ev] eqn:Eb.
    simpl. apply ensureSessionLines_in_range.
    change s' with (fst (s', ev)). rewrite <- Eb. use_broadcast. lia.
Qed.

Lemma new_session_in_range : index_in_range new_session.
Proof. left. split; reflexivity. Qed.

(** The same, along a sequence of operations from any session in range. *)
Lemma index_in_range_run_ops ops : forall s,
  Forall integer_arguments ops -> index_in_range s ->
  index_in_range (run_ops ops s).
Proof.
  induction ops as [|op ops IH]; intros s Hops Hs; simpl; auto.
  inversion Hops; subst. apply IH; auto. now apply index_in_range_preserved.
Qed.

(** C2 (the code departs from the claim).  [shiftIndex] does not check
    that [delta] is an integer, as the other handlers do for [index]: with a
    plain object for [delta] on a fresh session, [currentIndex] becomes
    [NaN], which is not in range, and the broadcast does not repair it. *)
Theorem shiftIndex_object_delta_leaves_range :
  fst (run_op (op_shiftIndex delta_object) new_session) = mkSession [] JNaN true
  /\ index_in_range new_session
  /\ ~ index_in_range (fst (run_op (op_shiftIndex delta_object) new_session)).
Proof.
  split; [vm_compute; reflexivity|]. split; [apply new_session_in_range|].
  vm_compute. tauto.
Qed.

(** The text field of the viewer payload is empty for a direction line. *)
Lemma viewer_payload_text_direction s l :
  payload_line (viewer_payload s) = Some l -> type l = direction ->
  payload_text (viewer_payload s) = [].
Proof.
  unfold viewer_payload. simpl. destruct (displayEnabled s); simpl; [|discriminate].
  destruct (0 <? len (lines s)); [|discriminate].
  intros -> ->. reflexivity.
Qed.

(** C1 (the code departs from the claim).  For a session with
    [displayEnabled] true whose current line is a direction, the viewer
    payload has an empty [text] field but its [line] field is the stored
    line, text included: two sessions that differ only in the text of the
    current direction line give different payloads, at the endpoint and in
    the broadcast. *)
Theorem viewer_payload_carries_direction_text :
  let dark := mkSession [mkLine (js "燈暗") direction] (JInt 0) true in
  let bright := mkSession [mkLine (js "燈亮") direction] (JInt 0) true in
  snd (get_viewer dark)
    = mkViewerPayload (Some (mkLine (js "燈暗") direction)) [] true
  /\ snd (get_viewer bright)
    = mkViewerPayload (Some (mkLine (js "燈亮") direction)) [] true
  /\ snd (broadcastViewerState dark)
    = [viewer_update (mkViewerPayload (Some (mkLine (js "燈暗") direction)) [] true)]
  /\ snd (get_viewer dark) <> snd (get_viewer bright).
Proof.
  repeat split; try (vm_compute; reflexivity). vm_compute. discriminate.
Qed.

End SessionFacts.

(* ================================================================== *)
(** * Uploading a script *)
(* ================================================================== *)

Module UploadFacts.

Import SessionFacts.

Local Open Scope Z_scope.

Section WithServices.

Variable JSON_parse : jstring -> option json.
Variable responses_create : nat -> nat -> jstring -> ServiceReply.
Variable Buffer_toString : list Z -> jstring -> jstring.
Variable iconv_decode : list Z -> jstring -> option jstring.

Lemma clamp_index_zero s :
  currentIndex s = JInt 0 -> currentIndex (clamp_index s) = JInt 0.
Proof.
  intros H. unfold clamp_index. rewrite H. simpl.
  pose proof (len_nonneg (lines s)).
  destruct (len (lines s) <=? 0) eqn:E; simpl; auto.
  apply Z.leb_le in E. f_equal. lia.
Qed.

Lemma clamp_index_display s :
  displayEnabled (clamp_index s) = displayEnabled s.
Proof. unfold clamp_index. destruct (jsnum_ge _ _); reflexivity. Qed.

Lemma commit_lines_resets new_lines s :
  currentIndex (fst (commit_lines new_lines s)) = JInt 0
  /\ displayEnabled (fst (commit_lines new_lines s)) = true.
Proof.
  unfold commit_lines.
  destruct (broadcast (mkSession new_lines (JInt 0) true)) as [s' ev] eqn:E.
  assert (Hs : s' = fst (broadcast (mkSession new_lines (JInt 0) true)))
    by now rewrite E.
  rewrite broadcast_fst in Hs. cbn [fst ensureSessionLines currentIndex displayEnabled].
  subst s'. split.
  - apply clamp_index_zero. rewrite ensureSessionLines_index.
    apply clamp_index_zero. reflexivity.
  - rewrite clamp_index_display. cbn [ensureSessionLines displayEnabled].
    rewrite clamp_index_display. reflexivity.
Qed.

(** C10.  Every successful upload, whether it commits the validated
    service output or the whole-script fallback, leaves the session with
    [currentIndex] 0 and [displayEnabled] true, whatever they were before,
    and answers with these values. *)
Theorem upload_commit_resets_index_and_display :
  forall apiKey file found stored events ls index enabled warning,
  upload_script JSON_parse responses_create Buffer_toString iconv_decode
                apiKey file found
    = (stored, events, uploaded ls index enabled warning) ->
  exists session,
    stored = Some session
    /\ currentIndex session = JInt 0 /\ displayEnabled session = true
    /\ index = JInt 0 /\ enabled = true.
Proof.
  intros apiKey file found stored events ls index enabled warning H.
  unfold upload_script in H.
  destruct apiKey as [[|k key]|]; try (inversion H; fail).
  destruct file as [buffer|]; try (inversion H; fail).
  match type of H with
  | context [parseScriptWithOpenAI ?a ?b ?c] =>
    destruct (parseScriptWithOpenAI a b c) as [new_lines|code]
  end.
  - pose proof (commit_lines_resets new_lines (ensureSession found)) as [Hi Hd].
    destruct (commit_lines new_lines (ensureSession found)) as [s' ev].
    simpl in Hi, Hd. inversion H; subst. exists s'. repeat split; auto.
  - match type of H with
    | context [match ?x with [] => _ | _ :: _ => _ end] =>
      destruct x as [|l fallbackLines] eqn:Ef
    end; [inversion H|].
    pose proof (commit_lines_resets (l :: fallbackLines) (ensureSession found))
      as [Hi Hd].
    destruct (commit_lines (l :: fallbackLines) (ensureSession found)) as [s' ev].
    simpl in Hi, Hd. inversion H; subst. exists s'. repeat split; auto.
Qed.

(** A chunk whose request throws an error that is not a validation code
    makes the loop of [parseScriptWithOpenAI] throw such an error. *)
Lemma parse_chunks_transport_failure :
  forall chunks index total combined k chunkText code,
  nth_error chunks k = Some chunkText ->
  responses_create (index + k) total chunkText = Failed code ->
  fallbackCodes_has code = false ->
  exists code',
    parse_chunks JSON_parse responses_create chunks index total combined
      = Throw code'
    /\ fallbackCodes_has code' = false.
Proof.
  induction chunks as [|c rest IH]; intros index total combined k chunkText code Hk Hf Hc.
  - destruct k; discriminate.
  - simpl. destruct k as [|k].
    + simpl in Hk. inversion Hk; subst. rewrite Nat.add_0_r in Hf.
      unfold parseChunk at 1. rewrite Hf. rewrite Hc. eauto.
    + simpl in Hk. replace (index + S k)%nat with (S index + k)%nat in Hf by lia.
      destruct (parseChunk JSON_parse responses_create c index total) as [l|code0].
      * eapply IH; eauto.
      * destruct (fallbackCodes_has code0) eqn:E0; [eapply IH; eauto|eauto].
Qed.

(** A response without output text makes [parseChunk] throw
    [MISSING_OUTPUT], a code of [fallbackCodes]: the loop goes on with the
    fallback segmentation of the chunk. *)
Lemma parse_chunks_missing_output chunkText rest index total combined output_text :
  responses_create index total chunkText = Replied output_text ->
  missing_output output_text ->
  parseChunk JSON_parse responses_create chunkText index total
    = Throw (Some (js "MISSING_OUTPUT"))
  /\ parse_chunks JSON_parse responses_create (chunkText :: rest) index total combined
     = parse_chunks JSON_parse responses_create rest (S index) total
         (combined ++ fallback_lines chunkText).
Proof.
  intros Hreply Hmissing.
  assert (Hthrow : parseChunk JSON_parse responses_create chunkText index total
                   = Throw (Some (js "MISSING_OUTPUT"))).
  { unfold parseChunk. rewrite Hreply.
    destruct output_text as [t|]; cbn in Hmissing; [rewrite Hmissing|]; reflexivity. }
  split; [exact Hthrow|].
  cbn [parse_chunks]. rewrite Hthrow. reflexivity.
Qed.

(** C3 (as amended).  When the request of some chunk of a run fails
    with an error that carries no code of [fallbackCodes], the run throws,
    the upload answers with an error, nothing is broadcast, and the stored
    session is the one found before the run ([lines], [currentIndex] and
    [displayEnabled] included), whatever the earlier chunks of the run
    produced.  A response without output text is no such failure: the
    chunk throws [MISSING_OUTPUT], a code of [fallbackCodes], and the run
    goes on with the fallback segmentation of the chunk. *)
Theorem transport_failure_commits_nothing :
  (forall k key buffer found k_chunk chunkText code,
   let rawText :=
     normalizePunctuation (decodeScriptBuffer Buffer_toString iconv_decode buffer) in
   let chunks := chunkScript rawText MAX_CHUNK_LENGTH in
   nth_error chunks k_chunk = Some chunkText ->
   responses_create k_chunk (length chunks) chunkText = Failed code ->
   fallbackCodes_has code = false ->
   exists code',
     upload_script JSON_parse responses_create Buffer_toString iconv_decode
                   (Some (k :: key)) (Some buffer) found
       = (Some (ensureSession found), [], failed code')
     /\ fallbackCodes_has code' = false
     /\ parseScriptWithOpenAI JSON_parse responses_create rawText = Throw code')
  /\ (forall chunkText rest index total combined output_text,
      responses_create index total chunkText = Replied output_text ->
      missing_output output_text ->
      parseChunk JSON_parse responses_create chunkText index total
        = Throw (Some (js "MISSING_OUTPUT"))
      /\ fallbackCodes_has (Some (js "MISSING_OUTPUT")) = true
      /\ parse_chunks JSON_parse responses_create (chunkText :: rest) index total
                      combined
         = parse_chunks JSON_parse responses_create rest (S index) total
             (combined ++ fallback_lines chunkText)).
Proof.
  split.
  - intros k key buffer found k_chunk chunkText code rawText chunks Hk Hf Hc.
    destruct (@parse_chunks_transport_failure chunks 0%nat (length chunks) []
                k_chunk chunkText code Hk Hf Hc) as (code' & Hp & Hc').
    exists code'.
    assert (Hrun : parseScriptWithOpenAI JSON_parse responses_create rawText
                   = Throw code').
    { unfold parseScriptWithOpenAI. fold chunks. rewrite Hp. reflexivity. }
    split; [|split; assumption].
    unfold upload_script. fold rawText. rewrite Hrun, Hc'. reflexivity.
  - intros chunkText rest index total combined output_text Hreply Hmissing.
    destruct (@parse_chunks_missing_output chunkText rest index total combined
                output_text Hreply Hmissing) as [Hthrow Hloop].
    split; [exact Hthrow|]. split; [reflexivity|exact Hloop].
Qed.

End WithServices.

(** C3 (counterexample).  A run of two chunks: the first is answered
    and accepted, the response to the second is missing entirely, which is
    no validation verdict.  The run does not abort: the second chunk
    contributes its fallback segmentation, the upload is answered with the
    lines, and the session, which held one line with the display off, now
    holds the lines of the run with the display on; both broadcasts are
    sent, with these lines. *)
Lemma missing_response_commits_the_run :
  chunkScript long_sentence_and_greeting MAX_CHUNK_LENGTH
    = [repeat (ch "a") 2498 ++ js "！"; js "你好！"]
  /\ parseChunk JSON_parse_one_string first_chunk_then_nothing (js "你好！") 1 2
     = Throw (Some (js "MISSING_OUTPUT"))
  /\ is_verdict (Some (js "MISSING_OUTPUT")) = false
  /\ upload_with_a_missing_response
     = (Some (mkSession lines_of_the_run (JInt 0) true),
        [control_update lines_of_the_run (JInt 0) true;
         viewer_update (mkViewerPayload (Some (mkLine (js "aaaa") dialogue))
                                        (js "aaaa") true)],
        uploaded lines_of_the_run (JInt 0) true false)
  /\ Some (mkSession lines_of_the_run (JInt 0) true) <> Some session_before.
Proof.
  split; [vm_compute; reflexivity|]. split; [vm_compute; reflexivity|].
  split; [vm_compute; reflexivity|]. split; [vm_compute; reflexivity|].
  discriminate.
Qed.

(** An upload that succeeds through the fallback of its only chunk, on a
    session whose display was off and whose index was 3. *)
Lemma upload_commit_resets_index_and_display_witness :
  exists session events ls index enabled warning,
    upload_script JSON_parse_rejects (always_reply "x")
                  (decode_as "你好") (iconv_as "你好")
                  (Some (js "key")) (Some [0xE4; 0xBD; 0xA0; 0xE5; 0xA5; 0xBD])
                  (Some (mkSession [] (JInt 3) false))
      = (Some session, events, uploaded ls index enabled warning)
    /\ currentIndex session = JInt 0 /\ displayEnabled session = true.
Proof.
  destruct (@upload_commit_resets_index_and_display
              JSON_parse_rejects (always_reply "x")
              (decode_as "你好") (iconv_as "你好")
              (Some (js "key")) (Some [0xE4; 0xBD; 0xA0; 0xE5; 0xA5; 0xBD])
              (Some (mkSession [] (JInt 3) false))
              (Some (mkSession [mkLine (js "你好") dialogue] (JInt 0) true))
              [control_update [mkLine (js "你好") dialogue] (JInt 0) true;
               viewer_update (mkViewerPayload (Some (mkLine (js "你好") dialogue))
                                              (js "你好") true)]
              [mkLine (js "你好") dialogue] (JInt 0) true false)
    as (session & Hs & Hi & Hd & _).
  - vm_compute. reflexivity.
  - exists session. do 5 eexists. split; [|split; assumption].
    rewrite <- Hs. vm_compute. reflexivity.
Defined.

(** A run of one chunk whose request fails with a network error code. *)
Lemma transport_failure_commits_nothing_witness :
  exists code',
    upload_script JSON_parse_rejects (fun _ _ _ => Failed (Some (js "ECONNRESET")))
                  (decode_as "你好") (iconv_as "你好")
                  (Some (js "key")) (Some [0xE4; 0xBD; 0xA0; 0xE5; 0xA5; 0xBD])
                  (Some (mkSession [mkLine (js "a") dialogue] (JInt 0) false))
      = (Some (ensureSession (Some (mkSession [mkLine (js "a") dialogue] (JInt 0) false))),
         [], failed code')
    /\ fallbackCodes_has code' = false.
Proof.
  destruct (proj1 (@transport_failure_commits_nothing
                     JSON_parse_rejects (fun _ _ _ => Failed (Some (js "ECONNRESET")))
                     (decode_as "你好") (iconv_as "你好"))
              (ch "k") (js "ey") [0xE4; 0xBD; 0xA0; 0xE5; 0xA5; 0xBD]
              (Some (mkSession [mkLine (js "a") dialogue] (JInt 0) false))
              0%nat (js "你好") (Some (js "ECONNRESET")))
    as (code' & Hu & Hc & _).
  - vm_compute. reflexivity.
  - reflexivity.
  - vm_compute. reflexivity.
  - exists code'. split; [exact Hu|exact Hc].
Defined.

End UploadFacts.

(* ================================================================== *)
(** * The decoder *)
(* ================================================================== *)

Module DecoderFacts.

Local Open Scope Z_scope.

Local Ltac bools :=
  repeat match goal with
  | H : _ && _ = true |- _ => apply andb_prop in H as [? ?]
  | H : _ || _ = true |- _ => apply orb_prop in H as [?|?]
  | H : _ || _ = false |- _ => apply orb_false_elim in H as [? ?]
  | H : (_ <=? _) = true |- _ => apply Z.leb_le in H
  | H : (_ <=? _) = false |- _ => apply Z.leb_gt in H
  | H : (_ =? _) = true |- _ => apply Z.eqb_eq in H
  | H : (_ =? _) = false |- _ => apply Z.eqb_neq in H
  | H : _ && _ = false |- _ => apply andb_false_elim in H as [?|?]
  end.

Definition indicator (b : bool) : Z := if b then 1 else 0.

Lemma count_char_counts st c :
  hanCount (count_char st c) = hanCount st + indicator (is_han c)
  /\ asciiCount (count_char st c) = asciiCount st + indicator (in_range 0x20 0x7E c)
  /\ latinSupplementCount (count_char st c)
     = latinSupplementCount st + indicator (in_range 0x80 0xFF c)
  /\ replacementCount (count_char st c)
     = replacementCount st + indicator (0xFFFD =? c)
  /\ stats_length (count_char st c) = stats_length st.
Proof.
  unfold count_char.
  destruct (c =? 0xFFFD) eqn:E1; [|destruct (is_han c) eqn:E2;
    [|destruct (in_range 0x20 0x7E c) eqn:E3;
      [|destruct (in_range 0x80 0xFF c) eqn:E4]]];
    cbn [hanCount asciiCount latinSupplementCount replacementCount stats_length].
  - apply Z.eqb_eq in E1. subst c.
    change (is_han 0xFFFD) with false. change (in_range 0x20 0x7E 0xFFFD) with false.
    change (in_range 0x80 0xFF 0xFFFD) with false.
    change (0xFFFD =? 0xFFFD) with true. unfold indicator. repeat split; lia.
  - destruct (in_range 0x20 0x7E c) eqn:A; destruct (in_range 0x80 0xFF c) eqn:B;
      destruct (0xFFFD =? c) eqn:C;
      try (unfold indicator; repeat split; lia);
      exfalso; unfold is_han, in_range in *; bools; lia.
  - destruct (in_range 0x80 0xFF c) eqn:B; destruct (0xFFFD =? c) eqn:C;
      try (unfold indicator; repeat split; lia);
      exfalso; unfold is_han, in_range in *; bools; lia.
  - destruct (0xFFFD =? c) eqn:C;
      try (unfold indicator; repeat split; lia);
      exfalso; unfold is_han, in_range in *; bools; lia.
  - destruct (0xFFFD =? c) eqn:C;
      try (unfold indicator; repeat split; lia);
      exfalso; bools; lia.
Qed.

Lemma filter_length_cons (p : Z -> bool) c l :
  Z.of_nat (length (filter p (c :: l)))
  = indicator (p c) + Z.of_nat (length (filter p l)).
Proof. simpl. destruct (p c); unfold indicator; simpl length; lia. Qed.

Lemma fold_count_char cps : forall st,
  let st' := fold_left count_char cps st in
  hanCount st' = hanCount st + Z.of_nat (length (filter is_han cps))
  /\ asciiCount st'
     = asciiCount st + Z.of_nat (length (filter (in_range 0x20 0x7E) cps))
  /\ latinSupplementCount st'
     = latinSupplementCount st + Z.of_nat (length (filter (in_range 0x80 0xFF) cps))
  /\ replacementCount st'
     = replacementCount st + Z.of_nat (length (filter (Z.eqb 0xFFFD) cps))
  /\ stats_length st' = stats_length st.
Proof.
  induction cps as [|c cps IH]; intros st.
  - simpl. repeat split; lia.
  - cbn [fold_left]. specialize (IH (count_char st c)). cbv zeta in *.
    destruct IH as (H1 & H2 & H3 & H4 & H5).
    destruct (count_char_counts st c) as (C1 & C2 & C3 & C4 & C5).
    rewrite !filter_length_cons. repeat split; lia.
Qed.

(** The four counts of [analyzeTextStats] are the numbers of code points
    in the four classes. *)
Lemma analyzeTextStats_counts text :
  let st := analyzeTextStats text in
  hanCount st = count_codepoints is_han text
  /\ asciiCount st = count_codepoints (in_range 0x20 0x7E) text
  /\ latinSupplementCount st = count_codepoints (in_range 0x80 0xFF) text
  /\ replacementCount st = count_codepoints (Z.eqb 0xFFFD) text
  /\ stats_length st = length text.
Proof.
  unfold analyzeTextStats, count_codepoints.
  destruct (fold_count_char (codepoints text) (mkStats 0 0 0 0 (length text)))
    as (H1 & H2 & H3 & H4 & H5).
  cbn [hanCount asciiCount latinSupplementCount replacementCount stats_length] in *.
  repeat split; lia.
Qed.

Lemma score_of_text text encoding :
  text <> [] ->
  scoreDecodedText (analyzeTextStats text) encoding
  = Finite (weighted_counts text + (if is_utf8_label encoding then 5 else 0)).
Proof.
  intros Hne. unfold scoreDecodedText.
  destruct (analyzeTextStats_counts text) as (H1 & H2 & H3 & H4 & H5).
  cbv zeta in *. rewrite H1, H2, H3, H4, H5.
  destruct text as [|c r]; [congruence|]. simpl Nat.eqb. cbv iota.
  unfold weighted_counts, is_utf8_label.
  destruct (str_eqb encoding (js "utf8") || str_eqb encoding (js "utf-8"));
    f_equal; lia.
Qed.

Lemma Score_ge_refl a : Score_ge a a = true.
Proof. destruct a; simpl; auto. unfold Score_ge. simpl. now rewrite Z.ltb_irrefl. Qed.

Lemma Score_gt_ge_trans a b c :
  Score_gt a b = true -> Score_ge b c = true -> Score_ge a c = true.
Proof.
  unfold Score_ge. destruct a, b, c; simpl; try discriminate; auto.
  intros H1 H2. apply Z.ltb_lt in H1. apply negb_true_iff, Z.ltb_ge in H2.
  apply negb_true_iff, Z.ltb_ge. lia.
Qed.

Lemma Score_not_gt_ge a b : Score_gt a b = false -> Score_ge b a = true.
Proof. unfold Score_ge. now intros ->. Qed.

Section WithDecoders.

Variable Buffer_toString : list Z -> jstring -> jstring.
Variable iconv_decode : list Z -> jstring -> option jstring.

Abbreviation decode := (decodeWithEncoding Buffer_toString iconv_decode).
Abbreviation score d e := (scoreDecodedText (analyzeTextStats d) e).

(** What the candidate loop has after the candidates [seen]. *)
Definition best_of (buffer : list Z) (seen : list jstring)
    (best : option jstring * Score) : Prop :=
  match best with
  | (None, sc) =>
    sc = NegInfinity
    /\ forall e d, In e seen -> decode buffer e = Some d -> d = []
  | (Some w, sc) =>
    w <> []
    /\ (exists we, In we seen /\ decode buffer we = Some w /\ sc = score w we)
    /\ forall e d, In e seen -> decode buffer e = Some d -> d <> [] ->
         Score_ge sc (score d e) = true
  end.

Lemma try_candidate_best buffer seen best e :
  best_of buffer seen best ->
  best_of buffer (seen ++ [e]) (try_candidate Buffer_toString iconv_decode buffer best e).
Proof.
  intros Hb. unfold try_candidate.
  destruct (decode buffer e) as [[|c r]|] eqn:Ed.
  - destruct best as [[w|] sc]; simpl in *.
    + destruct Hb as (Hw & (we & Hin & Hd & Hsc) & Hall). split; auto. split.
      * exists we. rewrite in_app_iff. auto.
      * intros e' d Hin' Hd' Hne. apply in_app_iff in Hin' as [Hin'|[<-|[]]].
        -- eauto.
        -- rewrite Ed in Hd'. inversion Hd'. congruence.
    + destruct Hb as (Hsc & Hall). split; auto.
      intros e' d Hin' Hd'. apply in_app_iff in Hin' as [Hin'|[<-|[]]]; eauto.
      congruence.
  - destruct (Score_gt (score (c :: r) e) (snd best)) eqn:Eg.
    + simpl. split; [discriminate|]. split.
      * exists e. rewrite in_app_iff. simpl. auto.
      * intros e' d Hin' Hd' Hne. apply in_app_iff in Hin' as [Hin'|[<-|[]]].
        -- destruct best as [[w|] sc]; simpl in *.
           ++ destruct Hb as (_ & _ & Hall). eapply Score_gt_ge_trans; eauto.
           ++ destruct Hb as (_ & Hall). exfalso. apply Hne. eauto.
        -- rewrite Ed in Hd'. inversion Hd'; subst. apply Score_ge_refl.
    + destruct best as [[w|] sc]; simpl in *.
      * destruct Hb as (Hw & (we & Hin & Hd & Hsc) & Hall). split; auto. split.
        -- exists we. rewrite in_app_iff. auto.
        -- intros e' d Hin' Hd' Hne. apply in_app_iff in Hin' as [Hin'|[<-|[]]].
           ++ eauto.
           ++ rewrite Ed in Hd'. inversion Hd'; subst. now apply Score_not_gt_ge.
      * destruct Hb as (-> & _). rewrite score_of_text in Eg by discriminate.
        discriminate.
  - destruct best as [[w|] sc]; simpl in *.
    + destruct Hb as (Hw & (we & Hin & Hd & Hsc) & Hall). split; auto. split.
      * exists we. rewrite in_app_iff. auto.
      * intros e' d Hin' Hd' Hne. apply in_app_iff in Hin' as [Hin'|[<-|[]]].
        -- eauto.
        -- congruence.
    + destruct Hb as (Hsc & Hall). split; auto.
      intros e' d Hin' Hd'. apply in_app_iff in Hin' as [Hin'|[<-|[]]]; eauto.
      congruence.
Qed.

Lemma fold_candidates_best buffer : forall rest seen best,
  best_of buffer seen best ->
  best_of buffer (seen ++ rest)
    (fold_left (try_candidate Buffer_toString iconv_decode buffer) rest best).
Proof.
  induction rest as [|e rest IH]; intros seen best Hb; simpl.
  - now rewrite app_nil_r.
  - replace (seen ++ e :: rest) with ((seen ++ [e]) ++ rest)
      by now rewrite <- app_assoc.
    apply IH. now apply try_candidate_best.
Qed.

(** The score and the selection as the code makes them.  The score of a
    non-empty decoded text is 6 per ideograph, 2 per printable ASCII
    character, minus 3 per character of the Latin-1 range outside ASCII,
    minus 20 per replacement character, plus 5 only when the candidate is
    UTF-8 (label [utf8] or [utf-8]); and when some candidate decodes to a
    non-empty text the decoder returns a non-empty decode of a candidate
    whose score is at least that of every non-empty decode (the buffer is
    not empty: an empty one is answered with the empty text before any
    decoding). *)
Theorem score_and_selection :
  (forall text encoding, text <> [] ->
     scoreDecodedText (analyzeTextStats text) encoding
     = Finite (weighted_counts text + (if is_utf8_label encoding then 5 else 0)))
  /\
  (forall buffer encoding decoded,
     buffer <> [] ->
     In encoding (candidateOrder buffer) ->
     decode buffer encoding = Some decoded -> decoded <> [] ->
     let chosen := decodeScriptBuffer Buffer_toString iconv_decode buffer in
     chosen <> []
     /\ exists winner,
          In winner (candidateOrder buffer)
          /\ decode buffer winner = Some chosen
          /\ Score_ge (score chosen winner) (score decoded encoding) = true).
Proof.
  split; [exact score_of_text|].
  intros buffer encoding decoded Hbuf Hin Hd Hne chosen.
  pose proof (@fold_candidates_best buffer (candidateOrder buffer) []
                (None, NegInfinity)) as Hb.
  simpl app in Hb.
  assert (H0 : best_of buffer [] (None, NegInfinity)).
  { simpl. split; auto. intros e d []. }
  specialize (Hb H0). subst chosen. unfold decodeScriptBuffer.
  destruct buffer as [|b0 bs]; [congruence|].
  destruct (fold_left (try_candidate Buffer_toString iconv_decode (b0 :: bs))
              (candidateOrder (b0 :: bs)) (None, NegInfinity)) as [[w|] sc].
  - simpl in Hb. destruct Hb as (Hw & (we & Hwin & Hwd & Hsc) & Hall).
    destruct w as [|c r]; [congruence|].
    assert (Hf : exists z, sc = Finite z).
    { rewrite Hsc, score_of_text by discriminate. eauto. }
    destruct Hf as (z & Hz). rewrite Hz. split; [discriminate|].
    exists we. repeat split; auto. rewrite <- Hsc. eauto.
  - simpl in Hb. destruct Hb as (_ & Hall). exfalso. apply Hne. eauto.
Qed.

End WithDecoders.

(** C6 (the code departs from the claim).  The bonus that the comment
    in [scoreDecodedText] announces for the UTF encodings is given to the
    labels [utf8] and [utf-8] only: for the one-letter text [a] and the
    candidate [utf16le], a member of the UTF family that
    [decodeWithEncoding] decodes as such, the score is 2, not the 2 + 5 of
    the claim. *)
Lemma utf16_candidate_gets_no_bonus :
  scoreDecodedText (analyzeTextStats (js "a")) (js "utf16le") = Finite 2
  /\ specified_score (js "a") (js "utf16le") = 7
  /\ scoreDecodedText (analyzeTextStats (js "a")) (js "utf16le")
     <> Finite (specified_score (js "a") (js "utf16le")).
Proof.
  repeat split; try (vm_compute; reflexivity). vm_compute. discriminate.
Qed.

(** The score and the selection at a concrete buffer: the UTF-8 bytes of
    two ideographs, which every decoder of the example reads alike. *)
Lemma score_and_selection_witness :
  scoreDecodedText (analyzeTextStats (js "你好")) (js "utf8") = Finite 17
  /\ decodeScriptBuffer (decode_as "你好") (iconv_as "你好")
       [0xE4; 0xBD; 0xA0; 0xE5; 0xA5; 0xBD] <> [].
Proof.
  destruct (score_and_selection (decode_as "你好") (iconv_as "你好")) as [Hs Hd].
  split.
  - rewrite (Hs (js "你好") (js "utf8")); [vm_compute; reflexivity|].
    vm_compute. discriminate.
  - apply (Hd [0xE4; 0xBD; 0xA0; 0xE5; 0xA5; 0xBD] (js "big5") (js "你好")).
    + discriminate.
    + vm_compute. tauto.
    + vm_compute. reflexivity.
    + vm_compute. discriminate.
Defined.

End DecoderFacts.

(* ================================================================== *)
(** * Sanitized text *)
(* ================================================================== *)

Module TextFacts.

Import RegexFacts SessionFacts.

Local Open Scope Z_scope.

Lemma next_char_plain c r : next_char false (c :: r) = Some (c, r).
Proof. destruct r; reflexivity. Qed.

Lemma trimStart_suffix s : suffix_of (trimStart s) s.
Proof.
  induction s as [|c r IH]; simpl; [apply suffix_of_refl|].
  destruct (is_space c); [|apply suffix_of_refl].
  destruct IH as [p Hp]. exists (c :: p). simpl. now rewrite <- Hp.
Qed.

(** [trim s] is a block of [s]. *)
Lemma trim_block s : exists a b, s = a ++ trim s ++ b.
Proof.
  unfold trim, trimEnd. destruct (trimStart_suffix s) as [a Ha].
  destruct (trimStart_suffix (rev (trimStart s))) as [b Hb].
  exists a, (rev b). rewrite Ha at 1. f_equal.
  apply (f_equal (@rev Z)) in Hb. rewrite rev_involutive, rev_app_distr in Hb.
  exact Hb.
Qed.

Lemma trim_in c s : In c (trim s) -> In c s.
Proof.
  intros H. destruct (trim_block s) as (a & b & ->).
  rewrite !in_app_iff. auto.
Qed.

Lemma replace_first_empty_in e c s : In c (replace_first e [] s) -> In c s.
Proof.
  destruct (replace_first_empty_parts e s) as (p & m & rest & -> & ->).
  rewrite !in_app_iff. tauto.
Qed.

Lemma stripBom_in c s : In c (stripBom s) -> In c s.
Proof.
  destruct s as [|x r]; simpl; auto. destruct (x =? 0xFEFF); simpl; auto.
Qed.

(** ** The line break pattern [/\r?\n/] *)

Lemma firstn_cons_rest (c : Z) r : firstn (length (c :: r) - length r) (c :: r) = [c].
Proof.
  assert (H : (length (c :: r) - length r)%nat = 1%nat) by (cbn [length]; lia).
  rewrite H. reflexivity.
Qed.

Lemma newline_here_lf r : match_here re_newline (10 :: r) = Some ([10], r).
Proof.
  unfold match_here. 
  assert (E : rx (unicode re_newline) (body re_newline) (10 :: r) Some = Some r).
  { destruct r; reflexivity. }
  rewrite E, firstn_cons_rest. reflexivity.
Qed.

Lemma rx_seq u a b s k : rx u (Seq a b) s k = rx u a s (fun s' => rx u b s' k).
Proof. reflexivity. Qed.

Lemma rx_chr u p s k :
  rx u (Chr p) s k =
  match next_char u s with
  | Some (c, s') => if p c then k s' else None
  | None => None
  end.
Proof. reflexivity. Qed.

(** A pattern that ends with a character class matches no empty text. *)
Lemma rx_seq_chr_shorter u a p s t :
  rx u (Seq a (Chr p)) s Some = Some t -> (length t < length s)%nat.
Proof.
  rewrite rx_seq. intros H. apply rx_suffix in H as (s1 & S1 & H).
  rewrite rx_chr in H. destruct (next_char u s1) as [[c s2]|] eqn:En; [|discriminate].
  destruct (p c); [|discriminate]. inversion H; subst.
  apply next_char_suffix in En as [_ En]. apply suffix_of_length in S1. lia.
Qed.

Lemma match_here_nonempty e s m rest :
  (forall t, rx (unicode e) (body e) s Some = Some t -> (length t < length s)%nat) ->
  match_here e s = Some (m, rest) -> m <> [] /\ (length rest < length s)%nat.
Proof.
  intros Hlt H. pose proof (match_here_app _ _ H) as Hs.
  unfold match_here in H. destruct (rx (unicode e) (body e) s Some) as [t|] eqn:E;
    [|discriminate].
  inversion H; subst m rest. specialize (Hlt t eq_refl). split; [|assumption].
  intros Hm. rewrite Hm in Hs. simpl in Hs. subst t. lia.
Qed.

Lemma newline_here_nonempty s m rest :
  match_here re_newline s = Some (m, rest) ->
  m <> [] /\ (length rest < length s)%nat.
Proof. apply match_here_nonempty. intros t. apply rx_seq_chr_shorter. Qed.

(** ** Searching with a pattern that some characters always start *)

Section Trigger.

Variable e : RegExp.
Variable T : Z -> bool.
Variable Q : jstring -> Prop.

Hypothesis e_plain : unicode e = false.
Hypothesis e_free : anchored e = false.
Hypothesis e_trigger : forall c r, T c = true -> match_here e (c :: r) <> None.
Hypothesis e_match : forall s m rest,
  match_here e s = Some (m, rest) -> m <> [] /\ Q m.

Lemma scan_plain_cons pre c r :
  scan e pre (c :: r) =
  match match_here e (c :: r) with
  | Some (m, rest) => Some (rev pre, m, rest)
  | None => scan e (c :: pre) r
  end.
Proof.
  destruct r; simpl; rewrite ?e_plain; simpl;
    destruct (match_here e _) as [[m rest]|]; reflexivity.
Qed.

Lemma scan_skips : forall s pre,
  match scan e pre s with
  | None => Forall (fun c => T c = false) s
  | Some (p, m, rest) =>
    exists skipped,
      p = rev pre ++ skipped /\ s = skipped ++ m ++ rest
      /\ Forall (fun c => T c = false) skipped /\ m <> [] /\ Q m
  end.
Proof.
  induction s as [|c r IH]; intros pre.
  - simpl. destruct (match_here e []) as [[m rest]|] eqn:E; [|constructor].
    exists []. rewrite app_nil_r. pose proof (match_here_app _ _ E).
    destruct (e_match _ E). repeat split; auto.
  - rewrite scan_plain_cons. destruct (match_here e (c :: r)) as [[m rest]|] eqn:E.
    + exists []. rewrite app_nil_r. pose proof (match_here_app _ _ E).
      destruct (e_match _ E). repeat split; auto.
    + assert (Hc : T c = false).
      { destruct (T c) eqn:Et; auto. exfalso. now apply (@e_trigger c r). }
      specialize (IH (c :: pre)). destruct (scan e (c :: pre) r) as [[[p m] rest]|].
      * destruct IH as (sk & -> & -> & Hsk & Hm). exists (c :: sk).
        simpl. rewrite <- app_assoc. simpl. repeat split; auto; tauto.
      * constructor; auto.
Qed.

Lemma segments_spec : forall fuel s,
  (length s < fuel)%nat ->
  Forall (fun gm => Forall (fun c => T c = false) (fst gm)
                    /\ snd gm <> [] /\ Q (snd gm))
         (fst (segments fuel e s))
  /\ Forall (fun c => T c = false) (snd (segments fuel e s)).
Proof.
  induction fuel as [|f IH]; intros s Hf; [lia|].
  simpl. unfold exec. rewrite e_free.
  pose proof (scan_skips s []) as Hs.
  destruct (scan e [] s) as [[[p m] rest]|].
  - destruct Hs as (sk & -> & -> & Hsk & Hm & Hq). simpl rev. simpl app.
    destruct m as [|c m]; [congruence|].
    assert (Hlen : (length rest < f)%nat).
    { rewrite !length_app in Hf. cbn [length] in Hf. lia. }
    specialize (IH rest Hlen). destruct (segments f e rest) as [l tail].
    cbn [fst snd] in *. destruct IH as [Hl Ht]. split; auto.
  - simpl. split; [constructor|assumption].
Qed.

Lemma all_segments_spec s :
  Forall (fun gm => Forall (fun c => T c = false) (fst gm)
                    /\ snd gm <> [] /\ Q (snd gm))
         (fst (all_segments e s))
  /\ Forall (fun c => T c = false) (snd (all_segments e s)).
Proof. apply segments_spec. lia. Qed.

(** What [replace_all] leaves of the text: characters that start no match,
    and the replacement. *)
Lemma replace_all_in rep c s :
  In c (replace_all e rep s) -> T c = false \/ In c rep.
Proof.
  unfold replace_all. pose proof (all_segments_spec s) as [Hl Ht].
  destruct (all_segments e s) as [l tail]. simpl in *.
  rewrite in_app_iff, in_flat_map. intros [(gm & Hin & Hc)|Hc].
  - rewrite Forall_forall in Hl. destruct (Hl gm Hin) as (Hg & _).
    apply in_app_iff in Hc as [Hc|Hc]; auto.
    rewrite Forall_forall in Hg. auto.
  - rewrite Forall_forall in Ht. auto.
Qed.

End Trigger.

(** ** [sanitizeLineText] *)

Lemma newline_trigger c r : (10 =? c) = true -> match_here re_newline (c :: r) <> None.
Proof.
  intros H. apply Z.eqb_eq in H. subst c. rewrite newline_here_lf. discriminate.
Qed.

(** A sanitized text holds no line feed. *)
Lemma sanitizeLineText_no_line_feed t : ~ In 10 (sanitizeLineText t).
Proof.
  unfold sanitizeLineText. intros H. apply trim_in in H.
  apply (@replace_all_in re_newline (Z.eqb 10) (fun _ => True)) in H.
  - destruct H as [H|H]; [discriminate|].
    vm_compute in H. destruct H as [H|[]]; discriminate.
  - reflexivity.
  - reflexivity.
  - exact newline_trigger.
  - intros s m rest Hm. apply newline_here_nonempty in Hm. tauto.
Qed.

Lemma clean_item_no_line_feed keepEmpty item l :
  In l (clean_item keepEmpty item) -> no_line_feed l.
Proof.
  assert (Hty : forall x : Line, type x = dialogue \/ type x = direction)
    by (intros x; destruct (type x); auto).
  unfold clean_item.
  destruct (negb (nonempty (sanitizeLineText (text item)))).
  - destruct keepEmpty; [|intros []]. intros [<-|[]]. split; simpl; auto.
  - repeat match goal with
           | |- In _ (if ?c then _ else _) -> _ => destruct c
           end; try (intros []; fail).
    intros [<-|[]]. split; [|apply Hty]. simpl. intros H.
    apply trim_in, replace_first_empty_in, replace_first_empty_in in H.
    now apply sanitizeLineText_no_line_feed in H.
Qed.

Lemma pushed_no_line_feed entries keepEmpty :
  Forall no_line_feed (sift keepEmpty (flat_map (pushed keepEmpty) entries)).
Proof.
  assert (H : Forall no_line_feed (flat_map (pushed keepEmpty) entries)).
  { rewrite Forall_forall. intros l Hl. apply in_flat_map in Hl as (entry & _ & Hl).
    rewrite pushed_base in Hl.
    destruct (normalizeLineEntry (Some entry) keepEmpty) as [[base|]|code];
      [|destruct Hl|destruct Hl].
    destruct (negb (nonempty (text base))).
    - destruct keepEmpty; [|destruct Hl]. destruct Hl as [<-|[]].
      split; simpl; auto. destruct (type base); auto.
    - apply in_flat_map in Hl as (item & _ & Hl).
      now apply clean_item_no_line_feed in Hl. }
  unfold sift. destruct keepEmpty; auto.
  rewrite Forall_forall in *. intros l Hl. apply filter_In in Hl as [Hl _]. auto.
Qed.

(** Every line [normalizeScriptLines] returns is free of line feeds. *)
Lemma normalizeScriptLines_no_line_feed entries keepEmpty normalized :
  normalizeScriptLines entries keepEmpty = Ok normalized ->
  Forall no_line_feed normalized.
Proof.
  intros H. rewrite (@normalizeScriptLines_returns _ _ _ H).
  apply pushed_no_line_feed.
Qed.

Lemma normalize_lines_no_line_feed ls keepEmpty :
  Forall no_line_feed (normalize_lines ls keepEmpty).
Proof. rewrite normalize_lines_pushed. apply pushed_no_line_feed. Qed.

Definition lines_clean (s : Session) : Prop := Forall no_line_feed (lines s).

Lemma clamp_index_lines s : lines (clamp_index s) = lines s.
Proof. unfold clamp_index. destruct (jsnum_ge _ _); reflexivity. Qed.

Lemma broadcast_lines_clean s : lines_clean (fst (broadcast s)).
Proof.
  rewrite broadcast_fst. unfold lines_clean. rewrite clamp_index_lines.
  apply normalize_lines_no_line_feed.
Qed.

Lemma run_op_lines_clean op s : lines_clean s -> lines_clean (fst (run_op op s)).
Proof.
  intros Hs. destruct op; simpl run_op.
  - unfold setCurrentIndex. destruct (valid_index s index); auto.
    apply broadcast_lines_clean.
  - unfold shiftIndex. destruct (jsnum_differs _ _); auto.
    apply broadcast_lines_clean.
  - apply broadcast_lines_clean.
  - unfold updateLine. destruct (valid_index s index); auto.
    destruct new_text; auto. destruct (nth_error (lines s) n); auto.
    apply broadcast_lines_clean.
  - unfold setLineType. destruct (clampLineType new_type); auto.
    destruct (valid_index s index); auto. destruct (nth_error (lines s) n); auto.
    apply broadcast_lines_clean.
  - unfold splitLine. destruct (valid_index s index); auto.
    destruct beforeText; auto. destruct afterText; auto.
    match goal with |- context [if ?c then (s, []) else _] => destruct c end; auto.
    apply broadcast_lines_clean.
  - unfold insertLineAfter. destruct (valid_index s index); auto.
    apply broadcast_lines_clean.
  - unfold deleteLine. destruct (valid_index s index); auto.
    apply broadcast_lines_clean.
  - unfold replace_lines. destruct new_lines as [entries|]; auto.
    destruct (normalizeScriptLines entries true); auto.
    apply broadcast_lines_clean.
  - unfold commit_lines. destruct (broadcast _) as [s' ev]. simpl.
    apply normalize_lines_no_line_feed.
Qed.

(** C7 (as amended).  After any sequence of operations on a session
    (the edits of the socket, the bulk replace, the commit of an upload,
    each with its normalization), every stored line has a text without line
    feed and a type that is dialogue or direction. *)
Theorem stored_lines_have_no_line_feed :
  forall ops l, In l (lines (run_ops ops new_session)) ->
  ~ In 10 (text l) /\ (type l = dialogue \/ type l = direction).
Proof.
  assert (H : forall ops s, lines_clean s -> lines_clean (run_ops ops s)).
  { induction ops as [|op ops IH]; intros s Hs; simpl; auto.
    apply IH. now apply run_op_lines_clean. }
  intros ops l Hl. specialize (H ops new_session (Forall_nil _)).
  unfold lines_clean in H. rewrite Forall_forall in H. exact (H l Hl).
Qed.

(** The statement at the line a bulk replace stores for a greeting. *)
Lemma stored_lines_have_no_line_feed_witness :
  ~ In 10 (text (mkLine (js "你好") dialogue))
  /\ (type (mkLine (js "你好") dialogue) = dialogue
      \/ type (mkLine (js "你好") dialogue) = direction).
Proof.
  apply (stored_lines_have_no_line_feed
           [op_replace_lines (Some [JStr (js "你好")])]).
  vm_compute. left. reflexivity.
Defined.

(** C7 (counterexample).  An [updateLine] whose text has a tab between
    two letters stores the tab, a control character. *)
Lemma updateLine_keeps_a_tab :
  let s := mkSession [mkLine (js "a") dialogue] (JInt 0) true in
  lines (fst (run_op (op_updateLine (Some 0) (Some [97; 9; 98]) None) s))
    = [mkLine [97; 9; 98] dialogue]
  /\ ~ no_control_character (mkLine [97; 9; 98] dialogue).
Proof.
  split; [vm_compute; reflexivity|]. vm_compute. discriminate.
Qed.

End TextFacts.

(* ================================================================== *)
(** * The chunker and the classifier *)
(* ================================================================== *)

Module ClassifierFacts.

Import RegexFacts TextFacts.

Local Open Scope Z_scope.

(** [x] occurs in [s] as a block. *)
Definition block (x s : jstring) : Prop := exists a b, s = a ++ x ++ b.

Lemma block_refl s : block s s.
Proof. exists [], []. simpl. now rewrite app_nil_r. Qed.

Lemma block_trans x y z : block x y -> block y z -> block x z.
Proof.
  intros (a & b & ->) (c & d & ->). exists (c ++ a), (b ++ d).
  now rewrite <- !app_assoc.
Qed.

Lemma startsWith_app k s : startsWith k s = true <-> exists r, s = k ++ r.
Proof.
  revert s. induction k as [|c k IH]; intros s; simpl.
  - split; eauto.
  - destruct s as [|x s]; [split; [discriminate|intros [r Hr]; discriminate]|].
    rewrite andb_true_iff, Z.eqb_eq, IH. split.
    + intros [-> [r ->]]. eauto.
    + intros [r Hr]. inversion Hr; subst. eauto.
Qed.

Lemma includes_block k s : includes k s = true <-> block k s.
Proof.
  induction s as [|x s IH]; simpl.
  - rewrite orb_false_r, startsWith_app. split.
    + intros [r Hr]. exists [], r. exact Hr.
    + intros (a & b & H). destruct a; [eauto|discriminate].
  - rewrite orb_true_iff, startsWith_app, IH. split.
    + intros [[r Hr]|(a & b & ->)].
      * exists [], r. exact Hr.
      * exists (x :: a), b. reflexivity.
    + intros (a & b & H). destruct a as [|y a].
      * left. exists b. exact H.
      * right. inversion H; subst. exists a, b. reflexivity.
Qed.

Lemma block_filter (p : Z -> bool) k s :
  forallb p k = true -> block k s -> block k (filter p s).
Proof.
  intros Hk (a & b & ->). exists (filter p a), (filter p b).
  rewrite !filter_app. f_equal. f_equal.
  clear -Hk. induction k as [|c k IH]; simpl in *; auto.
  apply andb_prop in Hk as [-> Hk]. now rewrite IH.
Qed.

Lemma block_filter_mono (p : Z -> bool) x s :
  block x s -> block (filter p x) (filter p s).
Proof.
  intros (a & b & ->). exists (filter p a), (filter p b). now rewrite !filter_app.
Qed.

(** ** Literal alternatives *)

Definition bmp (k : jstring) : Prop := Forall (fun c => c < 0x10000) k.

Lemma surrogate_pair_large h l :
  is_high_surrogate h = true -> is_low_surrogate l = true ->
  0x10000 <= surrogate_pair h l.
Proof.
  unfold is_high_surrogate, is_low_surrogate, surrogate_pair.
  rewrite !andb_true_iff, !Z.leb_le. lia.
Qed.

Lemma rx_lit u k : bmp k -> forall s K x,
  rx u (Lit k) s K = Some x -> exists r, s = k ++ r /\ K r = Some x.
Proof.
  induction k as [|c k IH]; intros Hk s K x H.
  - exists s. split; auto.
  - inversion Hk as [|? ? Hc Hk']; subst. simpl Lit in H. rewrite rx_seq, rx_chr in H.
    destruct (next_char u s) as [[d s']|] eqn:En; [|discriminate].
    destruct (c =? d) eqn:Ec; [|discriminate]. apply Z.eqb_eq in Ec. subst d.
    apply IH in H as (r & -> & H); auto.
    apply next_char_split in En as (p & -> & _ & [->|(h & l & -> & _ & Hh & Hl & Hp)]).
    + exists r. split; auto.
    + pose proof (surrogate_pair_large _ _ Hh Hl). lia.
Qed.

Lemma rx_altlits u ks : Forall bmp ks -> forall s K x,
  rx u (AltLits ks) s K = Some x ->
  exists k r, In k ks /\ s = k ++ r /\ K r = Some x.
Proof.
  induction ks as [|k ks IH]; intros Hks s K x H.
  - simpl in H. destruct (next_char u s) as [[c s']|]; discriminate.
  - inversion Hks as [|? ? Hk Hks']; subst. destruct ks as [|k' ks].
    + simpl AltLits in H. apply rx_lit in H as (r & -> & H); auto.
      exists k, r. simpl. auto.
    + change (AltLits (k :: k' :: ks)) with (Alt (Lit k) (AltLits (k' :: ks))) in H.
      simpl rx in H. destruct (rx u (Lit k) s K) as [y|] eqn:E.
      * inversion H; subst. apply rx_lit in E as (r & -> & E); auto.
        exists k, r. simpl. auto.
      * apply IH in H as (k0 & r & Hin & -> & H); auto.
        exists k0, r. split; [right; exact Hin|auto].
Qed.

(** The match that a search returns is a match at its place. *)
Lemma scan_match_here e : forall s pre p m rest,
  scan e pre s = Some (p, m, rest) -> match_here e (m ++ rest) = Some (m, rest).
Proof.
  induction s as [s IH] using length_ind.
  intros pre p m rest H. destruct s as [|c r]; simpl in H.
  - destruct (match_here e []) as [[m' rest']|] eqn:E; [|discriminate].
    inversion H; subst. now rewrite <- (match_here_app _ _ E).
  - destruct (match_here e (c :: r)) as [[m' rest']|] eqn:E.
    + inversion H; subst. now rewrite <- (match_here_app _ _ E).
    + destruct r as [|d r'].
      * apply IH in H; [assumption|simpl; lia].
      * destruct (unicode e && is_high_surrogate c && is_low_surrogate d);
          (apply IH in H; [assumption|simpl; lia]).
Qed.

Lemma exec_match_here e s p m rest :
  exec e s = Some (p, m, rest) ->
  s = p ++ m ++ rest /\ match_here e (m ++ rest) = Some (m, rest).
Proof.
  intros H. split; [now apply exec_app in H|].
  unfold exec in H. destruct (anchored e).
  - destruct (match_here e s) as [[m' r']|] eqn:E; [|discriminate].
    inversion H; subst. now rewrite <- (match_here_app _ _ E).
  - now apply scan_match_here in H.
Qed.

Lemma match_here_rx e s m rest :
  match_here e s = Some (m, rest) -> rx (unicode e) (body e) s Some = Some rest.
Proof.
  unfold match_here. destruct (rx _ _ s Some); [|discriminate].
  intros H; inversion H; reflexivity.
Qed.

(** A test with literal alternatives, followed by anything, finds one of
    them in the text. *)
Lemma test_altlits a u ks tail_re s :
  Forall bmp ks ->
  test (mkRegExp a u (Seq (AltLits ks) tail_re)) s = true ->
  exists k, In k ks /\ block k s.
Proof.
  intros Hks. unfold test.
  destruct (exec _ s) as [[[p m] rest]|] eqn:E; [|discriminate]. intros _.
  apply exec_match_here in E as [Hs Hm]. apply match_here_rx in Hm.
  cbn [unicode body] in Hm. rewrite rx_seq in Hm.
  apply rx_altlits in Hm as (k & r & Hin & Hk & _); auto.
  exists k. split; auto. exists p, r. rewrite Hs, Hk. reflexivity.
Qed.

Lemma test_altlits_bare a u ks s :
  Forall bmp ks ->
  test (mkRegExp a u (AltLits ks)) s = true ->
  exists k, In k ks /\ block k s.
Proof.
  intros Hks. unfold test.
  destruct (exec _ s) as [[[p m] rest]|] eqn:E; [|discriminate]. intros _.
  apply exec_match_here in E as [Hs Hm]. apply match_here_rx in Hm.
  cbn [unicode body] in Hm.
  apply rx_altlits in Hm as (k & r & Hin & Hk & _); auto.
  exists k. split; auto. exists p, r. rewrite Hs, Hk. reflexivity.
Qed.

(** ** Blocks kept by the classifier *)

Lemma rx_seq_eol u a s t : rx u (Seq a Eol) s Some = Some t -> t = [].
Proof.
  rewrite rx_seq. intros H. apply rx_suffix in H as (s1 & _ & H).
  destruct s1; simpl in H; [now inversion H|discriminate].
Qed.

Lemma replace_first_block a u r s :
  (a = true \/ exists r', r = Seq r' Eol) ->
  block (replace_first (mkRegExp a u r) [] s) s.
Proof.
  intros Hshape. unfold replace_first.
  destruct (exec _ s) as [[[p m] rest]|] eqn:E; [|apply block_refl].
  pose proof (exec_match_here _ _ E) as [Hs Hm]. simpl app.
  destruct Hshape as [->|(r' & ->)].
  - unfold exec in E. cbn [anchored] in E.
    destruct (match_here _ s) as [[m' rest']|]; [|discriminate].
    inversion E; subst p m' rest'. exists m, []. rewrite app_nil_r. exact Hs.
  - apply match_here_rx in Hm. cbn [unicode body] in Hm.
    apply rx_seq_eol in Hm. subst rest. rewrite app_nil_r in *.
    exists [], m. exact Hs.
Qed.

Lemma trim_is_block s : block (trim s) s.
Proof. destruct (trim_block s) as (a & b & H). now exists a, b. Qed.

Lemma slice_prefix_block n s : block (slice 0 n s) s.
Proof.
  unfold slice. simpl skipn. rewrite Nat.sub_0_r. exists [], (skipn n s).
  simpl. now rewrite firstn_skipn.
Qed.

(** ** Taking the marks out *)

Lemma mark_here p c r :
  p c = true -> match_here (re (Chr p)) (c :: r) = Some ([c], r).
Proof.
  intros Hp. unfold match_here, re. cbn [unicode body]. rewrite rx_chr, next_char_plain, Hp.
  now rewrite firstn_cons_rest.
Qed.

Lemma mark_match p s m rest :
  match_here (re (Chr p)) s = Some (m, rest) ->
  m <> [] /\ forallb p m = true.
Proof.
  intros H. pose proof (match_here_app _ _ H) as Hs.
  apply match_here_rx in H. unfold re in H. cbn [unicode body] in H.
  rewrite rx_chr in H. destruct s as [|c r]; [discriminate|]. rewrite next_char_plain in H.
  destruct (p c) eqn:Hp; [|discriminate]. inversion H; subst rest.
  assert (m = [c]).
  { apply (f_equal (@length Z)) in Hs as Hl. rewrite length_app in Hl. simpl in Hl.
    destruct m as [|x [|y m]]; simpl in *; try lia. now inversion Hs. }
  subst m. split; [discriminate|]. simpl. now rewrite Hp.
Qed.

(** [s.replace(/[class]/g, '')] keeps the characters outside the class. *)
Lemma replace_all_class p s :
  replace_all (re (Chr p)) [] s = filter (fun c => negb (p c)) s.
Proof.
  unfold replace_all.
  pose proof (@all_segments_spec (re (Chr p)) p (fun m => forallb p m = true)
                eq_refl eq_refl) as Hspec.
  assert (Htrig : forall c r, p c = true -> match_here (re (Chr p)) (c :: r) <> None).
  { intros c r Hc. rewrite (@mark_here p c r Hc). discriminate. }
  specialize (Hspec Htrig (@mark_match p) s).
  pose proof (segments_app (re (Chr p)) (S (length s)) s) as Happ.
  fold (all_segments (re (Chr p)) s) in Happ.
  destruct (all_segments (re (Chr p)) s) as [l tail]. cbn [fst snd] in *.
  destruct Hspec as [Hl Ht]. rewrite <- Happ. clear Happ.
  rewrite filter_app. f_equal.
  - induction l as [|[g m] l IH]; simpl; auto.
    inversion Hl as [|? ? (Hg & _ & Hm) Hl']; subst. simpl in Hg, Hm.
    rewrite app_nil_r, !filter_app, IH by assumption. f_equal.
    assert (Em : filter (fun c => negb (p c)) m = []).
    { clear -Hm. induction m as [|c m IH]; simpl in *; auto.
      apply andb_prop in Hm as [-> Hm]. simpl. auto. }
    rewrite Em, app_nil_r. symmetry. apply forallb_filter_id.
    rewrite forallb_forall. rewrite Forall_forall in Hg. intros c Hc.
    now rewrite (Hg c Hc).
  - symmetry. apply forallb_filter_id. rewrite forallb_forall.
    rewrite Forall_forall in Ht. intros c Hc. now rewrite (Ht c Hc).
Qed.

Lemma replace_all_set set s :
  replace_all (re (Chr (oneOf set))) [] s = filter (noneOf set) s.
Proof. apply replace_all_class. Qed.

(** ** The classifier without keywords *)

Lemma forallb_Forall_bmp ks :
  forallb (forallb (fun c => c <? 0x10000)) ks = true -> Forall bmp ks.
Proof.
  rewrite forallb_forall, Forall_forall. intros H k Hk. specialize (H k Hk).
  unfold bmp. rewrite Forall_forall. rewrite forallb_forall in H.
  intros c Hc. now apply Z.ltb_lt, H.
Qed.

Lemma vocabulary_bmp : Forall bmp rule_vocabulary.
Proof. apply forallb_Forall_bmp. vm_compute. reflexivity. Qed.

Lemma vocabulary_without_marks k :
  In k rule_vocabulary -> forallb (noneOf stripped_marks) k = true.
Proof.
  assert (H : forallb (forallb (noneOf stripped_marks)) rule_vocabulary = true)
    by (vm_compute; reflexivity).
  rewrite forallb_forall in H. apply H.
Qed.

Lemma sublist_bmp ks :
  (forall k, In k ks -> In k rule_vocabulary) -> Forall bmp ks.
Proof.
  intros H. pose proof vocabulary_bmp as Hv. rewrite Forall_forall in *. auto.
Qed.

Section NoKeyword.

Variable trimmed : jstring.
Hypothesis no_keyword : mentions_no_keyword trimmed.

Lemma keyword_not_in_block k x :
  In k rule_vocabulary -> block x trimmed -> block k x -> False.
Proof.
  intros Hk Hx Hkx. pose proof (block_trans Hkx Hx) as Hb.
  apply (@block_filter (noneOf stripped_marks)) in Hb;
    [|now apply vocabulary_without_marks].
  apply includes_block in Hb. fold (without_marks trimmed) in Hb.
  rewrite (no_keyword Hk) in Hb. discriminate.
Qed.

Lemma keyword_not_in_normalized k x :
  In k rule_vocabulary -> block x trimmed ->
  includes k (replace_all (re (Chr (oneOf stripped_marks))) [] x) = false.
Proof.
  intros Hk Hx. rewrite replace_all_set.
  destruct (includes k _) eqn:E; auto. exfalso.
  apply includes_block in E.
  pose proof (@block_filter_mono (noneOf stripped_marks) x trimmed Hx) as Hf.
  pose proof (block_trans E Hf) as Hb.
  apply includes_block in Hb. fold (without_marks trimmed) in Hb.
  rewrite (no_keyword Hk) in Hb. discriminate.
Qed.

Lemma test_words_false a u ks x :
  (forall k, In k ks -> In k rule_vocabulary) -> block x trimmed ->
  test (mkRegExp a u (AltLits ks)) x = false.
Proof.
  intros Hks Hx. destruct (test _ x) eqn:E; auto. exfalso.
  apply test_altlits_bare in E as (k & Hin & Hb); [|now apply sublist_bmp].
  eapply keyword_not_in_block; eauto.
Qed.

Lemma test_words_then_false a u ks tail_re x :
  (forall k, In k ks -> In k rule_vocabulary) -> block x trimmed ->
  test (mkRegExp a u (Seq (AltLits ks) tail_re)) x = false.
Proof.
  intros Hks Hx. destruct (test _ x) eqn:E; auto. exfalso.
  apply test_altlits in E as (k & Hin & Hb); [|now apply sublist_bmp].
  eapply keyword_not_in_block; eauto.
Qed.

Lemma test_re_words_false ks x :
  (forall k, In k ks -> In k rule_vocabulary) -> block x trimmed ->
  test (re (AltLits ks)) x = false.
Proof. apply test_words_false. Qed.

Lemma test_bol_words_false ks x :
  (forall k, In k ks -> In k rule_vocabulary) -> block x trimmed ->
  test (re_bol (AltLits ks)) x = false.
Proof. apply test_words_false. Qed.

Lemma test_bol_u_words_eol_false ks x :
  (forall k, In k ks -> In k rule_vocabulary) -> block x trimmed ->
  test (re_bol_u (Seq (AltLits ks) Eol)) x = false.
Proof. apply test_words_then_false. Qed.

Lemma keywordHits_zero x :
  block x trimmed ->
  fold_left
    (fun count keyword =>
       if includes keyword (replace_all (re (Chr (oneOf stripped_marks))) [] x)
       then (count + 1)%nat else count)
    directionKeywords 0%nat = 0%nat.
Proof.
  intros Hx.
  assert (H : forall ks n,
             (forall k, In k ks -> In k rule_vocabulary) ->
             fold_left
               (fun count keyword =>
                  if includes keyword
                       (replace_all (re (Chr (oneOf stripped_marks))) [] x)
                  then (count + 1)%nat else count) ks n = n).
  { induction ks as [|k ks IH]; intros n Hks; cbn [fold_left]; auto.
    rewrite keyword_not_in_normalized; [|apply Hks; left; reflexivity|assumption].
    apply IH. intros k' Hk'. apply Hks. now right. }
  apply H. intros k Hk. unfold rule_vocabulary. rewrite !in_app_iff. auto.
Qed.

End NoKeyword.

Local Ltac in_vocabulary :=
  intros ? ?; unfold rule_vocabulary; rewrite !in_app_iff; auto 10.

(** The rule cascade of [isLikelyDirection], once the text is sanitized,
    the bracket test is made and the keyword target is chosen. *)
Definition rule_cascade (trimmed : jstring) (isBracketWrapped : bool)
    (keywordTarget : jstring) : bool :=
  if test startsWithKeyword trimmed then true else
  if negb (test ends_with_sentence_end trimmed)
     && (length trimmed <=? 16)%nat
     && test shortKeywords trimmed then true else
  let normalized := replace_all (re (Chr (oneOf stripped_marks))) [] keywordTarget in
  let keywordHits :=
    fold_left (fun count keyword =>
                 if includes keyword normalized then (count + 1)%nat else count)
              directionKeywords 0%nat in
  if isBracketWrapped then
    (1 <=? keywordHits)%nat
    || test (re_bol_u (Seq (AltLits wrappedKeyword_words) Eol)) keywordTarget
  else
  if negb (test (re (Chr (oneOf quotation_marks))) trimmed)
     && (2 <=? keywordHits)%nat then true else
  let colonIndex := Z.max (indexOf (ch "：") trimmed) (indexOf (ch ":") trimmed) in
  if (-1 <? colonIndex) && (colonIndex <=? 6) then
    let speaker := slice 0 (Z.to_nat colonIndex) trimmed in
    test (re (AltLits speaker_words)) speaker
  else
  if (1 <=? keywordHits)%nat
     && negb (test has_sentence_end trimmed)
     && (length trimmed <=? 24)%nat
     && negb (test has_colon trimmed) then true else
  if negb (test has_sentence_end trimmed)
     && test (re (AltLits movement_words)) trimmed then true else
  false.

Definition inner_text (trimmed : jstring) : jstring :=
  trim (replace_first (re (Seq (Plus (Chr (oneOf closing_brackets))) Eol)) []
          (replace_first (re_bol (Plus (Chr (oneOf opening_brackets)))) [] trimmed)).

Lemma isLikelyDirection_cascade t :
  isLikelyDirection t =
  let trimmed := sanitizeLineText t in
  if negb (nonempty trimmed) then false else
  let wrapped := test bracketPattern trimmed in
  let inner := if wrapped then inner_text trimmed else [] in
  rule_cascade trimmed wrapped (if nonempty inner then inner else trimmed).
Proof. reflexivity. Qed.

Lemma inner_text_block trimmed : block (inner_text trimmed) trimmed.
Proof.
  unfold inner_text.
  eapply block_trans; [apply trim_is_block|].
  eapply block_trans; [apply replace_first_block; right; eauto|].
  apply replace_first_block. now left.
Qed.

Lemma rule_cascade_without_keyword trimmed wrapped target :
  mentions_no_keyword trimmed -> block target trimmed ->
  rule_cascade trimmed wrapped target = false.
Proof.
  intros Hno Ht. pose proof (block_refl trimmed) as Hself.
  unfold rule_cascade. cbv zeta.
  unfold startsWithKeyword, shortKeywords.
  rewrite (@test_bol_words_false trimmed Hno startsWithKeyword_words trimmed)
    by (assumption || in_vocabulary).
  rewrite (@test_re_words_false trimmed Hno shortKeywords_words trimmed)
    by (assumption || in_vocabulary).
  rewrite (@keywordHits_zero trimmed Hno target Ht).
  rewrite (@test_bol_u_words_eol_false trimmed Hno wrappedKeyword_words target)
    by (assumption || in_vocabulary).
  rewrite (@test_re_words_false trimmed Hno speaker_words
             (slice 0 (Z.to_nat (Z.max (indexOf (ch "：") trimmed)
                                       (indexOf (ch ":") trimmed))) trimmed))
    by (apply slice_prefix_block || in_vocabulary).
  rewrite (@test_re_words_false trimmed Hno movement_words trimmed)
    by (assumption || in_vocabulary).
  rewrite !andb_false_r. cbn [Nat.leb orb andb].
  destruct wrapped; [reflexivity|].
  destruct ((-1 <? _) && _); reflexivity.
Qed.

Lemma isLikelyDirection_without_keyword t :
  mentions_no_keyword (sanitizeLineText t) -> isLikelyDirection t = false.
Proof.
  intros Hno. rewrite isLikelyDirection_cascade. cbv zeta.
  destruct (negb (nonempty (sanitizeLineText t))); [reflexivity|].
  apply rule_cascade_without_keyword; [assumption|].
  destruct (test bracketPattern (sanitizeLineText t)).
  - destruct (nonempty (inner_text (sanitizeLineText t)));
      [apply inner_text_block|apply block_refl].
  - cbn [nonempty]. apply block_refl.
Qed.

Lemma mentions_none_check words s :
  forallb (fun k => negb (includes k (without_marks s))) words = true ->
  mentions_none words s.
Proof.
  intros H k Hk. rewrite forallb_forall in H. apply negb_true_iff. exact (H k Hk).
Qed.

Lemma mentions_no_rule_word s :
  mentions_none staging_vocabulary s -> mentions_none shortKeywords_words s ->
  mentions_none movement_words s -> mentions_no_keyword s.
Proof.
  intros Hstage Hshort Hmove k Hk. unfold rule_vocabulary in Hk.
  rewrite !in_app_iff in Hk.
  destruct Hk as [Hk|[Hk|[Hk|[Hk|[Hk|Hk]]]]];
    try (apply Hshort; exact Hk); try (apply Hmove; exact Hk);
    apply Hstage; unfold staging_vocabulary; rewrite !in_app_iff; auto.
Qed.




End ClassifierFacts.

Module ChunkerFacts.

(** C8 (the code departs from the claim).  The sentence pattern of the
    chunker takes one terminator after a run of other characters, so the
    second of two terminators in a row is in no sentence and is lost; and a
    slice of an over-limit sentence that holds only spaces is pushed as an
    empty chunk (only the last slice is tested, as [pushCurrent] tests its
    buffer). *)
Theorem chunkScript_loses_a_terminator :
  chunkScript (js "什麼？！") MAX_CHUNK_LENGTH = [js "什麼？"]
  /\ chunkScript (js "a     b") 3 = [js "a"; []; js "b"].
Proof. split; vm_compute; reflexivity. Qed.

End ChunkerFacts.

(* ================================================================== *)
(** * Length enforcement *)
(* ================================================================== *)

Module LengthFacts.

Import RegexFacts TextFacts ClassifierFacts.

Local Open Scope Z_scope.

(** ** [trim] and [sanitizeLineText] once more *)

Lemma trimStart_head s c r : trimStart s = c :: r -> is_space c = false.
Proof.
  induction s as [|x s IH]; simpl; [discriminate|].
  destruct (is_space x) eqn:E; auto. intros H. inversion H; subst. exact E.
Qed.

Lemma trimStart_fixed s :
  (forall c r, s = c :: r -> is_space c = false) -> trimStart s = s.
Proof.
  destruct s as [|c r]; auto. intros H. simpl. now rewrite (H c r eq_refl).
Qed.

Lemma trimStart_idem s : trimStart (trimStart s) = trimStart s.
Proof.
  apply trimStart_fixed. intros c r H. now apply trimStart_head in H.
Qed.

Lemma trimEnd_idem s : trimEnd (trimEnd s) = trimEnd s.
Proof. unfold trimEnd. now rewrite rev_involutive, trimStart_idem. Qed.

Lemma trimEnd_prefix s : exists q, s = trimEnd s ++ q.
Proof.
  unfold trimEnd. destruct (trimStart_suffix (rev s)) as [b Hb].
  exists (rev b). apply (f_equal (@rev Z)) in Hb.
  now rewrite rev_involutive, rev_app_distr in Hb.
Qed.

Lemma trimStart_trimEnd s : trimStart s = s -> trimStart (trimEnd s) = trimEnd s.
Proof.
  intros Hs. apply trimStart_fixed. intros c r Hc.
  destruct (trimEnd_prefix s) as [q Hq]. rewrite Hc in Hq. simpl in Hq.
  rewrite Hq in Hs. now apply trimStart_head in Hs.
Qed.

Lemma trim_trimStart s : trimStart (trim s) = trim s.
Proof. unfold trim. apply trimStart_trimEnd, trimStart_idem. Qed.

Lemma trim_idem s : trim (trim s) = trim s.
Proof.
  unfold trim at 1. rewrite trim_trimStart. unfold trim. apply trimEnd_idem.
Qed.

Lemma stripBom_trim s : stripBom (trim s) = trim s.
Proof.
  pose proof (trim_trimStart s) as H. destruct (trim s) as [|c r]; auto.
  apply trimStart_head in H. simpl. destruct (c =? 0xFEFF) eqn:E; auto.
  apply Z.eqb_eq in E. subst c. discriminate.
Qed.

Lemma trim_length s : (length (trim s) <= length s)%nat.
Proof.
  destruct (trim_block s) as (a & b & H). apply (f_equal (@length Z)) in H.
  rewrite !length_app in H. lia.
Qed.

Lemma stripBom_length s : (length (stripBom s) <= length s)%nat.
Proof. destruct s as [|c r]; simpl; auto. destruct (c =? 0xFEFF); simpl; lia. Qed.

Lemma stripBom_block s : block (stripBom s) s.
Proof.
  destruct s as [|c r]; simpl; [apply block_refl|].
  destruct (c =? 0xFEFF); [|apply block_refl]. exists [c], []. simpl.
  now rewrite app_nil_r.
Qed.

(** What the line break pattern matches holds a line feed. *)
Lemma newline_here_has_lf s m rest :
  match_here re_newline s = Some (m, rest) -> m <> [] /\ In 10 m.
Proof.
  intros H. split; [now apply newline_here_nonempty in H|].
  pose proof (match_here_app _ _ H) as Hs. apply match_here_rx in H.
  unfold re_newline, re in H. cbn [unicode body] in H. rewrite rx_seq in H.
  apply rx_suffix in H as (s1 & [p Hp] & H). rewrite rx_chr in H.
  destruct (next_char false s1) as [[c s2]|] eqn:En; [|discriminate].
  destruct (10 =? c) eqn:Ec; [|discriminate]. apply Z.eqb_eq in Ec. subst c.
  inversion H; subst s2. destruct s1 as [|x s1]; [discriminate|].
  rewrite next_char_plain in En. inversion En; subst x s1.
  assert (Hm : m = p ++ [10]).
  { apply (app_inv_tail rest). rewrite <- Hs, Hp, <- app_assoc. reflexivity. }
  rewrite Hm, in_app_iff. simpl. auto.
Qed.

Lemma replace_newlines_none rep s :
  ~ In 10 s -> replace_all re_newline rep s = s.
Proof.
  intros Hs. unfold replace_all.
  pose proof (@all_segments_spec re_newline (fun _ => false) (fun m => In 10 m)
                eq_refl eq_refl) as Hspec.
  assert (Htrig : forall c r, false = true -> match_here re_newline (c :: r) <> None)
    by discriminate.
  specialize (Hspec Htrig newline_here_has_lf s).
  pose proof (segments_app re_newline (S (length s)) s) as Happ.
  fold (all_segments re_newline s) in Happ.
  destruct (all_segments re_newline s) as [l tail]. cbn [fst snd] in *.
  destruct l as [|[g m] l]; [exact Happ|].
  exfalso. destruct Hspec as [Hl _]. apply Forall_inv in Hl as (_ & _ & Hm).
  apply Hs. rewrite <- Happ. cbn [flat_map fst snd] in *. rewrite !in_app_iff. auto.
Qed.

Lemma replace_newlines_length s :
  (length (replace_all re_newline (js " ") s) <= length s)%nat.
Proof.
  unfold replace_all.
  pose proof (@all_segments_spec re_newline (fun _ => false) (fun m => In 10 m)
                eq_refl eq_refl) as Hspec.
  assert (Htrig : forall c r, false = true -> match_here re_newline (c :: r) <> None)
    by discriminate.
  specialize (Hspec Htrig newline_here_has_lf s).
  pose proof (segments_app re_newline (S (length s)) s) as Happ.
  fold (all_segments re_newline s) in Happ.
  destruct (all_segments re_newline s) as [l tail]. cbn [fst snd] in *.
  destruct Hspec as [Hl _]. rewrite <- Happ. rewrite !length_app.
  apply Nat.add_le_mono_r. clear Happ.
  induction l as [|[g m] l IH]; cbn [flat_map fst snd]; [lia|].
  pose proof (Forall_inv Hl) as (_ & Hm & _). apply Forall_inv_tail in Hl.
  cbn [snd] in Hm. rewrite !length_app. specialize (IH Hl).
  change (length (js " ")) with 1%nat. destruct m; [congruence|]. cbn [length]. lia.
Qed.

Lemma sanitizeLineText_length s : (length (sanitizeLineText s) <= length s)%nat.
Proof.
  unfold sanitizeLineText.
  pose proof (trim_length (replace_all re_newline (js " ") (stripBom s))).
  pose proof (replace_newlines_length (stripBom s)).
  pose proof (stripBom_length s). lia.
Qed.

(** Sanitizing twice is sanitizing once. *)
Lemma sanitizeLineText_idem s :
  sanitizeLineText (sanitizeLineText s) = sanitizeLineText s.
Proof.
  pose proof (sanitizeLineText_no_line_feed s) as Hlf.
  unfold sanitizeLineText at 1. unfold sanitizeLineText in *.
  rewrite stripBom_trim, replace_newlines_none by assumption. apply trim_idem.
Qed.

(** Without line feed, sanitizing only drops a mark and white space at the
    ends. *)
Lemma sanitizeLineText_plain s :
  ~ In 10 s -> sanitizeLineText s = trim (stripBom s).
Proof.
  intros H. unfold sanitizeLineText. rewrite replace_newlines_none; auto.
  intros Hin. apply H. destruct (stripBom_block s) as (a & b & ->).
  rewrite !in_app_iff. auto.
Qed.

Lemma sanitizeLineText_block s : ~ In 10 s -> block (sanitizeLineText s) s.
Proof.
  intros H. rewrite sanitizeLineText_plain by assumption.
  eapply block_trans; [apply trim_is_block|apply stripBom_block].
Qed.

Lemma block_in c x s : block x s -> In c x -> In c s.
Proof. intros (a & b & ->) H. rewrite !in_app_iff. auto. Qed.

Lemma block_length x s : block x s -> (length x <= length s)%nat.
Proof. intros (a & b & ->). rewrite !length_app. lia. Qed.

(** ** The clause pattern *)

(** The loop of [Star] in the matcher, by name. *)
Section StarLoop.

Variable u : bool.
Variable a : regex.
Variable k : jstring -> option jstring.

Fixpoint star_loop (n : nat) (s : jstring) {struct n} : option jstring :=
  match n with
  | O => k s
  | S n' =>
    match rx u a s (fun s' =>
            if (length s' <? length s)%nat then star_loop n' s' else None) with
    | Some x => Some x
    | None => k s
    end
  end.

End StarLoop.

Lemma rx_star u a s k : rx u (Star a) s k = star_loop u a k (length s) s.
Proof. reflexivity. Qed.

(** A set of characters of the basic plane that holds no surrogate. *)
Definition plain_set (set : jstring) : Prop :=
  forall c, oneOf set c = true ->
    c < 0x10000 /\ is_high_surrogate c = false /\ is_low_surrogate c = false.

Lemma plain_set_check set :
  forallb (fun c => (c <? 0x10000) && negb (is_high_surrogate c)
                    && negb (is_low_surrogate c)) set = true ->
  plain_set set.
Proof.
  intros H c Hc. unfold oneOf in Hc. apply existsb_exists in Hc as (x & Hx & E).
  apply Z.eqb_eq in E. subst x. rewrite forallb_forall in H. specialize (H c Hx).
  apply andb_prop in H as [H H3]. apply andb_prop in H as [H1 H2].
  apply Z.ltb_lt in H1. apply negb_true_iff in H2, H3. auto.
Qed.

Lemma clause_end_plain : plain_set clause_end.
Proof. apply plain_set_check. vm_compute. reflexivity. Qed.

Lemma noneOf_pair set h l :
  plain_set set -> is_high_surrogate h = true -> is_low_surrogate l = true ->
  noneOf set (surrogate_pair h l) = true.
Proof.
  intros Hset Hh Hl. unfold noneOf. destruct (oneOf set _) eqn:E; auto.
  apply Hset in E as (E & _). pose proof (surrogate_pair_large _ _ Hh Hl). lia.
Qed.

Section Greedy.

Variable set : jstring.
Hypothesis set_plain : plain_set set.
Variable u : bool.

(** The end of a clause: nothing, or one character of the set. *)
Definition clause_tail (tl : jstring) : Prop :=
  tl = [] \/ exists c, tl = [c] /\ oneOf set c = true.

Lemma class_step h body tl :
  Forall (fun c => noneOf set c = true) (h :: body) -> clause_tail tl ->
  exists cp body',
    next_char u (h :: body ++ tl) = Some (cp, body' ++ tl)
    /\ noneOf set cp = true
    /\ Forall (fun c => noneOf set c = true) body'
    /\ (length body' <= length body)%nat.
Proof.
  intros Hb Htl. inversion Hb as [|? ? Hh Hb']; subst.
  destruct body as [|d body].
  - destruct Htl as [->|(c & -> & Hc)].
    + exists h, []. simpl. auto.
    + exists h, []. simpl. apply set_plain in Hc as (_ & _ & Hl). rewrite Hl.
      rewrite andb_false_r. auto.
  - simpl app. cbn [next_char].
    destruct (u && is_high_surrogate h && is_low_surrogate d) eqn:E.
    + apply andb_prop in E as [E El]. apply andb_prop in E as [_ Eh].
      inversion Hb' as [|? ? _ Hb'']; subst.
      exists (surrogate_pair h d), body. repeat split; auto.
      * now apply noneOf_pair.
      * simpl. lia.
    + exists h, (d :: body). repeat split; auto.
Qed.

Lemma clause_tail_stops tl k :
  clause_tail tl ->
  rx u (Chr (noneOf set)) tl k = None.
Proof.
  intros [->|(c & -> & Hc)]; rewrite rx_chr; simpl; auto.
  unfold noneOf. now rewrite Hc.
Qed.

(** The repetition of the complement class runs to the end of the clause
    body when the rest of the pattern accepts there. *)
Lemma star_class_greedy k x tl : clause_tail tl -> k tl = Some x ->
  forall n body,
  Forall (fun c => noneOf set c = true) body ->
  (length (body ++ tl) <= n)%nat ->
  star_loop u (Chr (noneOf set)) k n (body ++ tl) = Some x.
Proof.
  intros Htl Hk. induction n as [|n IH]; intros body Hb Hn.
  - destruct body; [|simpl in Hn; lia]. simpl. exact Hk.
  - cbn [star_loop]. destruct body as [|h body].
    + simpl app. rewrite clause_tail_stops by assumption. exact Hk.
    + destruct (class_step Hb Htl) as (cp & body' & En & Hcp & Hb' & Hl).
      rewrite rx_chr. simpl app. rewrite En, Hcp.
      assert (Hlt : (length (body' ++ tl) <? length (h :: body ++ tl))%nat = true).
      { apply Nat.ltb_lt. rewrite !length_app in *. cbn [length]. rewrite length_app. lia. }
      rewrite Hlt. rewrite IH; auto.
      rewrite !length_app in *. cbn [length] in Hn. lia.
Qed.

(** A clause is matched whole by the pattern of its clauses. *)
Lemma clause_matched_whole body tl :
  body <> [] -> Forall (fun c => noneOf set c = true) body -> clause_tail tl ->
  rx u (Seq (Plus (Chr (noneOf set))) (Opt (Chr (oneOf set)))) (body ++ tl) Some
  = Some [].
Proof.
  intros Hne Hb Htl. destruct body as [|h body]; [congruence|].
  unfold Plus. rewrite !rx_seq.
  destruct (class_step Hb Htl) as (cp & body' & En & Hcp & Hb' & Hl).
  rewrite rx_chr. simpl app. rewrite En, Hcp. rewrite rx_star.
  apply star_class_greedy; auto.
  destruct Htl as [->|(c & -> & Hc)].
  - reflexivity.
  - unfold Opt. cbn [rx]. cbn [next_char]. now rewrite Hc.
Qed.

End Greedy.

(** ** The texts the clause pattern leaves whole *)

Definition clauses (set : jstring) : RegExp :=
  re_u (Seq (Plus (Chr (noneOf set))) (Opt (Chr (oneOf set)))).

(** Every character but the last is outside the set; or all are in it. *)
Definition one_clause (set R : jstring) : Prop :=
  Forall (fun c => noneOf set c = true) (removelast R)
  \/ Forall (fun c => oneOf set c = true) R.

Lemma scan_hit e pre s m rest :
  match_here e s = Some (m, rest) -> scan e pre s = Some (rev pre, m, rest).
Proof. intros H. destruct s; simpl; rewrite H; reflexivity. Qed.

Lemma clauses_here_empty set : match_here (clauses set) [] = None.
Proof. reflexivity. Qed.

Lemma scan_all_in_set set : plain_set set -> forall R pre,
  Forall (fun c => oneOf set c = true) R -> scan (clauses set) pre R = None.
Proof.
  intros Hset. induction R as [|c r IH]; intros pre HR.
  - reflexivity.
  - inversion HR as [|? ? Hc Hr]; subst.
    assert (Hh : match_here (clauses set) (c :: r) = None).
    { unfold match_here, clauses, re_u, Plus. cbn [unicode body].
      rewrite !rx_seq, rx_chr.
      assert (En : next_char true (c :: r) = Some (c, r)).
      { destruct r as [|d r]; auto. cbn [next_char].
        apply Hset in Hc as (_ & -> & _). reflexivity. }
      rewrite En. unfold noneOf. now rewrite Hc. }
    destruct r as [|d r'].
    + simpl. rewrite Hh. reflexivity.
    + cbn [scan]. rewrite Hh. apply Hset in Hc as (_ & -> & _).
      rewrite andb_false_r. cbn [andb]. apply IH. assumption.
Qed.

Lemma removelast_forall (P : Z -> Prop) l : Forall P l -> Forall P (removelast l).
Proof.
  induction l as [|c l IH]; simpl; auto. intros H. inversion H; subst.
  destruct l; auto.
Qed.

(** The decomposition of a clause into a body and its end. *)
Lemma one_clause_parts set R :
  R <> [] -> Forall (fun c => noneOf set c = true) (removelast R) ->
  Forall (fun c => oneOf set c = true) R
  \/ exists body tl,
       R = body ++ tl /\ body <> []
       /\ Forall (fun c => noneOf set c = true) body /\ clause_tail set tl.
Proof.
  intros Hne Hb. pose proof (app_removelast_last 0 Hne) as HR.
  remember (removelast R) as body eqn:Eb. remember (last R 0) as c eqn:Ec0.
  clear Eb Ec0. subst R.
  destruct (oneOf set c) eqn:Ec.
  - destruct body as [|h body].
    + left. constructor; auto.
    + right. exists (h :: body), [c]. split; [reflexivity|].
      split; [discriminate|]. split; [assumption|]. right. exists c. auto.
  - right. exists (body ++ [c]), []. rewrite app_nil_r. split; [reflexivity|].
    split; [destruct body; discriminate|]. split; [|now left].
    apply Forall_app. split; auto. constructor; auto. unfold noneOf. now rewrite Ec.
Qed.

(** The sentences of a clause are the clause. *)
Lemma one_clause_sentences set R :
  plain_set set -> one_clause set R ->
  match match_all (clauses set) R with Some l => l | None => [R] end = [R].
Proof.
  intros Hset HR.
  assert (Hin : Forall (fun c => oneOf set c = true) R ->
                match match_all (clauses set) R with Some l => l | None => [R] end = [R]).
  { intros Hall. unfold match_all, all_segments. cbn [segments]. unfold exec.
    cbn [anchored clauses re_u]. fold (clauses set).
    rewrite scan_all_in_set by assumption. reflexivity. }
  destruct R as [|c0 R0]; [apply Hin; constructor|].
  destruct HR as [HR|HR]; [|now apply Hin].
  assert (Hne0 : c0 :: R0 <> []) by discriminate.
  destruct (@one_clause_parts set (c0 :: R0) Hne0 HR)
    as [Hall|(bd & tl & HRb & Hne & Hb & Htl)]; [now apply Hin|].
  assert (Hh : match_here (clauses set) (c0 :: R0) = Some (c0 :: R0, [])).
  { unfold match_here, clauses, re_u. cbn [unicode body]. rewrite HRb.
    rewrite clause_matched_whole by assumption. cbn [length]. rewrite Nat.sub_0_r.
    now rewrite firstn_all. }
  unfold match_all, all_segments. cbn [segments]. unfold exec.
  cbn [anchored clauses re_u]. fold (clauses set).
  rewrite (@scan_hit _ [] _ _ _ Hh). cbn [rev].
  destruct (length (c0 :: R0)) as [|f]; [reflexivity|].
  cbn [segments]. unfold exec. cbn [anchored clauses re_u]. reflexivity.
Qed.

Lemma clause_pattern_clauses : clause_pattern = clauses clause_end.
Proof. reflexivity. Qed.

(** A clause stays one under the taking of a block. *)
Lemma one_clause_block set X R : block X R -> one_clause set R -> one_clause set X.
Proof.
  intros (a & b & ->) [H|H].
  - destruct b as [|y b].
    + rewrite app_nil_r in H. destruct X as [|x X]; [left; constructor|].
      rewrite removelast_app in H by discriminate.
      apply Forall_app in H as [_ H]. now left.
    + rewrite app_assoc, removelast_app in H by discriminate.
      apply Forall_app in H as [H _]. apply Forall_app in H as [_ H].
      left. now apply removelast_forall.
  - right. apply Forall_app in H as [_ H]. now apply Forall_app in H as [H _].
Qed.

(** What a match of the clause pattern is. *)
Lemma rx_star_class u p : forall n s k x,
  star_loop u (Chr p) k n s = Some x ->
  exists run rest, s = run ++ rest /\ k rest = Some x
    /\ forall c, In c run ->
         p c = true \/ is_high_surrogate c = true \/ is_low_surrogate c = true.
Proof.
  assert (Hstop : forall (s : jstring) (k : jstring -> option jstring) x,
             k s = Some x ->
             exists run rest, s = run ++ rest /\ k rest = Some x
               /\ forall c, In c run ->
                    p c = true \/ is_high_surrogate c = true
                    \/ is_low_surrogate c = true).
  { intros s k x H. exists [], s. split; [reflexivity|]. split; [assumption|].
    intros c []. }
  induction n as [|n IH]; intros s k x H; [now apply Hstop|].
  cbn [star_loop] in H. rewrite rx_chr in H.
  destruct (next_char u s) as [[c s']|] eqn:En; [|now apply Hstop].
  destruct (p c) eqn:Hp; [|now apply Hstop].
  destruct (length s' <? length s)%nat; [|now apply Hstop].
  destruct (star_loop u (Chr p) k n s') as [y|] eqn:E; [|now apply Hstop].
  inversion H; subst y. apply IH in E as (run & rest & -> & Hk & Hrun).
  apply next_char_split in En
    as (q & -> & _ & [->|(h & l & -> & _ & Hh & Hl & _)]).
  - exists (c :: run), rest. split; [reflexivity|]. split; [assumption|].
    intros d [<-|Hd]; auto.
  - exists (h :: l :: run), rest. split; [reflexivity|]. split; [assumption|].
    intros d [<-|[<-|Hd]]; auto.
Qed.

Lemma clause_match_shape set s m rest :
  plain_set set -> match_here (clauses set) s = Some (m, rest) -> one_clause set m.
Proof.
  intros Hset H. pose proof (match_here_app _ _ H) as Hs.
  apply match_here_rx in H. unfold clauses, re_u, Plus in H. cbn [unicode body] in H.
  rewrite !rx_seq, rx_chr in H.
  destruct (next_char true s) as [[c s1]|] eqn:En; [|discriminate].
  destruct (noneOf set c) eqn:Hc; [|discriminate].
  rewrite rx_star in H. apply rx_star_class in H as (run & s2 & -> & H & Hrun).
  assert (Hnot : forall d, is_high_surrogate d = true \/ is_low_surrogate d = true ->
                           noneOf set d = true).
  { intros d Hd. unfold noneOf. destruct (oneOf set d) eqn:E; auto.
    apply Hset in E as (_ & E1 & E2). rewrite E1, E2 in Hd. destruct Hd; discriminate. }
  assert (Hrun' : Forall (fun d => noneOf set d = true) run).
  { rewrite Forall_forall. intros d Hd. destruct (Hrun d Hd) as [Hd'|Hd']; auto. }
  apply next_char_split in En as (q & Hq & _ & Hshape).
  assert (Hq' : Forall (fun d => noneOf set d = true) q).
  { destruct Hshape as [->|(h & l & -> & _ & Hh & Hl & _)].
    - constructor; auto.
    - constructor; [|constructor]; auto. }
  (* the optional end *)
  unfold Opt in H. cbn [rx] in H. 
  assert (Htail : exists tl, s2 = tl ++ rest /\ (length tl <= 1)%nat).
  { destruct (next_char true s2) as [[d s3]|] eqn:En2.
    - destruct (oneOf set d) eqn:Hd.
      + inversion H; subst s3.
        apply next_char_split in En2 as (q2 & -> & _ & [->|(h & l & -> & _ & Hh & Hl & Hp)]).
        * exists [d]. split; auto.
        * exfalso. apply Hset in Hd as (Hd & _).
          pose proof (surrogate_pair_large _ _ Hh Hl). lia.
      + inversion H; subst. exists []. split; auto.
    - inversion H; subst. exists []. split; auto. }
  destruct Htail as (tl & -> & Htl).
  assert (Hm : m = q ++ run ++ tl).
  { apply (app_inv_tail rest). rewrite <- Hs, Hq, <- !app_assoc. reflexivity. }
  left. rewrite Hm. destruct tl as [|t [|t' tl]]; [| |simpl in Htl; lia].
  - rewrite app_nil_r. apply removelast_forall. apply Forall_app. auto.
  - rewrite app_assoc, removelast_app by discriminate. simpl. rewrite app_nil_r.
    apply Forall_app. auto.
Qed.

Lemma star_loop_total u a k :
  (forall s, k s <> None) -> forall n s, star_loop u a k n s <> None.
Proof.
  intros Hk n s. destruct n as [|n]; cbn [star_loop]; [apply Hk|].
  destruct (rx u a s _); [discriminate|apply Hk].
Qed.

Lemma clauses_here_some set c r :
  plain_set set -> noneOf set c = true -> match_here (clauses set) (c :: r) <> None.
Proof.
  intros Hset Hc. unfold match_here, clauses, re_u, Plus. cbn [unicode body].
  rewrite !rx_seq, rx_chr.
  assert (En : exists cp s', next_char true (c :: r) = Some (cp, s')
                             /\ noneOf set cp = true).
  { destruct r as [|d r]; [exists c, []; auto|]. cbn [next_char]. cbn [andb].
    destruct (is_high_surrogate c && is_low_surrogate d) eqn:E.
    - apply andb_prop in E as [Eh El]. exists (surrogate_pair c d), r.
      split; auto. now apply noneOf_pair.
    - exists c, (d :: r). auto. }
  destruct En as (cp & s' & -> & ->). rewrite rx_star.
  match goal with
  | |- match ?t with _ => _ end <> None => destruct t eqn:E; [discriminate|]
  end.
  exfalso. revert E. apply star_loop_total. intros s.
  unfold Opt. cbn [rx]. destruct (next_char true s) as [[d s2]|]; [|discriminate].
  destruct (oneOf set d); discriminate.
Qed.

Lemma scan_none_all_in_set set : plain_set set -> forall R pre,
  scan (clauses set) pre R = None -> Forall (fun c => oneOf set c = true) R.
Proof.
  intros Hset. induction R as [|c r IH]; intros pre H; [constructor|].
  assert (Hc : oneOf set c = true).
  { destruct (oneOf set c) eqn:E; auto. exfalso.
    apply (@clauses_here_some set c r Hset); [unfold noneOf; now rewrite E|].
    destruct r; cbn [scan] in H;
      destruct (match_here (clauses set) _) as [[m rest]|]; auto; discriminate. }
  constructor; auto.
  pose proof (Hset c Hc) as (_ & Hh & _).
  destruct r as [|d r']; [constructor|].
  cbn [scan] in H. destruct (match_here (clauses set) (c :: d :: r')) as [[m rest]|];
    [discriminate|].
  rewrite Hh, andb_false_r in H. cbn [andb] in H. now apply IH in H.
Qed.

Lemma segments_nil_exec e f s tail :
  segments (S f) e s = ([], tail) -> exec e s = None.
Proof.
  cbn [segments]. destruct (exec e s) as [[[p m] rest]|]; auto.
  destruct m as [|c m].
  - destruct rest as [|c rest']; [discriminate|].
    destruct (shift_gap c (segments f e rest')); discriminate.
  - destruct (segments f e rest); discriminate.
Qed.

(** Every sentence the clause pattern cuts from a text is one clause. *)
Lemma sentences_one_clause set text sentence :
  plain_set set ->
  In sentence (match match_all (clauses set) text with Some l => l | None => [text] end) ->
  one_clause set sentence /\ block sentence text.
Proof.
  intros Hset. unfold match_all.
  pose proof (segments_app (clauses set) (S (length text)) text) as Happ.
  fold (all_segments (clauses set) text) in Happ.
  assert (Hone : forall fuel s l tail, segments fuel (clauses set) s = (l, tail) ->
                 Forall (fun gm => one_clause set (snd gm)) l).
  { induction fuel as [|f IH]; intros s l tail E; cbn [segments] in E.
    - inversion E. constructor.
    - destruct (exec (clauses set) s) as [[[p m] rest]|] eqn:Ex.
      + apply exec_match_here in Ex as [_ Hm].
        apply clause_match_shape in Hm; auto.
        destruct m as [|c m].
        * destruct rest as [|c rest'].
          -- inversion E; subst. constructor; auto.
          -- destruct (segments f (clauses set) rest') as [l' tail'] eqn:E'.
             apply IH in E'. destruct l' as [|[g' m'] l']; cbn [shift_gap] in E;
               inversion E; subst; constructor; auto.
             inversion E'; subst. constructor; auto.
        * destruct (segments f (clauses set) rest) as [l' tail'] eqn:E'.
          apply IH in E'. inversion E; subst. constructor; auto.
      + inversion E. constructor. }
  destruct (all_segments (clauses set) text) as [l tail] eqn:E.
  pose proof (Hone _ _ _ _ E) as Hl. cbn [fst snd] in *.
  destruct l as [|gm l].
  - intros [<-|[]]. split; [|apply block_refl].
    apply segments_nil_exec in E. unfold exec in E.
    cbn [anchored clauses re_u] in E. fold (clauses set) in E.
    right. now apply scan_none_all_in_set in E.
  - intros Hin. change (In sentence (map snd (gm :: l))) in Hin.
    apply in_map_iff in Hin as (gm' & <- & Hin).
    rewrite Forall_forall in Hl. split; [now apply Hl|].
    rewrite <- Happ. clear -Hin. revert Hin. generalize (gm :: l). intros l0 Hin.
    induction l0 as [|g0 l0 IH]; [destruct Hin|].
    destruct Hin as [->|Hin].
    + exists (fst gm'), (flat_map (fun gm => fst gm ++ snd gm) l0 ++ tail).
      cbn [flat_map]. now rewrite <- !app_assoc.
    + destruct (IH Hin) as (a & b & Hab). cbn [flat_map].
      exists (fst g0 ++ snd g0 ++ a), b. rewrite <- !app_assoc. now rewrite <- Hab.
Qed.

(** ** Where [findBreakPosition] cuts *)

Lemma break_before_spec p text stop : forall from,
  match break_before p text from stop with
  | Some i => nearest_break p text from stop i
  | None => no_break p text from stop
  end.
Proof.
  induction from as [|j IH]; cbn [break_before].
  - intros i Hi. lia.
  - destruct (stop <? S j)%nat eqn:Es.
    + apply Nat.ltb_lt in Es.
      assert (Hstep : match break_before p text j stop with
                      | Some i => nearest_break p text j stop i
                      | None => no_break p text j stop
                      end ->
                      ~ breaks_at p text (S j) ->
                      match break_before p text j stop with
                      | Some i => nearest_break p text (S j) stop i
                      | None => no_break p text (S j) stop
                      end).
      { intros H Hno. destruct (break_before p text j stop) as [i|].
        - destruct H as (Hi & Hb & Hn). split; [lia|]. split; auto.
          intros k Hk. destruct (Nat.eq_dec k (S j)) as [->|Hne]; auto.
          apply Hn. lia.
        - intros k Hk. destruct (Nat.eq_dec k (S j)) as [->|Hne]; auto.
          apply H. lia. }
      destruct (charAt j text) as [c|] eqn:Ec.
      * destruct (p c) eqn:Hp.
        -- split; [lia|]. split.
           ++ exists c. cbn [Nat.sub]. rewrite Nat.sub_0_r. auto.
           ++ intros k Hk. lia.
        -- apply Hstep; auto. intros (d & Hd & Hpd). cbn [Nat.sub] in Hd.
           rewrite Nat.sub_0_r, Ec in Hd. inversion Hd; subst. congruence.
      * apply Hstep; auto. intros (d & Hd & Hpd). cbn [Nat.sub] in Hd.
        rewrite Nat.sub_0_r, Ec in Hd. discriminate.
    + intros k Hk. apply Nat.ltb_ge in Es. lia.
Qed.

(** The cut is at the nearest white space at or before the limit, else at
    the nearest soft punctuation within 5 of the limit, else at the end of
    the text. *)
Lemma findBreakPosition_spec text limit :
  (limit < length text)%nat ->
  let cut := findBreakPosition text limit in
  let reach := Nat.min limit (length text - 1) in
  let window := Nat.max (limit - 5) 1 in
  (nearest_break (oneOf break_spaces) text reach 0 cut)
  \/ (no_break (oneOf break_spaces) text reach 0
      /\ nearest_break (oneOf soft_punctuation) text limit window cut)
  \/ (no_break (oneOf break_spaces) text reach 0
      /\ no_break (oneOf soft_punctuation) text limit window
      /\ cut = length text).
Proof.
  intros Hl. cbv zeta. unfold findBreakPosition.
  assert (E : (length text <=? limit)%nat = false) by (apply Nat.leb_gt; lia).
  rewrite E.
  pose proof (break_before_spec (oneOf break_spaces) text 0
                (Nat.min limit (length text - 1))) as H1.
  pose proof (break_before_spec (oneOf soft_punctuation) text
                (Nat.max (limit - 5) 1) limit) as H2.
  destruct (break_before (oneOf break_spaces) text _ 0) as [i|]; [now left|].
  destruct (break_before (oneOf soft_punctuation) text limit _) as [i|]; right; auto.
Qed.

Lemma findBreakPosition_range text limit :
  (limit < length text)%nat ->
  findBreakPosition text limit = length text
  \/ (1 <= findBreakPosition text limit <= limit
      /\ findBreakPosition text limit < length text)%nat.
Proof.
  intros Hl. destruct (findBreakPosition_spec text Hl) as [H|[[_ H]|[_ [_ H]]]];
    cbv zeta in H; auto; right; destruct H as (Hi & _); lia.
Qed.

Lemma no_break_without p text from stop :
  Forall (fun c => p c = false) text -> no_break p text from stop.
Proof.
  intros H j _ (c & Hc & Hp). unfold charAt in Hc. apply nth_error_In in Hc.
  rewrite Forall_forall in H. rewrite (H c Hc) in Hp. discriminate.
Qed.

Lemma findBreakPosition_unbreakable text limit :
  unbreakable text -> findBreakPosition text limit = length text.
Proof.
  intros Hu. unfold findBreakPosition.
  destruct (length text <=? limit)%nat eqn:E; auto.
  pose proof (break_before_spec (oneOf break_spaces) text 0
                (Nat.min limit (length text - 1))) as H1.
  pose proof (break_before_spec (oneOf soft_punctuation) text
                (Nat.max (limit - 5) 1) limit) as H2.
  assert (Hs : Forall (fun c => oneOf break_spaces c = false) text).
  { unfold unbreakable in Hu. rewrite Forall_forall in *. intros c Hc.
    destruct (Hu c Hc) as (Hsp & _ & _). unfold oneOf, break_spaces. simpl.
    destruct (c =? 32) eqn:E1; [apply Z.eqb_eq in E1; subst; discriminate|].
    destruct (c =? 12288) eqn:E2; [apply Z.eqb_eq in E2; subst; discriminate|].
    reflexivity. }
  assert (Hp : Forall (fun c => oneOf soft_punctuation c = false) text).
  { unfold unbreakable in Hu. rewrite Forall_forall in *. intros c Hc.
    destruct (Hu c Hc) as (_ & _ & Hsoft). unfold noneOf in Hsoft.
    now apply negb_true_iff in Hsoft. }
  destruct (break_before (oneOf break_spaces) text _ 0) as [i|].
  - exfalso. destruct H1 as (Hi & Hb & _).
    exact (@no_break_without _ text _ 0%nat Hs i Hi Hb).
  - destruct (break_before (oneOf soft_punctuation) text limit _) as [i|]; auto.
    exfalso. destruct H2 as (Hi & Hb & _).
    exact (@no_break_without _ text _ _ Hp i Hi Hb).
Qed.

(** ** The pieces of [chunkDialogueText] are final *)

(** A piece that a second enforcement leaves as it is. *)
Definition settled (n : nat) (R : jstring) : Prop :=
  R <> [] /\ sanitizeLineText R = R
  /\ ((length R <= n)%nat \/ chunkDialogueText R n = [R]).

Lemma nonempty_true (s : jstring) : s <> [] -> nonempty s = true.
Proof. destruct s; [congruence|reflexivity]. Qed.

Lemma nonempty_false (s : jstring) : nonempty s = false -> s = [].
Proof. destruct s; [reflexivity|discriminate]. Qed.

Lemma chunkDialogueText_whole R n :
  one_clause clause_end R -> sanitizeLineText R = R -> R <> [] ->
  ((length R <= n)%nat \/ (length R <= findBreakPosition R n)%nat) ->
  chunkDialogueText R n = [R].
Proof.
  intros Hone Hsan Hne Hcut. unfold chunkDialogueText.
  rewrite clause_pattern_clauses, one_clause_sentences
    by (assumption || apply clause_end_plain).
  cbn [flat_map]. rewrite Hsan, nonempty_true by assumption. cbn [negb].
  rewrite app_nil_r. destruct R as [|c R]; [congruence|].
  cbn [length split_remaining nonempty].
  destruct (n <? S (length R))%nat eqn:En; [|reflexivity].
  destruct Hcut as [Hcut|Hcut].
  - apply Nat.ltb_lt in En. cbn [length] in Hcut. lia.
  - apply Nat.leb_le in Hcut. cbn [length] in Hcut. rewrite Hcut. reflexivity.
Qed.

Lemma sanitized_one_clause s :
  ~ In 10 s -> one_clause clause_end s -> one_clause clause_end (sanitizeLineText s).
Proof.
  intros Hlf Hone. eapply one_clause_block; [|exact Hone].
  now apply sanitizeLineText_block.
Qed.

Lemma sanitized_no_lf s : sanitizeLineText s = s -> ~ In 10 s.
Proof. intros <-. apply sanitizeLineText_no_line_feed. Qed.

Lemma skipn_block n (s : jstring) : block (skipn n s) s.
Proof. exists (firstn n s), []. now rewrite app_nil_r, firstn_skipn. Qed.

Lemma split_remaining_settled n : forall fuel R,
  one_clause clause_end R -> sanitizeLineText R = R -> (length R <= fuel)%nat ->
  Forall (settled n) (split_remaining fuel R n).
Proof.
  induction fuel as [|fuel IH]; intros R Hone Hsan Hlen.
  - destruct R; [constructor|simpl in Hlen; lia].
  - cbn [split_remaining].
    assert (Hfinish : Forall (settled n) (if nonempty R then [R] else []) \/
                      ((n < length R)%nat /\ (findBreakPosition R n < length R)%nat)).
    { destruct R as [|c R]; [left; constructor|].
      destruct (Nat.le_gt_cases (length (c :: R)) n) as [Hle|Hgt].
      - left. constructor; [|constructor]. split; [discriminate|]. split; auto.
      - destruct (Nat.le_gt_cases (length (c :: R)) (findBreakPosition (c :: R) n))
          as [Hc|Hc]; [|right; lia].
        left. constructor; [|constructor]. split; [discriminate|]. split; auto.
        right. apply chunkDialogueText_whole; auto. discriminate. }
    destruct (n <? length R)%nat eqn:En.
    + destruct (length R <=? findBreakPosition R n)%nat eqn:Ec.
      * destruct Hfinish as [H|[_ H]]; auto. apply Nat.leb_le in Ec. lia.
      * apply Nat.ltb_lt in En. apply Nat.leb_gt in Ec.
        destruct (findBreakPosition_range R En) as [Hr|(Hr1 & Hr2)]; [lia|].
        set (cut := findBreakPosition R n) in *.
        pose proof (sanitized_no_lf Hsan) as Hlf.
        assert (Hpart : Forall (settled n)
                  (if nonempty (sanitizeLineText (slice 0 cut R))
                   then [sanitizeLineText (slice 0 cut R)] else [])).
        { destruct (sanitizeLineText (slice 0 cut R)) as [|c p] eqn:Ep;
            [constructor|]. cbn [nonempty]. constructor; [|constructor].
          split; [discriminate|]. split.
          - rewrite <- Ep. apply sanitizeLineText_idem.
          - left. rewrite <- Ep.
            pose proof (sanitizeLineText_length (slice 0 cut R)) as Hl.
            pose proof (block_length (slice_prefix_block cut R)) as Hl2.
            unfold slice in *. cbn [skipn] in *. rewrite Nat.sub_0_r in *.
            rewrite length_firstn in Hl. lia. }
        unfold slice_from.
        destruct (nonempty (sanitizeLineText (skipn cut R))) eqn:Er; cbn [negb].
        -- apply Forall_app. split; auto. apply IH.
           ++ apply sanitized_one_clause.
              ** intros Hin. apply Hlf. eapply block_in; [apply skipn_block|eauto].
              ** eapply one_clause_block; [apply skipn_block|assumption].
           ++ apply sanitizeLineText_idem.
           ++ pose proof (sanitizeLineText_length (skipn cut R)) as Hl.
              rewrite length_skipn in Hl. lia.
        -- exact Hpart.
    + destruct Hfinish as [H|[H _]]; auto. apply Nat.ltb_ge in En. lia.
Qed.

Lemma chunkDialogueText_settled text n :
  ~ In 10 text -> Forall (settled n) (chunkDialogueText text n).
Proof.
  intros Hlf. unfold chunkDialogueText. rewrite clause_pattern_clauses.
  rewrite Forall_forall. intros piece Hp. apply in_flat_map in Hp as (sentence & Hs & Hp).
  apply sentences_one_clause in Hs as [Hone Hb]; [|apply clause_end_plain].
  destruct (nonempty (sanitizeLineText sentence)); cbn [negb] in Hp; [|destruct Hp].
  assert (Hlf' : ~ In 10 sentence).
  { intros Hin. apply Hlf. eapply block_in; eauto. }
  pose proof (@split_remaining_settled n (length (sanitizeLineText sentence))
                (sanitizeLineText sentence)
                (sanitized_one_clause Hlf' Hone)
                (sanitizeLineText_idem sentence) (Nat.le_refl _)) as H.
  rewrite Forall_forall in H. now apply H.
Qed.

(** ** A second enforcement changes nothing *)

(** What [enforceLineLengths] pushes for one entry. *)
Definition enforce_entry (limit : nat) (entry : Line) : list Line :=
  if negb (nonempty (text entry)) then [] else
  if LineType_eqb (type entry) direction || (length (text entry) <=? limit)%nat
  then [entry]
  else
    flat_map
      (fun chunk =>
         let text := sanitizeLineText chunk in
         if negb (nonempty text) then [] else [mkLine text dialogue])
      (chunkDialogueText (text entry) limit).

Lemma enforceLineLengths_entries entries limit :
  enforceLineLengths entries limit = flat_map (enforce_entry limit) entries.
Proof. reflexivity. Qed.

Lemma enforceLineLengths_app a b limit :
  enforceLineLengths (a ++ b) limit
  = enforceLineLengths a limit ++ enforceLineLengths b limit.
Proof. rewrite !enforceLineLengths_entries. apply flat_map_app. Qed.

Lemma enforce_settled limit pieces :
  Forall (settled limit) pieces ->
  let made :=
    flat_map
      (fun chunk =>
         let text := sanitizeLineText chunk in
         if negb (nonempty text) then [] else [mkLine text dialogue])
      pieces in
  flat_map (enforce_entry limit) made = made.
Proof.
  cbv zeta. induction pieces as [|R pieces IH]; intros H; [reflexivity|].
  pose proof (Forall_inv H) as (Hne & Hsan & Hagain). apply Forall_inv_tail in H.
  cbn [flat_map]. rewrite Hsan, nonempty_true by assumption. cbn [negb app].
  cbn [flat_map]. rewrite IH by assumption. f_equal.
  unfold enforce_entry. cbn [text type LineType_eqb orb].
  rewrite nonempty_true by assumption. cbn [negb].
  destruct (length R <=? limit)%nat eqn:El; [reflexivity|].
  destruct Hagain as [Hle|Hw]; [apply Nat.leb_gt in El; lia|].
  rewrite Hw. cbn [flat_map]. rewrite Hsan, nonempty_true by assumption. reflexivity.
Qed.

Lemma enforce_entry_idem limit entry :
  ~ In 10 (text entry) ->
  flat_map (enforce_entry limit) (enforce_entry limit entry) = enforce_entry limit entry.
Proof.
  intros Hlf. unfold enforce_entry at 2 3.
  destruct (negb (nonempty (text entry))) eqn:Ee; [reflexivity|].
  destruct (LineType_eqb (type entry) direction || (length (text entry) <=? limit)%nat)
    eqn:Ek.
  - cbn [flat_map]. unfold enforce_entry. rewrite Ee, Ek. reflexivity.
  - apply enforce_settled. now apply chunkDialogueText_settled.
Qed.

(** Enforcing the lengths of lines without line feed a second time gives
    the same lines. *)
Lemma enforceLineLengths_idem entries limit :
  Forall (fun l => ~ In 10 (text l)) entries ->
  enforceLineLengths (enforceLineLengths entries limit) limit
  = enforceLineLengths entries limit.
Proof.
  rewrite !enforceLineLengths_entries.
  induction entries as [|e entries IH]; intros H; [reflexivity|].
  cbn [flat_map]. rewrite flat_map_app.
  rewrite IH by (now apply Forall_inv_tail in H).
  rewrite enforce_entry_idem by (now apply Forall_inv in H). reflexivity.
Qed.

End LengthFacts.

(* ================================================================== *)
(** * The claims on length enforcement and on the run *)
(* ================================================================== *)

Module PipelineFacts.

Import RegexFacts TextFacts ClassifierFacts LengthFacts.

Local Open Scope Z_scope.

Lemma unbreakable_check text :
  forallb (fun c => negb (is_space c) && noneOf clause_end c
                    && noneOf soft_punctuation c) text = true ->
  unbreakable text.
Proof.
  intros H. unfold unbreakable. rewrite Forall_forall. rewrite forallb_forall in H.
  intros c Hc. specialize (H c Hc). apply andb_prop in H as [H H3].
  apply andb_prop in H as [H1 H2]. apply negb_true_iff in H1. auto.
Qed.

Lemma unbreakable_sanitized text : unbreakable text -> sanitizeLineText text = text.
Proof.
  intros Hu. unfold unbreakable in Hu.
  assert (Hsp : Forall (fun c => is_space c = false) text).
  { rewrite Forall_forall in *. intros c Hc. now destruct (Hu c Hc). }
  assert (Hlf : ~ In 10 text).
  { intros Hin. rewrite Forall_forall in Hsp. specialize (Hsp 10 Hin). discriminate. }
  rewrite sanitizeLineText_plain by assumption.
  assert (Hbom : stripBom text = text).
  { destruct text as [|c r]; auto. simpl. destruct (c =? 0xFEFF) eqn:E; auto.
    apply Z.eqb_eq in E. subst c. apply Forall_inv in Hsp. discriminate. }
  rewrite Hbom. unfold trim.
  assert (Hstart : forall s, Forall (fun c => is_space c = false) s -> trimStart s = s).
  { intros s Hs. apply trimStart_fixed. intros c r ->. now apply Forall_inv in Hs. }
  rewrite Hstart by assumption. unfold trimEnd. rewrite Hstart.
  - apply rev_involutive.
  - now apply Forall_rev.
Qed.

Lemma unbreakable_whole text limit :
  unbreakable text -> text <> [] -> chunkDialogueText text limit = [text].
Proof.
  intros Hu Hne. apply chunkDialogueText_whole; auto.
  - left. apply removelast_forall. unfold unbreakable in Hu.
    rewrite Forall_forall in *. intros c Hc. now destruct (Hu c Hc) as (_ & H & _).
  - now apply unbreakable_sanitized.
  - right. now rewrite findBreakPosition_unbreakable.
Qed.


(** ** The run of a script *)

Section Run.

Variable JSON_parse : jstring -> option json.
Variable responses_create : nat -> nat -> jstring -> ServiceReply.

Lemma normalized_enforced_idem normalized limit :
  Forall no_line_feed normalized ->
  let ls := enforceLineLengths normalized limit in
  enforceLineLengths ls limit = ls.
Proof.
  intros H. cbv zeta. apply enforceLineLengths_idem.
  rewrite Forall_forall in *. intros l Hl. now destruct (H l Hl).
Qed.

Lemma sanitizeModelLines_ok parsed sourceText cleaned :
  sanitizeModelLines parsed sourceText = Ok cleaned ->
  cleaned <> [] /\ enforceLineLengths cleaned MAX_LINE_LENGTH = cleaned.
Proof.
  unfold sanitizeModelLines.
  destruct (normalizeScriptLines parsed false) as [normalized|code] eqn:En;
    [|discriminate].
  cbv zeta.
  pose proof (@normalized_enforced_idem normalized MAX_LINE_LENGTH
                (@normalizeScriptLines_no_line_feed _ _ _ En)) as Hidem.
  cbv zeta in Hidem.
  destruct (enforceLineLengths normalized MAX_LINE_LENGTH)
    as [|l ls] eqn:E; [discriminate|].
  destruct (forallb _ (l :: ls)); [discriminate|].
  destruct (filter _ (l :: ls)); [|discriminate].
  intros H; inversion H; subst. split; [discriminate|assumption].
Qed.

Lemma parseChunk_ok chunkText index total validated :
  parseChunk JSON_parse responses_create chunkText index total = Ok validated ->
  validated <> [] /\ enforceLineLengths validated MAX_LINE_LENGTH = validated.
Proof.
  unfold parseChunk.
  destruct (responses_create index total chunkText) as [code|output_text];
    [discriminate|].
  destruct (negb (nonempty _)); [discriminate|].
  destruct (parseJsonArrayLoose JSON_parse _) as [[| | | |parsed|]|code];
    try discriminate.
  apply sanitizeModelLines_ok.
Qed.

Lemma fallback_lines_enforced chunkText :
  enforceLineLengths (fallback_lines chunkText) MAX_LINE_LENGTH
  = fallback_lines chunkText.
Proof.
  unfold fallback_lines. apply normalized_enforced_idem.
  apply normalize_lines_no_line_feed.
Qed.

Lemma chunk_lines_enforced chunkText index total :
  let ls := chunk_lines JSON_parse responses_create chunkText index total in
  enforceLineLengths ls MAX_LINE_LENGTH = ls.
Proof.
  cbv zeta. unfold chunk_lines.
  destruct (parseChunk JSON_parse responses_create chunkText index total) eqn:E.
  - now apply parseChunk_ok in E.
  - apply fallback_lines_enforced.
Qed.

Lemma lines_in_order_enforced total : forall chunks index,
  let ls := lines_in_order JSON_parse responses_create chunks index total in
  enforceLineLengths ls MAX_LINE_LENGTH = ls.
Proof.
  cbv zeta. induction chunks as [|c chunks IH]; intros index; [reflexivity|].
  cbn [lines_in_order]. rewrite enforceLineLengths_app, IH.
  now rewrite chunk_lines_enforced.
Qed.

Lemma verdict_triggers_fallback code :
  is_verdict code = true -> fallbackCodes_has code = true.
Proof.
  destruct code as [c|]; [|discriminate]. unfold is_verdict, fallbackCodes_has.
  unfold validation_verdicts, fallbackCodes. cbn [existsb].
  rewrite !orb_false_r. rewrite !orb_true_iff. tauto.
Qed.

(** With every chunk accepted or rejected with a verdict, the loop returns
    the contributions of the chunks in chunk order. *)
Lemma parse_chunks_in_order total : forall chunks index combined,
  (forall k chunkText, nth_error chunks k = Some chunkText ->
     judged JSON_parse responses_create chunkText (index + k) total) ->
  parse_chunks JSON_parse responses_create chunks index total combined
  = Ok (combined ++ lines_in_order JSON_parse responses_create chunks index total).
Proof.
  induction chunks as [|c chunks IH]; intros index combined Hj.
  - cbn [parse_chunks lines_in_order]. now rewrite app_nil_r.
  - cbn [parse_chunks lines_in_order]. unfold chunk_lines.
    pose proof (Hj 0%nat c eq_refl) as H0. rewrite Nat.add_0_r in H0.
    unfold judged in H0.
    assert (Hrest : forall k chunkText, nth_error chunks k = Some chunkText ->
              judged JSON_parse responses_create chunkText (S index + k) total).
    { intros k ct Hk. specialize (Hj (S k) ct Hk).
      now replace (index + S k)%nat with (S index + k)%nat in Hj by lia. }
    destruct (parseChunk JSON_parse responses_create c index total) as [v|code].
    + rewrite IH by assumption. now rewrite <- app_assoc.
    + rewrite (verdict_triggers_fallback _ H0), IH by assumption.
      now rewrite <- app_assoc.
Qed.

(** C5 (as amended).  When every chunk of a script is accepted or
    rejected with one of the four verdicts, each rejected chunk contributes
    its fallback segmentation and each accepted chunk its validated output;
    if the concatenation of the contributions in chunk order is not empty
    the run returns exactly it, and if it is empty the run throws
    [EMPTY_OUTPUT].  For two chunks with the first accepted and the second
    rejected the run returns the validated output of the first followed by
    the fallback segmentation of the second. *)
Theorem run_returns_contributions_in_chunk_order :
  (forall rawText,
     let chunks := chunkScript rawText MAX_CHUNK_LENGTH in
     let all := lines_in_order JSON_parse responses_create chunks 0 (length chunks) in
     (forall k chunkText, nth_error chunks k = Some chunkText ->
        judged JSON_parse responses_create chunkText k (length chunks)) ->
     (all <> [] ->
      parseScriptWithOpenAI JSON_parse responses_create rawText = Ok all)
     /\ (all = [] ->
         parseScriptWithOpenAI JSON_parse responses_create rawText
         = Throw (Some (js "EMPTY_OUTPUT"))))
  /\ (forall rawText first second validated code,
        chunkScript rawText MAX_CHUNK_LENGTH = [first; second] ->
        parseChunk JSON_parse responses_create first 0 2 = Ok validated ->
        parseChunk JSON_parse responses_create second 1 2 = Throw code ->
        is_verdict code = true ->
        parseScriptWithOpenAI JSON_parse responses_create rawText
        = Ok (validated ++ fallback_lines second)).
Proof.
  assert (Hgeneral : forall rawText,
     let chunks := chunkScript rawText MAX_CHUNK_LENGTH in
     let all := lines_in_order JSON_parse responses_create chunks 0 (length chunks) in
     (forall k chunkText, nth_error chunks k = Some chunkText ->
        judged JSON_parse responses_create chunkText k (length chunks)) ->
     (all <> [] ->
      parseScriptWithOpenAI JSON_parse responses_create rawText = Ok all)
     /\ (all = [] ->
         parseScriptWithOpenAI JSON_parse responses_create rawText
         = Throw (Some (js "EMPTY_OUTPUT")))).
  { intros rawText chunks all Hj. unfold parseScriptWithOpenAI. fold chunks.
    rewrite (@parse_chunks_in_order (length chunks) chunks 0%nat [] Hj).
    cbn [app]. fold all.
    pose proof (lines_in_order_enforced (length chunks) chunks 0) as Hidem.
    cbv zeta in Hidem. fold all in Hidem.
    destruct all as [|l ls]; split; intros H; try congruence;
      try (now rewrite Hidem). }
  split; [exact Hgeneral|].
  intros rawText first second validated code Hchunks H1 H2 Hv.
  specialize (Hgeneral rawText). cbv zeta in Hgeneral. rewrite Hchunks in Hgeneral.
  cbn [length lines_in_order] in Hgeneral. unfold chunk_lines in Hgeneral.
  rewrite H1, H2, app_nil_r in Hgeneral.
  assert (Hj : forall k chunkText, nth_error [first; second] k = Some chunkText ->
            judged JSON_parse responses_create chunkText k 2).
  { intros [|[|k]] ct Hk; cbn [nth_error] in Hk.
    - inversion Hk; subst. unfold judged. now rewrite H1.
    - inversion Hk; subst. unfold judged. now rewrite H2.
    - destruct k; discriminate. }
  destruct (Hgeneral Hj) as [Hok _].
  apply Hok. apply parseChunk_ok in H1 as [Hne _].
  destruct validated; [congruence|discriminate].
Qed.

End Run.

(** C5 (counterexample).  A script that is one exclamation mark is one
    chunk; the service answers with an empty array, which is rejected with
    the verdict [EMPTY_OUTPUT]; the fallback segmentation of the chunk is
    empty too, and the run throws instead of returning the concatenation. *)
Lemma rejected_only_chunk_aborts_run :
  chunkScript (js "！") MAX_CHUNK_LENGTH = [js "！"]
  /\ parseChunk JSON_parse_empty_array (always_reply "[]") (js "！") 0 1
     = Throw (Some (js "EMPTY_OUTPUT"))
  /\ is_verdict (Some (js "EMPTY_OUTPUT")) = true
  /\ fallback_lines (js "！") = []
  /\ parseScriptWithOpenAI JSON_parse_empty_array (always_reply "[]") (js "！")
     = Throw (Some (js "EMPTY_OUTPUT")).
Proof. repeat split; vm_compute; reflexivity. Qed.

(** The amended statement at a script of two chunks, the first accepted
    and the second answered with a text that is not JSON. *)
Lemma run_returns_contributions_in_chunk_order_witness :
  parseScriptWithOpenAI JSON_parse_one_string first_chunk_only two_chunk_script
  = Ok ([mkLine (js "aaaa") dialogue]
          ++ fallback_lines (repeat (ch "b") 2000 ++ js "！")).
Proof.
  destruct (run_returns_contributions_in_chunk_order
              JSON_parse_one_string first_chunk_only) as [_ Htwo].
  apply (Htwo two_chunk_script (repeat (ch "a") 2000 ++ js "！")
              (repeat (ch "b") 2000 ++ js "！")
              [mkLine (js "aaaa") dialogue]
              (Some (js "INVALID_JSON"))).
  - vm_compute. reflexivity.
  - vm_compute. reflexivity.
  - vm_compute. reflexivity.
  - vm_compute. reflexivity.
Defined.

End PipelineFacts.

(* ================================================================== *)
(** * The loops end before their bound *)
(* ================================================================== *)

Module Termination.

Import RegexFacts TextFacts ClassifierFacts LengthFacts.

(** The search for all matches needs no more turns than the text has
    characters, plus one: more fuel gives the same segments. *)
Lemma segments_fuel e : forall f1 f2 s,
  (length s < f1)%nat -> (length s < f2)%nat ->
  segments f1 e s = segments f2 e s.
Proof.
  induction f1 as [|f1 IH]; intros f2 s H1 H2; [lia|].
  destruct f2 as [|f2]; [lia|]. cbn [segments].
  destruct (exec e s) as [[[p m] rest]|] eqn:E; [|reflexivity].
  apply exec_app in E. apply (f_equal (@length Z)) in E.
  rewrite !length_app in E. destruct m as [|c m].
  - destruct rest as [|c rest']; [reflexivity|]. cbn [length] in E.
    rewrite (IH f2 rest') by lia. reflexivity.
  - cbn [length] in E. rewrite (IH f2 rest) by lia. reflexivity.
Qed.

Lemma all_segments_fuel e s f :
  (length s < f)%nat -> segments f e s = all_segments e s.
Proof. intros H. apply segments_fuel; [assumption|lia]. Qed.

(** The cutting loop of [chunkDialogueText] ends within [length remaining]
    turns. *)
Lemma split_remaining_fuel limit : forall f1 f2 remaining,
  (length remaining <= f1)%nat -> (length remaining <= f2)%nat ->
  split_remaining f1 remaining limit = split_remaining f2 remaining limit.
Proof.
  assert (Hnil : forall f, split_remaining f [] limit = []).
  { intros [|f]; reflexivity. }
  induction f1 as [|f1 IH]; intros f2 R H1 H2.
  - destruct R; [|cbn [length] in H1; lia]. now rewrite !Hnil.
  - destruct f2 as [|f2].
    + destruct R; [|cbn [length] in H2; lia]. now rewrite !Hnil.
    + cbn [split_remaining].
      destruct (limit <? length R)%nat eqn:En; [|reflexivity].
      destruct (length R <=? findBreakPosition R limit)%nat eqn:Ec; [reflexivity|].
      apply Nat.ltb_lt in En. apply Nat.leb_gt in Ec.
      destruct (findBreakPosition_range R En) as [Hr|(Hr1 & Hr2)]; [lia|].
      destruct (negb (nonempty _)); [reflexivity|]. f_equal.
      pose proof (sanitizeLineText_length
                    (slice_from (findBreakPosition R limit) R)) as Hl.
      unfold slice_from in *. rewrite length_skipn in Hl.
      apply IH; lia.
Qed.

(** The slicing loop of [chunkLongUnit] ends within [length unit] turns
    when the limit is positive. *)
Lemma chunkLongUnit_loop_fuel limit : (0 < limit)%nat -> forall f1 f2 remaining,
  (length remaining <= f1)%nat -> (length remaining <= f2)%nat ->
  chunkLongUnit_loop f1 remaining limit = chunkLongUnit_loop f2 remaining limit.
Proof.
  intros Hpos.
  assert (Hshort : forall f R, (length R <= limit)%nat ->
            chunkLongUnit_loop f R limit
            = if (0 <? length (trim R))%nat then [R] else []).
  { intros [|f] R HR; cbn [chunkLongUnit_loop]; auto.
    destruct (limit <? length R)%nat eqn:E; auto. apply Nat.ltb_lt in E. lia. }
  induction f1 as [|f1 IH]; intros f2 R H1 H2.
  - rewrite !Hshort by lia. reflexivity.
  - destruct f2 as [|f2]; [rewrite !Hshort by lia; reflexivity|].
    cbn [chunkLongUnit_loop].
    destruct (limit <? length R)%nat eqn:En; [|reflexivity].
    apply Nat.ltb_lt in En. f_equal. unfold slice_from.
    apply IH; rewrite length_skipn; lia.
Qed.

End Termination.

(* ================================================================== *)
(** * Every request keeps the index in range *)
(* ================================================================== *)

Module EndpointFacts.

Import RegexFacts SessionFacts TextFacts Endpoints.

Local Open Scope Z_scope.

Lemma broadcastControlState_fst s :
  fst (broadcastControlState s) = clamp_index (ensureSessionLines s).
Proof. reflexivity. Qed.

Lemma broadcastViewerState_fst s :
  fst (broadcastViewerState s) = clamp_index (ensureSessionLines s).
Proof. reflexivity. Qed.

Lemma normalized_in_range s :
  index_in_range s -> index_in_range (clamp_index (ensureSessionLines s)).
Proof.
  intros H. destruct (in_range_index s H) as (z & Hz & Hz0).
  eapply clamp_index_in_range; [|exact Hz0].
  rewrite ensureSessionLines_index. exact Hz.
Qed.

Lemma handle_in_range request s :
  integer_request request -> index_in_range s ->
  index_in_range (fst (handle request s)).
Proof.
  destruct request as [op|index|enabled| | |viewer]; cbn [handle integer_request fst].
  - apply index_in_range_preserved.
  - intros _ H. unfold post_current.
    destruct (jsnum_lt _ 0 || jsnum_ge _ _) eqn:E; [exact H|].
    destruct (broadcast _) as [s' ev] eqn:B. cbn [fst].
    change s' with (fst (s', ev)). rewrite <- B.
    apply orb_false_elim in E as [E1 E2].
    destruct index as [z|].
    + eapply broadcast_in_range; [reflexivity|].
      cbn in E1. apply Z.ltb_ge in E1. exact E1.
    + destruct (in_range_index s H) as (z & Hz & Hz0).
      eapply broadcast_in_range; [cbn [currentIndex]; exact Hz|exact Hz0].
  - intros _ H. unfold post_display.
    destruct (broadcast _) as [s' ev] eqn:B. cbn [fst].
    change s' with (fst (s', ev)). rewrite <- B.
    destruct (in_range_index s H) as (z & Hz & Hz0).
    eapply broadcast_in_range; [cbn [currentIndex]; exact Hz|exact Hz0].
  - intros _ H. cbn. apply ensureSessionLines_in_range, H.
  - intros _ H. cbn [get_viewer fst]. apply normalized_in_range, H.
  - intros _ H. unfold on_join. cbn [ensureSession].
    destruct viewer.
    + rewrite broadcastViewerState_fst. apply normalized_in_range, H.
    + rewrite broadcastControlState_fst. apply normalized_in_range, H.
Qed.

(** X1.  Whatever sequence of requests a known session receives (the socket
    events, the HTTP endpoints, the commit of an upload), as long as every
    numeric argument is an integer or is missing, [currentIndex] stays an
    integer inside the line list, and is 0 when the list is empty. *)
Theorem currentIndex_stays_in_range :
  forall requests s,
    Forall integer_request requests -> index_in_range s ->
    index_in_range (handle_all requests s).
Proof.
  unfold handle_all. induction requests as [|r rs IH]; intros s Hall Hs.
  - exact Hs.
  - cbn [fold_left]. apply IH.
    + apply (Forall_inv_tail Hall).
    + apply handle_in_range; [apply (Forall_inv Hall)|exact Hs].
Qed.

Lemma currentIndex_stays_in_range_witness :
  index_in_range
    (handle_all [ mutation (op_replace_lines (Some [JStr (js "a"); JStr (js "b")]));
                  request_current (Some 1);
                  mutation (op_deleteLine (Some 1));
                  mutation (op_shiftIndex (delta_int 5)) ]
                new_session).
Proof.
  apply currentIndex_stays_in_range.
  - repeat constructor.
  - vm_compute. left. split; reflexivity.
Defined.

End EndpointFacts.

(* ================================================================== *)
(** * What the viewer page shows *)
(* ================================================================== *)

Module ViewerFacts.

Import SessionFacts Endpoints ViewerPage.

Local Open Scope Z_scope.

(** The three fields of a viewer payload, one from the other. *)
Lemma viewer_payload_shape s :
  let p := viewer_payload s in
  payload_displayEnabled p = displayEnabled s
  /\ (displayEnabled s = false -> payload_line p = None)
  /\ payload_text p
     = match payload_line p with
       | Some l => if LineType_eqb (type l) direction then [] else text l
       | None => []
       end.
Proof.
  unfold viewer_payload. cbn [payload_displayEnabled payload_line payload_text].
  destruct (displayEnabled s); cbn [andb].
  - split; [reflexivity|]. split; [discriminate|].
    destruct (0 <? len (lines s)); [|reflexivity].
    destruct (line_at (lines s) (currentIndex s)); reflexivity.
  - split; [reflexivity|]. split; reflexivity.
Qed.

Lemma rendered_line enabled l :
  displayText (on_viewer_update
    (payload_fields (mkViewerPayload (Some l)
       (if LineType_eqb (type l) direction then [] else text l) enabled)))
  = if enabled
    then (if LineType_eqb (type l) direction then JStr [0xA0] else JStr (text l))
    else JStr (js "字幕暫停中").
Proof.
  destruct l as [t ty]. destruct enabled, ty, t; reflexivity.
Qed.

Lemma rendered_initial_line enabled l :
  displayText (on_initial_state
    (payload_fields (mkViewerPayload (Some l)
       (if LineType_eqb (type l) direction then [] else text l) enabled)))
  = if enabled
    then (if LineType_eqb (type l) direction then JStr [0xA0] else JStr (text l))
    else JStr (js "字幕暫停中").
Proof.
  destruct l as [t ty]. destruct enabled, ty, t; reflexivity.
Qed.

(** X2.  What the viewer page renders for a payload of the server, sent by
    [viewer:update] or fetched from the viewer endpoint: the pause notice
    when the display is off, a lone no-break space when the current line is
    a stage direction (never its text, though the payload carries it), and
    in every other case exactly the [text] field of the payload. *)
Theorem viewer_page_hides_directions :
  forall s,
    let p := viewer_payload s in
    let shown := displayText (on_viewer_update (payload_fields p)) in
    displayText (on_initial_state (payload_fields p)) = shown
    /\ shown
       = if payload_displayEnabled p then
           match payload_line p with
           | Some (mkLine _ direction) => JStr [0xA0]
           | _ => JStr (payload_text p)
           end
         else JStr (js "字幕暫停中").
Proof.
  intros s p shown. subst shown.
  destruct (viewer_payload_shape s) as (He & Hoff & Htext). fold p in He, Hoff, Htext.
  destruct p as [pl pt pe]. cbn [payload_displayEnabled payload_line payload_text] in *.
  destruct pl as [l|].
  - subst pt. rewrite rendered_line, rendered_initial_line. split; [reflexivity|].
    destruct l as [t [|]]; destruct pe; reflexivity.
  - subst pt. destruct pe; split; reflexivity.
Qed.

End ViewerFacts.

(* ================================================================== *)
(** * Selecting a line *)
(* ================================================================== *)

Module IndexSelection.

Import RegexFacts SessionFacts TextFacts Endpoints.

Local Open Scope Z_scope.

Lemma clamp_index_keeps s z :
  currentIndex s = JInt z -> z < len (lines s) -> clamp_index s = s.
Proof.
  intros Hz Hlt. unfold clamp_index. rewrite Hz. cbn [jsnum_ge].
  destruct (len (lines s) <=? z) eqn:E; [apply Z.leb_le in E; lia|reflexivity].
Qed.

Lemma len_ensureSessionLines s : len (lines s) <= len (lines (ensureSessionLines s)).
Proof.
  unfold len, ensureSessionLines. cbn [lines].
  pose proof (normalize_lines_length (lines s)). lia.
Qed.

(** A broadcast leaves an index that points at a line where it is. *)
Lemma broadcast_keeps_index ls z d :
  0 <= z < len ls ->
  currentIndex (fst (broadcast (mkSession ls (JInt z) d))) = JInt z.
Proof.
  intros Hz. rewrite broadcast_fst.
  set (s0 := mkSession ls (JInt z) d).
  assert (H1 : clamp_index (ensureSessionLines s0) = ensureSessionLines s0).
  { apply clamp_index_keeps with (z := z).
    - rewrite ensureSessionLines_index. reflexivity.
    - pose proof (len_ensureSessionLines s0). cbn [lines s0] in *.
      unfold s0 in *. cbn [lines] in *. lia. }
  rewrite H1.
  rewrite clamp_index_keeps with (z := z).
  - rewrite !ensureSessionLines_index. reflexivity.
  - rewrite !ensureSessionLines_index. reflexivity.
  - pose proof (len_ensureSessionLines s0).
    pose proof (len_ensureSessionLines (ensureSessionLines s0)).
    unfold s0 in *. cbn [lines] in *. lia.
Qed.

Lemma broadcast_two_events s : length (snd (broadcast s)) = 2%nat.
Proof. reflexivity. Qed.

(** X3.  Selecting line [z] through the socket event [setCurrentIndex] and
    through [POST .../current] is the same operation: for an index inside
    the line list both make it the current index and send the same two
    broadcasts; for any other integer neither changes the session nor
    broadcasts (the socket event is dropped, the endpoint answers 400). *)
Theorem selecting_a_line_by_socket_or_http :
  forall z s,
    fst (post_current (Some z) s) = setCurrentIndex (Some z) s
    /\ (0 <= z < len (lines s) ->
        currentIndex (fst (setCurrentIndex (Some z) s)) = JInt z
        /\ snd (post_current (Some z) s) = answer_current (JInt z)
        /\ length (snd (setCurrentIndex (Some z) s)) = 2%nat)
    /\ (~ 0 <= z < len (lines s) ->
        setCurrentIndex (Some z) s = (s, [])
        /\ post_current (Some z) s = (s, [], status_400)).
Proof.
  intros z s. unfold post_current, setCurrentIndex, valid_index.
  cbn [jsnum_lt jsnum_ge].
  destruct (0 <=? z) eqn:E0; destruct (z <? len (lines s)) eqn:E1; cbn [andb];
    [apply Z.leb_le in E0|apply Z.leb_le in E0|apply Z.leb_gt in E0|apply Z.leb_gt in E0];
    [apply Z.ltb_lt in E1|apply Z.ltb_ge in E1|apply Z.ltb_lt in E1|apply Z.ltb_ge in E1].
  - replace (z <? 0) with false by (symmetry; apply Z.ltb_ge; lia).
    replace (len (lines s) <=? z) with false by (symmetry; apply Z.leb_gt; lia).
    cbn [orb]. rewrite Z2Nat.id by lia.
    pose proof (broadcast_keeps_index (lines s) (displayEnabled s) (conj E0 E1)) as Hk.
    destruct (broadcast (mkSession (lines s) (JInt z) (displayEnabled s)))
      as [s' ev] eqn:B.
    cbn [fst snd] in *. split; [reflexivity|]. split.
    + intros _. rewrite Hk. split; [reflexivity|]. split; [reflexivity|].
      change ev with (snd (s', ev)). rewrite <- B. apply broadcast_two_events.
    + intros Hn. exfalso. apply Hn. lia.
  - replace (len (lines s) <=? z) with true by (symmetry; apply Z.leb_le; lia).
    rewrite orb_true_r. cbn [fst]. split; [reflexivity|]. split; [lia|].
    intros _. split; reflexivity.
  - replace (z <? 0) with true by (symmetry; apply Z.ltb_lt; lia).
    cbn [orb fst]. split; [reflexivity|]. split; [lia|].
    intros _. split; reflexivity.
  - replace (z <? 0) with true by (symmetry; apply Z.ltb_lt; lia).
    cbn [orb fst]. split; [reflexivity|]. split; [lia|].
    intros _. split; reflexivity.
Qed.

Lemma selecting_a_line_by_socket_or_http_witness :
  let s := mkSession [mkLine (js "a") dialogue; mkLine (js "b") dialogue] (JInt 0) true in
  currentIndex (fst (setCurrentIndex (Some 1) s)) = JInt 1
  /\ snd (post_current (Some 1) s) = answer_current (JInt 1)
  /\ length (snd (setCurrentIndex (Some 1) s)) = 2%nat.
Proof.
  intros s.
  apply (proj1 (proj2 (selecting_a_line_by_socket_or_http 1 s))).
  vm_compute. split; [discriminate|reflexivity].
Defined.

End IndexSelection.

(* ================================================================== *)
(** * The broadcasts *)
(* ================================================================== *)

Module BroadcastFacts.

Import RegexFacts SessionFacts TextFacts UploadFacts Endpoints IndexSelection.

Local Open Scope Z_scope.

Lemma ensureSessionLines_display s :
  displayEnabled (ensureSessionLines s) = displayEnabled s.
Proof. reflexivity. Qed.

Lemma normalized_display s :
  displayEnabled (clamp_index (ensureSessionLines s)) = displayEnabled s.
Proof. rewrite clamp_index_display. reflexivity. Qed.

Lemma normalized_length s :
  (length (lines s) <= length (lines (clamp_index (ensureSessionLines s))))%nat.
Proof.
  rewrite clamp_index_lines. unfold ensureSessionLines. cbn [lines].
  apply normalize_lines_length.
Qed.

Lemma normalized_keeps_index s z :
  currentIndex s = JInt z -> 0 <= z < len (lines s) ->
  currentIndex (clamp_index (ensureSessionLines s)) = JInt z.
Proof.
  intros Hz Hr. rewrite clamp_index_keeps with (z := z).
  - rewrite ensureSessionLines_index. exact Hz.
  - rewrite ensureSessionLines_index. exact Hz.
  - pose proof (len_ensureSessionLines s). lia.
Qed.

(** X20.  Each of the two broadcasts, which re-normalize the stored lines
    before they emit, keeps [displayEnabled], never drops a line (the
    number of lines can only grow), and leaves the current index alone when
    it points at a line. *)
Theorem broadcasts_keep_the_session :
  forall s,
    fst (broadcastControlState s) = fst (broadcastViewerState s)
    /\ displayEnabled (fst (broadcastViewerState s)) = displayEnabled s
    /\ (length (lines s) <= length (lines (fst (broadcastViewerState s))))%nat
    /\ (forall z, currentIndex s = JInt z -> 0 <= z < len (lines s) ->
          currentIndex (fst (broadcastViewerState s)) = JInt z).
Proof.
  intros s. split; [reflexivity|]. cbn [broadcastViewerState fst].
  split; [apply normalized_display|]. split; [apply normalized_length|].
  apply normalized_keeps_index.
Qed.

(** ** While the display is off *)

(** The payload that shows nothing. *)
Definition blank_payload (p : ViewerPayload) : Prop :=
  payload_line p = None /\ payload_text p = [] /\ payload_displayEnabled p = false.

Definition muted_events (events : list Event) : Prop :=
  forall p, In (viewer_update p) events -> blank_payload p.

Lemma viewer_payload_muted s :
  displayEnabled s = false -> blank_payload (viewer_payload s).
Proof.
  intros H. unfold blank_payload, viewer_payload. rewrite H. cbn. auto.
Qed.

Lemma broadcastViewerState_muted s :
  displayEnabled s = false ->
  displayEnabled (fst (broadcastViewerState s)) = false
  /\ muted_events (snd (broadcastViewerState s)).
Proof.
  intros H. cbn [broadcastViewerState fst snd].
  split; [rewrite normalized_display; exact H|].
  intros p [E|[]]. inversion E. apply viewer_payload_muted.
  rewrite normalized_display. exact H.
Qed.

Lemma broadcastControlState_muted s :
  displayEnabled s = false ->
  displayEnabled (fst (broadcastControlState s)) = false
  /\ muted_events (snd (broadcastControlState s)).
Proof.
  intros H. cbn [broadcastControlState fst snd].
  split; [rewrite normalized_display; exact H|].
  intros p [E|[]]. discriminate E.
Qed.

Lemma broadcast_muted s :
  displayEnabled s = false ->
  displayEnabled (fst (broadcast s)) = false /\ muted_events (snd (broadcast s)).
Proof.
  intros H. unfold broadcast.
  destruct (broadcastControlState_muted s H) as [H1 M1].
  destruct (broadcastControlState s) as [s1 e1]. cbn [fst snd] in *.
  destruct (broadcastViewerState_muted s1 H1) as [H2 M2].
  destruct (broadcastViewerState s1) as [s2 e2]. cbn [fst snd] in *.
  split; [exact H2|]. intros p Hin. apply in_app_or in Hin as [Hin|Hin]; auto.
Qed.

Lemma nothing_muted (s : Session) :
  displayEnabled s = false ->
  displayEnabled (fst (s, @nil Event)) = false /\ muted_events (snd (s, @nil Event)).
Proof. intros H. split; [exact H|]. intros p []. Qed.

(** The requests that do not turn the display on: all but [setDisplay] and
    [POST .../display] with a true value, and the commit of an upload. *)
Definition keeps_display_off (request : Request) : Prop :=
  match request with
  | mutation (op_setDisplay true) => False
  | mutation (op_commit _) => False
  | request_display true => False
  | _ => True
  end.

Lemma clamp_index_shape s :
  exists index, clamp_index s = mkSession (lines s) index (displayEnabled s).
Proof.
  unfold clamp_index. destruct (jsnum_ge _ _); [eexists; reflexivity|].
  exists (currentIndex s). destruct s; reflexivity.
Qed.

Lemma handle_muted request s :
  keeps_display_off request -> displayEnabled s = false ->
  displayEnabled (fst (handle request s)) = false
  /\ muted_events (snd (handle request s)).
Proof.
  intros Hreq Hs.
  assert (Hb : forall ls index,
            displayEnabled (fst (broadcast (mkSession ls index (displayEnabled s)))) = false
            /\ muted_events (snd (broadcast (mkSession ls index (displayEnabled s))))).
  { intros ls index. apply broadcast_muted. exact Hs. }
  pose proof (nothing_muted s Hs) as Hn.
  destruct request as [op|index|enabled| | |viewer]; cbn [handle].
  - destruct op; cbn [run_op].
    + unfold setCurrentIndex. destruct (valid_index s index); auto.
    + unfold shiftIndex. destruct (jsnum_differs _ _); auto.
    + unfold setDisplay. destruct enabled; [destruct Hreq|].
      apply broadcast_muted. reflexivity.
    + unfold updateLine. destruct (valid_index s index); auto.
      destruct new_text; auto. destruct (nth_error (lines s) n); auto.
    + unfold setLineType. destruct (clampLineType new_type); auto.
      destruct (valid_index s index); auto. destruct (nth_error (lines s) n); auto.
    + unfold splitLine. destruct (valid_index s index); auto.
      destruct beforeText; auto. destruct afterText; auto.
      match goal with |- context [if ?c then (s, []) else _] => destruct c end; auto.
    + unfold insertLineAfter. destruct (valid_index s index); auto.
    + unfold deleteLine. destruct (valid_index s index); auto.
    + unfold replace_lines. destruct new_lines as [entries|]; auto.
      destruct (normalizeScriptLines entries true) as [normalized|code]; auto.
      destruct (clamp_index_shape
                  (mkSession normalized (currentIndex s) (displayEnabled s)))
        as (index & ->).
      cbn [lines displayEnabled]. apply Hb.
    + destruct Hreq.
  - unfold post_current.
    destruct (jsnum_lt _ 0 || jsnum_ge _ _); [exact Hn|].
    specialize (Hb (lines s) (match index with Some z => JInt z | None => currentIndex s end)).
    destruct (broadcast _) as [s' ev]. exact Hb.
  - destruct enabled; [destruct Hreq|]. unfold post_display.
    specialize (Hb (lines s) (currentIndex s)). rewrite Hs in Hb.
    destruct (broadcast _) as [s' ev]. exact Hb.
  - cbn [get_session fst snd]. split; [exact Hs|intros p []].
  - cbn [get_viewer fst snd]. split; [rewrite normalized_display; exact Hs|intros p []].
  - unfold on_join. cbn [ensureSession]. destruct viewer.
    + apply broadcastViewerState_muted, Hs.
    + apply broadcastControlState_muted, Hs.
Qed.

(** Everything the requests emit, in order. *)
Fixpoint events_of (requests : list Request) (session : Session) : list Event :=
  match requests with
  | [] => []
  | request :: rest =>
    snd (handle request session) ++ events_of rest (fst (handle request session))
  end.

(** X21.  While the display is off it stays off, and nothing reaches the
    viewers: whatever is requested of the session, short of turning the
    display on again or committing an upload, every viewer payload that
    is emitted has no line and an empty text. *)
Theorem muted_display_leaks_nothing :
  forall requests s,
    displayEnabled s = false -> Forall keeps_display_off requests ->
    displayEnabled (handle_all requests s) = false
    /\ forall p, In (viewer_update p) (events_of requests s) ->
         payload_line p = None /\ payload_text p = [].
Proof.
  unfold handle_all.
  induction requests as [|r rs IH]; intros s Hs Hall.
  - split; [exact Hs|intros p []].
  - destruct (handle_muted r s (Forall_inv Hall) Hs) as [Hs' Hm].
    destruct (IH _ Hs' (Forall_inv_tail Hall)) as [Hend Hrest].
    cbn [fold_left events_of]. split; [exact Hend|].
    intros p Hin. apply in_app_or in Hin as [Hin|Hin]; [|auto].
    destruct (Hm p Hin) as (H1 & H2 & _). auto.
Qed.

Lemma muted_display_leaks_nothing_witness :
  let s := mkSession [mkLine (js "你好") dialogue] (JInt 0) false in
  let requests := [ mutation (op_updateLine (Some 0) (Some (js "再見")) None);
                    request_join true ] in
  displayEnabled (handle_all requests s) = false
  /\ forall p, In (viewer_update p) (events_of requests s) ->
       payload_line p = None /\ payload_text p = [].
Proof.
  intros s requests. apply muted_display_leaks_nothing.
  - reflexivity.
  - repeat constructor.
Defined.

End BroadcastFacts.

(* ================================================================== *)
(** * Editing a session at rest *)
(* ================================================================== *)

Module EditFacts.

Import RegexFacts SessionFacts TextFacts UploadFacts Endpoints IndexSelection.

Local Open Scope Z_scope.

(** A stored line that normalization gives back as it is. *)
Definition plain (l : Line) : Prop :=
  normalize_entry true (entry_of_line l) = Ok [l].

(** A session at rest: its lines are plain and its index is in range. *)
Definition at_rest (s : Session) : Prop :=
  Forall plain (lines s) /\ index_in_range s.

(** The line the viewers are shown, were the display on. *)
Definition current_line (s : Session) : option Line :=
  line_at (lines s) (currentIndex s).

Lemma normalize_plain ls :
  Forall plain ls -> normalize_lines ls true = ls.
Proof.
  rewrite normalize_lines_pushed. unfold sift.
  induction ls as [|l ls IH]; intros H; [reflexivity|].
  cbn [map flat_map]. unfold pushed at 1.
  rewrite (Forall_inv H), (IH (Forall_inv_tail H)). reflexivity.
Qed.

Lemma ensureSessionLines_plain s :
  Forall plain (lines s) -> ensureSessionLines s = s.
Proof.
  intros H. unfold ensureSessionLines. rewrite (@normalize_plain _ H).
  destruct s; reflexivity.
Qed.

Lemma clamp_index_in_range_id s : index_in_range s -> clamp_index s = s.
Proof.
  unfold index_in_range. destruct (currentIndex s) as [z|] eqn:Ez; [|intros []].
  intros [[Hl ->]|[Hl Hz]].
  - unfold clamp_index. rewrite Ez, Hl. destruct s as [ls idx d].
    cbn [lines currentIndex displayEnabled] in *. subst. reflexivity.
  - apply clamp_index_keeps with (z := z); [exact Ez|lia].
Qed.

Lemma broadcast_at_rest s : at_rest s -> fst (broadcast s) = s.
Proof.
  intros [Hp Hr]. rewrite broadcast_fst.
  rewrite (@ensureSessionLines_plain _ Hp), (@clamp_index_in_range_id _ Hr).
  rewrite (@ensureSessionLines_plain _ Hp), (@clamp_index_in_range_id _ Hr).
  reflexivity.
Qed.

Lemma empty_line_plain ty : plain (mkLine [] ty).
Proof. destruct ty; reflexivity. Qed.

Lemma valid_index_nat s i :
  (i < length (lines s))%nat -> valid_index s (Some (Z.of_nat i)) = Some i.
Proof.
  intros H. unfold valid_index, len.
  replace (0 <=? Z.of_nat i) with true by (symmetry; apply Z.leb_le; lia).
  replace (Z.of_nat i <? Z.of_nat (length (lines s))) with true
    by (symmetry; apply Z.ltb_lt; lia).
  cbn [andb]. rewrite Nat2Z.id. reflexivity.
Qed.

Lemma in_range_nat s :
  index_in_range s -> lines s <> [] ->
  exists c, currentIndex s = JInt (Z.of_nat c) /\ (c < length (lines s))%nat.
Proof.
  unfold index_in_range, len. destruct (currentIndex s) as [z|]; [|intros []].
  intros [[Hl _]|[_ Hz]] Hne; [contradiction|].
  exists (Z.to_nat z). split; [f_equal|]; lia.
Qed.

Lemma line_at_nat (ls : list Line) c : line_at ls (JInt (Z.of_nat c)) = nth_error ls c.
Proof.
  unfold line_at. replace (Z.of_nat c <? 0) with false by (symmetry; apply Z.ltb_ge; lia).
  rewrite Nat2Z.id. reflexivity.
Qed.

(** ** Inserting after line [i] *)

Definition inserted (i : nat) (e : Line) (ls : list Line) : list Line :=
  firstn (S i) ls ++ e :: skipn (S i) ls.

Lemma inserted_length i e ls : length (inserted i e ls) = S (length ls).
Proof.
  unfold inserted. rewrite length_app. cbn [length].
  rewrite length_firstn, length_skipn. lia.
Qed.

Lemma nth_error_firstn_lt (ls : list Line) n c :
  (c < n)%nat -> nth_error (firstn n ls) c = nth_error ls c.
Proof.
  revert n c. induction ls as [|l ls IH]; intros [|n] [|c] H; try reflexivity; try lia.
  cbn [firstn nth_error]. apply IH. lia.
Qed.

Lemma inserted_nth_before i e ls c :
  (i < length ls)%nat -> (c <= i)%nat ->
  nth_error (inserted i e ls) c = nth_error ls c.
Proof.
  intros Hi Hc. unfold inserted. rewrite nth_error_app1.
  - apply nth_error_firstn_lt. lia.
  - rewrite length_firstn. lia.
Qed.

Lemma inserted_nth_after i e ls c :
  (i < length ls)%nat -> (i < c)%nat ->
  nth_error (inserted i e ls) (S c) = nth_error ls c.
Proof.
  intros Hi Hc. unfold inserted. rewrite nth_error_app2; rewrite length_firstn;
    [|lia].
  replace (Nat.min (S i) (length ls)) with (S i) by lia.
  replace (S c - S i)%nat with (S (c - S i)) by lia. cbn [nth_error].
  rewrite nth_error_skipn. f_equal. lia.
Qed.

Definition removed (i : nat) (ls : list Line) : list Line :=
  firstn i ls ++ skipn (S i) ls.

Lemma firstn_exact (a b : list Line) : firstn (length a) (a ++ b) = a.
Proof. induction a as [|x a IH]; [reflexivity|]. cbn. f_equal. exact IH. Qed.

Lemma skipn_exact (a b : list Line) : skipn (length a) (a ++ b) = b.
Proof. induction a as [|x a IH]; [reflexivity|exact IH]. Qed.

Lemma removed_inserted i e ls :
  (i < length ls)%nat -> removed (S i) (inserted i e ls) = ls.
Proof.
  intros Hi. unfold removed, inserted.
  assert (Hl : length (firstn (S i) ls) = S i) by (rewrite length_firstn; lia).
  set (a := firstn (S i) ls) in *. set (b := skipn (S i) ls).
  rewrite <- Hl at 1. rewrite firstn_exact.
  replace (S (S i)) with (length (a ++ [e])) by (rewrite length_app, Hl; cbn; lia).
  replace (a ++ e :: b) with ((a ++ [e]) ++ b) by (rewrite <- app_assoc; reflexivity).
  rewrite skipn_exact. apply firstn_skipn.
Qed.

Lemma removed_length i ls :
  (i < length ls)%nat -> length (removed i ls) = (length ls - 1)%nat.
Proof.
  intros Hi. unfold removed. rewrite length_app, length_firstn, length_skipn. lia.
Qed.

Lemma removed_nth_before i ls c :
  (c < i)%nat -> nth_error (removed i ls) c = nth_error ls c.
Proof.
  intros Hc. unfold removed. destruct (Nat.lt_ge_cases c (length ls)) as [Hl|Hl].
  - rewrite nth_error_app1 by (rewrite length_firstn; lia).
    apply nth_error_firstn_lt. exact Hc.
  - rewrite (proj2 (nth_error_None ls c) Hl). apply nth_error_None.
    rewrite length_app, length_firstn, length_skipn. lia.
Qed.

Lemma removed_nth_after i ls c :
  (i < length ls)%nat -> (i < c)%nat ->
  nth_error (removed i ls) (c - 1) = nth_error ls c.
Proof.
  intros Hi Hc. unfold removed.
  rewrite nth_error_app2 by (rewrite length_firstn; lia).
  rewrite length_firstn. replace (Nat.min i (length ls)) with i by lia.
  rewrite nth_error_skipn. f_equal. lia.
Qed.

Lemma plain_inserted i e ls : plain e -> Forall plain ls -> Forall plain (inserted i e ls).
Proof.
  intros He Hls. unfold inserted. apply Forall_app. split.
  - apply Forall_forall. intros l Hl. rewrite Forall_forall in Hls.
    apply Hls. rewrite <- (firstn_skipn (S i) ls). apply in_or_app. left. exact Hl.
  - constructor; [exact He|]. apply Forall_forall. intros l Hl.
    rewrite Forall_forall in Hls.
    apply Hls. rewrite <- (firstn_skipn (S i) ls). apply in_or_app. right. exact Hl.
Qed.

Lemma plain_removed i ls : Forall plain ls -> Forall plain (removed i ls).
Proof.
  intros Hls. unfold removed. rewrite Forall_forall in *. intros l Hl.
  apply Hls. apply in_app_or in Hl as [Hl|Hl].
  - rewrite <- (firstn_skipn i ls). apply in_or_app. left. exact Hl.
  - rewrite <- (firstn_skipn (S i) ls). apply in_or_app. right. exact Hl.
Qed.

(** What [insertLineAfter] does to a session at rest. *)
Lemma insertLineAfter_at_rest s i new_type c :
  at_rest s -> (i < length (lines s))%nat ->
  currentIndex s = JInt (Z.of_nat c) -> (c < length (lines s))%nat ->
  exists ty,
    fst (insertLineAfter (Some (Z.of_nat i)) new_type s)
    = mkSession (inserted i (mkLine [] ty) (lines s))
                (JInt (Z.of_nat (if (i <? c)%nat then S c else c)))
                (displayEnabled s)
    /\ at_rest (mkSession (inserted i (mkLine [] ty) (lines s))
                          (JInt (Z.of_nat (if (i <? c)%nat then S c else c)))
                          (displayEnabled s)).
Proof.
  intros [Hp Hr] Hi Hc Hcl. unfold insertLineAfter.
  rewrite (@valid_index_nat _ _ Hi), Hc. cbn [jsnum_gt jsnum_add].
  match goal with
  | |- context [mkLine [] ?t] => exists t
  end.
  fold (inserted i (mkLine [] (match clampLineType new_type with
        | Some ty => ty
        | None => match nth_error (lines s) i with
                  | Some existing =>
                      match clampLineType (Some (LINE_TYPES_name (type existing))) with
                      | Some ty => ty
                      | None => dialogue
                      end
                  | None => dialogue
                  end
        end)) (lines s)).
  set (e := mkLine [] _).
  assert (Hidx : (if Z.of_nat i <? Z.of_nat c then JInt (Z.of_nat c + 1) else JInt (Z.of_nat c))
                 = JInt (Z.of_nat (if (i <? c)%nat then S c else c))).
  { destruct (i <? c)%nat eqn:E.
    - apply Nat.ltb_lt in E.
      replace (Z.of_nat i <? Z.of_nat c) with true by (symmetry; apply Z.ltb_lt; lia).
      f_equal. lia.
    - apply Nat.ltb_ge in E.
      replace (Z.of_nat i <? Z.of_nat c) with false by (symmetry; apply Z.ltb_ge; lia).
      reflexivity. }
  rewrite Hidx.
  assert (Hrest : at_rest (mkSession (inserted i e (lines s))
                             (JInt (Z.of_nat (if (i <? c)%nat then S c else c)))
                             (displayEnabled s))).
  { split; cbn [lines].
    - apply plain_inserted; [apply empty_line_plain|exact Hp].
    - unfold index_in_range, len. cbn [currentIndex lines]. right.
      rewrite inserted_length. split.
      + intros E. apply (f_equal (@length Line)) in E.
        rewrite inserted_length in E. discriminate.
      + destruct (i <? c)%nat; lia. }
  split; [apply broadcast_at_rest, Hrest|exact Hrest].
Qed.

(** What [deleteLine] does to a session at rest. *)
Lemma deleteLine_at_rest s i c :
  at_rest s -> (i < length (lines s))%nat ->
  currentIndex s = JInt (Z.of_nat c) -> (c < length (lines s))%nat ->
  fst (deleteLine (Some (Z.of_nat i)) s)
  = mkSession (removed i (lines s))
              (JInt (Z.of_nat (if (length (lines s) - 1 <=? c)%nat
                               then length (lines s) - 2
                               else if (i <? c)%nat then c - 1 else c)))
              (displayEnabled s).
Proof.
  intros [Hp Hr] Hi Hc Hcl. unfold deleteLine.
  rewrite (@valid_index_nat _ _ Hi), Hc. cbn [jsnum_ge jsnum_gt jsnum_add].
  fold (removed i (lines s)). unfold len. rewrite (@removed_length _ _ Hi).
  set (n := length (lines s)) in *.
  assert (Hidx : (if Z.of_nat (n - 1) <=? Z.of_nat c
                  then JInt (Z.max (Z.of_nat (n - 1) - 1) 0)
                  else if Z.of_nat i <? Z.of_nat c
                       then JInt (Z.of_nat c + -1) else JInt (Z.of_nat c))
                 = JInt (Z.of_nat (if (n - 1 <=? c)%nat then n - 2
                                   else if (i <? c)%nat then c - 1 else c))).
  { destruct (n - 1 <=? c)%nat eqn:E1.
    - apply Nat.leb_le in E1.
      replace (Z.of_nat (n - 1) <=? Z.of_nat c) with true by (symmetry; apply Z.leb_le; lia).
      f_equal. lia.
    - apply Nat.leb_gt in E1.
      replace (Z.of_nat (n - 1) <=? Z.of_nat c) with false by (symmetry; apply Z.leb_gt; lia).
      destruct (i <? c)%nat eqn:E2.
      + apply Nat.ltb_lt in E2.
        replace (Z.of_nat i <? Z.of_nat c) with true by (symmetry; apply Z.ltb_lt; lia).
        f_equal. lia.
      + apply Nat.ltb_ge in E2.
        replace (Z.of_nat i <? Z.of_nat c) with false by (symmetry; apply Z.ltb_ge; lia).
        reflexivity. }
  rewrite Hidx. apply broadcast_at_rest. split; cbn [lines].
  - apply plain_removed, Hp.
  - unfold index_in_range, len. cbn [currentIndex lines].
    pose proof (@removed_length _ (lines s) Hi) as Hl. fold n in Hl.
    destruct (removed i (lines s)) as [|l0 rest] eqn:Er.
    + left. split; [reflexivity|]. cbn [length] in Hl.
      replace (n - 1 <=? c)%nat with true by (symmetry; apply Nat.leb_le; lia).
      f_equal. lia.
    + right. split; [discriminate|]. rewrite Hl. cbn [length] in Hl.
      destruct (n - 1 <=? c)%nat eqn:E1; [apply Nat.leb_le in E1; lia|].
      apply Nat.leb_gt in E1. destruct (i <? c)%nat; lia.
Qed.

(** X24.  On a session at rest (plain lines, index in range) inserting an
    empty line after line [i] and then deleting the inserted line gives the
    session back: the same lines, the same current index, the same
    display flag. *)
Theorem insert_then_delete_round_trip :
  forall s i new_type,
    at_rest s -> (i < length (lines s))%nat ->
    fst (deleteLine (Some (Z.of_nat (S i)))
           (fst (insertLineAfter (Some (Z.of_nat i)) new_type s)))
    = s.
Proof.
  intros s i new_type Hrest Hi.
  destruct (@in_range_nat s (proj2 Hrest)) as (c & Hc & Hcl).
  { intros E. rewrite E in Hi. cbn in Hi. lia. }
  destruct (@insertLineAfter_at_rest s i new_type c Hrest Hi Hc Hcl) as (ty & -> & Hrest1).
  set (c1 := if (i <? c)%nat then S c else c) in *.
  rewrite (@deleteLine_at_rest _ (S i) c1 Hrest1); cbn [lines currentIndex displayEnabled].
  - rewrite inserted_length, (@removed_inserted _ _ _ Hi).
    destruct s as [ls idx d]. cbn [lines currentIndex displayEnabled] in *.
    subst idx. f_equal. f_equal. f_equal. subst c1.
    destruct (i <? c)%nat eqn:E.
    + apply Nat.ltb_lt in E.
      destruct (S (length ls) - 1 <=? S c)%nat eqn:E1.
      * apply Nat.leb_le in E1. lia.
      * replace (S i <? S c)%nat with true by (symmetry; apply Nat.ltb_lt; lia). lia.
    + apply Nat.ltb_ge in E.
      replace (S (length ls) - 1 <=? c)%nat with false by (symmetry; apply Nat.leb_gt; lia).
      replace (S i <? c)%nat with false by (symmetry; apply Nat.ltb_ge; lia).
      reflexivity.
  - rewrite inserted_length. lia.
  - reflexivity.
  - rewrite inserted_length. subst c1. destruct (i <? c)%nat; lia.
Qed.

(** X25.  On a session at rest, inserting a line anywhere, or deleting a
    line other than the current one, leaves the line that is shown the
    same: the current index follows the line. *)
Theorem edits_elsewhere_keep_the_current_line :
  forall s i new_type,
    at_rest s -> (i < length (lines s))%nat ->
    current_line (fst (insertLineAfter (Some (Z.of_nat i)) new_type s))
      = current_line s
    /\ (currentIndex s <> JInt (Z.of_nat i) ->
        current_line (fst (deleteLine (Some (Z.of_nat i)) s)) = current_line s).
Proof.
  intros s i new_type Hrest Hi.
  destruct (@in_range_nat s (proj2 Hrest)) as (c & Hc & Hcl).
  { intros E. rewrite E in Hi. cbn in Hi. lia. }
  unfold current_line. split.
  - destruct (@insertLineAfter_at_rest s i new_type c Hrest Hi Hc Hcl) as (ty & -> & _).
    cbn [lines currentIndex]. rewrite Hc, !line_at_nat.
    destruct (i <? c)%nat eqn:E.
    + apply Nat.ltb_lt in E. apply inserted_nth_after; assumption.
    + apply Nat.ltb_ge in E. apply inserted_nth_before; assumption.
  - intros Hne. rewrite (@deleteLine_at_rest s i c Hrest Hi Hc Hcl).
    cbn [lines currentIndex]. rewrite Hc, !line_at_nat.
    assert (Hci : c <> i) by (intros ->; apply Hne; exact Hc).
    destruct (length (lines s) - 1 <=? c)%nat eqn:E1.
    + apply Nat.leb_le in E1.
      replace (length (lines s) - 2)%nat with (c - 1)%nat by lia.
      apply removed_nth_after; lia.
    + destruct (i <? c)%nat eqn:E2.
      * apply Nat.ltb_lt in E2. apply removed_nth_after; lia.
      * apply Nat.ltb_ge in E2. apply removed_nth_before. lia.
Qed.

Definition two_lines : Session :=
  mkSession [mkLine (js "a") dialogue; mkLine (js "b") dialogue] (JInt 1) true.

Lemma two_lines_at_rest : at_rest two_lines.
Proof.
  split.
  - repeat constructor.
  - right. split; [discriminate|]. vm_compute. split; discriminate.
Qed.

Lemma insert_then_delete_round_trip_witness :
  fst (deleteLine (Some (Z.of_nat 1))
         (fst (insertLineAfter (Some (Z.of_nat 0)) None two_lines)))
  = two_lines.
Proof.
  apply (@insert_then_delete_round_trip two_lines 0 None).
  - split; [repeat constructor|right; split; [discriminate|vm_compute; split; discriminate]].
  - cbn. lia.
Defined.

Lemma edits_elsewhere_keep_the_current_line_witness :
  current_line (fst (insertLineAfter (Some (Z.of_nat 0)) None two_lines))
    = current_line two_lines
  /\ (currentIndex two_lines <> JInt (Z.of_nat 0) ->
      current_line (fst (deleteLine (Some (Z.of_nat 0)) two_lines))
      = current_line two_lines).
Proof.
  apply (@edits_elsewhere_keep_the_current_line two_lines 0 None).
  - split; [repeat constructor|right; split; [discriminate|vm_compute; split; discriminate]].
  - cbn. lia.
Defined.

End EditFacts.

(* ================================================================== *)
(** * White space *)
(* ================================================================== *)

Module BlankFacts.

Import RegexFacts SessionFacts TextFacts ClassifierFacts LengthFacts.

Local Open Scope Z_scope.

(** A text of white space only. *)
Definition blank (s : jstring) : Prop := Forall (fun c => is_space c = true) s.

Lemma trimStart_nil_iff s : trimStart s = [] <-> blank s.
Proof.
  unfold blank. induction s as [|c r IH]; cbn [trimStart].
  - split; auto.
  - destruct (is_space c) eqn:E.
    + rewrite IH. split; intros H; [constructor; auto|apply (Forall_inv_tail H)].
    + split; [discriminate|]. intros H. apply Forall_inv in H. congruence.
Qed.

Lemma blank_rev s : blank s -> blank (rev s).
Proof. unfold blank. apply Forall_rev. Qed.

Lemma blank_app a b : blank (a ++ b) <-> blank a /\ blank b.
Proof. unfold blank. apply Forall_app. Qed.

Lemma trimStart_blank_prefix s : exists p, s = p ++ trimStart s /\ blank p.
Proof.
  induction s as [|c r (p & Hp & Hb)]; cbn [trimStart].
  - exists []. split; [reflexivity|constructor].
  - destruct (is_space c) eqn:E.
    + exists (c :: p). split; [cbn; f_equal; exact Hp|constructor; assumption].
    + exists []. split; [reflexivity|constructor].
Qed.

Lemma trimEnd_blank_suffix s : exists q, s = trimEnd s ++ q /\ blank q.
Proof.
  unfold trimEnd. destruct (trimStart_blank_prefix (rev s)) as (p & Hp & Hb).
  exists (rev p). split; [|apply blank_rev, Hb].
  rewrite <- rev_app_distr, <- Hp. symmetry. apply rev_involutive.
Qed.

Lemma trim_nil_iff s : trim s = [] <-> blank s.
Proof.
  unfold trim. split.
  - intros H. destruct (trimStart_blank_prefix s) as (p & Hp & Hb).
    destruct (trimEnd_blank_suffix (trimStart s)) as (q & Hq & Hbq).
    rewrite H in Hq. cbn in Hq. rewrite Hp, Hq. apply blank_app. split; assumption.
  - intros H. apply trimStart_nil_iff in H. rewrite H. reflexivity.
Qed.

(** A trimmed text ends with a character that is not white space. *)
Lemma trimmed_last s c r :
  trim s = s -> rev s = c :: r -> is_space c = false.
Proof.
  intros Ht Hr. unfold trim, trimEnd in Ht.
  apply (f_equal (@rev Z)) in Ht. rewrite rev_involutive, Hr in Ht.
  apply (trimStart_head _ Ht).
Qed.

Lemma trimmed_first s c r : trim s = s -> s = c :: r -> is_space c = false.
Proof.
  intros Ht Hs. rewrite <- Ht in Hs. rewrite <- trim_trimStart in Hs.
  apply (trimStart_head _ Hs).
Qed.

Lemma blank_in s c : blank s -> In c s -> is_space c = true.
Proof. unfold blank. rewrite Forall_forall. auto. Qed.

End BlankFacts.

(* ================================================================== *)
(** * The chunker: punctuation and long units *)
(* ================================================================== *)

Module ChunkerBasics.

Import RegexFacts SessionFacts TextFacts ClassifierFacts LengthFacts BlankFacts.

Local Open Scope Z_scope.

Lemma mark_match_one p s m rest :
  match_here (re (Chr p)) s = Some (m, rest) ->
  m <> [] /\ exists c, m = [c] /\ p c = true.
Proof.
  intros H. pose proof (match_here_app _ _ H) as Hs.
  apply match_here_rx in H. unfold re in H. cbn [unicode body] in H.
  rewrite rx_chr in H. destruct s as [|c r]; [discriminate|]. rewrite next_char_plain in H.
  destruct (p c) eqn:Hp; [|discriminate]. inversion H; subst rest.
  assert (m = [c]).
  { apply (f_equal (@length Z)) in Hs as Hl. rewrite length_app in Hl. simpl in Hl.
    destruct m as [|x [|y m]]; simpl in *; try lia. now inversion Hs. }
  subst m. split; [discriminate|]. exists c. split; [reflexivity|assumption].
Qed.

(** [s.replace(/[class]/g, rep)] replaces each character of the class. *)
Lemma replace_all_class_by p rep s :
  replace_all (re (Chr p)) rep s = flat_map (fun c => if p c then rep else [c]) s.
Proof.
  unfold replace_all.
  pose proof (@all_segments_spec (re (Chr p)) p (fun m => exists c, m = [c] /\ p c = true)
                eq_refl eq_refl) as Hspec.
  assert (Htrig : forall c r, p c = true -> match_here (re (Chr p)) (c :: r) <> None).
  { intros c r Hc. rewrite (@mark_here p c r Hc). discriminate. }
  specialize (Hspec Htrig (@mark_match_one p) s).
  pose proof (segments_app (re (Chr p)) (S (length s)) s) as Happ.
  fold (all_segments (re (Chr p)) s) in Happ.
  destruct (all_segments (re (Chr p)) s) as [l tail]. cbn [fst snd] in *.
  destruct Hspec as [Hl Ht]. rewrite <- Happ. clear Happ.
  assert (Hkeep : forall g : jstring, Forall (fun c => p c = false) g ->
            flat_map (fun c => if p c then rep else [c]) g = g).
  { induction g as [|c g IH]; intros Hg; [reflexivity|].
    cbn [flat_map]. rewrite (Forall_inv Hg), (IH (Forall_inv_tail Hg)). reflexivity. }
  rewrite flat_map_app, (Hkeep tail Ht). f_equal.
  induction l as [|[g m] l IH]; [reflexivity|].
  pose proof (Forall_inv Hl) as (Hg & _ & c & Hm & Hc). cbn [fst snd] in Hg, Hm.
  subst m. cbn [flat_map fst snd].
  rewrite !flat_map_app, (Hkeep g Hg), (IH (Forall_inv_tail Hl)).
  cbn [flat_map]. rewrite Hc, app_nil_r, <- app_assoc. reflexivity.
Qed.

Definition punctuation_marks : jstring := js ".,，。、".

(** X4.  [normalizePunctuation] puts one space in the place of each of the
    five marks and touches nothing else: the text keeps its length, none of
    the marks is left, and a second pass changes nothing. *)
Theorem normalizePunctuation_blanks_five_marks :
  forall text,
    normalizePunctuation text
      = map (fun c => if oneOf punctuation_marks c then 0x20 else c) text
    /\ length (normalizePunctuation text) = length text
    /\ (forall c, In c (normalizePunctuation text) -> oneOf punctuation_marks c = false)
    /\ normalizePunctuation (normalizePunctuation text) = normalizePunctuation text.
Proof.
  assert (Hmap : forall text,
            normalizePunctuation text
            = map (fun c => if oneOf punctuation_marks c then 0x20 else c) text).
  { intros text. unfold normalizePunctuation. rewrite replace_all_class_by.
    induction text as [|c r IH]; [reflexivity|].
    cbn [flat_map map]. rewrite IH. fold punctuation_marks.
    destruct (oneOf punctuation_marks c); reflexivity. }
  assert (Hnone : forall text c, In c (normalizePunctuation text) ->
                    oneOf punctuation_marks c = false).
  { intros text c. rewrite Hmap, in_map_iff. intros (x & <- & _).
    destruct (oneOf punctuation_marks x) eqn:E; [reflexivity|exact E]. }
  intros text. split; [apply Hmap|]. split; [rewrite Hmap; apply length_map|].
  split; [apply Hnone|].
  rewrite (Hmap (normalizePunctuation text)).
  rewrite <- (map_id (normalizePunctuation text)) at 2.
  apply map_ext_in. intros c Hc. rewrite (Hnone text c Hc). reflexivity.
Qed.

Lemma chunkLongUnit_loop_spec limit : (0 < limit)%nat -> forall fuel r,
  (length r <= fuel)%nat ->
  Forall (fun piece => (length piece <= limit)%nat) (chunkLongUnit_loop fuel r limit)
  /\ exists tail,
       r = concat (chunkLongUnit_loop fuel r limit) ++ tail
       /\ blank tail
       /\ (tail = [] \/ tail = skipn (length r - length tail) r /\ (length tail <= limit)%nat).
Proof.
  intros Hpos.
  assert (Hfinish : forall r : jstring, (length r <= limit)%nat ->
            let finish := if (0 <? length (trim r))%nat then [r] else [] in
            Forall (fun piece => (length piece <= limit)%nat) finish
            /\ exists tail, r = concat finish ++ tail /\ blank tail
                 /\ (tail = [] \/ tail = skipn (length r - length tail) r
                                  /\ (length tail <= limit)%nat)).
  { intros r Hr finish. subst finish.
    destruct (0 <? length (trim r))%nat eqn:E.
    - split; [repeat constructor; exact Hr|]. exists [].
      cbn [concat]. rewrite !app_nil_r. split; [reflexivity|]. split; [constructor|auto].
    - split; [constructor|]. exists r. cbn [concat app].
      split; [reflexivity|]. split.
      + apply trim_nil_iff. apply Nat.ltb_ge in E. destruct (trim r); [reflexivity|cbn in E; lia].
      + right. rewrite Nat.sub_diag. cbn [skipn]. auto. }
  induction fuel as [|fuel IH]; intros r Hr.
  - cbn [chunkLongUnit_loop]. apply Hfinish. lia.
  - cbn [chunkLongUnit_loop].
    destruct (limit <? length r)%nat eqn:E.
    + apply Nat.ltb_lt in E.
      assert (Hrest : (length (slice_from limit r) <= fuel)%nat).
      { unfold slice_from. rewrite length_skipn. lia. }
      destruct (IH _ Hrest) as (Hall & tail & Hcat & Hb & Htail).
      split.
      * constructor; [|exact Hall]. unfold slice. cbn [skipn].
        rewrite length_firstn. lia.
      * exists tail. split; [|split; [exact Hb|]].
        -- cbn [concat]. rewrite <- app_assoc, <- Hcat. unfold slice, slice_from.
           cbn [skipn]. rewrite Nat.sub_0_r. symmetry. apply firstn_skipn.
        -- destruct Htail as [->|[Ht Hl]]; [left; reflexivity|right].
           split; [|exact Hl].
           unfold slice_from in Ht. rewrite length_skipn in Ht.
           rewrite skipn_skipn in Ht.
           assert (Hlt : (length tail <= length r - limit)%nat).
           { rewrite Ht at 1. rewrite length_skipn. lia. }
           rewrite Ht at 1. f_equal. lia.
    + apply Hfinish. apply Nat.ltb_ge in E. exact E.
Qed.

Lemma chunkLongUnit_spec :
  forall unit limit, (0 < limit)%nat ->
    Forall (fun piece => (length piece <= limit)%nat) (chunkLongUnit unit limit)
    /\ (exists tail, unit = concat (chunkLongUnit unit limit) ++ tail /\ trim tail = [])
    /\ (trim unit = unit -> concat (chunkLongUnit unit limit) = unit).
Proof.
  intros unit limit Hpos. unfold chunkLongUnit.
  destruct (@chunkLongUnit_loop_spec limit Hpos (length unit) unit (le_n _))
    as (Hall & tail & Hcat & Hb & Htail).
  split; [exact Hall|]. split.
  - exists tail. split; [exact Hcat|]. apply trim_nil_iff, Hb.
  - intros Htrim.
    assert (tail = []) as ->; [|rewrite app_nil_r in Hcat; symmetry; exact Hcat].
    destruct tail as [|t0 tail0] eqn:Et; [reflexivity|]. exfalso.
    assert (Hrev : rev unit = rev (t0 :: tail0) ++ rev (concat (chunkLongUnit_loop (length unit) unit limit))).
    { rewrite Hcat at 1. apply rev_app_distr. }
    destruct (rev (t0 :: tail0)) as [|c q] eqn:Er.
    { apply (f_equal (@length Z)) in Er. rewrite length_rev in Er. discriminate. }
    cbn [app] in Hrev.
    pose proof (@trimmed_last _ _ _ Htrim Hrev) as Hc.
    assert (Hin : In c (t0 :: tail0)).
    { apply in_rev. rewrite Er. left. reflexivity. }
    rewrite (@blank_in _ _ Hb Hin) in Hc. discriminate.
Qed.


(** X5.  [chunkLongUnit] with a positive limit cuts a unit into pieces of at
    most [limit] code units that, put end to end, give the unit back, but
    for a last slice of white space only, which is dropped; a unit that is
    trimmed, as the chunker passes it, is given back whole. *)
Theorem chunkLongUnit_slices_losslessly :
  forall unit limit, (0 < limit)%nat ->
    Forall (fun piece => (length piece <= limit)%nat) (chunkLongUnit unit limit)
    /\ (exists tail, unit = concat (chunkLongUnit unit limit) ++ tail /\ trim tail = [])
    /\ (trim unit = unit -> concat (chunkLongUnit unit limit) = unit).
Proof. exact chunkLongUnit_spec. Qed.

Lemma chunkLongUnit_slices_losslessly_witness :
  Forall (fun piece => (length piece <= 3)%nat) (chunkLongUnit (js "abcdefgh") 3)
  /\ (exists tail, js "abcdefgh" = concat (chunkLongUnit (js "abcdefgh") 3) ++ tail
                   /\ trim tail = [])
  /\ (trim (js "abcdefgh") = js "abcdefgh" ->
      concat (chunkLongUnit (js "abcdefgh") 3) = js "abcdefgh").
Proof.
  apply (@chunkLongUnit_slices_losslessly (js "abcdefgh") 3). lia.
Defined.

End ChunkerBasics.

(* ================================================================== *)
(** * Paragraphs and sentences *)
(* ================================================================== *)

Module SentenceFacts.

Import RegexFacts TextFacts ClassifierFacts LengthFacts BlankFacts.

Local Open Scope Z_scope.

Lemma rx_alt u a b s k :
  rx u (Alt a b) s k =
  match rx u a s k with Some x => Some x | None => rx u b s k end.
Proof. reflexivity. Qed.

Lemma rx_eps u s k : rx u Eps s k = k s.
Proof. reflexivity. Qed.

(** Without the [u] flag a repeated class takes a run of its characters. *)
Lemma star_loop_plain p : forall n s k x,
  star_loop false (Chr p) k n s = Some x ->
  exists run rest, s = run ++ rest /\ k rest = Some x
    /\ Forall (fun c => p c = true) run.
Proof.
  assert (Hstop : forall (s : jstring) (k : jstring -> option jstring) x,
             k s = Some x ->
             exists run rest, s = run ++ rest /\ k rest = Some x
               /\ Forall (fun c => p c = true) run).
  { intros s k x H. exists [], s. split; [reflexivity|]. split; [assumption|constructor]. }
  induction n as [|n IH]; intros s k x H; [now apply Hstop|].
  cbn [star_loop] in H. rewrite rx_chr in H.
  destruct s as [|c s']; [now apply Hstop|]. rewrite next_char_plain in H.
  destruct (p c) eqn:Hp; [|now apply Hstop].
  destruct (length s' <? length (c :: s'))%nat; [|now apply Hstop].
  destruct (star_loop false (Chr p) k n s') as [y|] eqn:E; [|now apply Hstop].
  inversion H; subst y. apply IH in E as (run & rest & -> & Hk & Hrun).
  exists (c :: run), rest. split; [reflexivity|]. split; [assumption|].
  constructor; assumption.
Qed.

(** ** The paragraph break [/\r?\n+/] *)

Definition line_break (c : Z) : Prop := c = 13 \/ c = 10.

Lemma paragraph_break_trigger c r :
  (10 =? c) = true -> match_here paragraph_break (c :: r) <> None.
Proof.
  intros H. apply Z.eqb_eq in H. subst c.
  unfold match_here, paragraph_break, re, Opt, Plus. cbn [unicode body].
  rewrite rx_seq, rx_alt, rx_chr, next_char_plain. cbn [Z.eqb Pos.eqb].
  rewrite rx_eps, rx_seq, rx_chr, next_char_plain. cbn [Z.eqb Pos.eqb].
  rewrite rx_star.
  destruct (star_loop false (Chr (Z.eqb 10)) Some (length r) r) eqn:E; [discriminate|].
  exfalso. revert E. apply star_loop_total. discriminate.
Qed.

Lemma line_feeds_then s rest :
  rx false (Plus (Chr (Z.eqb 10))) s Some = Some rest ->
  exists run, s = 10 :: run ++ rest /\ Forall (fun c => (10 =? c) = true) run.
Proof.
  unfold Plus. rewrite rx_seq, rx_chr. destruct s as [|c s1]; [discriminate|].
  rewrite next_char_plain. destruct (10 =? c) eqn:Ec; [|discriminate].
  apply Z.eqb_eq in Ec. subst c. rewrite rx_star. intros H.
  apply star_loop_plain in H as (run & rest' & -> & Hk & Hrun).
  inversion Hk; subst rest'. exists run. split; [reflexivity|assumption].
Qed.

Lemma paragraph_break_match s m rest :
  match_here paragraph_break s = Some (m, rest) ->
  m <> [] /\ Forall line_break m.
Proof.
  intros H. pose proof (match_here_app _ _ H) as Hs.
  apply match_here_rx in H. unfold paragraph_break, re, Opt in H.
  cbn [unicode body] in H. rewrite rx_seq, rx_alt, rx_chr, rx_eps in H.
  assert (Hrun : forall run, Forall (fun c => (10 =? c) = true) run ->
                             Forall line_break run).
  { intros run. apply Forall_impl. intros c Hc. right. symmetry. now apply Z.eqb_eq. }
  assert (Hshape : exists m', s = m' ++ rest /\ m' <> [] /\ Forall line_break m').
  { destruct s as [|c s1].
    - exfalso. cbn in H. discriminate.
    - rewrite next_char_plain in H. destruct (13 =? c) eqn:Ec.
      + apply Z.eqb_eq in Ec. subst c.
        destruct (rx false (Plus (Chr (Z.eqb 10))) s1 Some) as [x|] eqn:E1.
        * inversion H; subst x. apply line_feeds_then in E1 as (run & -> & Hr).
          exists (13 :: 10 :: run). split; [reflexivity|]. split; [discriminate|].
          constructor; [left; reflexivity|]. constructor; [right; reflexivity|auto].
        * apply line_feeds_then in H as (run & Hs1 & Hr). discriminate.
      + apply line_feeds_then in H as (run & Hs1 & Hr).
        exists (10 :: run). split; [exact Hs1|]. split; [discriminate|].
        constructor; [right; reflexivity|auto]. }
  destruct Hshape as (m' & Hs' & Hne & Hall).
  assert (m = m') by (apply (app_inv_tail rest); congruence).
  subst m'. split; assumption.
Qed.

Lemma line_break_blank m : Forall line_break m -> blank m.
Proof.
  apply Forall_impl. intros c [->| ->]; reflexivity.
Qed.

Lemma block_of_segments (l : list (jstring * jstring)) tail g m :
  In (g, m) l ->
  block g (flat_map (fun gm => fst gm ++ snd gm) l ++ tail).
Proof.
  induction l as [|[g' m'] l IH]; intros Hin; [destruct Hin|].
  cbn [flat_map fst snd]. destruct Hin as [E|Hin].
  - inversion E; subst. exists [], (m ++ flat_map (fun gm => fst gm ++ snd gm) l ++ tail).
    cbn [app]. rewrite <- !app_assoc. reflexivity.
  - destruct (IH Hin) as (a & b & Hab). exists (g' ++ m' ++ a), b.
    rewrite <- !app_assoc. do 2 f_equal. exact Hab.
Qed.

Lemma block_blank x s : block x s -> blank s -> blank x.
Proof.
  intros (a & b & ->) H. apply blank_app in H as [_ H]. now apply blank_app in H as [H _].
Qed.

(** The paragraphs of a text are trimmed blocks of it without line feed,
    and there is none exactly when the text is white space. *)
Lemma paragraphs_spec rawText :
  Forall (fun p => p <> [] /\ trim p = p /\ ~ In 10 p /\ block p rawText)
         (paragraphs_of rawText)
  /\ (paragraphs_of rawText = [] <-> blank rawText).
Proof.
  unfold paragraphs_of, split.
  pose proof (@all_segments_spec paragraph_break (Z.eqb 10) (Forall line_break)
                eq_refl eq_refl paragraph_break_trigger paragraph_break_match rawText)
    as [Hl Ht].
  pose proof (segments_app paragraph_break (S (length rawText)) rawText) as Happ.
  fold (all_segments paragraph_break rawText) in Happ.
  destruct (all_segments paragraph_break rawText) as [l tail]. cbn [fst snd] in *.
  assert (Hpieces : Forall (fun p => ~ In 10 p /\ block p rawText) (map fst l ++ [tail])).
  { apply Forall_app. split.
    - rewrite Forall_forall. intros p Hp. apply in_map_iff in Hp as ([g m] & <- & Hin).
      cbn [fst]. rewrite Forall_forall in Hl. destruct (Hl _ Hin) as (Hg & _).
      cbn [fst] in Hg. split.
      + intros H10. rewrite Forall_forall in Hg. specialize (Hg _ H10). discriminate.
      + rewrite <- Happ. eapply block_of_segments. exact Hin.
    - constructor; [|constructor]. split.
      + intros H10. rewrite Forall_forall in Ht. specialize (Ht _ H10). discriminate.
      + rewrite <- Happ. exists (flat_map (fun gm => fst gm ++ snd gm) l), [].
        rewrite app_nil_r. reflexivity. }
  split.
  - rewrite Forall_forall. intros p Hp. apply filter_In in Hp as [Hp Hne].
    apply in_map_iff in Hp as (piece & <- & Hin).
    rewrite Forall_forall in Hpieces. destruct (Hpieces _ Hin) as [H10 Hb].
    split; [intros E; rewrite E in Hne; discriminate|].
    split; [apply trim_idem|]. split.
    + intros H. apply H10. apply (trim_in _ _ H).
    + eapply block_trans; [apply trim_is_block|exact Hb].
  - split.
    + intros Hnil.
      assert (Hblank : Forall blank (map fst l ++ [tail])).
      { rewrite Forall_forall. intros piece Hin. apply trim_nil_iff.
        destruct (trim piece) as [|c t] eqn:E; [reflexivity|]. exfalso.
        assert (Hf : In (trim piece)
                       (filter nonempty (map trim (map fst l ++ [tail])))).
        { apply filter_In. split; [apply in_map, Hin|rewrite E; reflexivity]. }
        rewrite Hnil in Hf. destruct Hf. }
      apply Forall_app in Hblank as [Hgaps Htail]. apply Forall_inv in Htail.
      rewrite <- Happ. apply blank_app. split; [|exact Htail].
      clear -Hgaps Hl. induction l as [|[g m] l IH]; [constructor|].
      cbn [flat_map fst snd]. cbn [map fst] in Hgaps.
      apply blank_app. split; [apply blank_app; split|].
      * apply (Forall_inv Hgaps).
      * apply line_break_blank. apply (proj2 (proj2 (Forall_inv Hl))).
      * apply IH; [apply (Forall_inv_tail Hl)|apply (Forall_inv_tail Hgaps)].
    + intros Hblank.
      assert (Hall : forall piece, In piece (map fst l ++ [tail]) -> trim piece = []).
      { intros piece Hin. apply trim_nil_iff. rewrite Forall_forall in Hpieces.
        destruct (Hpieces _ Hin) as [_ Hb]. eapply block_blank; eassumption. }
      generalize dependent (map fst l ++ [tail]). clear. intros ps _ Hall.
      induction ps as [|piece ps IH]; [reflexivity|].
      cbn [map filter]. rewrite (Hall piece (or_introl eq_refl)). cbn [nonempty].
      apply IH. intros q Hq. apply Hall. right. exact Hq.
Qed.

(** ** The sentence pattern [/[^。！？!?]+[。！？!?]?/gu] *)

Lemma sentence_pattern_clauses : sentence_pattern = clauses sentence_end.
Proof. reflexivity. Qed.

Lemma sentence_end_plain : plain_set sentence_end.
Proof. apply plain_set_check. vm_compute. reflexivity. Qed.

Lemma set_not_space set :
  forallb (fun c => negb (is_space c)) set = true ->
  forall t, oneOf set t = true -> is_space t = false.
Proof.
  intros Hset t Ht. unfold oneOf in Ht. apply existsb_exists in Ht as (x & Hx & Etx).
  apply Z.eqb_eq in Etx. subst x. rewrite forallb_forall in Hset.
  apply negb_true_iff. apply Hset, Hx.
Qed.

Section Stops.

Variable set : jstring.
Hypothesis set_plain : plain_set set.

(** The continuation after the run of a clause: its optional end. *)
Definition clause_end_then (s : jstring) : option jstring :=
  rx true (Opt (Chr (oneOf set))) s Some.

Lemma clause_end_then_total s : clause_end_then s <> None.
Proof.
  unfold clause_end_then, Opt. rewrite rx_alt, rx_chr, rx_eps.
  destruct (next_char true s) as [[d s2]|]; [|discriminate].
  destruct (oneOf set d); discriminate.
Qed.

(** Where a text starts: at its end, or at a character of the set. *)
Definition at_stop (s : jstring) : Prop :=
  s = [] \/ exists c r, s = c :: r /\ oneOf set c = true.

Lemma next_char_in_set s c s' :
  next_char true s = Some (c, s') -> oneOf set c = true -> s = c :: s'.
Proof.
  intros En Hc. apply next_char_split in En
    as (q & -> & _ & [->|(h & l & -> & _ & Hh & Hl & ->)]); [reflexivity|].
  exfalso. apply set_plain in Hc as (Hc & _).
  pose proof (surrogate_pair_large _ _ Hh Hl). lia.
Qed.

(** The greedy run of a clause ends at a stop only. *)
Lemma star_loop_stops : forall n s x,
  (length s <= n)%nat ->
  star_loop true (Chr (noneOf set)) clause_end_then n s = Some x ->
  exists run rest, s = run ++ rest /\ at_stop rest /\ clause_end_then rest = Some x.
Proof.
  induction n as [|n IH]; intros s x Hlen H.
  - destruct s; [|cbn in Hlen; lia]. cbn [star_loop] in H.
    exists [], []. split; [reflexivity|]. split; [left; reflexivity|exact H].
  - cbn [star_loop] in H. rewrite rx_chr in H.
    destruct (next_char true s) as [[c s']|] eqn:En.
    + destruct (noneOf set c) eqn:Hc.
      * pose proof (next_char_suffix _ _ En) as [[q Hq] Hlt].
        replace (length s' <? length s)%nat with true in H
          by (symmetry; apply Nat.ltb_lt; exact Hlt).
        destruct (star_loop true (Chr (noneOf set)) clause_end_then n s') as [y|] eqn:E.
        -- inversion H; subst y. apply IH in E as (run & rest & -> & Hstop & Hk); [|lia].
           exists (q ++ run), rest. rewrite <- app_assoc. auto.
        -- exfalso. revert E. apply star_loop_total. apply clause_end_then_total.
      * exists [], s. split; [reflexivity|]. split; [|exact H].
        right. exists c, s'. unfold noneOf in Hc. apply negb_false_iff in Hc.
        split; [eapply next_char_in_set; eassumption|exact Hc].
    + destruct s as [|c0 [|d r]];
        [|discriminate
         |cbn [next_char] in En;
          match type of En with context [if ?b then _ else _] => destruct b end;
          discriminate].
      exists [], []. split; [reflexivity|]. split; [left; reflexivity|exact H].
Qed.

Lemma clause_end_then_stop rest x :
  at_stop rest -> clause_end_then rest = Some x ->
  (rest = [] /\ x = []) \/ exists t, rest = t :: x /\ oneOf set t = true.
Proof.
  intros [->|(c & r & -> & Hc)] H.
  - left. cbn in H. inversion H. auto.
  - right. unfold clause_end_then, Opt in H. rewrite rx_alt, rx_chr in H.
    assert (En : next_char true (c :: r) = Some (c, r)).
    { destruct r as [|d r]; [reflexivity|]. cbn [next_char].
      apply set_plain in Hc as (_ & Hh & _). rewrite Hh. reflexivity. }
    rewrite En, Hc in H. inversion H; subst x. exists c. auto.
Qed.

(** A match of the clause pattern ends with a character of the set, or at
    the end of the text. *)
Lemma clause_match_end s m rest :
  match_here (clauses set) s = Some (m, rest) ->
  m <> [] /\ (rest = [] \/ exists m' t, m = m' ++ [t] /\ oneOf set t = true).
Proof.
  intros H. pose proof (match_here_app _ _ H) as Hs.
  apply match_here_rx in H. unfold clauses, re_u, Plus in H. cbn [unicode body] in H.
  rewrite !rx_seq, rx_chr in H.
  destruct (next_char true s) as [[c s1]|] eqn:En; [|discriminate].
  destruct (noneOf set c) eqn:Hc; [|discriminate].
  rewrite rx_star in H. fold clause_end_then in H.
  apply star_loop_stops in H as (run & stop & -> & Hstop & Hk); [|lia].
  apply next_char_split in En as (q & Hq & Hqne & _).
  destruct (@clause_end_then_stop _ _ Hstop Hk) as [[-> ->]|(t & -> & Ht)].
  - rewrite app_nil_r in Hs. split; [|left; reflexivity].
    intros ->. rewrite Hs in Hq. cbn in Hq. destruct q; [congruence|].
    apply (f_equal (@length Z)) in Hq. rewrite length_app in Hq. cbn in Hq. lia.
  - assert (Hm : m = (q ++ run) ++ [t]).
    { apply (app_inv_tail rest). rewrite <- Hs, Hq, <- !app_assoc. reflexivity. }
    split; [rewrite Hm; destruct (q ++ run); discriminate|].
    right. exists (q ++ run), t. auto.
Qed.

End Stops.

Lemma segments_head_exec e f s pre m l tail :
  segments (S f) e s = ((pre, m) :: l, tail) ->
  exists rest, exec e s = Some (pre, m, rest).
Proof.
  cbn [segments]. destruct (exec e s) as [[[p m0] rest]|]; [|discriminate].
  intros H. exists rest. destruct m0 as [|c m0].
  - destruct rest as [|c rest']; [inversion H; reflexivity|].
    destruct (shift_gap c (segments f e rest')). inversion H. reflexivity.
  - destruct (segments f e rest). inversion H. reflexivity.
Qed.

(** The sentences of a paragraph, as [chunkScript] and
    [fallbackSegmentScript] cut them. *)
Definition sentences_of (paragraph : jstring) : list jstring :=
  match match_all sentence_pattern paragraph with
  | Some l => l
  | None => [paragraph]
  end.

Definition units_of (paragraph : jstring) : list jstring :=
  filter nonempty (map trim (sentences_of paragraph)).

Lemma not_blank_trim s c : In c s -> is_space c = false -> nonempty (trim s) = true.
Proof.
  intros Hin Hc. destruct (trim s) eqn:E; [|reflexivity]. exfalso.
  apply trim_nil_iff in E. rewrite (@blank_in _ _ E Hin) in Hc. discriminate.
Qed.

(** A trimmed paragraph gives at least one unit; its units are trimmed
    blocks of it. *)
Lemma units_of_paragraph p :
  p <> [] -> trim p = p ->
  units_of p <> []
  /\ Forall (fun u => u <> [] /\ trim u = u /\ block u p) (units_of p).
Proof.
  intros Hne Htrim. split.
  - unfold units_of, sentences_of, match_all.
    destruct (fst (all_segments sentence_pattern p)) as [|[pre m] l] eqn:E.
    + cbn [map filter]. rewrite Htrim. destruct p; [congruence|]. discriminate.
    + unfold all_segments in E.
      destruct (segments (S (length p)) sentence_pattern p) as [l0 tail] eqn:Eseg.
      cbn [fst] in E. subst l0.
      apply segments_head_exec in Eseg as (rest & Hexec).
      apply exec_match_here in Hexec as (Hp & Hm).
      rewrite sentence_pattern_clauses in Hm.
      apply (@clause_match_end sentence_end sentence_end_plain) in Hm as (Hmne & Hend).
      assert (Hkeep : nonempty (trim m) = true).
      { destruct Hend as [->|(m' & t & -> & Ht)].
        - rewrite app_nil_r in Hp.
          destruct (rev m) as [|c q] eqn:Er.
          { apply (f_equal (@length Z)) in Er. rewrite length_rev in Er.
            destruct m; [congruence|discriminate]. }
          assert (Hrev : rev p = c :: q ++ rev pre).
          { rewrite Hp, rev_app_distr, Er. reflexivity. }
          apply not_blank_trim with (c := c).
          + apply in_rev. rewrite Er. left. reflexivity.
          + apply (@trimmed_last _ _ _ Htrim Hrev).
        - apply not_blank_trim with (c := t).
          + apply in_or_app. right. left. reflexivity.
          + apply (@set_not_space sentence_end); [vm_compute; reflexivity|exact Ht]. }
      cbn [map snd filter]. rewrite Hkeep. discriminate.
  - unfold units_of. rewrite Forall_forall. intros u Hu.
    apply filter_In in Hu as [Hu Hn]. apply in_map_iff in Hu as (sentence & <- & Hin).
    split; [intros E; rewrite E in Hn; discriminate|]. split; [apply trim_idem|].
    unfold sentences_of in Hin. rewrite sentence_pattern_clauses in Hin.
    apply (@sentences_one_clause sentence_end p sentence sentence_end_plain) in Hin as [_ Hb].
    eapply block_trans; [apply trim_is_block|exact Hb].
Qed.

End SentenceFacts.

(* ================================================================== *)
(** * Where the long lines are cut *)
(* ================================================================== *)

Module CuttingFacts.

Import RegexFacts TextFacts ClassifierFacts LengthFacts PipelineFacts SentenceFacts.

Local Open Scope Z_scope.

(** ** The clause pattern cuts the clauses *)

(** The first clause of a text: its characters up to the first mark, the
    mark included, and the rest. *)
Fixpoint first_clause (set : jstring) (s : jstring) : jstring * jstring :=
  match s with
  | [] => ([], [])
  | c :: r =>
    if oneOf set c then ([c], r)
    else let (m, rest) := first_clause set r in (c :: m, rest)
  end.

Lemma first_clause_run set body : forall tl,
  Forall (fun c => noneOf set c = true) body ->
  (tl = [] \/ exists t rest, tl = t :: rest /\ oneOf set t = true) ->
  first_clause set (body ++ tl) = (body ++ firstn 1 tl, skipn 1 tl).
Proof.
  induction body as [|c body IH]; intros tl Hb Htl.
  - destruct Htl as [->|(t & rest & -> & Ht)]; [reflexivity|].
    cbn [app first_clause firstn skipn]. rewrite Ht. reflexivity.
  - inversion Hb as [|? ? Hc Hb']; subst. cbn [app first_clause].
    unfold noneOf in Hc. apply negb_true_iff in Hc. rewrite Hc.
    rewrite (IH tl Hb' Htl). reflexivity.
Qed.

Lemma split_clauses_first set : forall s run,
  run <> [] ->
  split_clauses set run s
  = (run ++ fst (first_clause set s)) :: split_clauses set [] (snd (first_clause set s)).
Proof.
  induction s as [|c r IH]; intros run Hrun.
  - cbn [split_clauses first_clause fst snd]. rewrite app_nil_r.
    rewrite nonempty_true by assumption. reflexivity.
  - cbn [split_clauses first_clause]. destruct (oneOf set c).
    + rewrite nonempty_true by assumption. reflexivity.
    + rewrite IH by (destruct run; discriminate).
      destruct (first_clause set r) as [m rest]. cbn [fst snd].
      rewrite <- app_assoc. reflexivity.
Qed.

Lemma split_clauses_start set c r :
  noneOf set c = true ->
  split_clauses set [] (c :: r)
  = fst (first_clause set (c :: r))
      :: split_clauses set [] (snd (first_clause set (c :: r))).
Proof.
  intros Hc. cbn [split_clauses first_clause].
  unfold noneOf in Hc. apply negb_true_iff in Hc. rewrite Hc. cbn [app].
  rewrite split_clauses_first by discriminate.
  destruct (first_clause set r) as [m rest]. reflexivity.
Qed.

Section Clauses.

Variable set : jstring.
Hypothesis set_plain : plain_set set.

Lemma mark_here_none c r :
  oneOf set c = true -> match_here (clauses set) (c :: r) = None.
Proof.
  intros Hc. unfold match_here, clauses, re_u, Plus. cbn [unicode body].
  rewrite !rx_seq, rx_chr.
  assert (En : next_char true (c :: r) = Some (c, r)).
  { destruct r as [|d r]; [reflexivity|]. cbn [next_char].
    apply set_plain in Hc as (_ & Hh & _). rewrite Hh. reflexivity. }
  rewrite En. unfold noneOf. rewrite Hc. reflexivity.
Qed.

(** At a character outside the set the pattern matches the first clause. *)
Lemma clause_here c r :
  noneOf set c = true ->
  match_here (clauses set) (c :: r) = Some (first_clause set (c :: r)).
Proof.
  intros Hc.
  destruct (match_here (clauses set) (c :: r)) as [[m rest]|] eqn:E;
    [|exfalso; revert E; now apply clauses_here_some].
  f_equal.
  pose proof (match_here_app _ _ E) as Hs.
  pose proof (@clause_match_shape set _ _ _ set_plain E) as Hone.
  destruct (@clause_match_end set set_plain _ _ _ E) as (Hne & Hend).
  destruct m as [|m0 m]; [congruence|].
  assert (Hm0 : m0 = c) by (cbn in Hs; congruence). subst m0.
  assert (Hbody : Forall (fun d => noneOf set d = true) (removelast (c :: m))).
  { destruct Hone as [H|H]; [exact H|]. exfalso. apply Forall_inv in H.
    unfold noneOf in Hc. rewrite H in Hc. discriminate. }
  pose proof (@app_removelast_last Z (c :: m) 0 ltac:(discriminate)) as Hsplit.
  destruct (oneOf set (last (c :: m) 0)) eqn:Hlast.
  - pose proof (@first_clause_run set (removelast (c :: m))
                  (last (c :: m) 0 :: rest) Hbody
                  (or_intror (ex_intro _ _ (ex_intro _ rest (conj eq_refl Hlast)))))
      as Hfc.
    cbn [firstn skipn] in Hfc.
    replace (removelast (c :: m) ++ last (c :: m) 0 :: rest) with (c :: r) in Hfc
      by (rewrite Hs, Hsplit at 1; rewrite <- app_assoc; reflexivity).
    rewrite Hfc, <- Hsplit. reflexivity.
  - destruct Hend as [->|(m' & t & Hm & Ht)].
    + assert (Hall : Forall (fun d => noneOf set d = true) (c :: m)).
      { rewrite Hsplit. apply Forall_app. split; [exact Hbody|].
        constructor; [|constructor]. unfold noneOf. rewrite Hlast. reflexivity. }
      pose proof (@first_clause_run set (c :: m) [] Hall (or_introl eq_refl)) as Hfc.
      cbn [firstn skipn] in Hfc. rewrite !app_nil_r in Hfc.
      rewrite app_nil_r in Hs. rewrite Hs, Hfc. reflexivity.
    + exfalso. rewrite Hm, last_last in Hlast. congruence.
Qed.

Lemma first_clause_app s : s = fst (first_clause set s) ++ snd (first_clause set s).
Proof.
  induction s as [|c r IH]; [reflexivity|]. cbn [first_clause].
  destruct (oneOf set c); [reflexivity|].
  destruct (first_clause set r) as [m rest]. cbn [fst snd] in *. cbn [app].
  f_equal. exact IH.
Qed.

(** The leftmost match of the pattern is the first clause after the marks
    that follow no run. *)
Lemma scan_clauses : forall s pre,
  match scan (clauses set) pre s with
  | None => split_clauses set [] s = []
  | Some (_, m, rest) =>
    split_clauses set [] s = m :: split_clauses set [] rest
    /\ m <> [] /\ (length rest < length s)%nat
  end.
Proof.
  induction s as [|c r IH]; intros pre.
  - reflexivity.
  - destruct (oneOf set c) eqn:Hc.
    + assert (Hstep : scan (clauses set) pre (c :: r) = scan (clauses set) (c :: pre) r).
      { cbn [scan]. rewrite (@mark_here_none c r Hc).
        destruct r as [|d r']; [reflexivity|].
        apply set_plain in Hc as (_ & Hh & _). rewrite Hh, andb_false_r.
        reflexivity. }
      rewrite Hstep. specialize (IH (c :: pre)).
      assert (Hsplit : split_clauses set [] (c :: r) = split_clauses set [] r).
      { cbn [split_clauses]. rewrite Hc. reflexivity. }
      rewrite Hsplit.
      destruct (scan (clauses set) (c :: pre) r) as [[[p m] rest]|]; [|exact IH].
      destruct IH as (H1 & H2 & H3). split; [exact H1|]. split; [exact H2|].
      cbn [length]. lia.
    + assert (Hn : noneOf set c = true) by (unfold noneOf; rewrite Hc; reflexivity).
      assert (Hhere : match_here (clauses set) (c :: r)
                      = Some (fst (first_clause set (c :: r)),
                              snd (first_clause set (c :: r)))).
      { rewrite (@clause_here c r Hn). destruct (first_clause set (c :: r)).
        reflexivity. }
      rewrite (@scan_hit _ pre _ _ _ Hhere).
      split; [apply split_clauses_start; exact Hn|].
      pose proof (first_clause_app (c :: r)) as Happ.
      assert (Hne : fst (first_clause set (c :: r)) <> []).
      { cbn [first_clause]. rewrite Hc. destruct (first_clause set r). discriminate. }
      split; [exact Hne|].
      apply (f_equal (@length Z)) in Happ. rewrite length_app in Happ.
      destruct (fst (first_clause set (c :: r))); [congruence|].
      cbn [length] in *. lia.
Qed.

Lemma segments_clauses : forall fuel s,
  (length s < fuel)%nat ->
  map snd (fst (segments fuel (clauses set) s)) = split_clauses set [] s.
Proof.
  induction fuel as [|f IH]; intros s Hlen; [lia|].
  cbn [segments]. unfold exec. cbn [anchored clauses re_u]. fold (clauses set).
  pose proof (scan_clauses s []) as H.
  destruct (scan (clauses set) [] s) as [[[p m] rest]|].
  - destruct H as (Hsplit & Hne & Hlt). destruct m as [|c m]; [congruence|].
    specialize (IH rest ltac:(lia)).
    destruct (segments f (clauses set) rest) as [l tail]. cbn [fst map snd] in *.
    rewrite Hsplit, IH. reflexivity.
  - cbn [fst map]. symmetry. exact H.
Qed.

(** [s.match(pattern)] for the pattern of the clauses: the clauses, or
    [null] when there is none. *)
Lemma match_all_clauses s :
  match_all (clauses set) s
  = match split_clauses set [] s with
    | [] => None
    | found => Some found
    end.
Proof.
  unfold match_all, all_segments.
  pose proof (@segments_clauses (S (length s)) s (Nat.lt_succ_diag_r _)) as H.
  destruct (fst (segments (S (length s)) (clauses set) s)) as [|gm l].
  - cbn [map] in H. rewrite <- H. reflexivity.
  - rewrite <- H. reflexivity.
Qed.

End Clauses.

Lemma sentences_are_the_clauses text :
  match match_all clause_pattern text with
  | Some l => l
  | None => [text]
  end = clauses_of text.
Proof.
  rewrite clause_pattern_clauses, (match_all_clauses clause_end_plain).
  unfold clauses_of. destruct (split_clauses clause_end [] text); reflexivity.
Qed.

(** ** The loop cuts at the breaks *)

Lemma slice_firstn cut (R : jstring) : slice 0 cut R = firstn cut R.
Proof. unfold slice. cbn [skipn]. rewrite Nat.sub_0_r. reflexivity. Qed.

Lemma split_remaining_cuts limit : forall fuel R,
  (length R <= fuel)%nat ->
  cut_at_breaks limit R (split_remaining fuel R limit).
Proof.
  assert (Hfinish : forall R, (length R <= limit)%nat ->
            cut_at_breaks limit R (if nonempty R then [R] else [])).
  { intros [|c R] Hl; [apply nothing_left|]. apply fits; [discriminate|exact Hl]. }
  induction fuel as [|fuel IH]; intros R Hlen.
  - destruct R; [apply nothing_left|cbn in Hlen; lia].
  - cbn [split_remaining].
    destruct (limit <? length R)%nat eqn:El;
      [|apply Hfinish; apply Nat.ltb_ge in El; exact El].
    apply Nat.ltb_lt in El.
    assert (Hrest : forall i, (1 <= i)%nat ->
              cut_at_breaks limit (sanitizeLineText (skipn i R))
                (if negb (nonempty (sanitizeLineText (skipn i R))) then []
                 else split_remaining fuel (sanitizeLineText (skipn i R)) limit)).
    { intros i Hi.
      destruct (sanitizeLineText (skipn i R)) as [|c r] eqn:Er;
        [apply nothing_left|]. cbn [nonempty negb]. apply IH.
      rewrite <- Er. pose proof (sanitizeLineText_length (skipn i R)) as Hl.
      rewrite length_skipn in Hl. lia. }
    assert (Hshape : forall i (pushed : list jstring),
              (if negb (nonempty (sanitizeLineText (slice_from i R))) then pushed
               else pushed ++ split_remaining fuel
                                (sanitizeLineText (slice_from i R)) limit)
              = pushed ++ (if negb (nonempty (sanitizeLineText (skipn i R))) then []
                           else split_remaining fuel
                                  (sanitizeLineText (skipn i R)) limit)).
    { intros i pushed. unfold slice_from.
      destruct (negb (nonempty (sanitizeLineText (skipn i R))));
        [rewrite app_nil_r|]; reflexivity. }
    rewrite Hshape, slice_firstn. fold (kept (sanitizeLineText
      (firstn (findBreakPosition R limit) R))).
    destruct (findBreakPosition_spec R El) as [H|[[Hno H]|(Hno & Hno' & H)]];
      cbv zeta in H.
    + assert (Hi : (1 <= findBreakPosition R limit < length R)%nat)
        by (destruct H as (Hi & _); lia).
      replace (length R <=? findBreakPosition R limit)%nat with false
        by (symmetry; apply Nat.leb_gt; lia).
      apply cut_at_space; [exact El|exact H|apply Hrest; lia].
    + assert (Hi : (1 <= findBreakPosition R limit < length R)%nat)
        by (destruct H as (Hi & _); lia).
      replace (length R <=? findBreakPosition R limit)%nat with false
        by (symmetry; apply Nat.leb_gt; lia).
      apply cut_at_punctuation; [exact El|exact Hno|exact H|apply Hrest; lia].
    + rewrite H, Nat.leb_refl. destruct R as [|c R]; [cbn in El; lia|].
      cbn [nonempty]. apply left_uncut; assumption.
Qed.

(** The pieces of a trimmed clause are trimmed and not empty. *)
Lemma cut_pieces_trimmed limit R pieces :
  cut_at_breaks limit R pieces -> sanitizeLineText R = R ->
  Forall (fun piece => piece <> [] /\ sanitizeLineText piece = piece) pieces.
Proof.
  assert (Hkept : forall part,
            Forall (fun piece => piece <> [] /\ sanitizeLineText piece = piece)
                   (kept (sanitizeLineText part))).
  { intros part. unfold kept.
    destruct (sanitizeLineText part) as [|c r] eqn:E; [constructor|].
    cbn [nonempty]. constructor; [|constructor]. split; [discriminate|].
    rewrite <- E. apply sanitizeLineText_idem. }
  induction 1 as [|R Hne Hl|R i rest El Hb Hrest IH|R i rest El Hno Hb Hrest IH
                  |R El Hno Hno']; intros Hsan.
  - constructor.
  - constructor; [|constructor]. auto.
  - apply Forall_app. split; [apply Hkept|]. apply IH, sanitizeLineText_idem.
  - apply Forall_app. split; [apply Hkept|]. apply IH, sanitizeLineText_idem.
  - constructor; [|constructor]. split; [|exact Hsan].
    intros ->. cbn in El. lia.
Qed.

Lemma chunkDialogueText_cuts text limit :
  exists pieces,
    Forall2 (fun clause made => cut_at_breaks limit (sanitizeLineText clause) made)
            (clauses_of text) pieces
    /\ chunkDialogueText text limit = concat pieces.
Proof.
  unfold chunkDialogueText. rewrite sentences_are_the_clauses.
  induction (clauses_of text) as [|clause rest (pieces & Hall & Heq)].
  - exists []. split; [constructor|reflexivity].
  - exists (split_remaining (length (sanitizeLineText clause))
                            (sanitizeLineText clause) limit :: pieces).
    split.
    + constructor; [|exact Hall]. apply split_remaining_cuts. lia.
    + cbn [flat_map concat]. rewrite Heq. f_equal.
      destruct (sanitizeLineText clause); reflexivity.
Qed.

Lemma lines_of_trimmed_pieces pieces :
  Forall (fun piece => piece <> [] /\ sanitizeLineText piece = piece) pieces ->
  flat_map (fun chunk =>
              if negb (nonempty (sanitizeLineText chunk)) then []
              else [mkLine (sanitizeLineText chunk) dialogue]) pieces
  = map (fun piece => mkLine piece dialogue) pieces.
Proof.
  induction 1 as [|piece pieces [Hne Hsan] _ IH]; [reflexivity|].
  cbn [flat_map map]. rewrite IH, Hsan, nonempty_true by assumption. reflexivity.
Qed.

(** The description leaves no choice: the nearest break is one place, and
    the cases exclude each other. *)
Lemma nearest_break_unique p text from stop i j :
  nearest_break p text from stop i -> nearest_break p text from stop j -> i = j.
Proof.
  intros (Hi & Hbi & Hni) (Hj & Hbj & Hnj).
  destruct (Nat.lt_trichotomy i j) as [Hlt|[Heq|Hgt]]; [|exact Heq|].
  - exfalso. apply (Hni j); [lia|exact Hbj].
  - exfalso. apply (Hnj i); [lia|exact Hbi].
Qed.

Lemma nearest_break_no_break p text from stop i :
  nearest_break p text from stop i -> no_break p text from stop -> False.
Proof. intros (Hi & Hb & _) Hno. exact (Hno i Hi Hb). Qed.

Lemma cut_at_breaks_unique limit R a :
  cut_at_breaks limit R a -> forall b, cut_at_breaks limit R b -> a = b.
Proof.
  induction 1 as [|R Hne Hl|R i rest El Hb Hrest IH|R i rest El Hno Hb Hrest IH
                  |R El Hno Hnp]; intros b Hcut.
  - inversion Hcut; subst; try reflexivity; try congruence;
      match goal with H : (_ < length [])%nat |- _ => cbn in H; lia end.
  - inversion Hcut; subst; try reflexivity; try congruence; lia.
  - inversion Hcut as [|R2 Hne2 Hl2|R2 j rest2 El2 Hb2 Hrest2
                       |R2 j rest2 El2 Hno2 Hb2 Hrest2|R2 El2 Hno2 Hnp2]; subst.
    + cbn in El. lia.
    + lia.
    + pose proof (nearest_break_unique Hb Hb2). subst j.
      rewrite (IH rest2 Hrest2). reflexivity.
    + exfalso. exact (nearest_break_no_break Hb Hno2).
    + exfalso. exact (nearest_break_no_break Hb Hno2).
  - inversion Hcut as [|R2 Hne2 Hl2|R2 j rest2 El2 Hb2 Hrest2
                       |R2 j rest2 El2 Hno2 Hb2 Hrest2|R2 El2 Hno2 Hnp2]; subst.
    + cbn in El. lia.
    + lia.
    + exfalso. exact (nearest_break_no_break Hb2 Hno).
    + pose proof (nearest_break_unique Hb Hb2). subst j.
      rewrite (IH rest2 Hrest2). reflexivity.
    + exfalso. exact (nearest_break_no_break Hb Hnp2).
  - inversion Hcut as [|R2 Hne2 Hl2|R2 j rest2 El2 Hb2 Hrest2
                       |R2 j rest2 El2 Hno2 Hb2 Hrest2|R2 El2 Hno2 Hnp2]; subst.
    + cbn in El. lia.
    + lia.
    + exfalso. exact (nearest_break_no_break Hb2 Hno).
    + exfalso. exact (nearest_break_no_break Hb2 Hnp).
    + reflexivity.
Qed.



(** The cuts at three lines: at the space before the limit; at the clause
    mark, the rest staying whole although it is longer than the limit; and
    at the ellipsis within 5 characters of the limit. *)
Lemma cuts_of_three_lines :
  enforceLineLengths [mkLine (js "aaaaa bbbbb") dialogue] 8
    = [mkLine (js "aaaaa") dialogue; mkLine (js "bbbbb") dialogue]
  /\ clauses_of greeting_and_letters = [js "你好，"; repeat (ch "a") 22]
  /\ enforceLineLengths [mkLine greeting_and_letters dialogue] 20
     = [mkLine (js "你好，") dialogue; mkLine (repeat (ch "a") 22) dialogue]
  /\ enforceLineLengths [mkLine (js "aaaaaa…bbbbbb") dialogue] 8
     = [mkLine (js "aaaaaa…") dialogue; mkLine (js "bbbbbb") dialogue].
Proof. repeat split; vm_compute; reflexivity. Qed.

End CuttingFacts.

(* ================================================================== *)
(** * The chunks of a script and its fallback segmentation *)
(* ================================================================== *)

Module PackingFacts.

Import RegexFacts TextFacts ClassifierFacts LengthFacts BlankFacts SentenceFacts
       ChunkerBasics.

Local Open Scope Z_scope.

(** The units [chunkScript] packs, and the ones [fallbackSegmentScript]
    turns into lines. *)
Definition units_of_script (rawText : jstring) : list jstring :=
  flat_map units_of (paragraphs_of rawText).

Lemma chunkScript_units rawText limit :
  chunkScript rawText limit =
  match units_of_script rawText with
  | [] => if (0 <? length (trim rawText))%nat then [trim rawText] else []
  | _ :: _ =>
    let st := fold_left (chunk_step limit) (units_of_script rawText) ([], []) in
    let chunks := fst (if nonempty (snd st) then pushCurrent st else st) in
    match chunks with
    | [] => [trim rawText]
    | _ :: _ => chunks
    end
  end.
Proof. reflexivity. Qed.

Lemma units_of_script_spec rawText :
  Forall (fun u => u <> [] /\ trim u = u /\ ~ In 10 u /\ block u rawText)
         (units_of_script rawText)
  /\ (units_of_script rawText = [] <-> blank rawText).
Proof.
  unfold units_of_script.
  destruct (paragraphs_spec rawText) as [Hps Hnil]. split.
  - rewrite Forall_forall. intros u Hu. apply in_flat_map in Hu as (p & Hp & Hu).
    rewrite Forall_forall in Hps. destruct (Hps p Hp) as (Hne & Htrim & H10 & Hb).
    destruct (units_of_paragraph Hne Htrim) as [_ Hall].
    rewrite Forall_forall in Hall. destruct (Hall u Hu) as (Hu1 & Hu2 & Hu3).
    split; [exact Hu1|]. split; [exact Hu2|]. split.
    + intros H. apply H10. eapply block_in; eassumption.
    + eapply block_trans; eassumption.
  - split.
    + intros Hunits. apply Hnil.
      destruct (paragraphs_of rawText) as [|p ps]; [reflexivity|]. exfalso.
      destruct (Forall_inv Hps) as (Hne & Htrim & _).
      destruct (units_of_paragraph Hne Htrim) as [Hsome _].
      cbn [flat_map] in Hunits. apply app_eq_nil in Hunits as [Hunits _]. auto.
    + intros Hblank. apply Hnil in Hblank. rewrite Hblank. reflexivity.
Qed.

Lemma trimmed_not_blank u : u <> [] -> trim u = u -> ~ blank u.
Proof. intros Hne Htrim Hb. apply trim_nil_iff in Hb. congruence. Qed.

Lemma not_blank_pushes s : ~ blank s -> (0 <? length (trim s))%nat = true.
Proof.
  intros H. apply Nat.ltb_lt. destruct (trim s) eqn:E; [|cbn; lia].
  exfalso. apply H, trim_nil_iff, E.
Qed.

(** What the packing loop keeps true of [(chunks, current)]. *)
Definition packed (limit : nat) (st : list jstring * jstring) : Prop :=
  Forall (fun chunk => (length chunk <= limit)%nat /\ trim chunk = chunk) (fst st)
  /\ (length (snd st) <= limit)%nat
  /\ (snd st = [] \/ ~ blank (snd st)).

Definition started (st : list jstring * jstring) : Prop :=
  fst st <> [] \/ snd st <> [].

Lemma pushCurrent_packed limit st :
  packed limit st ->
  Forall (fun chunk => (length chunk <= limit)%nat /\ trim chunk = chunk)
         (fst (pushCurrent st)).
Proof.
  destruct st as [chunks current]. intros (Hc & Hl & _). cbn [fst snd] in *.
  unfold pushCurrent. cbn [fst].
  destruct (0 <? length (trim current))%nat; [|exact Hc].
  apply Forall_app. split; [exact Hc|]. constructor; [|constructor].
  split; [|apply trim_idem]. pose proof (trim_length current). lia.
Qed.

Lemma chunk_step_packed limit st unit :
  (0 < limit)%nat -> unit <> [] -> trim unit = unit ->
  packed limit st ->
  packed limit (chunk_step limit st unit) /\ started (chunk_step limit st unit).
Proof.
  intros Hpos Hne Htrim Hst. pose proof (pushCurrent_packed Hst) as Hpush.
  pose proof (trimmed_not_blank Hne Htrim) as Hnb.
  destruct st as [chunks current]. destruct Hst as (Hc & Hl & Hcur).
  cbn [fst snd] in *. unfold chunk_step. cbn [fst snd].
  destruct (limit <? length unit)%nat eqn:Elong.
  - destruct (@chunkLongUnit_spec unit limit Hpos) as (Hpieces & _ & Hcat).
    specialize (Hcat Htrim).
    assert (Hsome : map trim (chunkLongUnit unit limit) <> []).
    { destruct (chunkLongUnit unit limit); [cbn in Hcat; congruence|discriminate]. }
    assert (Htrimmed : Forall (fun chunk => (length chunk <= limit)%nat /\ trim chunk = chunk)
                         (map trim (chunkLongUnit unit limit))).
    { rewrite Forall_forall. intros c Hin. apply in_map_iff in Hin as (piece & <- & Hin).
      rewrite Forall_forall in Hpieces. specialize (Hpieces _ Hin).
      split; [|apply trim_idem]. pose proof (trim_length piece). lia. }
    assert (Hshape : exists chunks',
              (if nonempty current then pushCurrent (chunks, current)
               else (chunks, current)) = (chunks', [])
              /\ Forall (fun chunk => (length chunk <= limit)%nat /\ trim chunk = chunk)
                        chunks').
    { destruct current as [|c r]; cbn [nonempty].
      - exists chunks. auto.
      - eexists. split; [reflexivity|]. exact Hpush. }
    destruct Hshape as (chunks' & -> & Hc').
    split.
    + split; [|split]; cbn [fst snd].
      * apply Forall_app. auto.
      * cbn [length]. lia.
      * left. reflexivity.
    + left. cbn [fst]. intros E. apply app_eq_nil in E as [_ E]. auto.
  - apply Nat.ltb_ge in Elong.
    destruct (((limit <? length (if nonempty current then current ++ [10%Z] ++ unit else unit))%nat
               && nonempty current)) eqn:Efull.
    + split.
      * split; [|split]; cbn [fst snd]; [exact Hpush|exact Elong|right; exact Hnb].
      * right. exact Hne.
    + assert (Happ : (length (if nonempty current then current ++ [10%Z] ++ unit else unit)
                      <= limit)%nat
                     /\ ~ blank (if nonempty current then current ++ [10%Z] ++ unit else unit)).
      { destruct current as [|c r]; cbn [nonempty] in *; [auto|].
        rewrite andb_true_r in Efull. apply Nat.ltb_ge in Efull. split; [exact Efull|].
        intros Hb. apply blank_app in Hb as [_ Hb]. apply blank_app in Hb as [_ Hb]. auto. }
      destruct Happ as [Hlen Hnb'].
      split.
      * split; [|split]; cbn [fst snd]; [exact Hc|exact Hlen|right; exact Hnb'].
      * right. cbn [snd]. intros E. apply Hnb'.
        apply (@eq_ind_r _ [] blank); [constructor|exact E].
Qed.

Lemma fold_chunk_step_packed limit : (0 < limit)%nat -> forall units st,
  Forall (fun u => u <> [] /\ trim u = u) units ->
  packed limit st ->
  packed limit (fold_left (chunk_step limit) units st)
  /\ (units <> [] -> started (fold_left (chunk_step limit) units st)).
Proof.
  intros Hpos. induction units as [|u us IH]; intros st Hus Hst.
  - split; [exact Hst|congruence].
  - cbn [fold_left]. destruct (Forall_inv Hus) as [Hne Htrim].
    destruct (chunk_step_packed Hpos Hne Htrim Hst) as [Hst' Hstarted].
    destruct (IH _ (Forall_inv_tail Hus) Hst') as [Hp Hs]. split; [exact Hp|].
    intros _. destruct us as [|u' us']; [exact Hstarted|]. apply Hs. discriminate.
Qed.

(** X6.  With a positive limit no chunk of [chunkScript] is longer than the
    limit, and every chunk is trimmed: the two places where the source
    falls back on the whole trimmed text are never reached. *)
Theorem chunkScript_chunks_within_limit :
  forall rawText limit, (0 < limit)%nat ->
    Forall (fun chunk => (length chunk <= limit)%nat /\ trim chunk = chunk)
           (chunkScript rawText limit).
Proof.
  intros rawText limit Hpos. rewrite chunkScript_units.
  destruct (units_of_script_spec rawText) as [Hunits Hnil].
  destruct (units_of_script rawText) as [|u us] eqn:Eu.
  - assert (Hb : trim rawText = []) by (apply trim_nil_iff, Hnil; reflexivity).
    rewrite Hb. constructor.
  - assert (Hus : Forall (fun u => u <> [] /\ trim u = u) (u :: us)).
    { revert Hunits. apply Forall_impl. tauto. }
    assert (H0 : packed limit ([], [])).
    { split; [constructor|]. split; [cbn; lia|left; reflexivity]. }
    destruct (fold_chunk_step_packed Hpos Hus H0) as [Hp Hs].
    specialize (Hs ltac:(discriminate)).
    set (st := fold_left (chunk_step limit) (u :: us) ([], [])) in *.
    cbv zeta.
    assert (Hfinal : Forall (fun chunk => (length chunk <= limit)%nat /\ trim chunk = chunk)
                       (fst (if nonempty (snd st) then pushCurrent st else st))
                     /\ fst (if nonempty (snd st) then pushCurrent st else st) <> []).
    { pose proof (pushCurrent_packed Hp) as Hpush.
      destruct st as [chunks current]. destruct Hp as (Hc & Hl & Hcur).
      cbn [fst snd] in *. destruct current as [|c r]; cbn [nonempty].
      - split; [exact Hc|]. destruct Hs as [Hs|Hs]; [exact Hs|exfalso; apply Hs; reflexivity].
      - split; [exact Hpush|]. unfold pushCurrent. cbn [fst].
        destruct Hcur as [Hcur|Hcur]; [discriminate|].
        rewrite (not_blank_pushes Hcur). intros E. apply app_eq_nil in E as [_ E].
        discriminate. }
    destruct Hfinal as [Hall Hsome].
    destruct (fst (if nonempty (snd st) then pushCurrent st else st)); [congruence|exact Hall].
Qed.

Lemma chunkScript_chunks_within_limit_witness :
  Forall (fun chunk => (length chunk <= 4)%nat /\ trim chunk = chunk)
         (chunkScript (js "你好嗎？ 我很好！") 4).
Proof. apply chunkScript_chunks_within_limit. lia. Defined.

(** X7.  With a positive limit, [chunkScript] returns no chunk exactly
    for a text of white space only (the empty text included). *)
Theorem chunkScript_empty_iff_blank :
  forall rawText limit, (0 < limit)%nat ->
    (chunkScript rawText limit = [] <-> trim rawText = []).
Proof.
  intros rawText limit _. rewrite chunkScript_units.
  destruct (units_of_script_spec rawText) as [_ Hnil]. split.
  - intros H. destruct (units_of_script rawText) as [|u us].
    + destruct (trim rawText); [reflexivity|discriminate].
    + cbv zeta in H.
      destruct (fst (if nonempty _ then _ else _)); discriminate.
  - intros Hb. assert (Hu : units_of_script rawText = []).
    { apply Hnil, trim_nil_iff, Hb. }
    rewrite Hu, Hb. reflexivity.
Qed.

Lemma chunkScript_empty_iff_blank_witness :
  chunkScript [0x20; 0x0A; 0x3000] 4 = [] <-> trim [0x20; 0x0A; 0x3000] = [].
Proof. apply chunkScript_empty_iff_blank. lia. Defined.

(** ** The fallback segmentation *)

Lemma stripBom_trimmed u : trim u = u -> stripBom u = u.
Proof.
  intros Htrim. destruct u as [|c r]; [reflexivity|]. cbn [stripBom].
  destruct (c =? 0xFEFF) eqn:E; [|reflexivity]. exfalso.
  apply Z.eqb_eq in E. subst c.
  pose proof (@trimmed_first _ _ _ Htrim eq_refl) as H. discriminate.
Qed.

Lemma sanitizeLineText_trimmed u :
  trim u = u -> ~ In 10 u -> sanitizeLineText u = u.
Proof.
  intros Htrim H10. rewrite (sanitizeLineText_plain _ H10), (stripBom_trimmed Htrim).
  exact Htrim.
Qed.

(** The units of a paragraph and the line of a unit, as
    [fallbackSegmentScript] writes them. *)
Definition fallback_units_of (p : jstring) : list jstring :=
  match match_all sentence_pattern p with
  | Some ((_ :: _) as matches) => filter nonempty (map trim matches)
  | _ => [p]
  end.

Definition line_of_unit (unit : jstring) : list Line :=
  let text := sanitizeLineText unit in
  if negb (nonempty text) then [] else [mkLine text (classify text)].

Lemma fallbackSegmentScript_eq rawText :
  fallbackSegmentScript rawText
  = flat_map (fun p => flat_map line_of_unit (fallback_units_of p))
             (paragraphs_of rawText).
Proof. reflexivity. Qed.

Lemma fallback_units p :
  p <> [] -> trim p = p -> fallback_units_of p = units_of p.
Proof.
  intros Hne Htrim. unfold fallback_units_of, units_of, sentences_of, match_all.
  destruct (fst (all_segments sentence_pattern p)) as [|gm l]; [|reflexivity].
  cbn [map filter]. rewrite Htrim. destruct p; [congruence|reflexivity].
Qed.

Lemma fallbackSegmentScript_units rawText :
  fallbackSegmentScript rawText
  = map (fun u => mkLine u (classify u)) (units_of_script rawText).
Proof.
  rewrite fallbackSegmentScript_eq. unfold units_of_script.
  destruct (paragraphs_spec rawText) as [Hps _].
  induction (paragraphs_of rawText) as [|p ps IH]; [reflexivity|].
  cbn [flat_map]. rewrite map_app, (IH (Forall_inv_tail Hps)). f_equal.
  destruct (Forall_inv Hps) as (Hne & Htrim & H10 & _).
  rewrite (fallback_units Hne Htrim).
  destruct (units_of_paragraph Hne Htrim) as [_ Hall].
  induction (units_of p) as [|u us IHu]; [reflexivity|].
  cbn [flat_map map]. rewrite (IHu (Forall_inv_tail Hall)).
  destruct (Forall_inv Hall) as (Hu1 & Hu2 & Hu3).
  assert (Hs : sanitizeLineText u = u).
  { apply sanitizeLineText_trimmed; [exact Hu2|].
    intros H. apply H10. eapply block_in; eassumption. }
  unfold line_of_unit. rewrite Hs. destruct u; [congruence|reflexivity].
Qed.

(** X8.  The fallback segmentation invents nothing: every line it makes
    is a non-empty, trimmed, contiguous piece of the script without line
    feed, typed by the classifier; and it makes no line exactly when the
    script is white space only. *)
Theorem fallbackSegmentScript_cuts_the_script :
  forall rawText,
    Forall (fun l => text l <> [] /\ trim (text l) = text l
                     /\ ~ In 10 (text l) /\ block (text l) rawText
                     /\ type l = classify (text l))
           (fallbackSegmentScript rawText)
    /\ (fallbackSegmentScript rawText = [] <-> trim rawText = []).
Proof.
  intros rawText. rewrite fallbackSegmentScript_units.
  destruct (units_of_script_spec rawText) as [Hunits Hnil]. split.
  - rewrite Forall_forall. intros l Hl. apply in_map_iff in Hl as (u & <- & Hu).
    rewrite Forall_forall in Hunits. destruct (Hunits u Hu) as (H1 & H2 & H3 & H4).
    cbn [text type]. auto.
  - split.
    + intros H. apply trim_nil_iff, Hnil.
      destruct (units_of_script rawText); [reflexivity|discriminate].
    + intros H. apply trim_nil_iff, Hnil in H. rewrite H. reflexivity.
Qed.

End PackingFacts.

(* ================================================================== *)
(** * Errors of a run *)
(* ================================================================== *)

Module RunFacts.

Import RegexFacts SessionFacts TextFacts ClassifierFacts LengthFacts PipelineFacts
       UploadFacts.

Local Open Scope Z_scope.

Section WithServices.

Variable JSON_parse : jstring -> option json.
Variable responses_create : nat -> nat -> jstring -> ServiceReply.
Variable Buffer_toString : list Z -> jstring -> jstring.
Variable iconv_decode : list Z -> jstring -> option jstring.

Lemma parseJsonArrayLoose_throws raw code :
  parseJsonArrayLoose JSON_parse raw = Throw code ->
  code = Some (js "INVALID_JSON").
Proof.
  unfold parseJsonArrayLoose.
  destruct (JSON_parse (trim raw)); [discriminate|].
  match goal with
  | |- match ?second with _ => _ end = _ -> _ => destruct second; [discriminate|]
  end.
  match goal with
  | |- match ?third with _ => _ end = _ -> _ => destruct third; [discriminate|]
  end.
  intros H. inversion H. reflexivity.
Qed.

(** An entry whose text [sanitizeLineText] cannot convert: its
    normalization throws a [TypeError], an error without code. *)
Definition unconvertible (entry : json) : Prop :=
  forall keepEmpty, normalizeLineEntry (Some entry) keepEmpty = Throw None.

Lemma normalizeLineEntry_throws entry keepEmpty code :
  normalizeLineEntry (Some entry) keepEmpty = Throw code ->
  code = None /\ unconvertible entry.
Proof.
  unfold unconvertible, normalizeLineEntry.
  destruct entry as [| | |s|items|fields]; try discriminate.
  - destruct (negb (nonempty (sanitizeLineText s))); [destruct keepEmpty|];
      discriminate.
  - destruct (text_of_value _) as [converted|].
    + destruct (negb (nonempty (sanitizeLineText converted)) && negb keepEmpty);
        discriminate.
    + intros H. inversion H. split; reflexivity.
  - destruct (text_of_value _) as [converted|].
    + destruct (negb (nonempty (sanitizeLineText converted)) && negb keepEmpty);
        discriminate.
    + intros H. inversion H. split; reflexivity.
Qed.

(** [normalizeScriptLines] throws for an entry that cannot be converted,
    and for nothing else. *)
Lemma normalize_entries_throws keepEmpty : forall entries code,
  normalize_entries keepEmpty entries = Throw code ->
  code = None /\ exists entry, In entry entries /\ unconvertible entry.
Proof.
  induction entries as [|entry rest IH]; intros code H; cbn in H; [discriminate|].
  destruct (normalize_entry keepEmpty entry) as [made|c] eqn:E.
  - destruct (normalize_entries keepEmpty rest) as [more|c] eqn:Er; [discriminate|].
    inversion H; subst c. destruct (IH code eq_refl) as (Hc & e & Hin & He).
    split; [exact Hc|]. exists e. split; [right; exact Hin|exact He].
  - inversion H; subst c. unfold normalize_entry in E.
    destruct (normalizeLineEntry (Some entry) keepEmpty) as [[base|]|c] eqn:En.
    + destruct (negb (nonempty (text base))); [destruct keepEmpty|]; discriminate.
    + discriminate.
    + inversion E; subst c.
      destruct (@normalizeLineEntry_throws _ _ _ En) as [Hc He].
      split; [exact Hc|]. exists entry. split; [left; reflexivity|exact He].
Qed.

Lemma normalizeScriptLines_throws entries keepEmpty code :
  normalizeScriptLines entries keepEmpty = Throw code ->
  code = None /\ exists entry, In entry entries /\ unconvertible entry.
Proof.
  unfold normalizeScriptLines.
  destruct (normalize_entries keepEmpty entries) as [made|c] eqn:E; [discriminate|].
  intros H. inversion H; subst c. exact (@normalize_entries_throws _ _ _ E).
Qed.

Lemma sanitizeModelLines_throws parsed sourceText code :
  sanitizeModelLines parsed sourceText = Throw code ->
  fallbackCodes_has code = true
  \/ (code = None /\ exists entry, In entry parsed /\ unconvertible entry).
Proof.
  unfold sanitizeModelLines.
  destruct (normalizeScriptLines parsed false) as [normalized|c] eqn:En.
  - cbv zeta. destruct (enforceLineLengths normalized MAX_LINE_LENGTH) as [|l ls].
    + intros H. inversion H. left. vm_compute. reflexivity.
    + match goal with
      | |- (if ?b then _ else _) = _ -> _ => destruct b
      end.
      * intros H. inversion H. left. vm_compute. reflexivity.
      * match goal with
        | |- match ?invalid with _ => _ end = _ -> _ => destruct invalid
        end; [discriminate|].
        intros H. inversion H. left. vm_compute. reflexivity.
  - intros H. inversion H; subst c. right.
    exact (@normalizeScriptLines_throws _ _ _ En).
Qed.

(** Once the service has replied, what [parseChunk] throws is a code of
    [fallbackCodes], or the error without code of an entry that cannot be
    converted. *)
Lemma parseChunk_replied chunkText index total output code :
  responses_create index total chunkText = Replied output ->
  parseChunk JSON_parse responses_create chunkText index total = Throw code ->
  fallbackCodes_has code = true
  \/ (code = None
      /\ exists raw parsed entry,
           parseJsonArrayLoose JSON_parse raw = Ok (JArr parsed)
           /\ In entry parsed /\ unconvertible entry).
Proof.
  intros Hreply. unfold parseChunk. rewrite Hreply.
  match goal with
  | |- (if ?b then _ else _) = _ -> _ => destruct b
  end.
  - intros H. inversion H. left. vm_compute. reflexivity.
  - match goal with
    | |- match parseJsonArrayLoose _ ?t with _ => _ end = _ -> _ =>
      destruct (parseJsonArrayLoose JSON_parse t) as [v|c] eqn:E
    end.
    + destruct v; try (intros H; inversion H; left; vm_compute; reflexivity).
      intros H. apply sanitizeModelLines_throws in H as [H|(Hc & entry & Hin & He)];
        [left; exact H|].
      right. split; [exact Hc|].
      eexists _, _, entry. split; [exact E|]. split; assumption.
    + apply parseJsonArrayLoose_throws in E. subst c.
      intros H. inversion H. left. vm_compute. reflexivity.
Qed.


Definition always_replies : Prop :=
  forall index total chunkText,
    exists output, responses_create index total chunkText = Replied output.

Lemma parse_chunks_replies :
  always_replies -> forall chunks index total combined,
  (exists out,
     parse_chunks JSON_parse responses_create chunks index total combined = Ok out)
  \/ parse_chunks JSON_parse responses_create chunks index total combined
     = Throw None.
Proof.
  intros Hall. induction chunks as [|chunkText rest IH]; intros index total combined.
  - left. exists combined. reflexivity.
  - cbn [parse_chunks].
    destruct (parseChunk JSON_parse responses_create chunkText index total)
      as [parsed|code] eqn:E.
    + apply IH.
    + destruct (Hall index total chunkText) as (output & Hreply).
      destruct (@parseChunk_replied _ _ _ _ _ Hreply E) as [Hc|[-> _]].
      * rewrite Hc. apply IH.
      * right. reflexivity.
Qed.

Lemma parseScript_replies rawText :
  always_replies ->
  (exists ls, parseScriptWithOpenAI JSON_parse responses_create rawText = Ok ls)
  \/ parseScriptWithOpenAI JSON_parse responses_create rawText
     = Throw (Some (js "EMPTY_OUTPUT"))
  \/ parseScriptWithOpenAI JSON_parse responses_create rawText = Throw None.
Proof.
  intros Hall. unfold parseScriptWithOpenAI.
  destruct (parse_chunks_replies Hall (chunkScript rawText MAX_CHUNK_LENGTH) 0
              (length (chunkScript rawText MAX_CHUNK_LENGTH)) [])
    as [(out & ->)| ->].
  - destruct out; [right; left; reflexivity|left; eexists; reflexivity].
  - right. right. reflexivity.
Qed.


Lemma enforceLineLengths_nonempty entries limit :
  Forall (fun l => text l <> []) (enforceLineLengths entries limit).
Proof.
  unfold enforceLineLengths. rewrite Forall_forall. intros l Hl.
  apply in_flat_map in Hl as (entry & _ & Hl).
  destruct (nonempty (text entry)) eqn:En; cbn [negb] in Hl; [|destruct Hl].
  destruct (LineType_eqb (type entry) direction || (length (text entry) <=? limit)%nat).
  - destruct Hl as [<-|[]]. intros E. rewrite E in En. discriminate.
  - apply in_flat_map in Hl as (chunk & _ & Hl).
    destruct (nonempty (sanitizeLineText chunk)) eqn:Ec; cbn [negb] in Hl; [|destruct Hl].
    destruct Hl as [<-|[]]. cbn [text]. intros E. rewrite E in Ec. discriminate.
Qed.

Lemma parse_chunks_enforced : forall chunks index total combined out,
  enforceLineLengths combined MAX_LINE_LENGTH = combined ->
  parse_chunks JSON_parse responses_create chunks index total combined = Ok out ->
  enforceLineLengths out MAX_LINE_LENGTH = out.
Proof.
  induction chunks as [|chunkText rest IH]; intros index total combined out Hc H.
  - inversion H. subst out. exact Hc.
  - cbn [parse_chunks] in H.
    destruct (parseChunk JSON_parse responses_create chunkText index total)
      as [parsed|code] eqn:E.
    + apply (IH _ _ _ _) in H; [exact H|].
      rewrite enforceLineLengths_app, Hc.
      destruct (parseChunk_ok _ _ _ _ _ E) as [_ ->]. reflexivity.
    + destruct (fallbackCodes_has code); [|discriminate].
      apply (IH _ _ _ _) in H; [exact H|].
      rewrite enforceLineLengths_app, Hc, fallback_lines_enforced. reflexivity.
Qed.

(** X11.  A run that returns, returns at least one line; no line has an
    empty text; and the length enforcement has nothing left to do on the
    result (a second pass gives the same lines). *)
Theorem run_result_is_settled :
  forall rawText ls,
    parseScriptWithOpenAI JSON_parse responses_create rawText = Ok ls ->
    ls <> []
    /\ Forall (fun l => text l <> []) ls
    /\ enforceLineLengths ls MAX_LINE_LENGTH = ls.
Proof.
  intros rawText ls. unfold parseScriptWithOpenAI.
  destruct (parse_chunks JSON_parse responses_create _ 0 _ []) as [combined|code] eqn:E;
    [|discriminate].
  assert (Hfix : enforceLineLengths combined MAX_LINE_LENGTH = combined).
  { eapply parse_chunks_enforced; [|exact E]. reflexivity. }
  destruct combined as [|l combined]; [intros H; discriminate H|].
  intros H.
  change (Ok (enforceLineLengths (l :: combined) MAX_LINE_LENGTH) = Ok ls) in H.
  rewrite Hfix in H. injection H as <-.
  split; [discriminate|]. split; [|exact Hfix].
  rewrite <- Hfix. apply enforceLineLengths_nonempty.
Qed.

End WithServices.

(** A reply with one entry whose text is an object with a [toString] of
    its own, and [JSON.parse] on that reply and on nothing else. *)
Definition unconvertible_reply : jstring :=
  js "[{" ++ [0x22] ++ js "text" ++ [0x22] ++ js ":{" ++ [0x22] ++ js "toString"
     ++ [0x22] ++ js ":1}}]".
Definition unconvertible_entry : json :=
  JObj [(js "text", JObj [(js "toString", JNum (js "1"))])].
Definition JSON_parse_unconvertible (s : jstring) : option json :=
  if str_eqb s unconvertible_reply then Some (JArr [unconvertible_entry]) else None.
Definition reply_unconvertible : nat -> nat -> jstring -> ServiceReply :=
  fun _ _ _ => Replied (Some unconvertible_reply).

(** The reply that is not answered with the fallback: the chunk throws an
    error without code, and the upload fails with it. *)
Lemma unconvertible_reply_aborts :
  parseChunk JSON_parse_unconvertible reply_unconvertible (js "你好") 0 1 = Throw None
  /\ upload_script JSON_parse_unconvertible reply_unconvertible
                   (decode_as "你好") (iconv_as "你好")
                   (Some (js "key")) (Some [0xE4; 0xBD; 0xA0; 0xE5; 0xA5; 0xBD]) None
     = (Some new_session, [], failed None).
Proof. split; vm_compute; reflexivity. Qed.



Lemma run_result_is_settled_witness :
  parseScriptWithOpenAI JSON_parse_rejects (always_reply "x") (js "你好")
    = Ok [mkLine (js "你好") dialogue]
  /\ [mkLine (js "你好") dialogue] <> []
  /\ Forall (fun l => text l <> []) [mkLine (js "你好") dialogue]
  /\ enforceLineLengths [mkLine (js "你好") dialogue] MAX_LINE_LENGTH
     = [mkLine (js "你好") dialogue].
Proof.
  assert (E : parseScriptWithOpenAI JSON_parse_rejects (always_reply "x") (js "你好")
              = Ok [mkLine (js "你好") dialogue]) by (vm_compute; reflexivity).
  split; [exact E|].
  apply (@run_result_is_settled JSON_parse_rejects (always_reply "x") (js "你好")).
  exact E.
Defined.

End RunFacts.

(* ================================================================== *)
(** * Uploading a blank script *)
(* ================================================================== *)

Module BlankUpload.

Import RegexFacts TextFacts ClassifierFacts LengthFacts BlankFacts SentenceFacts
       ChunkerBasics PackingFacts.

Local Open Scope Z_scope.

Lemma blank_has_no_unit rawText :
  trim rawText = [] -> units_of_script rawText = [].
Proof.
  intros H. destruct (units_of_script_spec rawText) as [_ Hnil].
  apply Hnil, trim_nil_iff, H.
Qed.

Section WithServices.

Variable JSON_parse : jstring -> option json.
Variable responses_create : nat -> nat -> jstring -> ServiceReply.
Variable Buffer_toString : list Z -> jstring -> jstring.
Variable iconv_decode : list Z -> jstring -> option jstring.

(** X22.  An upload whose file decodes to nothing but white space and the
    five marks that [normalizePunctuation] blanks (the empty file
    included) fails with [EMPTY_OUTPUT] without a single request to the
    service: there is no chunk to send and the fallback segmentation has
    no line either.  The session is created if it was missing, and is
    otherwise left as it was; nothing is broadcast. *)
Theorem blank_script_upload_fails :
  forall k key buffer found,
    trim (normalizePunctuation
            (decodeScriptBuffer Buffer_toString iconv_decode buffer)) = [] ->
    upload_script JSON_parse responses_create Buffer_toString iconv_decode
                  (Some (k :: key)) (Some buffer) found
    = (Some (ensureSession found), [], failed (Some (js "EMPTY_OUTPUT"))).
Proof.
  intros k key buffer found Hblank. unfold upload_script.
  set (rawText := normalizePunctuation
                    (decodeScriptBuffer Buffer_toString iconv_decode buffer)) in *.
  assert (Hrun : parseScriptWithOpenAI JSON_parse responses_create rawText
                 = Throw (Some (js "EMPTY_OUTPUT"))).
  { unfold parseScriptWithOpenAI.
    rewrite chunkScript_units, (blank_has_no_unit _ Hblank), Hblank. reflexivity. }
  rewrite Hrun.
  rewrite fallbackSegmentScript_units, (blank_has_no_unit _ Hblank). reflexivity.
Qed.

End WithServices.

Lemma blank_script_upload_fails_witness :
  upload_script JSON_parse_rejects (always_reply "x") (decode_as " ") (iconv_as " ")
                (Some (js "key")) (Some [0x20]) None
  = (Some (ensureSession None), [], failed (Some (js "EMPTY_OUTPUT"))).
Proof.
  apply (@blank_script_upload_fails JSON_parse_rejects (always_reply "x")
           (decode_as " ") (iconv_as " ")).
  vm_compute. reflexivity.
Defined.

End BlankUpload.

(* ================================================================== *)
(** * Normalized and cut lines *)
(* ================================================================== *)

Module LineFacts.

Import RegexFacts SessionFacts TextFacts ClassifierFacts LengthFacts PipelineFacts.

Local Open Scope Z_scope.

Definition is_direction (l : Line) : bool := LineType_eqb (type l) direction.

Lemma enforce_entry_directions limit entry :
  filter is_direction (enforce_entry limit entry)
  = if is_direction entry && nonempty (text entry) then [entry] else [].
Proof.
  unfold enforce_entry, is_direction.
  destruct (nonempty (text entry)); cbn [negb]; [|rewrite andb_false_r; reflexivity].
  rewrite andb_true_r.
  destruct (LineType_eqb (type entry) direction) eqn:Ed; cbn [orb].
  - cbn [filter]. unfold is_direction. rewrite Ed. reflexivity.
  - destruct (length (text entry) <=? limit)%nat.
    + cbn [filter]. rewrite Ed. reflexivity.
    + induction (chunkDialogueText (text entry) limit) as [|chunk chunks IH];
        [reflexivity|].
      cbn [flat_map]. rewrite filter_app, IH, app_nil_r.
      destruct (nonempty (sanitizeLineText chunk)); reflexivity.
Qed.

(** X12.  The length enforcement never touches a stage direction and never
    makes one: the directions of its result are the directions of its
    input with a non-empty text, unchanged and in the same order. *)
Theorem enforceLineLengths_keeps_directions :
  forall entries limit,
    filter is_direction (enforceLineLengths entries limit)
    = filter (fun l => is_direction l && nonempty (text l)) entries.
Proof.
  intros entries limit. rewrite enforceLineLengths_entries.
  induction entries as [|entry entries IH]; [reflexivity|].
  cbn [flat_map filter]. rewrite filter_app, IH, enforce_entry_directions.
  destruct (is_direction entry && nonempty (text entry)); reflexivity.
Qed.

Lemma split_remaining_blocks limit : forall fuel R,
  ~ In 10 R -> Forall (fun piece => block piece R) (split_remaining fuel R limit).
Proof.
  assert (Hfinish : forall R : jstring,
            Forall (fun piece => block piece R) (if nonempty R then [R] else [])).
  { intros R. destruct (nonempty R); repeat constructor. apply block_refl. }
  induction fuel as [|fuel IH]; intros R H10; cbn [split_remaining]; [apply Hfinish|].
  destruct (limit <? length R)%nat; [|apply Hfinish].
  destruct (length R <=? findBreakPosition R limit)%nat; [apply Hfinish|].
  set (cut := findBreakPosition R limit).
  assert (Hpart : block (sanitizeLineText (slice 0 cut R)) R).
  { eapply block_trans; [|apply slice_prefix_block].
    apply sanitizeLineText_block. intros H. apply H10.
    eapply block_in; [apply slice_prefix_block|exact H]. }
  assert (Hrest : block (sanitizeLineText (slice_from cut R)) R).
  { eapply block_trans; [|apply skipn_block].
    apply sanitizeLineText_block. intros H. apply H10.
    eapply block_in; [apply skipn_block|exact H]. }
  assert (Hpushed : Forall (fun piece => block piece R)
                      (if nonempty (sanitizeLineText (slice 0 cut R))
                       then [sanitizeLineText (slice 0 cut R)] else [])).
  { destruct (nonempty _); repeat constructor. exact Hpart. }
  destruct (negb (nonempty (sanitizeLineText (slice_from cut R)))); [exact Hpushed|].
  apply Forall_app. split; [exact Hpushed|].
  eapply Forall_impl; [|apply IH].
  - intros piece Hp. eapply block_trans; [exact Hp|exact Hrest].
  - apply sanitizeLineText_no_line_feed.
Qed.

Lemma chunkDialogueText_blocks t limit :
  ~ In 10 t -> Forall (fun piece => block piece t) (chunkDialogueText t limit).
Proof.
  intros H10. unfold chunkDialogueText. rewrite Forall_forall. intros piece Hp.
  apply in_flat_map in Hp as (sentence & Hs & Hp).
  rewrite clause_pattern_clauses in Hs.
  apply (@sentences_one_clause clause_end t sentence clause_end_plain) in Hs as [_ Hb].
  assert (Hrem : block (sanitizeLineText sentence) t).
  { eapply block_trans; [|exact Hb]. apply sanitizeLineText_block.
    intros H. apply H10. eapply block_in; eassumption. }
  destruct (negb (nonempty (sanitizeLineText sentence))); [destruct Hp|].
  pose proof (@split_remaining_blocks limit (length (sanitizeLineText sentence))
                (sanitizeLineText sentence) (@sanitizeLineText_no_line_feed sentence))
    as Hall.
  rewrite Forall_forall in Hall. eapply block_trans; [apply Hall, Hp|exact Hrem].
Qed.

(** X13.  Cutting long lines invents no text: when the texts of the
    entries hold no line feed (as stored and normalized lines do), every
    line of the result has a non-empty text that is a contiguous piece of
    the text of an entry of the same type. *)
Theorem enforceLineLengths_cuts_the_entries :
  forall entries limit,
    Forall (fun entry => ~ In 10 (text entry)) entries ->
    Forall (fun l => text l <> []
                     /\ exists entry, In entry entries
                          /\ type l = type entry
                          /\ block (text l) (text entry))
           (enforceLineLengths entries limit).
Proof.
  intros entries limit Hclean. rewrite Forall_forall. intros l Hl.
  split.
  { pose proof (RunFacts.enforceLineLengths_nonempty entries limit) as H.
    rewrite Forall_forall in H. apply H, Hl. }
  rewrite enforceLineLengths_entries in Hl.
  apply in_flat_map in Hl as (entry & Hin & Hl). exists entry. split; [exact Hin|].
  rewrite Forall_forall in Hclean. specialize (Hclean entry Hin).
  unfold enforce_entry in Hl.
  destruct (negb (nonempty (text entry))); [destruct Hl|].
  destruct (LineType_eqb (type entry) direction) eqn:Ed; cbn [orb] in Hl.
  - destruct Hl as [<-|[]]. split; [reflexivity|apply block_refl].
  - destruct (length (text entry) <=? limit)%nat.
    + destruct Hl as [<-|[]]. split; [reflexivity|apply block_refl].
    + apply in_flat_map in Hl as (chunk & Hc & Hl).
      destruct (negb (nonempty (sanitizeLineText chunk))); [destruct Hl|].
      destruct Hl as [<-|[]]. cbn [text type]. split.
      * destruct (type entry); [reflexivity|discriminate].
      * pose proof (@chunkDialogueText_blocks (text entry) limit Hclean) as Hall.
        rewrite Forall_forall in Hall. specialize (Hall chunk Hc).
        eapply block_trans; [|exact Hall]. apply sanitizeLineText_block.
        intros H. apply Hclean. eapply block_in; eassumption.
Qed.

Lemma enforceLineLengths_cuts_the_entries_witness :
  Forall (fun l => text l <> []
                   /\ exists entry, In entry [mkLine (js "aaaaa bbbbb") dialogue]
                        /\ type l = type entry
                        /\ block (text l) (text entry))
         (enforceLineLengths [mkLine (js "aaaaa bbbbb") dialogue] 8).
Proof.
  apply enforceLineLengths_cuts_the_entries.
  repeat constructor. vm_compute. intuition discriminate.
Defined.

Lemma clean_item_plain item l :
  In l (clean_item false item) ->
  text l <> [] /\ trim (text l) = text l
  /\ trim (strip_punctuation (text l)) <> [] /\ type l = type item.
Proof.
  unfold clean_item. cbn [negb andb].
  destruct (nonempty (sanitizeLineText (text item))); cbn [negb]; [|intros []].
  rewrite !andb_true_r.
  set (cleaned := trim (replace_first stray_opening []
                          (replace_first stray_closing [] (sanitizeLineText (text item))))).
  destruct (nonempty cleaned) eqn:E1; cbn [negb]; [|intros []].
  destruct (nonempty (trim (strip_punctuation cleaned))) eqn:E2; cbn [negb]; [|intros []].
  intros [<-|[]]. cbn [text type].
  split; [intros E; rewrite E in E1; discriminate|].
  split; [apply trim_idem|].
  split; [intros E; rewrite E in E2; discriminate|reflexivity].
Qed.

(** X14.  Without [keepEmpty], [normalizeScriptLines] yields no line whose
    text is empty, has white space at an end, or is made of punctuation
    and symbols only, whatever the entries are. *)
Theorem normalizeScriptLines_drops_blank_lines :
  forall entries normalized,
    normalizeScriptLines entries false = Ok normalized ->
    Forall (fun l => text l <> [] /\ trim (text l) = text l
                     /\ trim (strip_punctuation (text l)) <> [])
           normalized.
Proof.
  intros entries normalized H. rewrite (@normalizeScriptLines_returns _ _ _ H).
  unfold sift. rewrite Forall_forall. intros l Hl.
  apply filter_In in Hl as [Hl _]. apply in_flat_map in Hl as (entry & _ & Hl).
  rewrite pushed_base in Hl.
  destruct (normalizeLineEntry (Some entry) false) as [[base|]|code];
    [|destruct Hl|destruct Hl].
  destruct (negb (nonempty (text base))); [destruct Hl|].
  apply in_flat_map in Hl as (item & _ & Hl).
  apply clean_item_plain in Hl. tauto.
Qed.

Lemma normalizeScriptLines_drops_blank_lines_witness :
  Forall (fun l => text l <> [] /\ trim (text l) = text l
                   /\ trim (strip_punctuation (text l)) <> [])
         [mkLine (js "你好") dialogue].
Proof.
  apply (@normalizeScriptLines_drops_blank_lines
           [JStr (js " 你好 "); JStr (js "！"); JNull]).
  vm_compute. reflexivity.
Defined.

(** X15.  [sanitizeLineText] gives a normal form: a second pass changes
    nothing, the result has no white space at either end and is no longer
    than the text, and the classifier answers the same for a text and for
    its sanitized form. *)
Theorem sanitizeLineText_normal_form :
  forall t,
    sanitizeLineText (sanitizeLineText t) = sanitizeLineText t
    /\ trim (sanitizeLineText t) = sanitizeLineText t
    /\ (length (sanitizeLineText t) <= length t)%nat
    /\ isLikelyDirection (sanitizeLineText t) = isLikelyDirection t.
Proof.
  intros t. split; [apply sanitizeLineText_idem|].
  split; [unfold sanitizeLineText; apply trim_idem|].
  split; [apply sanitizeLineText_length|].
  rewrite !isLikelyDirection_cascade, sanitizeLineText_idem. reflexivity.
Qed.

End LineFacts.

(* ================================================================== *)
(** * The keyword rules of the classifier *)
(* ================================================================== *)

Module KeywordFacts.

Import RegexFacts TextFacts ClassifierFacts LengthFacts.

Local Open Scope Z_scope.

Lemma rx_lit_here k : forall r K, rx false (Lit k) (k ++ r) K = K r.
Proof.
  induction k as [|c k IH]; intros r K; [reflexivity|].
  cbn [Lit app]. rewrite rx_seq, rx_chr, next_char_plain, Z.eqb_refl. apply IH.
Qed.

Lemma rx_altlits_here ks : forall k r,
  In k ks -> rx false (AltLits ks) (k ++ r) Some <> None.
Proof.
  induction ks as [|k0 ks IH]; intros k r Hin; [destruct Hin|].
  destruct ks as [|k1 ks].
  - destruct Hin as [<-|[]]. cbn [AltLits]. rewrite rx_lit_here. discriminate.
  - change (AltLits (k0 :: k1 :: ks)) with (Alt (Lit k0) (AltLits (k1 :: ks))).
    cbn [rx]. destruct (rx false (Lit k0) (k ++ r) Some) eqn:E; [discriminate|].
    destruct Hin as [<-|Hin]; [rewrite rx_lit_here in E; discriminate|].
    apply IH, Hin.
Qed.

Lemma match_here_some e s :
  rx (unicode e) (body e) s Some <> None -> match_here e s <> None.
Proof.
  unfold match_here. destruct (rx (unicode e) (body e) s Some); [discriminate|congruence].
Qed.

Lemma scan_plain_step e pre c r :
  unicode e = false ->
  scan e pre (c :: r) =
  match match_here e (c :: r) with
  | Some (m, rest) => Some (rev pre, m, rest)
  | None => scan e (c :: pre) r
  end.
Proof.
  intros Hu. cbn [scan]. destruct (match_here e (c :: r)) as [[m rest]|]; [reflexivity|].
  destruct r; [reflexivity|]. rewrite Hu. reflexivity.
Qed.

(** A pattern without [u] that matches somewhere in a text is found. *)
Lemma scan_finds e : unicode e = false -> forall a s pre,
  match_here e s <> None -> scan e pre (a ++ s) <> None.
Proof.
  intros Hu. induction a as [|c a IH]; intros s pre Hm; cbn [app].
  - destruct s as [|c r].
    + cbn [scan]. destruct (match_here e []) as [[m rest]|]; [discriminate|congruence].
    + rewrite (@scan_plain_step e _ _ _ Hu).
      destruct (match_here e (c :: r)) as [[m rest]|]; [discriminate|congruence].
  - rewrite (@scan_plain_step e _ _ _ Hu).
    destruct (match_here e (c :: a ++ s)) as [[m rest]|]; [discriminate|].
    apply IH, Hm.
Qed.

Lemma test_words_here ks k r :
  In k ks -> test (re_bol (AltLits ks)) (k ++ r) = true.
Proof.
  intros Hin. unfold test, exec, re_bol. cbn [anchored].
  pose proof (@match_here_some (mkRegExp true false (AltLits ks)) (k ++ r)
                (@rx_altlits_here ks k r Hin)) as H.
  destruct (match_here _ (k ++ r)) as [[m rest]|]; [reflexivity|congruence].
Qed.

Lemma test_words_inside ks k s :
  In k ks -> block k s -> test (re (AltLits ks)) s = true.
Proof.
  intros Hin (a & b & ->). unfold test, exec, re. cbn [anchored].
  pose proof (@scan_finds (mkRegExp false false (AltLits ks)) eq_refl a (k ++ b) []
                (@match_here_some (mkRegExp false false (AltLits ks)) (k ++ b)
                   (@rx_altlits_here ks k b Hin))) as H.
  destruct (scan _ [] (a ++ k ++ b)) as [[[p m] rest]|]; [reflexivity|congruence].
Qed.

(** A text that does not end with a character of the set. *)
Definition open_ended (set s : jstring) : Prop :=
  forall x c, s = x ++ [c] -> oneOf set c = false.

Lemma test_ends_false set s :
  open_ended set s -> test (re (Seq (Chr (oneOf set)) Eol)) s = false.
Proof.
  intros Hopen. unfold test.
  destruct (exec (re (Seq (Chr (oneOf set)) Eol)) s) as [[[p m] rest]|] eqn:E;
    [|reflexivity].
  exfalso. apply exec_match_here in E as [Hs Hm].
  apply match_here_rx in Hm. unfold re in Hm. cbn [unicode body] in Hm.
  pose proof (@rx_seq_eol _ _ _ _ Hm) as ->. rewrite app_nil_r in *.
  rewrite rx_seq, rx_chr in Hm. destruct m as [|c m']; [discriminate|].
  rewrite next_char_plain in Hm. destruct (oneOf set c) eqn:Ec; [|discriminate].
  cbn [rx] in Hm. destruct m'; [|discriminate].
  rewrite (Hopen p c Hs) in Ec. discriminate.
Qed.

Lemma words_nonempty ks :
  forallb nonempty ks = true -> forall k, In k ks -> k <> [].
Proof.
  intros H k Hin. rewrite forallb_forall in H. specialize (H k Hin).
  intros ->. discriminate.
Qed.

(** X23.  The two keyword rules the classifier tries first, read on the
    sanitized text: a text that starts with one of the stage keywords is
    a direction; and so is a text of at most 16 characters that holds one
    of the short keywords anywhere and does not end with a sentence
    terminator. *)
Theorem stage_keywords_make_directions :
  forall t k,
    (In k startsWithKeyword_words ->
     startsWith k (sanitizeLineText t) = true ->
     classify t = direction)
    /\ (In k shortKeywords_words ->
        block k (sanitizeLineText t) ->
        (length (sanitizeLineText t) <= 16)%nat ->
        open_ended sentence_end (sanitizeLineText t) ->
        classify t = direction).
Proof.
  intros t k. unfold classify. rewrite isLikelyDirection_cascade. cbv zeta.
  set (trimmed := sanitizeLineText t). split.
  - intros Hin Hstart. apply startsWith_app in Hstart as (r & Hr).
    assert (Hne : nonempty trimmed = true).
    { rewrite Hr. pose proof (@words_nonempty startsWithKeyword_words eq_refl k Hin).
      destruct k; [congruence|reflexivity]. }
    rewrite Hne. cbn [negb]. unfold rule_cascade.
    unfold startsWithKeyword. rewrite Hr, (@test_words_here _ _ r Hin). reflexivity.
  - intros Hin Hblock Hlen Hopen.
    assert (Hne : nonempty trimmed = true).
    { destruct Hblock as (a & b & Hab). rewrite Hab.
      pose proof (@words_nonempty shortKeywords_words eq_refl k Hin).
      destruct a; [destruct k; [congruence|reflexivity]|reflexivity]. }
    rewrite Hne. cbn [negb]. unfold rule_cascade.
    destruct (test startsWithKeyword trimmed); [reflexivity|].
    unfold ends_with_sentence_end. rewrite (@test_ends_false _ _ Hopen). cbn [negb andb].
    apply Nat.leb_le in Hlen. rewrite Hlen. cbn [andb].
    unfold shortKeywords. rewrite (@test_words_inside _ _ _ Hin Hblock). reflexivity.
Qed.

Lemma stage_keywords_make_directions_witness :
  classify (js "燈光漸暗") = direction.
Proof.
  apply (proj1 (stage_keywords_make_directions (js "燈光漸暗") (js "燈光"))).
  - vm_compute. auto.
  - vm_compute. reflexivity.
Defined.

End KeywordFacts.

(* ================================================================== *)
(** * Validation of the service output *)
(* ================================================================== *)

Module ValidationFacts.

Import RegexFacts SessionFacts TextFacts ClassifierFacts LengthFacts.

Local Open Scope Z_scope.

Lemma firstn_block n (s : jstring) : block (firstn n s) s.
Proof. exists [], (skipn n s). cbn [app]. symmetry. apply firstn_skipn. Qed.

Lemma slice_block a b (s : jstring) : block (slice a b s) s.
Proof.
  unfold slice. eapply block_trans; [apply firstn_block|apply skipn_block].
Qed.

Lemma slice_of_block (a x b : jstring) :
  slice (length a) (length a + length x) (a ++ x ++ b) = x.
Proof.
  unfold slice. rewrite skipn_app, skipn_all, Nat.sub_diag. cbn [skipn app].
  replace (length a + length x - length a)%nat with (length x) by lia.
  rewrite firstn_app, firstn_all, Nat.sub_diag. cbn [firstn]. apply app_nil_r.
Qed.

(** Two texts share a window of [n] consecutive characters. *)
Definition share_window (n : nat) (a b : jstring) : Prop :=
  exists x, length x = n /\ block x a /\ block x b.

(** X16.  [hasMeaningfulOverlap] accepts a line exactly when its
    normalized form is not empty and either occurs whole in the normalized
    script or, being longer than three characters, has three consecutive
    characters that occur in it: the snippet sizes 4 to 8 add nothing. *)
Theorem hasMeaningfulOverlap_is_a_three_character_window :
  forall line normalizedScript,
    hasMeaningfulOverlap line normalizedScript = true
    <-> (normalizeForComparison line <> []
         /\ (block (normalizeForComparison line) normalizedScript
             \/ ((3 < length (normalizeForComparison line))%nat
                 /\ share_window 3 (normalizeForComparison line) normalizedScript))).
Proof.
  intros line script. unfold hasMeaningfulOverlap.
  set (nl := normalizeForComparison line). cbv zeta.
  destruct (nonempty nl) eqn:En; cbn [negb].
  2:{ split; [discriminate|]. intros [H _]. destruct nl; [congruence|discriminate]. }
  assert (Hne : nl <> []) by (intros E; rewrite E in En; discriminate).
  destruct (includes nl script) eqn:Einc.
  { split; [|reflexivity]. intros _. split; [exact Hne|]. left.
    apply includes_block, Einc. }
  assert (Hnb : ~ block nl script).
  { intros H. apply includes_block in H. congruence. }
  destruct (length nl <=? 3)%nat eqn:Elen.
  { split; [discriminate|]. intros [_ [H|[H _]]]; [contradiction|].
    apply Nat.leb_le in Elen. lia. }
  apply Nat.leb_gt in Elen. split.
  - intros H. split; [exact Hne|]. right. split; [exact Elen|].
    apply existsb_exists in H as (size & Hsize & H).
    apply existsb_exists in H as (start & Hstart & H).
    apply in_rev in Hsize. apply in_seq in Hsize. apply in_seq in Hstart.
    apply includes_block in H.
    set (snippet := slice start (start + size) nl) in *.
    assert (Hlen : length snippet = size).
    { unfold snippet, slice. rewrite length_firstn, length_skipn. lia. }
    exists (firstn 3 snippet). split; [rewrite length_firstn; lia|]. split.
    + eapply block_trans; [apply firstn_block|apply slice_block].
    + eapply block_trans; [apply firstn_block|exact H].
  - intros [_ [H|[_ (x & Hx & (a & b & Hab) & Hscript)]]]; [contradiction|].
    apply existsb_exists. exists 3%nat. split.
    { apply in_rev. rewrite rev_involutive. apply in_seq. lia. }
    apply existsb_exists. exists (length a). split.
    { apply in_seq. apply (f_equal (@length Z)) in Hab.
      rewrite !length_app in Hab. lia. }
    rewrite <- Hx, Hab, slice_of_block. apply includes_block, Hscript.
Qed.

(** ** [extractJsonArray] *)

Lemma indexOf_from_spec c : forall s i,
  0 <= i ->
  (indexOf_from c s i = -1 /\ ~ In c s)
  \/ exists n r, indexOf_from c s i = i + Z.of_nat n
                 /\ skipn n s = c :: r /\ ~ In c (firstn n s).
Proof.
  induction s as [|x s IH]; intros i Hi; cbn [indexOf_from].
  - left. split; [reflexivity|intros []].
  - destruct (x =? c) eqn:E.
    + apply Z.eqb_eq in E. subst x. right. exists 0%nat, s.
      split; [cbn; lia|]. split; [reflexivity|intros []].
    + apply Z.eqb_neq in E. destruct (IH (i + 1) ltac:(lia)) as [[H1 H2]|(n & r & H1 & H2 & H3)].
      * left. split; [exact H1|]. intros [H|H]; [congruence|contradiction].
      * right. exists (S n), r. split; [rewrite H1; lia|]. split; [exact H2|].
        cbn [firstn]. intros [H|H]; [congruence|contradiction].
Qed.

Lemma indexOf_nat_spec c s :
  match indexOf_nat c s with
  | None => ~ In c s
  | Some n => exists r, skipn n s = c :: r /\ ~ In c (firstn n s)
  end.
Proof.
  unfold indexOf_nat, indexOf.
  destruct (indexOf_from_spec c s (i := 0) ltac:(lia)) as [[H1 H2]|(n & r & H1 & H2 & H3)].
  - rewrite H1. cbn. exact H2.
  - rewrite H1. replace (0 + Z.of_nat n <? 0) with false by (symmetry; apply Z.ltb_ge; lia).
    replace (Z.to_nat (0 + Z.of_nat n)) with n by lia. exists r. auto.
Qed.

Lemma lastIndexOf_from_spec c : forall s i acc e,
  lastIndexOf_from c s i acc = Some e ->
  (acc = Some e /\ ~ In c s)
  \/ exists k, e = (i + k)%nat /\ nth_error s k = Some c.
Proof.
  induction s as [|x s IH]; intros i acc e H; cbn [lastIndexOf_from] in H.
  - left. split; [exact H|intros []].
  - apply IH in H as [[Hacc Hnot]|(k & -> & Hk)].
    + destruct (x =? c) eqn:E.
      * apply Z.eqb_eq in E. subst x. inversion Hacc; subst e.
        right. exists 0%nat. split; [lia|reflexivity].
      * apply Z.eqb_neq in E. left. split; [exact Hacc|].
        intros [H|H]; [congruence|contradiction].
    + right. exists (S k). split; [lia|exact Hk].
Qed.

Lemma lastIndexOf_none c : forall s i acc,
  lastIndexOf_from c s i acc = None -> acc = None /\ ~ In c s.
Proof.
  induction s as [|x s IH]; intros i acc H; cbn [lastIndexOf_from] in H.
  - split; [exact H|intros []].
  - apply IH in H as [Hacc Hnot]. destruct (x =? c) eqn:E; [discriminate|].
    apply Z.eqb_neq in E. split; [exact Hacc|].
    intros [H|H]; [congruence|contradiction].
Qed.

Lemma lastIndexOf_spec c s :
  match lastIndexOf c s with
  | Some e => nth_error s e = Some c
  | None => ~ In c s
  end.
Proof.
  unfold lastIndexOf. destruct (lastIndexOf_from c s 0 None) as [e|] eqn:E.
  - apply lastIndexOf_from_spec in E as [[H _]|(k & -> & Hk)]; [discriminate|exact Hk].
  - apply lastIndexOf_none in E. tauto.
Qed.

(** The prefix that ends at a position of the text ends with the character
    at that position. *)
Lemma firstn_to_position (s : jstring) e c :
  nth_error s e = Some c -> firstn (e + 1) s = firstn e s ++ [c].
Proof.
  revert e. induction s as [|x s IH]; intros [|e] H; cbn in H; try discriminate.
  - inversion H. reflexivity.
  - cbn [Nat.add firstn app]. f_equal. apply IH, H.
Qed.

Lemma trimEnd_keeps_last (x : jstring) d :
  is_space d = false -> trimEnd (x ++ [d]) = x ++ [d].
Proof.
  intros Hd. unfold trimEnd. rewrite rev_unit. cbn [trimStart]. rewrite Hd.
  cbn [rev]. rewrite rev_involutive. reflexivity.
Qed.

Lemma trim_keeps_start (c : Z) r :
  is_space c = false -> exists r', trim (c :: r) = c :: r'.
Proof.
  intros Hc. unfold trim. cbn [trimStart]. rewrite Hc.
  destruct (trimEnd_prefix (c :: r)) as (q & Hq).
  destruct (trimEnd (c :: r)) as [|c' r'] eqn:E.
  - exfalso. unfold trimEnd in E. apply (f_equal (@rev Z)) in E.
    rewrite rev_involutive in E. cbn [rev] in E.
    assert (Hb : forall s : jstring, trimStart s = [] -> forall x, In x s -> is_space x = true).
    { induction s as [|y s IHs]; intros Hs x Hx; [destruct Hx|].
      cbn [trimStart] in Hs. destruct (is_space y) eqn:Ey; [|discriminate].
      destruct Hx as [<-|Hx]; [exact Ey|apply IHs; assumption]. }
    assert (Hin : In c (rev (c :: r))) by (apply -> in_rev; left; reflexivity).
    rewrite (Hb _ E c Hin) in Hc. discriminate.
  - cbn [app] in Hq. inversion Hq. subst c'. exists r'. reflexivity.
Qed.

End ValidationFacts.

(* ================================================================== *)
(** * Salvaging a JSON array *)
(* ================================================================== *)

Module ExtractFacts.

Import RegexFacts TextFacts ClassifierFacts LengthFacts ValidationFacts.

Local Open Scope Z_scope.

(** [/,\s*\]$/] *)
Definition trailing_comma : RegExp :=
  re (Seq (Lit (js ",")) (Seq (Star (Chr is_space)) (Seq (Lit (js "]")) Eol))).

Lemma trailing_comma_match s pre m rest :
  exec trailing_comma s = Some (pre, m, rest) ->
  s = pre ++ m /\ rest = [] /\ exists m', m = 44 :: m'.
Proof.
  intros H. apply exec_match_here in H as [Hs Hm].
  apply match_here_rx in Hm. unfold trailing_comma, re in Hm. cbn [unicode body] in Hm.
  change (js ",") with [44] in Hm. cbn [Lit] in Hm.
  rewrite !rx_seq, rx_chr in Hm.
  destruct (m ++ rest) as [|c s1] eqn:Em; [discriminate|].
  rewrite next_char_plain in Hm. destruct (44 =? c) eqn:Ec; [|discriminate].
  apply Z.eqb_eq in Ec. subst c. cbn [rx] in Hm.
  change (rx false (Star (Chr is_space)) s1
            (fun s' => rx false (Seq (Lit (js "]")) Eol) s' Some) = Some rest) in Hm.
  apply rx_suffix in Hm as (s2 & _ & Hm). apply rx_seq_eol in Hm. subst rest.
  rewrite app_nil_r in *. split; [rewrite Em; exact Hs|]. split; [reflexivity|].
  exists s1. exact Em.
Qed.

(** A text that starts with an opening square bracket (code unit 91), and
    one that ends with a closing square bracket (code unit 93). *)
Definition opens (c : jstring) : Prop := exists r, c = 91 :: r.
Definition closes (c : jstring) : Prop := exists r, c = r ++ [93].

Lemma replace_trailing_comma c :
  opens c ->
  opens (replace_first trailing_comma (js "]") c)
  /\ (closes c -> closes (replace_first trailing_comma (js "]") c))
  /\ (exec trailing_comma c <> None -> closes (replace_first trailing_comma (js "]") c)).
Proof.
  intros (r & ->). unfold replace_first.
  destruct (exec trailing_comma (91 :: r)) as [[[pre m] rest]|] eqn:E.
  - apply trailing_comma_match in E as (Hs & -> & m' & ->).
    destruct pre as [|p pre]; [discriminate|]. inversion Hs; subst p.
    change (js "]") with [93]. rewrite app_nil_r.
    split; [exists (pre ++ [93]); reflexivity|].
    split; intros _; exists (91 :: pre); reflexivity.
  - split; [exists r; reflexivity|]. split; [auto|congruence].
Qed.

Lemma in_trim x s : In x s -> is_space x = false -> In x (trim s).
Proof.
  intros Hin Hx.
  destruct (BlankFacts.trimStart_blank_prefix s) as (p & Hp & Hbp).
  destruct (BlankFacts.trimEnd_blank_suffix (trimStart s)) as (q & Hq & Hbq).
  fold (trim s) in Hq. rewrite Hp, Hq in Hin.
  apply in_app_or in Hin as [Hin|Hin].
  - rewrite (@BlankFacts.blank_in _ _ Hbp Hin) in Hx. discriminate.
  - apply in_app_or in Hin as [Hin|Hin]; [exact Hin|].
    rewrite (@BlankFacts.blank_in _ _ Hbq Hin) in Hx. discriminate.
Qed.

Lemma slice_to_position (s : jstring) e c :
  nth_error s e = Some c -> slice 0 (e + 1) s = firstn e s ++ [c].
Proof.
  intros H. unfold slice. cbn [skipn]. rewrite Nat.sub_0_r.
  apply firstn_to_position, H.
Qed.

Lemma opens_firstn r e c :
  nth_error (91 :: r) e = Some c -> c <> 91 ->
  exists mid, firstn e (91 :: r) = 91 :: mid.
Proof.
  intros H Hc. destruct e as [|e]; [cbn in H; congruence|].
  exists (firstn e r). reflexivity.
Qed.

Lemma endsWith_closes c : endsWith (js "]") c = true <-> closes c.
Proof.
  unfold endsWith, closes. change (rev (js "]")) with [93]. split.
  - intros H. destruct (rev c) as [|x r] eqn:E; [discriminate|].
    cbn [startsWith] in H. apply andb_prop in H as [H _]. apply Z.eqb_eq in H. subst x.
    exists (rev r). apply (f_equal (@rev Z)) in E. rewrite rev_involutive in E.
    exact E.
  - intros (r & ->). rewrite rev_unit. reflexivity.
Qed.

Lemma first_occurrence_unique (c : Z) : forall f before after r,
  before ++ c :: after = f ++ c :: r -> ~ In c before -> ~ In c f -> after = r.
Proof.
  induction f as [|y f IH]; intros [|z before] after r H Hb Hf; cbn [app] in H.
  - inversion H. reflexivity.
  - inversion H. subst z. exfalso. apply Hb. left. reflexivity.
  - inversion H. subst y. exfalso. apply Hf. left. reflexivity.
  - inversion H. subst z. eapply IH; [eassumption| |].
    + intros Hin. apply Hb. right. exact Hin.
    + intros Hin. apply Hf. right. exact Hin.
Qed.

(** X17.  [extractJsonArray] answers [null] exactly when the text holds no
    opening square bracket; otherwise its result starts with one, and it
    ends with a closing square bracket as soon as a closing square bracket
    or a closing brace follows the first opening bracket. *)
Theorem extractJsonArray_brackets :
  forall raw,
    (extractJsonArray raw = None <-> ~ In (ch "[") raw)
    /\ (forall candidate, extractJsonArray raw = Some candidate ->
          opens candidate
          /\ forall before after,
               raw = before ++ ch "[" :: after -> ~ In (ch "[") before ->
               In (ch "]") after \/ In (ch "}") after -> closes candidate).
Proof.
  intros raw. unfold extractJsonArray.
  change (ch "[") with 91. change (ch "]") with 93. change (ch "}") with 125.
  pose proof (indexOf_nat_spec 91 raw) as Hstart.
  destruct (indexOf_nat 91 raw) as [start|].
  2:{ split; [tauto|]. intros candidate H. discriminate. }
  destruct Hstart as (r0 & Hskip & Hfirst).
  split; [split; [discriminate|]|].
  { intros Hnot. exfalso. apply Hnot.
    rewrite <- (firstn_skipn start raw), Hskip. apply in_or_app. right. left. reflexivity. }
  intros candidate Hc. unfold slice_from in Hc. rewrite Hskip in Hc.
  change (ch "]") with 93 in Hc. change (ch "}") with 125 in Hc.
  (* the candidate closed at the last closing bracket *)
  set (cand1 := match lastIndexOf 93 (91 :: r0) with
                | Some e => slice 0 (e + 1) (91 :: r0)
                | None => 91 :: r0
                end) in Hc.
  assert (H1 : opens cand1
               /\ ((In 93 r0 -> closes cand1) /\ (~ In 93 r0 -> cand1 = 91 :: r0))).
  { clear Hc. subst cand1. pose proof (lastIndexOf_spec 93 (91 :: r0)) as Hl.
    destruct (lastIndexOf 93 (91 :: r0)) as [e|].
    - rewrite (@slice_to_position _ _ _ Hl).
      destruct (@opens_firstn _ _ _ Hl ltac:(discriminate)) as (mid & ->).
      split; [exists (mid ++ [93]); reflexivity|]. split.
      + intros _. exists (91 :: mid). reflexivity.
      + intros Hn. exfalso. apply Hn. apply nth_error_In in Hl.
        destruct Hl as [Hl|Hl]; [discriminate|exact Hl].
    - split; [exists r0; reflexivity|]. split; [|reflexivity].
      intros Hin. exfalso. apply Hl. right. exact Hin. }
  destruct H1 as ((r1 & E1) & Hclosed1 & Hopen1).
  (* trimmed *)
  assert (H2 : opens (trim cand1) /\ (closes cand1 -> trim cand1 = cand1)).
  { rewrite E1. split.
    - destruct (@trim_keeps_start 91 r1 eq_refl) as (r' & ->). exists r'. reflexivity.
    - intros (x & Hx). rewrite Hx. unfold trim.
      destruct x as [|x0 x]; [discriminate|]. inversion Hx; subst x0.
      cbn [app trimStart]. change (is_space 91) with false. cbv iota.
      change (91 :: x ++ [93]) with ((91 :: x) ++ [93]).
      apply trimEnd_keeps_last. reflexivity. }
  destruct H2 as ((r2 & E2) & Htrim).
  rewrite E2 in Hc. change (startsWith (js "[") (91 :: r2)) with true in Hc.
  cbn [negb] in Hc. cbv iota in Hc.
  set (cand4 := if negb (endsWith (js "]") (91 :: r2))
                then match lastIndexOf 125 (91 :: r2) with
                     | Some lastBrace => slice 0 (lastBrace + 1) (91 :: r2) ++ js "]"
                     | None => 91 :: r2
                     end
                else 91 :: r2) in Hc.
  assert (H4 : opens cand4
               /\ (closes (91 :: r2) \/ In 125 r2 -> closes cand4)).
  { clear Hc. subst cand4. destruct (endsWith (js "]") (91 :: r2)) eqn:Eend; cbn [negb].
    - split; [exists r2; reflexivity|]. intros _. apply endsWith_closes, Eend.
    - pose proof (lastIndexOf_spec 125 (91 :: r2)) as Hl.
      destruct (lastIndexOf 125 (91 :: r2)) as [lb|].
      + rewrite (@slice_to_position _ _ _ Hl).
        destruct (@opens_firstn _ _ _ Hl ltac:(discriminate)) as (mid & ->).
        change (js "]") with [93].
        split; [exists (mid ++ [125] ++ [93]); cbn; rewrite <- app_assoc; reflexivity|].
        intros _. exists ((91 :: mid) ++ [125]). reflexivity.
      + split; [exists r2; reflexivity|].
        intros [Hcl|Hin].
        * apply endsWith_closes in Hcl. congruence.
        * exfalso. apply Hl. right. exact Hin. }
  destruct H4 as (Hopen4 & Hclose4).
  injection Hc as <-. fold trailing_comma.
  destruct (replace_trailing_comma Hopen4) as (Ho & Hcl & _).
  split; [exact Ho|].
  intros before after Hraw Hbefore Hafter. apply Hcl, Hclose4.
  (* the text after the first opening bracket is [r0] *)
  assert (after = r0).
  { apply (@first_occurrence_unique 91 (firstn start raw) before after r0);
      [|exact Hbefore|exact Hfirst].
    rewrite <- Hraw, <- Hskip. symmetry. apply firstn_skipn. }
  subst after.
  destruct Hafter as [H93|H125].
  - left. rewrite <- E2. rewrite Htrim by (apply Hclosed1, H93). apply Hclosed1, H93.
  - destruct (in_dec Z.eq_dec 93 r0) as [H93|H93].
    + left. rewrite <- E2. rewrite Htrim by (apply Hclosed1, H93). apply Hclosed1, H93.
    + right. rewrite (Hopen1 H93) in E2.
      assert (Hin : In 125 (trim (91 :: r0))) by (apply in_trim; [right; exact H125|reflexivity]).
      rewrite E2 in Hin. destruct Hin as [Hin|Hin]; [discriminate|exact Hin].
Qed.

End ExtractFacts.

(* ================================================================== *)
(** * The order of the decoder candidates *)
(* ================================================================== *)

Module DecoderOrder.

Import RegexFacts SessionFacts TextFacts DecoderFacts.

Local Open Scope Z_scope.

Lemma Score_gt_ge_gt a b c :
  Score_gt a b = true -> Score_ge b c = true -> Score_gt a c = true.
Proof.
  unfold Score_ge. destruct a as [|x], b as [|y], c as [|z]; cbn; try congruence; auto.
  intros H1 H2. apply Z.ltb_lt in H1. apply negb_true_iff, Z.ltb_ge in H2.
  apply Z.ltb_lt. lia.
Qed.

Lemma Score_gt_trans a b c :
  Score_gt a b = true -> Score_gt b c = true -> Score_gt a c = true.
Proof.
  destruct a as [|x], b as [|y], c as [|z]; cbn; try congruence; auto.
  intros H1 H2. apply Z.ltb_lt in H1. apply Z.ltb_lt in H2. apply Z.ltb_lt. lia.
Qed.

Section WithDecoders.

Variable Buffer_toString : list Z -> jstring -> jstring.
Variable iconv_decode : list Z -> jstring -> option jstring.

Definition decoded_as (buffer : list Z) (encoding : jstring) : option jstring :=
  decodeWithEncoding Buffer_toString iconv_decode buffer encoding.

Definition score_of (decoded encoding : jstring) : Score :=
  scoreDecodedText (analyzeTextStats decoded) encoding.

(** The candidate [winner], between the candidates [pre] and [post], beats
    every non-empty decode of [pre] and is not beaten by one of [post]. *)
Definition first_of_the_best (buffer : list Z) (pre : list jstring)
    (winner : jstring) (post : list jstring) (w : jstring) : Prop :=
  decoded_as buffer winner = Some w
  /\ (forall e d, In e pre -> decoded_as buffer e = Some d -> d <> [] ->
        Score_gt (score_of w winner) (score_of d e) = true)
  /\ (forall e d, In e post -> decoded_as buffer e = Some d -> d <> [] ->
        Score_ge (score_of w winner) (score_of d e) = true).

(** What the candidate loop has after the candidates [seen]. *)
Definition loop_state (buffer : list Z) (seen : list jstring)
    (best : option jstring * Score) : Prop :=
  match best with
  | (None, sc) =>
    sc = NegInfinity
    /\ forall e d, In e seen -> decoded_as buffer e = Some d -> d = []
  | (Some w, sc) =>
    w <> []
    /\ exists pre winner post,
         seen = pre ++ winner :: post
         /\ sc = score_of w winner
         /\ first_of_the_best buffer pre winner post w
  end.

Lemma score_finite d e : d <> [] -> exists z, score_of d e = Finite z.
Proof.
  intros Hd. unfold score_of. rewrite score_of_text by exact Hd. eauto.
Qed.

Lemma try_candidate_state buffer seen best e :
  loop_state buffer seen best ->
  loop_state buffer (seen ++ [e])
    (try_candidate Buffer_toString iconv_decode buffer best e).
Proof.
  intros Hb. unfold try_candidate. fold (decoded_as buffer e).
  assert (Hkeep : forall d0, decoded_as buffer e = Some d0 ->
            (d0 <> [] -> Score_gt (score_of d0 e) (snd best) = false) ->
            loop_state buffer (seen ++ [e]) best).
  { intros d0 Hd0 Hle. destruct best as [[w|] sc]; cbn [loop_state snd] in *.
    - destruct Hb as (Hw & pre & winner & post & -> & Hsc & Hdw & Hpre & Hpost).
      split; [exact Hw|]. exists pre, winner, (post ++ [e]).
      split; [rewrite <- app_assoc; reflexivity|]. split; [exact Hsc|].
      split; [exact Hdw|]. split; [exact Hpre|].
      intros e' d Hin Hd Hne. apply in_app_iff in Hin as [Hin|[<-|[]]]; [eauto|].
      rewrite Hd0 in Hd. inversion Hd; subst d0. rewrite <- Hsc.
      apply Score_not_gt_ge. auto.
    - destruct Hb as (-> & Hall). split; [reflexivity|].
      intros e' d Hin Hd. apply in_app_iff in Hin as [Hin|[<-|[]]]; [eauto|].
      rewrite Hd0 in Hd. inversion Hd; subst d0.
      destruct d as [|c r]; [reflexivity|]. exfalso.
      destruct (@score_finite (c :: r) e ltac:(discriminate)) as (z & Hz).
      specialize (Hle ltac:(discriminate)). rewrite Hz in Hle. discriminate. }
  destruct (decoded_as buffer e) as [[|c r]|] eqn:Ed.
  - apply (Hkeep [] eq_refl). congruence.
  - fold (score_of (c :: r) e).
    destruct (Score_gt (score_of (c :: r) e) (snd best)) eqn:Eg.
    + cbn [loop_state]. split; [discriminate|].
      exists seen, e, []. split; [reflexivity|]. split; [reflexivity|].
      split; [exact Ed|]. split; [|intros e' d []].
      intros e' d Hin Hd Hne.
      destruct best as [[w|] sc]; cbn [loop_state snd] in *.
      * destruct Hb as (Hw & pre & winner & post & -> & Hsc & Hdw & Hpre & Hpost).
        subst sc. apply in_app_iff in Hin as [Hin|[<-|Hin]].
        -- eapply Score_gt_trans; [exact Eg|]. eauto.
        -- rewrite Hdw in Hd. inversion Hd; subst d. exact Eg.
        -- eapply Score_gt_ge_gt; [exact Eg|]. eauto.
      * destruct Hb as (_ & Hall). exfalso. apply Hne. eauto.
    + apply (Hkeep (c :: r) eq_refl). intros _. exact Eg.
  - destruct best as [[w|] sc]; cbn [loop_state] in *.
    + destruct Hb as (Hw & pre & winner & post & -> & Hsc & Hdw & Hpre & Hpost).
      split; [exact Hw|]. exists pre, winner, (post ++ [e]).
      split; [rewrite <- app_assoc; reflexivity|]. split; [exact Hsc|].
      split; [exact Hdw|]. split; [exact Hpre|].
      intros e' d Hin Hd Hne. apply in_app_iff in Hin as [Hin|[<-|[]]]; [eauto|].
      congruence.
    + destruct Hb as (-> & Hall). split; [reflexivity|].
      intros e' d Hin Hd. apply in_app_iff in Hin as [Hin|[<-|[]]]; [eauto|].
      congruence.
Qed.

Lemma fold_candidates_state buffer : forall rest seen best,
  loop_state buffer seen best ->
  loop_state buffer (seen ++ rest)
    (fold_left (try_candidate Buffer_toString iconv_decode buffer) rest best).
Proof.
  induction rest as [|e rest IH]; intros seen best Hb; cbn [fold_left].
  - rewrite app_nil_r. exact Hb.
  - replace (seen ++ e :: rest) with ((seen ++ [e]) ++ rest)
      by (rewrite <- app_assoc; reflexivity).
    apply IH. apply try_candidate_state, Hb.
Qed.

Lemma loop_result buffer :
  loop_state buffer (candidateOrder buffer)
    (fold_left (try_candidate Buffer_toString iconv_decode buffer)
               (candidateOrder buffer) (None, NegInfinity)).
Proof.
  apply (@fold_candidates_state buffer (candidateOrder buffer) [] (None, NegInfinity)).
  split; [reflexivity|]. intros e d [].
Qed.

Lemma utf8_is_a_candidate buffer :
  In (js "utf8") (candidateOrder buffer)
  /\ decoded_as buffer (js "utf8")
     = Some (stripBom (Buffer_toString buffer (js "utf8"))).
Proof.
  split; [|reflexivity]. unfold candidateOrder. apply in_or_app. right. left. reflexivity.
Qed.

(** What [decodeScriptBuffer] returns, from the state of its loop. *)
Lemma decodeScriptBuffer_cases buffer :
  buffer <> [] ->
  let chosen := decodeScriptBuffer Buffer_toString iconv_decode buffer in
  (chosen = []
   /\ forall e d, In e (candidateOrder buffer) -> decoded_as buffer e = Some d -> d = [])
  \/ (chosen <> []
      /\ exists pre winner post,
           candidateOrder buffer = pre ++ winner :: post
           /\ first_of_the_best buffer pre winner post chosen).
Proof.
  intros Hbuf chosen. subst chosen. unfold decodeScriptBuffer.
  destruct buffer as [|b0 bs]; [congruence|].
  pose proof (loop_result (b0 :: bs)) as Hb.
  destruct (fold_left (try_candidate Buffer_toString iconv_decode (b0 :: bs))
              (candidateOrder (b0 :: bs)) (None, NegInfinity)) as [[w|] sc].
  - cbn [loop_state] in Hb.
    destruct Hb as (Hw & pre & winner & post & Hseen & Hsc & Hbest).
    destruct w as [|c r]; [congruence|].
    destruct (@score_finite (c :: r) winner ltac:(discriminate)) as (z & Hz).
    rewrite Hsc, Hz. right. split; [discriminate|].
    exists pre, winner, post. auto.
  - cbn [loop_state] in Hb. destruct Hb as (_ & Hall). left.
    destruct (utf8_is_a_candidate (b0 :: bs)) as [Hin Hd].
    split; [|exact Hall].
    assert (E : stripBom (Buffer_toString (b0 :: bs) (js "utf8")) = []) by eauto.
    destruct sc; exact E.
Qed.

(** X18.  Among the candidate encodings, tried in their order (the one a
    byte order mark announces first), [decodeScriptBuffer] keeps the first
    whose non-empty decode reaches the best score: the text it returns,
    when not empty, is the decode of a candidate that strictly beats every
    earlier candidate and is at least as good as every later one. *)
Theorem decodeScriptBuffer_keeps_the_first_best :
  forall buffer,
    decodeScriptBuffer Buffer_toString iconv_decode buffer <> [] ->
    exists pre winner post,
      candidateOrder buffer = pre ++ winner :: post
      /\ first_of_the_best buffer pre winner post
           (decodeScriptBuffer Buffer_toString iconv_decode buffer).
Proof.
  intros buffer Hne.
  assert (Hbuf : buffer <> []).
  { intros ->. apply Hne. reflexivity. }
  destruct (decodeScriptBuffer_cases Hbuf) as [[H _]|[_ H]]; [contradiction|exact H].
Qed.

(** X19.  [decodeScriptBuffer] returns the empty text exactly when the
    buffer is empty or no candidate encoding decodes it to a non-empty
    text; the last-resort UTF-8 decoding changes nothing to that. *)
Theorem decodeScriptBuffer_empty_iff :
  forall buffer,
    decodeScriptBuffer Buffer_toString iconv_decode buffer = []
    <-> (buffer = []
         \/ forall e d, In e (candidateOrder buffer) ->
              decoded_as buffer e = Some d -> d = []).
Proof.
  intros buffer. split.
  - intros H. destruct buffer as [|b0 bs]; [left; reflexivity|]. right.
    destruct (@decodeScriptBuffer_cases (b0 :: bs) ltac:(discriminate))
      as [[_ Hall]|[Hne _]]; [exact Hall|contradiction].
  - intros [->|Hall]; [reflexivity|].
    destruct buffer as [|b0 bs]; [reflexivity|].
    destruct (@decodeScriptBuffer_cases (b0 :: bs) ltac:(discriminate))
      as [[H _]|[Hne (pre & winner & post & Hseen & Hd & _)]]; [exact H|].
    exfalso. apply Hne. apply (Hall winner); [|exact Hd].
    rewrite Hseen. apply in_or_app. right. left. reflexivity.
Qed.

End WithDecoders.

Lemma decodeScriptBuffer_keeps_the_first_best_witness :
  exists pre winner post,
    candidateOrder [0xE4; 0xBD; 0xA0] = pre ++ winner :: post
    /\ first_of_the_best (decode_as "你") (iconv_as "你") [0xE4; 0xBD; 0xA0]
         pre winner post
         (decodeScriptBuffer (decode_as "你") (iconv_as "你") [0xE4; 0xBD; 0xA0]).
Proof.
  apply decodeScriptBuffer_keeps_the_first_best. vm_compute. discriminate.
Defined.

End DecoderOrder.
